(** * klang: the AST code generator (lib/AST/ASTNodes.cpp)

    A shallow embedding of the code generator of klang, the Kaleidoscope
    front end: the expression nodes, the global tables the generator reads
    and writes ([NamedValues], [Token::BinopPrecedence], [TheModule], the
    [Builder]'s insertion point), and the [Codegen] method of every node.

    The IR construction backend is LLVM and is not part of the repository.
    It is modelled by the data it builds: a module is a list of functions, a
    function a list of basic blocks, a block a list of instructions.  Every
    object the backend allocates (instruction, block, function) receives a
    fresh number, which stands for its address; an [AllocaInst*] is the
    number of its alloca instruction and a null pointer is [None].  The
    names the backend gives to temporaries ("addtmp", ...) are cosmetic and
    are left out, and so is the constant folding of the backend's builder. *)

From Stdlib Require Import Floats.PrimFloat Ascii String ZArith List Lia.
From stdpp Require Import gmap strings list.

Open Scope string_scope.
Open Scope list_scope.
Open Scope stdpp_scope.
Set Warnings "-register-all".

(** ** The AST node set *)

(** [Step] of a loop and the initializer of a binding may be null. *)
Inductive ExprAST : Type :=
  | NumberExprAST (Val : float)
  | VariableExprAST (Name : string)
  | UnaryExprAST (Opcode : ascii) (Operand : ExprAST)
  | BinaryExprAST (Op : ascii) (LHS RHS : ExprAST)
  | CallExprAST (Callee : string) (Args : list ExprAST)
  | IfExprAST (Cond Then Else : ExprAST)
  | ForExprAST (VarName : string) (Start End : ExprAST)
               (Step : option ExprAST) (Body : ExprAST)
  | VarExprAST (VarNames : list (string * option ExprAST)) (Body : ExprAST).

(** Modelled from the spec: the class declaration of [PrototypeAST] (header
    klang/AST/ASTNodes.h) is missing; the spec gives a prototype a name, the
    ordered parameter names and an operator-role tag. *)
Inductive OperatorRole : Type :=
  | NoOperator
  | UnaryOperator
  | BinaryOperator (Precedence : Z).

Record PrototypeAST : Type := mkProto {
  Name : string;
  Args : list string;
  Role : OperatorRole
}.

Record FunctionAST : Type := mkFunction {
  Proto : PrototypeAST;
  Body : ExprAST
}.

Definition isBinaryOp (P : PrototypeAST) : bool :=
  match Role P with BinaryOperator _ => true | _ => false end.

Definition getBinaryPrecedence (P : PrototypeAST) : Z :=
  match Role P with BinaryOperator p => p | _ => 0%Z end.

Fixpoint last_char (s : string) : ascii :=
  match s with
  | EmptyString => zero
  | String c EmptyString => c
  | String _ s' => last_char s'
  end.

(** Modelled from the spec: an operator function is named by a fixed prefix
    followed by the operator symbol, so the symbol is the last character of
    the prototype's name. *)
Definition getOperatorName (P : PrototypeAST) : ascii := last_char (Name P).

(** ** The backend's IR *)

Inductive Value : Type :=
  | ConstantFP (f : float)
  | Argument (fn idx : nat)
  | InstResult (id : nat).

Inductive Opcode : Type :=
  | Alloca (name : string)
  | Load (ptr : nat)
  | Store (v : Value) (ptr : nat)
  | FAdd (l r : Value)
  | FSub (l r : Value)
  | FMul (l r : Value)
  | FCmpULT (l r : Value)
  | FCmpONE (l r : Value)
  | UIToFP (v : Value)
  | Call (callee : nat) (args : list Value)
  | PHI (incoming : list (Value * nat))
  | Br (dest : nat)
  | CondBr (cond : Value) (ifTrue ifFalse : nat)
  | Ret (v : Value).

Record Instruction : Type := mkInst { i_id : nat; i_op : Opcode }.

Record BasicBlock : Type := mkBB {
  bb_id : nat;
  bb_name : string;
  bb_insts : list Instruction
}.

Record Function : Type := mkFn {
  f_id : nat;
  f_name : string;
  f_args : list string;
  f_blocks : list BasicBlock
}.

Definition arg_size (F : Function) : nat := length (f_args F).

Definition empty (F : Function) : bool :=
  match f_blocks F with [] => true | _ => false end.

(** ** The generator's global state (tools/driver/Driver.cpp) *)

Record state : Type := mkState {
  NamedValues : gmap string (option nat);
  BinopPrecedence : gmap ascii Z;
  TheModule : list Function;
  InsertBlock : nat * nat;
  next_id : nat;
  stderr : list string
}.

Definition set_NamedValues (f : gmap string (option nat) -> gmap string (option nat))
    (s : state) : state :=
  mkState (f (NamedValues s)) (BinopPrecedence s) (TheModule s)
          (InsertBlock s) (next_id s) (stderr s).

Definition set_BinopPrecedence (f : gmap ascii Z -> gmap ascii Z) (s : state) : state :=
  mkState (NamedValues s) (f (BinopPrecedence s)) (TheModule s)
          (InsertBlock s) (next_id s) (stderr s).

Definition set_TheModule (f : list Function -> list Function) (s : state) : state :=
  mkState (NamedValues s) (BinopPrecedence s) (f (TheModule s))
          (InsertBlock s) (next_id s) (stderr s).

Definition set_InsertBlock (p : nat * nat) (s : state) : state :=
  mkState (NamedValues s) (BinopPrecedence s) (TheModule s)
          p (next_id s) (stderr s).

Definition set_next_id (n : nat) (s : state) : state :=
  mkState (NamedValues s) (BinopPrecedence s) (TheModule s)
          (InsertBlock s) n (stderr s).

Definition set_stderr (f : list string -> list string) (s : state) : state :=
  mkState (NamedValues s) (BinopPrecedence s) (TheModule s)
          (InsertBlock s) (next_id s) (f (stderr s)).

(** A computation either returns in a new state or stops the process on a
    failed [assert]. *)
Inductive result (A : Type) : Type :=
  | Done (a : A) (s : state)
  | AssertFail.
Arguments Done {A} a s.
Arguments AssertFail {A}.

Definition M (A : Type) : Type := state -> result A.

Definition ret {A} (a : A) : M A := fun s => Done a s.

Definition bind {A B} (m : M A) (k : A -> M B) : M B :=
  fun s => match m s with
           | Done a s' => k a s'
           | AssertFail => AssertFail
           end.

Notation "x <- m ;; k" := (bind m (fun x => k))
  (at level 100, m at next level, right associativity).
Notation "m ;;; k" := (bind m (fun _ => k))
  (at level 100, right associativity).

Definition get {A} (f : state -> A) : M A := fun s => Done (f s) s.
Definition modify (f : state -> state) : M unit := fun s => Done tt (f s).
Definition assert_fail {A} : M A := fun _ => AssertFail.

(** ** lib/Driver/Utils.cpp *)

(** [Error] prints the message on stderr; [ErrorV] and [ErrorF] return null. *)
Definition Error (Str : string) : M unit :=
  modify (set_stderr (fun l => l ++ [Str])).

Definition ErrorV (Str : string) : M (option Value) := Error Str ;;; ret None.
Definition ErrorF (Str : string) : M (option nat) := Error Str ;;; ret None.

(** ** Backend primitives *)

Definition fresh : M nat :=
  fun s => Done (next_id s) (set_next_id (S (next_id s)) s).

Definition lookupF (id : nat) (m : list Function) : option Function :=
  find (fun F => Nat.eqb (f_id F) id) m.

(** [Module::getFunction]: the symbol table holds named functions only. *)
Definition getFunction (m : list Function) (name : string) : option Function :=
  if decide (name = "") then None
  else find (fun F => bool_decide (f_name F = name)) m.

Definition update_fn (fn : nat) (g : Function -> Function) (m : list Function)
    : list Function :=
  map (fun F => if Nat.eqb (f_id F) fn then g F else F) m.

Definition update_blocks (g : list BasicBlock -> list BasicBlock) (F : Function)
    : Function :=
  mkFn (f_id F) (f_name F) (f_args F) (g (f_blocks F)).

Definition append_inst (bb : nat) (i : Instruction) (bs : list BasicBlock)
    : list BasicBlock :=
  map (fun B => if Nat.eqb (bb_id B) bb
                then mkBB (bb_id B) (bb_name B) (bb_insts B ++ [i]) else B) bs.

Definition prepend_entry (i : Instruction) (bs : list BasicBlock)
    : list BasicBlock :=
  match bs with
  | [] => []
  | B :: bs' => mkBB (bb_id B) (bb_name B) (i :: bb_insts B) :: bs'
  end.

(** The builder appends at the end of the insertion block. *)
Definition Insert (op : Opcode) : M Value :=
  id <- fresh ;;
  ip <- get InsertBlock ;;
  modify (set_TheModule
            (update_fn (fst ip) (update_blocks (append_inst (snd ip) (mkInst id op))))) ;;;
  ret (InstResult id).

Definition CreateLoad (ptr : nat) : M Value := Insert (Load ptr).
Definition CreateStore (v : Value) (ptr : nat) : M unit := Insert (Store v ptr) ;;; ret tt.
Definition CreateFAdd (l r : Value) : M Value := Insert (FAdd l r).
Definition CreateFSub (l r : Value) : M Value := Insert (FSub l r).
Definition CreateFMul (l r : Value) : M Value := Insert (FMul l r).
Definition CreateFCmpULT (l r : Value) : M Value := Insert (FCmpULT l r).
Definition CreateFCmpONE (l r : Value) : M Value := Insert (FCmpONE l r).
Definition CreateUIToFP (v : Value) : M Value := Insert (UIToFP v).
Definition CreateCall (F : Function) (args : list Value) : M Value :=
  Insert (Call (f_id F) args).
Definition CreatePHI (incoming : list (Value * nat)) : M Value := Insert (PHI incoming).
Definition CreateBr (dest : BasicBlock) : M unit := Insert (Br (bb_id dest)) ;;; ret tt.
Definition CreateCondBr (c : Value) (t f : BasicBlock) : M unit :=
  Insert (CondBr c (bb_id t) (bb_id f)) ;;; ret tt.
Definition CreateRet (v : Value) : M unit := Insert (Ret v) ;;; ret tt.

(** [Builder.GetInsertBlock()->getParent()] and [Builder.GetInsertBlock()]. *)
Definition GetInsertParent : M nat := get (fun s => fst (InsertBlock s)).
Definition GetInsertBlock : M nat := get (fun s => snd (InsertBlock s)).

Definition SetInsertPoint (fn : nat) (BB : BasicBlock) : M unit :=
  modify (set_InsertBlock (fn, bb_id BB)).

Definition push_back_block (fn : nat) (BB : BasicBlock) : M unit :=
  modify (set_TheModule (update_fn fn (update_blocks (fun bs => bs ++ [BB])))).

(** [BasicBlock::Create]: with a parent the block is appended to it, without
    one it stays detached until it is pushed back. *)
Definition BasicBlock_Create (name : string) (parent : option nat) : M BasicBlock :=
  id <- fresh ;;
  let BB := mkBB id name [] in
  match parent with
  | Some fn => push_back_block fn BB ;;; ret BB
  | None => ret BB
  end.

(** [CreateEntryBlockAlloca]: the alloca goes to the beginning of the entry
    block of the function. *)
Definition CreateEntryBlockAlloca (TheFunction : nat) (VarName : string) : M nat :=
  id <- fresh ;;
  modify (set_TheModule
            (update_fn TheFunction
               (update_blocks (prepend_entry (mkInst id (Alloca VarName)))))) ;;;
  ret id.

(** [std::map::operator[]] used as an rvalue: an absent key is inserted with
    a null pointer. *)
Definition NamedValues_index (name : string) : M (option nat) :=
  fun s => match NamedValues s !! name with
           | Some p => Done p s
           | None => Done None (set_NamedValues (insert name None) s)
           end.

Definition NamedValues_assign (name : string) (p : option nat) : M unit :=
  modify (set_NamedValues (insert name p)).

Definition NamedValues_erase (name : string) : M unit :=
  modify (set_NamedValues (delete name)).

Definition NamedValues_clear : M unit :=
  modify (set_NamedValues (fun _ => ∅)).

(** ** Expression lowering *)

(** The argument loop of [CallExprAST::Codegen]. *)
Definition CallArgs (cg : ExprAST -> M (option Value))
    : list ExprAST -> list Value -> M (option (list Value)) :=
  fix loop (Args : list ExprAST) (ArgsV : list Value) :=
    match Args with
    | [] => ret (Some ArgsV)
    | a :: Args' =>
        v <- cg a ;;
        match v with
        | None => ret None
        | Some v => loop Args' (ArgsV ++ [v])
        end
    end.

(** The first loop of [VarExprAST::Codegen]: emit each initializer, create
    the storage, remember the old binding, install the new one. *)
Definition VarBind (cg : ExprAST -> M (option Value)) (TheFunction : nat)
    : list (string * option ExprAST) -> list (option nat)
      -> M (option (list (option nat))) :=
  fix loop (VarNames : list (string * option ExprAST))
           (OldBindings : list (option nat)) :=
    match VarNames with
    | [] => ret (Some OldBindings)
    | (VarName, Init) :: VarNames' =>
        InitVal <- match Init with
                   | Some Init => cg Init
                   | None => ret (Some (ConstantFP 0%float))
                   end ;;
        match InitVal with
        | None => ret None
        | Some InitVal =>
            Alloca <- CreateEntryBlockAlloca TheFunction VarName ;;
            CreateStore InitVal Alloca ;;;
            Old <- NamedValues_index VarName ;;
            NamedValues_assign VarName (Some Alloca) ;;;
            loop VarNames' (OldBindings ++ [Old])
        end
    end.

(** The second loop of [VarExprAST::Codegen]:
    [NamedValues[VarNames[i].first] = OldBindings[i]], in index order. *)
Fixpoint VarRestore {A} (VarNames : list (string * A))
    (OldBindings : list (option nat)) : M unit :=
  match VarNames, OldBindings with
  | (VarName, _) :: VarNames', Old :: OldBindings' =>
      NamedValues_assign VarName Old ;;; VarRestore VarNames' OldBindings'
  | _, _ => ret tt
  end.

Definition binary_eq : ascii := "="%char.

Fixpoint Codegen (e : ExprAST) : M (option Value) :=
  match e with
  | NumberExprAST Val => ret (Some (ConstantFP Val))

  | VariableExprAST Name =>
      V <- NamedValues_index Name ;;
      match V with
      | None => ErrorV "Unknown variable name"
      | Some V => v <- CreateLoad V ;; ret (Some v)
      end

  | UnaryExprAST Opcode Operand =>
      OperandV <- Codegen Operand ;;
      match OperandV with
      | None => ret None
      | Some OperandV =>
          F <- get (fun s => getFunction (TheModule s) ("unary" +:+ String Opcode "")) ;;
          match F with
          | None => ErrorV "Unknown unary operator"
          | Some F => v <- CreateCall F [OperandV] ;; ret (Some v)
          end
      end

  | BinaryExprAST Op LHS RHS =>
      if decide (Op = binary_eq) then
        match LHS with
        | VariableExprAST LHSName =>
            Val <- Codegen RHS ;;
            match Val with
            | None => ret None
            | Some Val =>
                Var <- NamedValues_index LHSName ;;
                match Var with
                | None => ErrorV "Unknown variable name"
                | Some Var =>
                    CreateStore Val Var ;;; ret (Some Val)
                end
            end
        | _ => ErrorV "destination of '=' must be a variable"
        end
      else
        L <- Codegen LHS ;;
        R <- Codegen RHS ;;
        match L, R with
        | Some L, Some R =>
            if decide (Op = "+"%char) then v <- CreateFAdd L R ;; ret (Some v)
            else if decide (Op = "-"%char) then v <- CreateFSub L R ;; ret (Some v)
            else if decide (Op = "*"%char) then v <- CreateFMul L R ;; ret (Some v)
            else if decide (Op = "<"%char) then
              L' <- CreateFCmpULT L R ;;
              v <- CreateUIToFP L' ;; ret (Some v)
            else
              F <- get (fun s => getFunction (TheModule s) ("binary" +:+ String Op "")) ;;
              match F with
              | None => assert_fail
              | Some F => v <- CreateCall F [L; R] ;; ret (Some v)
              end
        | _, _ => ret None
        end

  | CallExprAST Callee Args =>
      CalleeF <- get (fun s => getFunction (TheModule s) Callee) ;;
      match CalleeF with
      | None => ErrorV "Unknown function referenced"
      | Some CalleeF =>
          if negb (Nat.eqb (arg_size CalleeF) (length Args)) then
            ErrorV "Incorrect # arguments passed"
          else
            ArgsV <- CallArgs Codegen Args [] ;;
            match ArgsV with
            | None => ret None
            | Some ArgsV => v <- CreateCall CalleeF ArgsV ;; ret (Some v)
            end
      end

  | IfExprAST Cond Then Else =>
      CondV <- Codegen Cond ;;
      match CondV with
      | None => ret None
      | Some CondV =>
          CondV <- CreateFCmpONE CondV (ConstantFP 0%float) ;;
          TheFunction <- GetInsertParent ;;
          ThenBB <- BasicBlock_Create "then" (Some TheFunction) ;;
          ElseBB <- BasicBlock_Create "else" None ;;
          MergeBB <- BasicBlock_Create "ifcont" None ;;
          CreateCondBr CondV ThenBB ElseBB ;;;
          SetInsertPoint TheFunction ThenBB ;;;
          ThenV <- Codegen Then ;;
          match ThenV with
          | None => ret None
          | Some ThenV =>
              CreateBr MergeBB ;;;
              ThenEnd <- GetInsertBlock ;;
              push_back_block TheFunction ElseBB ;;;
              SetInsertPoint TheFunction ElseBB ;;;
              ElseV <- Codegen Else ;;
              match ElseV with
              | None => ret None
              | Some ElseV =>
                  CreateBr MergeBB ;;;
                  ElseEnd <- GetInsertBlock ;;
                  push_back_block TheFunction MergeBB ;;;
                  SetInsertPoint TheFunction MergeBB ;;;
                  PN <- CreatePHI [(ThenV, ThenEnd); (ElseV, ElseEnd)] ;;
                  ret (Some PN)
              end
          end
      end

  | ForExprAST VarName Start End Step Body =>
      TheFunction <- GetInsertParent ;;
      Alloca <- CreateEntryBlockAlloca TheFunction VarName ;;
      StartVal <- Codegen Start ;;
      match StartVal with
      | None => ret None
      | Some StartVal =>
          CreateStore StartVal Alloca ;;;
          LoopBB <- BasicBlock_Create "loop" (Some TheFunction) ;;
          CreateBr LoopBB ;;;
          SetInsertPoint TheFunction LoopBB ;;;
          OldVal <- NamedValues_index VarName ;;
          NamedValues_assign VarName (Some Alloca) ;;;
          BodyV <- Codegen Body ;;
          match BodyV with
          | None => ret None
          | Some _ =>
              StepVal <- match Step with
                         | Some Step => Codegen Step
                         | None => ret (Some (ConstantFP 1%float))
                         end ;;
              match StepVal with
              | None => ret None
              | Some StepVal =>
                  EndCond <- Codegen End ;;
                  match EndCond with
                  | None => ret None
                  | Some EndCond =>
                      CurVar <- CreateLoad Alloca ;;
                      NextVar <- CreateFAdd CurVar StepVal ;;
                      CreateStore NextVar Alloca ;;;
                      EndCond <- CreateFCmpONE EndCond (ConstantFP 0%float) ;;
                      AfterBB <- BasicBlock_Create "afterloop" (Some TheFunction) ;;
                      CreateCondBr EndCond LoopBB AfterBB ;;;
                      SetInsertPoint TheFunction AfterBB ;;;
                      match OldVal with
                      | Some _ => NamedValues_assign VarName OldVal
                      | None => NamedValues_erase VarName
                      end ;;;
                      ret (Some (ConstantFP 0%float))
                  end
              end
          end
      end

  | VarExprAST VarNames Body =>
      TheFunction <- GetInsertParent ;;
      OldBindings <- VarBind Codegen TheFunction VarNames [] ;;
      match OldBindings with
      | None => ret None
      | Some OldBindings =>
          BodyVal <- Codegen Body ;;
          match BodyVal with
          | None => ret None
          | Some BodyVal =>
              VarRestore VarNames OldBindings ;;;
              ret (Some BodyVal)
          end
      end
  end.

(** ** Prototypes and function definitions *)

(** [Function::Create] registers the function under its name; when the name
    is already taken the backend appends a suffix until the name is free. *)
Fixpoint uniquify (fuel : nat) (m : list Function) (name : string) : string :=
  match fuel with
  | O => name
  | S fuel' =>
      match getFunction m name with
      | Some _ => uniquify fuel' m (name +:+ "1")
      | None => name
      end
  end.

Definition Function_Create (name : string) (nargs : nat) : M Function :=
  id <- fresh ;;
  m <- get TheModule ;;
  let F := mkFn id (uniquify (S (length m)) m name) (repeat "" nargs) [] in
  modify (set_TheModule (fun m => m ++ [F])) ;;;
  ret F.

Definition eraseFromParent (F : nat) : M unit :=
  modify (set_TheModule (filter (fun G => f_id G ≠ F))).

Definition setArgNames (F : nat) (names : list string) : M unit :=
  modify (set_TheModule
            (update_fn F (fun G => mkFn (f_id G) (f_name G) names (f_blocks G)))).

(** After a conflict the code fetches the existing function and reads it
    without a null check; the lookup cannot fail there, the name being taken,
    and the model stops if it does. *)
Definition PrototypeAST_Codegen (P : PrototypeAST) : M (option nat) :=
  F <- Function_Create (Name P) (length (Args P)) ;;
  if decide (f_name F ≠ Name P) then
    eraseFromParent (f_id F) ;;;
    F <- get (fun s => getFunction (TheModule s) (Name P)) ;;
    match F with
    | None => assert_fail
    | Some F =>
        if negb (empty F) then ErrorF "redefinition of function"
        else if negb (Nat.eqb (arg_size F) (length (Args P))) then
          ErrorF "redefinition of function with different # args"
        else
          setArgNames (f_id F) (Args P) ;;; ret (Some (f_id F))
    end
  else
    setArgNames (f_id F) (Args P) ;;; ret (Some (f_id F)).

Fixpoint ArgumentAllocas (F : nat) (Args : list string) (Idx : nat) : M unit :=
  match Args with
  | [] => ret tt
  | Arg :: Args' =>
      Alloca <- CreateEntryBlockAlloca F Arg ;;
      CreateStore (Argument F Idx) Alloca ;;;
      NamedValues_assign Arg (Some Alloca) ;;;
      ArgumentAllocas F Args' (S Idx)
  end.

Definition CreateArgumentAllocas (P : PrototypeAST) (F : nat) : M unit :=
  ArgumentAllocas F (Args P) 0.

(** The registry is a [std::map<char, int>] (tools/driver/Driver.cpp): a
    value assigned to an entry is converted to a 32-bit [int], which wraps
    around modulo 2^32. *)
Definition to_int (z : Z) : Z :=
  ((z + 2147483648) mod 4294967296 - 2147483648)%Z.

(** [BinopPrecedence[c] = p], where [p] is the [unsigned] precedence of a
    prototype. *)
Definition BinopPrecedence_assign (c : ascii) (p : Z) : M unit :=
  modify (set_BinopPrecedence (insert c (to_int p))).

Definition BinopPrecedence_erase (c : ascii) : M unit :=
  modify (set_BinopPrecedence (delete c)).

(** The validation and optimisation passes run on success belong to the
    backend and do not touch the generator's tables. *)
Definition FunctionAST_Codegen (Fn : FunctionAST) : M (option nat) :=
  NamedValues_clear ;;;
  TheFunction <- PrototypeAST_Codegen (Proto Fn) ;;
  match TheFunction with
  | None => ret None
  | Some TheFunction =>
      (if isBinaryOp (Proto Fn)
       then BinopPrecedence_assign (getOperatorName (Proto Fn))
                                   (getBinaryPrecedence (Proto Fn))
       else ret tt) ;;;
      BB <- BasicBlock_Create "entry" (Some TheFunction) ;;
      SetInsertPoint TheFunction BB ;;;
      CreateArgumentAllocas (Proto Fn) TheFunction ;;;
      RetVal <- Codegen (Body Fn) ;;
      match RetVal with
      | Some RetVal =>
          CreateRet RetVal ;;;
          ret (Some TheFunction)
      | None =>
          eraseFromParent TheFunction ;;;
          (if isBinaryOp (Proto Fn)
           then BinopPrecedence_erase (getOperatorName (Proto Fn))
           else ret tt) ;;;
          ret None
      end
  end.

(** The driver installs the standard binary operators before parsing. *)
Definition initial_state : state :=
  mkState ∅
          (<["*"%char := 40%Z]> (<["-"%char := 20%Z]> (<["+"%char := 20%Z]>
             (<["<"%char := 10%Z]> (<["="%char := 2%Z]> ∅)))))
          [] (0, 0) 0 [].

(** ** Reading the tables *)

(** What a lookup of a name observes: a null entry and a missing entry are
    both "not found". *)
Definition resolve (s : state) (name : string) : option nat :=
  match NamedValues s !! name with
  | Some (Some h) => Some h
  | _ => None
  end.

Definition state_of {A} (r : result A) (default : state) : state :=
  match r with Done _ s => s | AssertFail => default end.

Definition last_error (s : state) : option string := last (stderr s).

(** ** Execution of the generated IR

    A reference semantics of the instructions the generator emits, used to
    state what a lowered expression computes.  A call to a function without
    a body is an external call: it is recorded in the trace and its result is
    given by [ext]. *)

Inductive RtVal : Type :=
  | RFloat (f : float)
  | RBool (b : bool).

Record Frame : Type := mkFrame {
  fr_fn : Function;
  fr_args : list float;
  fr_regs : gmap nat RtVal;
  fr_mem : gmap nat float;
  fr_prev : nat;
  fr_cur : nat;
  fr_code : list Instruction;
  fr_dest : nat
}.

Definition Event : Type := string * list float.

Definition eval (fr : Frame) (v : Value) : option RtVal :=
  match v with
  | ConstantFP f => Some (RFloat f)
  | Argument _ idx => RFloat <$> (fr_args fr !! idx)
  | InstResult id => fr_regs fr !! id
  end.

Definition eval_float (fr : Frame) (v : Value) : option float :=
  match eval fr v with Some (RFloat f) => Some f | _ => None end.

Definition eval_bool (fr : Frame) (v : Value) : option bool :=
  match eval fr v with Some (RBool b) => Some b | _ => None end.

Fixpoint eval_args (fr : Frame) (vs : list Value) : option (list float) :=
  match vs with
  | [] => Some []
  | v :: vs' =>
      match eval_float fr v, eval_args fr vs' with
      | Some f, Some fs => Some (f :: fs)
      | _, _ => None
      end
  end.

(** Unordered or less than. *)
Definition fcmp_ult (l r : float) : bool :=
  match PrimFloat.compare l r with
  | FLt | FNotComparable => true
  | _ => false
  end.

(** Ordered and not equal. *)
Definition fcmp_one (l r : float) : bool :=
  match PrimFloat.compare l r with
  | FLt | FGt => true
  | _ => false
  end.

Definition set_reg (fr : Frame) (id : nat) (v : RtVal) (code : list Instruction) : Frame :=
  mkFrame (fr_fn fr) (fr_args fr) (<[id := v]> (fr_regs fr)) (fr_mem fr)
          (fr_prev fr) (fr_cur fr) code (fr_dest fr).

Definition set_mem (fr : Frame) (p : nat) (f : float) (code : list Instruction) : Frame :=
  mkFrame (fr_fn fr) (fr_args fr) (fr_regs fr) (<[p := f]> (fr_mem fr))
          (fr_prev fr) (fr_cur fr) code (fr_dest fr).

Definition skip (fr : Frame) (code : list Instruction) : Frame :=
  mkFrame (fr_fn fr) (fr_args fr) (fr_regs fr) (fr_mem fr)
          (fr_prev fr) (fr_cur fr) code (fr_dest fr).

Definition jump (fr : Frame) (dest : nat) : option Frame :=
  match find (fun B => Nat.eqb (bb_id B) dest) (f_blocks (fr_fn fr)) with
  | Some B => Some (mkFrame (fr_fn fr) (fr_args fr) (fr_regs fr) (fr_mem fr)
                            (fr_cur fr) dest (bb_insts B) (fr_dest fr))
  | None => None
  end.

Definition enter (F : Function) (args : list float) (dest : nat) : option Frame :=
  match f_blocks F with
  | B :: _ => Some (mkFrame F args ∅ ∅ (bb_id B) (bb_id B) (bb_insts B) dest)
  | [] => None
  end.

Inductive Config : Type :=
  | Running (stack : list Frame) (trace : list Event)
  | Finished (v : float) (trace : list Event).

Definition step (m : list Function) (ext : string -> list float -> float)
    (stack : list Frame) (trace : list Event) : option Config :=
  match stack with
  | [] => None
  | fr :: callers =>
      match fr_code fr with
      | [] => None
      | i :: code =>
          let continue fr' := Some (Running (fr' :: callers) trace) in
          let arith op l r :=
            match eval_float fr l, eval_float fr r with
            | Some a, Some b => continue (set_reg fr (i_id i) (RFloat (op a b)) code)
            | _, _ => None
            end in
          let cmp op l r :=
            match eval_float fr l, eval_float fr r with
            | Some a, Some b => continue (set_reg fr (i_id i) (RBool (op a b)) code)
            | _, _ => None
            end in
          match i_op i with
          | Alloca _ => continue (skip fr code)
          | Load p =>
              match fr_mem fr !! p with
              | Some f => continue (set_reg fr (i_id i) (RFloat f) code)
              | None => None
              end
          | Store v p =>
              match eval_float fr v with
              | Some f => continue (set_mem fr p f code)
              | None => None
              end
          | FAdd l r => arith PrimFloat.add l r
          | FSub l r => arith PrimFloat.sub l r
          | FMul l r => arith PrimFloat.mul l r
          | FCmpULT l r => cmp fcmp_ult l r
          | FCmpONE l r => cmp fcmp_one l r
          | UIToFP v =>
              match eval_bool fr v with
              | Some b => continue (set_reg fr (i_id i)
                                      (RFloat (if b then 1%float else 0%float)) code)
              | None => None
              end
          | Call callee args =>
              match lookupF callee m, eval_args fr args with
              | Some F, Some fs =>
                  if empty F then
                    Some (Running
                            (set_reg fr (i_id i) (RFloat (ext (f_name F) fs)) code :: callers)
                            (trace ++ [(f_name F, fs)]))
                  else
                    match enter F fs (i_id i) with
                    | Some fr' => Some (Running (fr' :: skip fr code :: callers) trace)
                    | None => None
                    end
              | _, _ => None
              end
          | PHI incoming =>
              match find (fun p => Nat.eqb (snd p) (fr_prev fr)) incoming with
              | Some (v, _) =>
                  match eval fr v with
                  | Some x => continue (set_reg fr (i_id i) x code)
                  | None => None
                  end
              | None => None
              end
          | Br dest =>
              match jump fr dest with
              | Some fr' => continue fr'
              | None => None
              end
          | CondBr c t f =>
              match eval_bool fr c with
              | Some b =>
                  match jump fr (if b then t else f) with
                  | Some fr' => continue fr'
                  | None => None
                  end
              | None => None
              end
          | Ret v =>
              match eval_float fr v with
              | Some x =>
                  match callers with
                  | [] => Some (Finished x trace)
                  | caller :: callers' =>
                      Some (Running
                              (set_reg caller (fr_dest fr) (RFloat x) (fr_code caller)
                               :: callers') trace)
                  end
              | None => None
              end
          end
      end
  end.

Fixpoint run (fuel : nat) (m : list Function) (ext : string -> list float -> float)
    (c : Config) : option (float * list Event) :=
  match c with
  | Finished v trace => Some (v, trace)
  | Running stack trace =>
      match fuel with
      | O => None
      | S fuel' =>
          match step m ext stack trace with
          | Some c' => run fuel' m ext c'
          | None => None
          end
      end
  end.

(** Call function [F] of the module of [s] on [args]. *)
Definition call (fuel : nat) (ext : string -> list float -> float)
    (s : state) (F : nat) (args : list float) : option (float * list Event) :=
  match lookupF F (TheModule s) with
  | Some Fn =>
      match enter Fn args 0 with
      | Some fr => run fuel (TheModule s) ext (Running [fr] [])
      | None => None
      end
  | None => None
  end.

(** A top-level expression is wrapped in an anonymous function. *)
Definition TopLevelExpr (e : ExprAST) : FunctionAST :=
  mkFunction (mkProto "" [] NoOperator) e.

(** Lower a top-level expression in [s] and call the resulting function. *)
Definition run_toplevel (fuel : nat) (ext : string -> list float -> float)
    (s : state) (e : ExprAST) : option (float * list Event) :=
  match FunctionAST_Codegen (TopLevelExpr e) s with
  | Done (Some F) s' => call fuel ext s' F []
  | _ => None
  end.

(** [extern putchard(x)] handled in the initial state. *)
Definition with_putchard : state :=
  state_of (PrototypeAST_Codegen (mkProto "putchard" ["x"] NoOperator) initial_state)
           initial_state.

(** [for i = 1, i < 4, 1.0 in putchard(i)] *)
Definition loop_example : ExprAST :=
  ForExprAST "i" (NumberExprAST 1%float)
    (BinaryExprAST "<"%char (VariableExprAST "i") (NumberExprAST 4%float))
    (Some (NumberExprAST 1%float))
    (CallExprAST "putchard" [VariableExprAST "i"]).

(** [var a = 1 in (var a = a in a)] *)
Definition shadow_example : ExprAST :=
  VarExprAST [("a", Some (NumberExprAST 1%float))]
    (VarExprAST [("a", Some (VariableExprAST "a"))] (VariableExprAST "a")).

(** ** Specification vocabulary *)

(** The state after [Error Str]. *)
Definition error_state (Str : string) (s : state) : state :=
  set_stderr (fun l => l ++ [Str]) s.

(** The state after the builder inserted [op]. *)
Definition inserted (op : Opcode) (s : state) : state :=
  state_of (Insert op s) s.

(** [lowers_all es s vs s']: lowering the expressions [es] one after the
    other from [s] succeeds for each of them, with values [vs], and ends in
    [s']. *)
Inductive lowers_all : list ExprAST -> state -> list Value -> state -> Prop :=
  | lowers_nil s : lowers_all [] s [] s
  | lowers_cons a es s v s1 vs s2 :
      Codegen a s = Done (Some v) s1 ->
      lowers_all es s1 vs s2 ->
      lowers_all (a :: es) s (v :: vs) s2.


Definition builtin_operator (Op : ascii) : bool :=
  bool_decide (Op = "+"%char) || bool_decide (Op = "-"%char)
  || bool_decide (Op = "*"%char) || bool_decide (Op = "<"%char).

(** The part of [FunctionAST::Codegen] that precedes the lowering of the
    body: the tables and the insertion point as the body finds them. *)
Definition enter_function (P : PrototypeAST) : M (option nat) :=
  NamedValues_clear ;;;
  TheFunction <- PrototypeAST_Codegen P ;;
  match TheFunction with
  | None => ret None
  | Some TheFunction =>
      (if isBinaryOp P
       then BinopPrecedence_assign (getOperatorName P) (getBinaryPrecedence P)
       else ret tt) ;;;
      BB <- BasicBlock_Create "entry" (Some TheFunction) ;;
      SetInsertPoint TheFunction BB ;;;
      CreateArgumentAllocas P TheFunction ;;;
      ret (Some TheFunction)
  end.

(** The state in which the body of [def f(x) ...] is lowered. *)
Definition inside_f : state :=
  state_of (enter_function (mkProto "f" ["x"] NoOperator) initial_state)
           initial_state.

(** [extern putchard(x)] and [extern atan2(a b)] handled, then the body of
    a top-level expression entered. *)
Definition with_externs : state :=
  state_of (PrototypeAST_Codegen (mkProto "atan2" ["a"; "b"] NoOperator) with_putchard)
           with_putchard.

Definition inside_toplevel : state :=
  state_of (enter_function (mkProto "" [] NoOperator) with_externs) with_externs.

(** Two states that differ at most in how the scope table represents "not
    found": every name resolves alike and all other tables are equal. *)
Definition scope_equiv (s1 s2 : state) : Prop :=
  (forall n, resolve s1 n = resolve s2 n)
  /\ BinopPrecedence s1 = BinopPrecedence s2
  /\ TheModule s1 = TheModule s2
  /\ InsertBlock s1 = InsertBlock s2
  /\ next_id s1 = next_id s2
  /\ stderr s1 = stderr s2.

Definition same_outcome {A} (r1 r2 : result A) : Prop :=
  match r1, r2 with
  | Done a1 t1, Done a2 t2 => a1 = a2 /\ scope_equiv t1 t2
  | AssertFail, AssertFail => True
  | _, _ => False
  end.

(** A computation that cannot tell equivalent states apart. *)
Definition respects {A} (m : M A) : Prop :=
  forall s1 s2, scope_equiv s1 s2 -> same_outcome (m s1) (m s2).

(** What lowering an expression may do to the module: functions keep their
    identity, name and parameters, and a function with a body keeps one. *)
Definition fn_le (F F' : Function) : Prop :=
  f_id F' = f_id F /\ f_name F' = f_name F /\ f_args F' = f_args F
  /\ (empty F = false -> empty F' = false).

Definition grows (s s' : state) : Prop :=
  next_id s <= next_id s'
  /\ BinopPrecedence s' = BinopPrecedence s
  /\ Forall2 fn_le (TheModule s) (TheModule s').

Definition keeps {A} (m : M A) : Prop :=
  forall s a s', m s = Done a s' -> grows s s'.

(** Invariants of the backend's bookkeeping: a number not yet handed out
    names no function, and the symbol table maps a name to one function. *)
Definition ids_fresh (s : state) : Prop :=
  Forall (fun G => f_id G < next_id s) (TheModule s).

Definition names_unique (m : list Function) : Prop :=
  forall G1 G2, In G1 m -> In G2 m ->
    f_name G1 = f_name G2 -> f_name G1 <> "" -> f_id G1 = f_id G2.

(** The state after a failed body: the function is erased and, for a binary
    operator, its precedence entry too. *)
Definition rolled_back (Fn : FunctionAST) (F : nat) (s : state) : state :=
  let s1 := set_TheModule (filter (fun G => f_id G <> F)) s in
  if isBinaryOp (Proto Fn)
  then set_BinopPrecedence (delete (getOperatorName (Proto Fn))) s1
  else s1.

(** [def foo(a) a] *)
Definition def_foo : FunctionAST :=
  mkFunction (mkProto "foo" ["a"] NoOperator) (VariableExprAST "a").

Definition after_def_foo : state :=
  state_of (FunctionAST_Codegen def_foo with_externs) with_externs.


(** Every scoped-binding block inside [e] introduces pairwise distinct
    names. *)
Fixpoint distinct_names (e : ExprAST) : bool :=
  match e with
  | NumberExprAST _ => true
  | VariableExprAST _ => true
  | UnaryExprAST _ Operand => distinct_names Operand
  | BinaryExprAST _ LHS RHS => distinct_names LHS && distinct_names RHS
  | CallExprAST _ Args => forallb distinct_names Args
  | IfExprAST Cond Then Else =>
      distinct_names Cond && distinct_names Then && distinct_names Else
  | ForExprAST _ Start End Step Body =>
      distinct_names Start && distinct_names End
      && match Step with Some Step => distinct_names Step | None => true end
      && distinct_names Body
  | VarExprAST VarNames Body =>
      bool_decide (NoDup (map fst VarNames))
      && forallb (fun p => match snd p with
                           | Some Init => distinct_names Init
                           | None => true
                           end) VarNames
      && distinct_names Body
  end.

(** A computation that leaves every name resolving as before. *)
Definition scope_kept {A} (m : M A) : Prop :=
  forall s a s', m s = Done a s' ->
    (forall n, resolve s' n = resolve s n) /\ next_id s <= next_id s'.

(** A computation that, when it succeeds, leaves every name resolving as
    before. *)
Definition restores {A} (m : M (option A)) : Prop :=
  forall s v s', m s = Done (Some v) s' -> forall n, resolve s' n = resolve s n.

(** Where the bindings of [s'] come from, [s'] being reached from [s]: a
    handle bound in [s'] is the one the name had in [s] or was allocated in
    between, and a name bound in [s] is still bound. *)
Definition provenance (s s' : state) : Prop :=
  next_id s <= next_id s'
  /\ (forall n h, resolve s' n = Some h ->
        resolve s n = Some h \/ next_id s <= h < next_id s')
  /\ (forall n, resolve s n <> None -> resolve s' n <> None).

Definition traced {A} (m : M A) : Prop :=
  forall s a s', m s = Done a s' -> provenance s s'.

(** The scope table holds handles that were allocated. *)
Definition handles_allocated (s : state) : Prop :=
  forall n h, resolve s n = Some h -> h < next_id s.

(** The state in which [ForExprAST::Codegen] lowers the start expression. *)
Definition loop_entry (VarName : string) (s : state) : state :=
  state_of (CreateEntryBlockAlloca (fst (InsertBlock s)) VarName s) s.

(** [o] is a value the code may put back for [x]: a handle from [s] or a
    newer one, and not null when [x] was bound in [s]. *)
Definition saved_ok (s s' : state) (x : string) (o : option nat) : Prop :=
  (forall h, o = Some h -> resolve s x = Some h \/ next_id s <= h < next_id s')
  /\ (resolve s x <> None -> o <> None).

(** A computation that never returns a value. *)
Definition never_succeeds {A} (m : M (option A)) : Prop :=
  forall s v s', m s <> Done (Some v) s'.

(** [var x = 1, y in (for x = y, x < 1 in (var y = x in y))] *)
Definition nested_example : ExprAST :=
  VarExprAST [("x", Some (NumberExprAST 1)); ("y", None)]
    (ForExprAST "x" (VariableExprAST "y")
       (BinaryExprAST "<" (VariableExprAST "x") (NumberExprAST 1)) None
       (VarExprAST [("y", Some (VariableExprAST "x"))] (VariableExprAST "y"))).

(** [var y = 1 in y] *)
Definition block_example : ExprAST :=
  VarExprAST [("y", Some (NumberExprAST 1))] (VariableExprAST "y").

(** [for i = 1, 1 in (var i = 2 in unknown)] *)
Definition failing_loop_example : ExprAST :=
  ForExprAST "i" (NumberExprAST 1) (NumberExprAST 1) None
    (VarExprAST [("i", Some (NumberExprAST 2))] (VariableExprAST "unknown")).

(** [for x = 1, 1 in unknown] *)
Definition failing_body_example : ExprAST :=
  ForExprAST "x" (NumberExprAST 1) (NumberExprAST 1) None (VariableExprAST "unknown").

(** [var x = 1, y = 2 in unknown] *)
Definition failing_block_example : ExprAST :=
  VarExprAST [("x", Some (NumberExprAST 1)); ("y", Some (NumberExprAST 2))]
    (VariableExprAST "unknown").

(** [def g(x) for x = 1, 1 in unknown] *)
Definition failing_definition : FunctionAST :=
  mkFunction (mkProto "g" ["x"] NoOperator) failing_body_example.

(** [for i = 1, 1 in ((var i = 2, i = 3 in i) + unknown)] *)
Definition slipping_loop_example : ExprAST :=
  ForExprAST "i" (NumberExprAST 1) (NumberExprAST 1) None
    (BinaryExprAST "+"
       (VarExprAST [("i", Some (NumberExprAST 2)); ("i", Some (NumberExprAST 3))]
          (VariableExprAST "i"))
       (VariableExprAST "unknown")).

(** The step of a loop, 1.0 when there is none. *)
Definition Codegen_step (Step : option ExprAST) : M (option Value) :=
  match Step with
  | Some Step => Codegen Step
  | None => ret (Some (ConstantFP 1))
  end.

(** The loop whose body is lowered from [sb] on fails in [s']: [s'] is the
    state left by the body, the step or the end condition, whichever
    failed first. *)
Definition loop_fails (Body : ExprAST) (Step : option ExprAST) (End : ExprAST)
    (sb s' : state) : Prop :=
  Codegen Body sb = Done None s'
  \/ exists bv s10,
       Codegen Body sb = Done (Some bv) s10
       /\ (Codegen_step Step s10 = Done None s'
           \/ exists stv s11,
                Codegen_step Step s10 = Done (Some stv) s11
                /\ Codegen End s11 = Done None s').

(** [var a = (var x = 1, x = 2 in x), x = x in x] *)
Definition stale_initializer_example : ExprAST :=
  VarExprAST
    [("a", Some (VarExprAST [("x", Some (NumberExprAST 1)); ("x", Some (NumberExprAST 2))]
                   (VariableExprAST "x")));
     ("x", Some (VariableExprAST "x"))]
    (VariableExprAST "x").

(** [def binary@ 4294967295 (a b) a] *)
Definition wide_operator : FunctionAST :=
  mkFunction (mkProto "binary@" ["a"; "b"] (BinaryOperator 4294967295))
             (VariableExprAST "a").

(** [var a = 1, b = a in b] *)
Definition later_initializer_example : ExprAST :=
  VarExprAST [("a", Some (NumberExprAST 1)); ("b", Some (VariableExprAST "a"))]
    (VariableExprAST "b").

(** ** Induction over expressions *)

Section ExprAST_induction.
Variable P : ExprAST -> Prop.
Hypothesis HNumber : forall Val, P (NumberExprAST Val).
Hypothesis HVariable : forall Name, P (VariableExprAST Name).
Hypothesis HUnary : forall Opcode Operand, P Operand -> P (UnaryExprAST Opcode Operand).
Hypothesis HBinary : forall Op LHS RHS, P LHS -> P RHS -> P (BinaryExprAST Op LHS RHS).
Hypothesis HCall : forall Callee Args, Forall P Args -> P (CallExprAST Callee Args).
Hypothesis HIf : forall Cond Then Else,
  P Cond -> P Then -> P Else -> P (IfExprAST Cond Then Else).
Hypothesis HFor : forall VarName Start End Step Body,
  P Start -> P End -> (forall e, Step = Some e -> P e) -> P Body ->
  P (ForExprAST VarName Start End Step Body).
Hypothesis HVar : forall VarNames Body,
  Forall (fun p => forall e, snd p = Some e -> P e) VarNames -> P Body ->
  P (VarExprAST VarNames Body).

Fixpoint ExprAST_nested_ind (e : ExprAST) : P e :=
  match e with
  | NumberExprAST Val => HNumber Val
  | VariableExprAST Name => HVariable Name
  | UnaryExprAST Opcode Operand => HUnary Opcode Operand (ExprAST_nested_ind Operand)
  | BinaryExprAST Op LHS RHS =>
      HBinary Op LHS RHS (ExprAST_nested_ind LHS) (ExprAST_nested_ind RHS)
  | CallExprAST Callee Args =>
      HCall Callee Args
        ((fix all (l : list ExprAST) : Forall P l :=
            match l with
            | [] => Forall_nil_2 P
            | a :: l' => Forall_cons_2 P a l' (ExprAST_nested_ind a) (all l')
            end) Args)
  | IfExprAST Cond Then Else =>
      HIf Cond Then Else (ExprAST_nested_ind Cond) (ExprAST_nested_ind Then)
          (ExprAST_nested_ind Else)
  | ForExprAST VarName Start End Step Body =>
      HFor VarName Start End Step Body
        (ExprAST_nested_ind Start) (ExprAST_nested_ind End)
        (match Step as o return forall e, o = Some e -> P e with
         | Some e' => fun e H => eq_ind e' P (ExprAST_nested_ind e') e
                                   (f_equal (fun o => match o with Some x => x | None => e' end) H)
         | None => fun e H => False_ind _ (eq_ind None (fun o => match o with None => True | Some _ => False end) I _ H)
         end)
        (ExprAST_nested_ind Body)
  | VarExprAST VarNames Body =>
      HVar VarNames Body
        ((fix all (l : list (string * option ExprAST))
            : Forall (fun p => forall e, snd p = Some e -> P e) l :=
            match l with
            | [] => Forall_nil_2 _
            | p :: l' =>
                Forall_cons_2 _ p l'
                  (match p as q return forall e, snd q = Some e -> P e with
                   | (x, Some e') => fun e H =>
                       eq_ind e' P (ExprAST_nested_ind e') e
                         (f_equal (fun o => match o with Some x => x | None => e' end) H)
                   | (x, None) => fun e H =>
                       False_ind _ (eq_ind None (fun o => match o with None => True | Some _ => False end) I _ H)
                   end)
                  (all l')
            end) VarNames)
        (ExprAST_nested_ind Body)
  end.
End ExprAST_induction.

(** ** Vocabulary of the further properties *)

Definition unary_name (Opcode : ascii) : string := "unary" +:+ String Opcode "".
Definition binary_name (Op : ascii) : string := "binary" +:+ String Op "".

Definition user_operator (Op : ascii) : bool :=
  negb (bool_decide (Op = binary_eq)) && negb (builtin_operator Op).

(** [def binary+ 30 (a b) c], whose body refers to an unknown variable. *)
Definition bad_plus : FunctionAST :=
  mkFunction (mkProto "binary+" ["a"; "b"] (BinaryOperator 30)) (VariableExprAST "c").

Definition silent {A} (m : M A) : Prop :=
  forall s a s', m s = Done a s' -> stderr s' = stderr s.

Definition appends {A} (m : M A) : Prop :=
  forall s a s', m s = Done a s' -> exists msgs, stderr s' = stderr s ++ msgs.

(** A computation that returns null exactly when it printed something. *)
Definition reports {A} (m : M (option A)) : Prop :=
  forall s r s', m s = Done r s' ->
    exists msgs, stderr s' = stderr s ++ msgs /\ (r = None <-> msgs <> []).




Definition binop (Op : ascii) (l r : float) : option float :=
  if decide (Op = "+"%char) then Some (PrimFloat.add l r)
  else if decide (Op = "-"%char) then Some (PrimFloat.sub l r)
  else if decide (Op = "*"%char) then Some (PrimFloat.mul l r)
  else if decide (Op = "<"%char) then Some (if fcmp_ult l r then 1%float else 0%float)
  else None.

Fixpoint denote (e : ExprAST) (env : gmap string float)
    : option (float * gmap string float) :=
  match e with
  | NumberExprAST Val => Some (Val, env)
  | VariableExprAST Name =>
      match env !! Name with
      | Some f => Some (f, env)
      | None => None
      end
  | BinaryExprAST Op LHS RHS =>
      if decide (Op = binary_eq) then
        match LHS with
        | VariableExprAST LHSName =>
            match denote RHS env with
            | Some (v, env1) =>
                match env1 !! LHSName with
                | Some _ => Some (v, <[LHSName := v]> env1)
                | None => None
                end
            | None => None
            end
        | _ => None
        end
      else
        match denote LHS env with
        | Some (l, env1) =>
            match denote RHS env1 with
            | Some (r, env2) =>
                match binop Op l r with
                | Some v => Some (v, env2)
                | None => None
                end
            | None => None
            end
        | None => None
        end
  | _ => None
  end.

(** The parameters bound to the arguments of a call, a later parameter of
    the same name hiding an earlier one. *)
Fixpoint bind_params (names : list string) (args : list float)
    (env : gmap string float) : gmap string float :=
  match names, args with
  | x :: names', a :: args' => bind_params names' args' (<[x := a]> env)
  | _, _ => env
  end.

(** The instructions of the block the builder inserts into, when it is the
    only block of its function. *)
Definition code_of (s : state) : option (list Instruction) :=
  match lookupF (fst (InsertBlock s)) (TheModule s) with
  | Some Fn =>
      match f_blocks Fn with
      | [B] => if Nat.eqb (bb_id B) (snd (InsertBlock s))
               then Some (bb_insts B) else None
      | _ => None
      end
  | None => None
  end.

Fixpoint steps (n : nat) (m : list Function) (ext : string -> list float -> float)
    (c : Config) : option Config :=
  match n with
  | O => Some c
  | S n' =>
      match c with
      | Running stack trace =>
          match step m ext stack trace with
          | Some c' => steps n' m ext c'
          | None => None
          end
      | Finished _ _ => None
      end
  end.

Definition is_alloca (i : Instruction) : Prop :=
  match i_op i with Alloca _ => True | _ => False end.

(** Every variable of [env] has storage in the frame that holds its value. *)
Definition bound_in (s : state) (env : gmap string float) (mem : gmap nat float)
    : Prop :=
  forall x f, env !! x = Some f ->
    exists h, resolve s x = Some h /\ mem !! h = Some f.

Definition injective_scope (s : state) : Prop :=
  forall x y h, resolve s x = Some h -> resolve s y = Some h -> x = y.

Definition val_below (n : nat) (v : Value) : Prop :=
  match v with
  | InstResult id => id < n
  | ConstantFP _ => True
  | Argument _ _ => False
  end.

(** What the instructions [new] do when run in a frame whose memory holds
    [env]: they end with [val] evaluating to [v] and memory holding [env']. *)
Definition runs_to (new : list Instruction) (s : state)
    (env env' : gmap string float) (val : Value) (v : float) : Prop :=
  forall m ext callers tr fr rest,
    fr_code fr = new ++ rest -> bound_in s env (fr_mem fr) ->
    exists fr',
      steps (length new) m ext (Running (fr :: callers) tr)
      = Some (Running (fr' :: callers) tr)
      /\ fr_code fr' = rest /\ eval_float fr' val = Some v
      /\ bound_in s env' (fr_mem fr')
      /\ fr_args fr' = fr_args fr
      /\ forall id, id < next_id s -> fr_regs fr' !! id = fr_regs fr !! id.

Definition lowered_to (e : ExprAST) (s : state) (c : list Instruction)
    (env env' : gmap string float) (v : float) : Prop :=
  exists val s' new,
    Codegen e s = Done (Some val) s'
    /\ code_of s' = Some (c ++ new)
    /\ (forall x, resolve s' x = resolve s x)
    /\ InsertBlock s' = InsertBlock s
    /\ next_id s <= next_id s'
    /\ val_below (next_id s') val
    /\ runs_to new s env env' val v.





(** [def binary@ 5 (a b) a] *)
Definition def_binary_at : FunctionAST :=
  mkFunction (mkProto "binary@" ["a"; "b"] (BinaryOperator 5)) (VariableExprAST "a").

(** [extern unary!(v)] and [def binary@ 5 (a b) a] handled after the
    externs. *)
Definition with_operators : state :=
  let s1 := state_of (PrototypeAST_Codegen (mkProto "unary!" ["v"] UnaryOperator)
                        with_externs) with_externs in
  state_of (FunctionAST_Codegen def_binary_at s1) s1.

(** [def poly(x y) x * x + (y = y - 1)] *)
Definition def_poly : FunctionAST :=
  mkFunction (mkProto "poly" ["x"; "y"] NoOperator)
    (BinaryExprAST "+"%char
       (BinaryExprAST "*"%char (VariableExprAST "x") (VariableExprAST "x"))
       (BinaryExprAST "="%char (VariableExprAST "y")
          (BinaryExprAST "-"%char (VariableExprAST "y") (NumberExprAST 1%float)))).

(** ** The value of an expression

    A reference evaluation of expressions.  [fsem] gives the result of
    calling a function on arguments: its value and the external calls it
    makes.  [fuel] bounds the depth of the evaluation and the number of
    iterations of a loop; the result is the value, the variables in scope
    with their new values, and the external calls made, in order. *)

Definition Oracle : Type := string -> list float -> option (float * list Event).

Definition restore_binding (x : string) (old : option float)
    (env : gmap string float) : gmap string float :=
  match old with
  | Some f => <[x := f]> env
  | None => delete x env
  end.

Fixpoint restore_bindings (names : list string) (olds : list (option float))
    (env : gmap string float) : gmap string float :=
  match names, olds with
  | x :: names', old :: olds' => restore_bindings names' olds' (restore_binding x old env)
  | _, _ => env
  end.

(** The iterations of a loop: the body, the step and the end condition are
    evaluated in this order, the variable is advanced by the step, and the
    loop goes on when the end condition was an ordered non-zero number. *)
Fixpoint iterate (n : nat)
    (ev : ExprAST -> gmap string float
          -> option (float * gmap string float * list Event))
    (x : string) (End : ExprAST) (Step : option ExprAST) (Body : ExprAST)
    (env : gmap string float) : option (gmap string float * list Event) :=
  match n with
  | O => None
  | S n' =>
      match ev Body env with
      | Some (_, env1, t1) =>
          match (match Step with
                 | Some Step => ev Step env1
                 | None => Some (1%float, env1, [])
                 end) with
          | Some (stepv, env2, t2) =>
              match ev End env2 with
              | Some (c, env3, t3) =>
                  match env3 !! x with
                  | Some cur =>
                      let env4 := <[x := PrimFloat.add cur stepv]> env3 in
                      if fcmp_one c 0%float
                      then match iterate n' ev x End Step Body env4 with
                           | Some (env5, t4) => Some (env5, t1 ++ t2 ++ t3 ++ t4)
                           | None => None
                           end
                      else Some (env4, t1 ++ t2 ++ t3)
                  | None => None
                  end
              | None => None
              end
          | None => None
          end
      | None => None
      end
  end.

(** The variables of a [var] block are bound one after the other, each
    initializer seeing the variables bound before it. *)
Definition bind_vars
    (ev : ExprAST -> gmap string float
          -> option (float * gmap string float * list Event))
    : list (string * option ExprAST) -> gmap string float -> list (option float)
      -> option (gmap string float * list (option float) * list Event) :=
  fix loop (VarNames : list (string * option ExprAST)) (env : gmap string float)
           (olds : list (option float)) :=
    match VarNames with
    | [] => Some (env, olds, [])
    | (x, Init) :: VarNames' =>
        match (match Init with
               | Some Init => ev Init env
               | None => Some (0%float, env, [])
               end) with
        | Some (v, env1, t1) =>
            match loop VarNames' (<[x := v]> env1) (olds ++ [env1 !! x]) with
            | Some (env2, olds2, t2) => Some (env2, olds2, t1 ++ t2)
            | None => None
            end
        | None => None
        end
    end.

(** The arguments of a call are evaluated from left to right. *)
Definition eval_list
    (ev : ExprAST -> gmap string float
          -> option (float * gmap string float * list Event))
    : list ExprAST -> gmap string float
      -> option (list float * gmap string float * list Event) :=
  fix loop (Args : list ExprAST) (env : gmap string float) :=
    match Args with
    | [] => Some ([], env, [])
    | a :: Args' =>
        match ev a env with
        | Some (v, env1, t1) =>
            match loop Args' env1 with
            | Some (vs, env2, t2) => Some (v :: vs, env2, t1 ++ t2)
            | None => None
            end
        | None => None
        end
    end.

Fixpoint evaluate (fsem : Oracle) (fuel : nat) (e : ExprAST)
    (env : gmap string float)
    : option (float * gmap string float * list Event) :=
  match fuel with
  | O => None
  | S fuel' =>
      let ev := evaluate fsem fuel' in
      match e with
      | NumberExprAST Val => Some (Val, env, [])
      | VariableExprAST Name =>
          match env !! Name with
          | Some f => Some (f, env, [])
          | None => None
          end
      | UnaryExprAST Opcode Operand =>
          match ev Operand env with
          | Some (v, env1, t1) =>
              match fsem (unary_name Opcode) [v] with
              | Some (r, t2) => Some (r, env1, t1 ++ t2)
              | None => None
              end
          | None => None
          end
      | BinaryExprAST Op LHS RHS =>
          if decide (Op = binary_eq) then
            match LHS with
            | VariableExprAST LHSName =>
                match ev RHS env with
                | Some (v, env1, t1) =>
                    match env1 !! LHSName with
                    | Some _ => Some (v, <[LHSName := v]> env1, t1)
                    | None => None
                    end
                | None => None
                end
            | _ => None
            end
          else
            match ev LHS env with
            | Some (l, env1, t1) =>
                match ev RHS env1 with
                | Some (r, env2, t2) =>
                    match binop Op l r with
                    | Some v => Some (v, env2, t1 ++ t2)
                    | None =>
                        match fsem (binary_name Op) [l; r] with
                        | Some (v, t3) => Some (v, env2, (t1 ++ t2) ++ t3)
                        | None => None
                        end
                    end
                | None => None
                end
            | None => None
            end
      | CallExprAST Callee Args =>
          match eval_list ev Args env with
          | Some (vs, env1, t1) =>
              match fsem Callee vs with
              | Some (r, t2) => Some (r, env1, t1 ++ t2)
              | None => None
              end
          | None => None
          end
      | IfExprAST Cond Then Else =>
          match ev Cond env with
          | Some (c, env1, t1) =>
              match (if fcmp_one c 0%float then ev Then env1 else ev Else env1) with
              | Some (v, env2, t2) => Some (v, env2, t1 ++ t2)
              | None => None
              end
          | None => None
          end
      | ForExprAST VarName Start End Step Body =>
          match ev Start env with
          | Some (sv, env1, t1) =>
              match iterate fuel' ev VarName End Step Body (<[VarName := sv]> env1) with
              | Some (env2, t2) =>
                  Some (0%float, restore_binding VarName (env1 !! VarName) env2, t1 ++ t2)
              | None => None
              end
          | None => None
          end
      | VarExprAST VarNames Body =>
          match bind_vars ev VarNames env [] with
          | Some (env1, olds, t1) =>
              match ev Body env1 with
              | Some (v, env2, t2) =>
                  Some (v, restore_bindings (map fst VarNames) olds env2, t1 ++ t2)
              | None => None
              end
          | None => None
          end
      end
  end.

(** The external functions of module [m]: a call of a function declared
    without a body is passed to the environment and recorded. *)
Definition extern_calls (m : list Function) (ext : string -> list float -> float)
    : Oracle :=
  fun f args =>
    match getFunction m f with
    | Some F => if empty F then Some (ext f args, [(f, args)]) else None
    | None => None
    end.

(** ** Blocks of the function under construction *)

(** The instructions of a block after the allocas at its beginning. *)
Fixpoint skip_allocas (insts : list Instruction) : list Instruction :=
  match insts with
  | i :: rest =>
      match i_op i with
      | Alloca _ => skip_allocas rest
      | _ => insts
      end
  | [] => []
  end.

(** The instructions that the builder appends at the insertion point. *)
Definition non_alloca (op : Opcode) : Prop :=
  match op with Alloca _ => False | _ => True end.

(** The blocks of the function the builder inserts into, and the
    instructions of its block [B]. *)
Definition blocks_of (s : state) : list BasicBlock :=
  match lookupF (fst (InsertBlock s)) (TheModule s) with
  | Some Fn => f_blocks Fn
  | None => []
  end.

Definition block_insts (bs : list BasicBlock) (B : nat) : option (list Instruction) :=
  bb_insts <$> find (fun b => Nat.eqb (bb_id b) B) bs.

(** The entry block of a function is its first block. *)
Definition entry_of (bs : list BasicBlock) : option nat := bb_id <$> head bs.

(** Every block of [bs] is in [bs'], with the same instructions and maybe
    more after them. *)
Definition blocks_le (bs bs' : list BasicBlock) : Prop :=
  forall B l, block_insts bs B = Some l ->
    exists l' suf, block_insts bs' B = Some l'
                   /\ skip_allocas l' = skip_allocas l ++ suf.

(** Every block of [bs] is in [bs'] with the instructions it had, in the
    same order.  What is new comes after them, except storage allocations,
    which come before them and in the entry block only. *)
Definition blocks_grow (bs bs' : list BasicBlock) : Prop :=
  forall B l, block_insts bs B = Some l ->
    exists pre suf,
      block_insts bs' B = Some (pre ++ l ++ suf)
      /\ Forall is_alloca pre
      /\ Forall (fun i => non_alloca (i_op i)) suf
      /\ (entry_of bs <> Some B -> pre = []).

(** Module [m'] is [m] but for the blocks of function [F]. *)
Definition module_kept (F : nat) (m m' : list Function) : Prop :=
  exists g, m' = update_fn F (update_blocks g) m.

(** From [s] to [s'] the function under construction only grew, no block
    numbered below [n] appeared, the entry block is the same, and the
    rest of the module is untouched. *)
Definition ext_from (n : nat) (s s' : state) : Prop :=
  fst (InsertBlock s') = fst (InsertBlock s)
  /\ next_id s <= next_id s'
  /\ blocks_grow (blocks_of s) (blocks_of s')
  /\ (forall B, B < n -> block_insts (blocks_of s) B = None ->
                block_insts (blocks_of s') B = None)
  /\ (forall B, entry_of (blocks_of s) = Some B ->
                entry_of (blocks_of s') = Some B)
  /\ module_kept (fst (InsertBlock s)) (TheModule s) (TheModule s').

(** The same, no block numbered below the counter of [s] appearing. *)
Definition extends (s s' : state) : Prop := ext_from (next_id s) s s'.

(** The builder inserts into a function of the module, whose blocks are
    numbered below the counter. *)
Definition wf (s : state) : Prop :=
  is_Some (lookupF (fst (InsertBlock s)) (TheModule s))
  /\ (forall B, is_Some (block_insts (blocks_of s) B) -> B < next_id s).

(** The states after [BasicBlock::Create], after a block is appended to
    function [F], and after the insertion point is set. *)
Definition created (s : state) : state := set_next_id (S (next_id s)) s.

Definition pushed (F : nat) (BB : BasicBlock) (s : state) : state :=
  set_TheModule (update_fn F (update_blocks (fun bs => bs ++ [BB]))) s.

Definition moved (F B : nat) (s : state) : state := set_InsertBlock (F, B) s.

(** The frame [fr] runs function [Fn] and stands where the builder of [s]
    inserts: what it has still to run is what [Fn] has after the
    instructions that the insertion block holds in [s]. *)
Definition pos (s : state) (Fn : Function) (fr : Frame) : Prop :=
  fr_fn fr = Fn /\ fr_cur fr = snd (InsertBlock s)
  /\ exists l lf,
       block_insts (blocks_of s) (snd (InsertBlock s)) = Some l
       /\ block_insts (f_blocks Fn) (snd (InsertBlock s)) = Some lf
       /\ skip_allocas lf = skip_allocas l ++ fr_code fr.

(** The finished function [Fn] holds the code emitted up to [s], and the
    names of [s] denote the same functions in the module [m]. *)
Definition contains (s : state) (Fn : Function) (m : list Function) : Prop :=
  blocks_le (blocks_of s) (f_blocks Fn)
  /\ (forall f F, getFunction (TheModule s) f = Some F ->
                  f_id <$> getFunction m f = Some (f_id F)).

(** The functions of module [m] behave as [fsem] says: a call instruction
    on arguments for which [fsem] gives a result completes with that value
    and those external calls, wherever it is run. *)
Definition implements (m : list Function) (ext : string -> list float -> float)
    (fsem : Oracle) : Prop :=
  forall f F args v evs,
    getFunction m f = Some F -> fsem f args = Some (v, evs) ->
    forall fr callers tr i code vs,
      fr_code fr = i :: code -> i_op i = Call (f_id F) vs ->
      eval_args fr vs = Some args ->
      exists k,
        steps k m ext (Running (fr :: callers) tr)
        = Some (Running (set_reg fr (i_id i) (RFloat v) code :: callers) (tr ++ evs)).

(** What the code lowered from [s] on leaves alone: the arguments, the
    register awaiting the result, the registers assigned before and the
    storage that no name of [s] denotes. *)
Definition preserved (s : state) (fr fr' : Frame) : Prop :=
  fr_args fr' = fr_args fr
  /\ fr_dest fr' = fr_dest fr
  /\ (forall id, id < next_id s -> fr_regs fr' !! id = fr_regs fr !! id)
  /\ (forall h, h < next_id s -> (forall x, resolve s x <> Some h) ->
                fr_mem fr' !! h = fr_mem fr !! h).

(** What running the instructions emitted between [s] and [s'] does. *)
Definition sem (ext : string -> list float -> float) (fsem : Oracle)
    (s s' : state) (env env' : gmap string float)
    (val : Value) (v : float) (evs : list Event) : Prop :=
  forall Fn m callers tr fr,
    implements m ext fsem ->
    contains s' Fn m -> pos s Fn fr -> bound_in s env (fr_mem fr) ->
    exists k fr',
      steps k m ext (Running (fr :: callers) tr)
      = Some (Running (fr' :: callers) (tr ++ evs))
      /\ pos s' Fn fr' /\ eval_float fr' val = Some v
      /\ bound_in s env' (fr_mem fr')
      /\ preserved s fr fr'.

(** The insertion block is a block of the function. *)
Definition inblock (s : state) : Prop :=
  is_Some (block_insts (blocks_of s) (snd (InsertBlock s))).

(** The function grew, its new blocks numbered from [n] on, and the builder
    is in the block it was in or in a new one. *)
Definition grown (n : nat) (s s' : state) : Prop :=
  ext_from n s s' /\ wf s'
  /\ (snd (InsertBlock s') = snd (InsertBlock s) \/ n <= snd (InsertBlock s')).

(** What lowering an expression does to the function under construction:
    it only grows, its new blocks are numbered from the counter on, and the
    builder ends in the block it started in or in a new one. *)
Definition structure_ok (s s' : state) : Prop :=
  grown (next_id s) s s' /\ (inblock s -> inblock s').

(** Wherever [e] is lowered, its code computes [v], takes the variables
    from [env] to [env'] and makes the external calls [evs]. *)
Definition compiles (ext : string -> list float -> float) (fsem : Oracle)
    (e : ExprAST) (env env' : gmap string float) (v : float)
    (evs : list Event) : Prop :=
  forall s val s', wf s -> injective_scope s -> handles_allocated s ->
    Codegen e s = Done (Some val) s' -> sem ext fsem s s' env env' val v evs.

(** [s] is the scope of [s0] with [names] bound anew, to storage allocated
    since [s0]. *)
Definition shadows (s0 s : state) (names : list string) : Prop :=
  next_id s0 <= next_id s
  /\ (forall y, y ∈ names -> exists A, resolve s y = Some A /\ next_id s0 <= A)
  /\ (forall y, y ∉ names -> resolve s y = resolve s0 y).

(** ** Programs

    The functions a session defined, looked up by name. *)
Definition lookup_def (defs : list FunctionAST) (f : string) : option FunctionAST :=
  find (fun Fn => bool_decide (Name (Proto Fn) = f)) defs.

(** What a call does in a program: a function defined in [defs] evaluates
    its body with its parameters bound to the arguments, the calls of the
    body being evaluated likewise, at most [n] deep; any other function is
    left to [externs]. *)
Fixpoint program_calls (defs : list FunctionAST) (externs : Oracle) (n : nat)
    (f : string) (args : list float) : option (float * list Event) :=
  match lookup_def defs f with
  | Some Fn =>
      match n with
      | O => None
      | S n' =>
          if decide (length args = length (Args (Proto Fn))) then
            match evaluate (program_calls defs externs n') n' (Body Fn)
                           (bind_params (Args (Proto Fn)) args ∅) with
            | Some (v, _, evs) => Some (v, evs)
            | None => None
            end
          else None
      end
  | None => externs f args
  end.

(** Definitions handled one after the other, each under a name that is
    new, with no [var] block binding a name twice, and accepted. *)
Fixpoint define_all (defs : list FunctionAST) (s : state) : option state :=
  match defs with
  | [] => Some s
  | Fn :: defs' =>
      match getFunction (TheModule s) (Name (Proto Fn)) with
      | Some _ => None
      | None =>
          if distinct_names (Body Fn) then
            match FunctionAST_Codegen Fn s with
            | Done (Some _) s' => define_all defs' s'
            | _ => None
            end
          else None
      end
  end.

(** [Fn] was defined on the way to module [m]: under a new name, and the
    module its definition left is the beginning of [m]. *)
Definition defined_in (m : list Function) (Fn : FunctionAST) : Prop :=
  exists s F s',
    ids_fresh s
    /\ getFunction (TheModule s) (Name (Proto Fn)) = None
    /\ distinct_names (Body Fn) = true
    /\ FunctionAST_Codegen Fn s = Done (Some F) s'
    /\ exists rest, m = TheModule s' ++ rest.

(** An external function that returns its first argument. *)
Definition first_arg : string -> list float -> float :=
  fun _ args => match args with a :: _ => a | [] => 0%float end.

(** [def show(n) putchard(n) + atan2(n + 1, 2)] *)
Definition def_show : FunctionAST :=
  mkFunction (mkProto "show" ["n"] NoOperator)
    (BinaryExprAST "+"%char
       (CallExprAST "putchard" [VariableExprAST "n"])
       (CallExprAST "atan2"
          [BinaryExprAST "+"%char (VariableExprAST "n") (NumberExprAST 1%float);
           NumberExprAST 2%float])).

Definition after_def_show : state :=
  state_of (FunctionAST_Codegen def_show with_externs) with_externs.

(** [def count(n) var acc = 0 in
      (for i = 1, i < n in acc = acc + putchard(i))
      + if acc < 8 then acc else 8] *)
Definition def_count : FunctionAST :=
  mkFunction (mkProto "count" ["n"] NoOperator)
    (VarExprAST [("acc", Some (NumberExprAST 0%float))]
       (BinaryExprAST "+"%char
          (ForExprAST "i" (NumberExprAST 1%float)
             (BinaryExprAST "<"%char (VariableExprAST "i") (VariableExprAST "n"))
             None
             (BinaryExprAST "="%char (VariableExprAST "acc")
                (BinaryExprAST "+"%char (VariableExprAST "acc")
                   (CallExprAST "putchard" [VariableExprAST "i"]))))
          (IfExprAST (BinaryExprAST "<"%char (VariableExprAST "acc") (NumberExprAST 8%float))
             (VariableExprAST "acc") (NumberExprAST 8%float)))).

Definition after_def_count : state :=
  state_of (FunctionAST_Codegen def_count with_externs) with_externs.

(** [def show(n) putchard(n) : putchard(fact(n))] *)
Definition def_show_fact : FunctionAST :=
  mkFunction (mkProto "show" ["n"] NoOperator)
    (BinaryExprAST ":"%char
       (CallExprAST "putchard" [VariableExprAST "n"])
       (CallExprAST "putchard" [CallExprAST "fact" [VariableExprAST "n"]])).

(** [def unary-(v) 0 - v]
    [def binary: 1 (x y) y]
    [def fact(n) if n < 1 then 1 else n * fact(n + -1)]
    and the definition of [show] above. *)
Definition session_example : list FunctionAST :=
  [ mkFunction (mkProto "unary-" ["v"] UnaryOperator)
      (BinaryExprAST "-"%char (NumberExprAST 0%float) (VariableExprAST "v"));
    mkFunction (mkProto "binary:" ["x"; "y"] (BinaryOperator 1)) (VariableExprAST "y");
    mkFunction (mkProto "fact" ["n"] NoOperator)
      (IfExprAST (BinaryExprAST "<"%char (VariableExprAST "n") (NumberExprAST 1%float))
         (NumberExprAST 1%float)
         (BinaryExprAST "*"%char (VariableExprAST "n")
            (CallExprAST "fact"
               [BinaryExprAST "+"%char (VariableExprAST "n")
                  (UnaryExprAST "-"%char (NumberExprAST 1%float))])));
    def_show_fact ].

Definition after_session_example : state :=
  match define_all session_example with_externs with
  | Some s => s
  | None => with_externs
  end.

(** * Properties *)

(** ** Monad bookkeeping *)

Lemma bind_Done {A B} (m : M A) (k : A -> M B) s a s' :
  m s = Done a s' -> bind m k s = k a s'.
Proof. intros H. unfold bind. now rewrite H. Qed.

Lemma bind_AssertFail {A B} (m : M A) (k : A -> M B) s :
  m s = AssertFail -> bind m k s = AssertFail.
Proof. intros H. unfold bind. now rewrite H. Qed.

Lemma NamedValues_index_resolve name s :
  exists s', NamedValues_index name s = Done (resolve s name) s'
             /\ (forall n, resolve s' n = resolve s n)
             /\ TheModule s' = TheModule s /\ stderr s' = stderr s
             /\ next_id s' = next_id s /\ InsertBlock s' = InsertBlock s
             /\ BinopPrecedence s' = BinopPrecedence s
             /\ (resolve s name <> None -> s' = s).
Proof.
  unfold NamedValues_index, resolve.
  destruct (NamedValues s !! name) as [[h|]|] eqn:E.
  - exists s. repeat split; congruence.
  - exists s. repeat split; congruence.
  - eexists. split; [reflexivity|]. repeat split; try congruence.
    intros n. cbn. destruct (decide (name = n)) as [->|Hne].
    + now rewrite lookup_insert_eq, E.
    + now rewrite lookup_insert_ne.
Qed.

(** ** Assignment *)

Lemma last_error_error_state Str s : last_error (error_state Str s) = Some Str.
Proof. unfold last_error, error_state. cbn. apply last_snoc. Qed.

Lemma variable_unbound name s :
  resolve s name = None ->
  exists s1, Codegen (VariableExprAST name) s = Done None s1
             /\ last_error s1 = Some "Unknown variable name"
             /\ TheModule s1 = TheModule s.
Proof.
  intros Hres. cbn [Codegen].
  destruct (NamedValues_index_resolve name s) as (s1 & Hidx & _ & Hmod & _).
  rewrite (bind_Done _ _ _ _ _ Hidx), Hres.
  eexists. split; [reflexivity|]. split; [apply last_error_error_state|exact Hmod].
Qed.

Lemma assign_unbound name RHS s Val s1 :
  Codegen RHS s = Done (Some Val) s1 ->
  resolve s1 name = None ->
  exists s2,
    Codegen (BinaryExprAST binary_eq (VariableExprAST name) RHS) s = Done None s2
    /\ last_error s2 = Some "Unknown variable name"
    /\ TheModule s2 = TheModule s1.
Proof.
  intros H Hres. cbn [Codegen]. rewrite decide_True by reflexivity.
  rewrite (bind_Done _ _ _ _ _ H).
  destruct (NamedValues_index_resolve name s1) as (s2 & Hidx & _ & Hmod & _).
  rewrite (bind_Done _ _ _ _ _ Hidx), Hres.
  eexists. split; [reflexivity|]. split; [apply last_error_error_state|exact Hmod].
Qed.




(** ** Binary operators *)

(** C4 (as amended): for a built-in operator, when lowering the left operand
    fails the right operand is lowered all the same, in the state the left
    operand left behind; no operator instruction is emitted and the
    application returns null in the state the right operand left. *)
Theorem binary_lowers_right_after_left_failure
    (Op : ascii) (LHS RHS : ExprAST) (s s1 : state) :
  builtin_operator Op = true ->
  Codegen LHS s = Done None s1 ->
  Codegen (BinaryExprAST Op LHS RHS) s
  = match Codegen RHS s1 with
    | Done _ s2 => Done None s2
    | AssertFail => AssertFail
    end.
Proof.
  intros Hop HL. cbn [Codegen].
  rewrite decide_False.
  - rewrite (bind_Done _ _ _ _ _ HL). unfold bind.
    destruct (Codegen RHS s1) as [[r|] s2|]; reflexivity.
  - intros ->. vm_compute in Hop. discriminate.
Qed.

Lemma binary_lowers_right_after_left_failure_witness :
  Codegen (BinaryExprAST "+" (VariableExprAST "y") (CallExprAST "g" [])) inside_f
  = Done None
      (error_state "Unknown function referenced"
         (set_NamedValues (insert "y" None)
            (error_state "Unknown variable name" inside_f))).
Proof.
  rewrite (binary_lowers_right_after_left_failure "+"
             (VariableExprAST "y") (CallExprAST "g" []) inside_f
             (error_state "Unknown variable name"
                (set_NamedValues (insert "y" None) inside_f))).
  - reflexivity.
  - reflexivity.
  - reflexivity.
Defined.

(** C4 (as stated) fails: in [y + g()] with [y] unbound and [g] unknown the
    left operand fails, and the right operand is lowered nevertheless, as
    its diagnostic on stderr shows; the state returned is not the one the
    left operand's failure left. *)
Lemma binary_not_short_circuit :
  exists s1 s2,
    Codegen (VariableExprAST "y") inside_f = Done None s1
    /\ stderr s1 = ["Unknown variable name"]
    /\ Codegen (BinaryExprAST "+" (VariableExprAST "y") (CallExprAST "g" [])) inside_f
       = Done None s2
    /\ stderr s2 = ["Unknown variable name"; "Unknown function referenced"]
    /\ Done (A := option Value) None s2 <> Done None s1.
Proof.
  eexists. eexists.
  split; [reflexivity|]. split; [reflexivity|].
  split; [reflexivity|]. split; [reflexivity|].
  intros H. apply (f_equal (fun r => length (stderr (state_of r inside_f)))) in H.
  vm_compute in H. discriminate.
Qed.

(** ** Calls *)

Lemma CallArgs_all args : forall acc s vs s1,
  lowers_all args s vs s1 ->
  CallArgs Codegen args acc s = Done (Some (acc ++ vs)) s1.
Proof.
  induction args as [|a args IH]; intros acc s vs s1 H;
    inversion H as [|? ? ? v s' vs' ? Ha Hrest]; subst.
  - cbn. now rewrite app_nil_r.
  - cbn. rewrite (bind_Done _ _ _ _ _ Ha).
    rewrite (IH _ _ _ _ Hrest). now rewrite <- app_assoc.
Qed.

Lemma CallArgs_first_failure pre : forall a post acc s vs s1 s2,
  lowers_all pre s vs s1 ->
  Codegen a s1 = Done None s2 ->
  CallArgs Codegen (pre ++ a :: post) acc s = Done None s2.
Proof.
  induction pre as [|p pre IH]; intros a post acc s vs s1 s2 H Ha;
    inversion H as [|? ? ? v s' vs' ? Hp Hrest]; subst.
  - cbn. now rewrite (bind_Done _ _ _ _ _ Ha).
  - cbn. rewrite (bind_Done _ _ _ _ _ Hp). eapply IH; eauto.
Qed.

(** C7: lowering a call.  An unknown callee gives "Unknown function
    referenced"; an argument count different from the callee's parameter
    count gives "Incorrect # arguments passed" whatever the arguments are,
    none of them being lowered; otherwise the arguments are lowered from
    left to right, the first failing argument ends the lowering with its
    failure, and when all succeed one call instruction is emitted. *)
Theorem call_lowering (Callee : string) (Args : list ExprAST) (s : state) :
  (getFunction (TheModule s) Callee = None ->
     Codegen (CallExprAST Callee Args) s
     = Done None (error_state "Unknown function referenced" s))
  /\ (forall F, getFunction (TheModule s) Callee = Some F ->
        arg_size F <> length Args ->
        Codegen (CallExprAST Callee Args) s
        = Done None (error_state "Incorrect # arguments passed" s))
  /\ (forall F, getFunction (TheModule s) Callee = Some F ->
        arg_size F = length Args ->
        (forall pre a post vs s1 s2,
            Args = pre ++ a :: post ->
            lowers_all pre s vs s1 ->
            Codegen a s1 = Done None s2 ->
            Codegen (CallExprAST Callee Args) s = Done None s2)
        /\ (forall vs s1,
              lowers_all Args s vs s1 ->
              Codegen (CallExprAST Callee Args) s
              = Done (Some (InstResult (next_id s1)))
                     (inserted (Call (f_id F) vs) s1))).
Proof.
  repeat split.
  - intros H. cbn [Codegen]. unfold bind, get. now rewrite H.
  - intros F H Hne. cbn [Codegen]. unfold bind, get. rewrite H.
    apply Nat.eqb_neq in Hne. now rewrite Hne.
  - intros pre a post vs s1 s2 -> Hpre Ha. cbn [Codegen].
    unfold bind at 1. unfold get. rewrite H.
    apply Nat.eqb_eq in H0. rewrite H0. cbn [negb].
    now rewrite (bind_Done _ _ _ _ _ (CallArgs_first_failure _ _ _ _ _ _ _ _ Hpre Ha)).
  - intros vs s1 Hall. cbn [Codegen].
    unfold bind at 1. unfold get. rewrite H.
    apply Nat.eqb_eq in H0. rewrite H0. cbn [negb].
    rewrite (bind_Done _ _ _ _ _ (CallArgs_all _ [] _ _ _ Hall)).
    reflexivity.
Qed.

Lemma call_lowering_witness :
  Codegen (CallExprAST "g" [NumberExprAST 1]) inside_toplevel
  = Done None (error_state "Unknown function referenced" inside_toplevel)
  /\ Codegen (CallExprAST "putchard" [NumberExprAST 1; NumberExprAST 2]) inside_toplevel
     = Done None (error_state "Incorrect # arguments passed" inside_toplevel)
  /\ Codegen (CallExprAST "atan2" [NumberExprAST 1; VariableExprAST "y"; VariableExprAST "z"])
       inside_toplevel
     = Done None (error_state "Incorrect # arguments passed" inside_toplevel)
  /\ Codegen (CallExprAST "atan2" [VariableExprAST "y"; VariableExprAST "z"])
       inside_toplevel
     = Done None (error_state "Unknown variable name"
                    (set_NamedValues (insert "y" None) inside_toplevel))
  /\ Codegen (CallExprAST "atan2" [NumberExprAST 1; NumberExprAST 2]) inside_toplevel
     = Done (Some (InstResult (next_id inside_toplevel)))
            (inserted (Call 1 [ConstantFP 1; ConstantFP 2]) inside_toplevel).
Proof.
  split; [|split; [|split; [|split]]].
  - apply (proj1 (call_lowering "g" [NumberExprAST 1] inside_toplevel)).
    reflexivity.
  - apply (proj1 (proj2 (call_lowering "putchard" [NumberExprAST 1; NumberExprAST 2]
                           inside_toplevel))
             (mkFn 0 "putchard" ["x"] [])).
    + reflexivity.
    + vm_compute. lia.
  - apply (proj1 (proj2 (call_lowering "atan2"
                           [NumberExprAST 1; VariableExprAST "y"; VariableExprAST "z"]
                           inside_toplevel))
             (mkFn 1 "atan2" ["a"; "b"] [])).
    + reflexivity.
    + vm_compute. lia.
  - apply (proj1 (proj2 (proj2 (call_lowering "atan2"
                                  [VariableExprAST "y"; VariableExprAST "z"]
                                  inside_toplevel))
                    (mkFn 1 "atan2" ["a"; "b"] []) eq_refl eq_refl)
             [] (VariableExprAST "y") [VariableExprAST "z"] [] inside_toplevel).
    + reflexivity.
    + constructor.
    + reflexivity.
  - apply (proj2 (proj2 (proj2 (call_lowering "atan2"
                                  [NumberExprAST 1; NumberExprAST 2]
                                  inside_toplevel))
                    (mkFn 1 "atan2" ["a"; "b"] []) eq_refl eq_refl)
             [ConstantFP 1; ConstantFP 2] inside_toplevel).
    repeat econstructor.
Defined.

(** ** Execution of lowered expressions *)

Lemma run_more_fuel m ext fuel : forall c r k,
  run fuel m ext c = Some r -> run (fuel + k) m ext c = Some r.
Proof.
  induction fuel as [|fuel IH]; intros c r k H.
  - destruct c; [discriminate|]. cbn in *. destruct k; exact H.
  - destruct c as [stack trace|v trace]; [|exact H].
    cbn in *. destruct (step m ext stack trace); [|discriminate].
    now apply IH.
Qed.

Lemma run_toplevel_more_fuel fuel k ext s e r :
  run_toplevel fuel ext s e = Some r -> run_toplevel (fuel + k) ext s e = Some r.
Proof.
  unfold run_toplevel, call.
  destruct (FunctionAST_Codegen (TopLevelExpr e) s) as [[F|] s'|]; try discriminate.
  destruct (lookupF F (TheModule s')); [|discriminate].
  destruct (enter f [] 0); [|discriminate].
  apply run_more_fuel.
Qed.

Lemma run_toplevel_deterministic f1 f2 ext s e r1 r2 :
  run_toplevel f1 ext s e = Some r1 -> run_toplevel f2 ext s e = Some r2 -> r1 = r2.
Proof.
  intros H1 H2.
  apply (run_toplevel_more_fuel _ f2) in H1.
  apply (run_toplevel_more_fuel _ f1) in H2.
  rewrite Nat.add_comm in H2. congruence.
Qed.

Lemma loop_example_trace (ext : string -> list float -> float) :
  run_toplevel 60 ext with_externs loop_example
  = Some (0%float, [("putchard", [1%float]); ("putchard", [2%float]);
                    ("putchard", [3%float]); ("putchard", [4%float])]).
Proof. vm_compute. reflexivity. Qed.

(** C1 (as amended): the loop [for i = 1, i < 4, 1.0 in putchard(i)] lowers
    to code whose body executes exactly 4 times, with [i] = 1, 2, 3 and 4:
    the end condition is computed from the value [i] has before the step is
    added.  The value of the loop construct is the constant 0.0, and so is
    the result of running it, whatever [putchard] returns. *)
Theorem loop_example_runs_four_times (ext : string -> list float -> float) (k : nat) :
  run_toplevel (60 + k) ext with_externs loop_example
  = Some (0%float, [("putchard", [1%float]); ("putchard", [2%float]);
                    ("putchard", [3%float]); ("putchard", [4%float])])
  /\ exists s', Codegen loop_example inside_toplevel
                = Done (Some (ConstantFP 0%float)) s'.
Proof.
  split.
  - apply run_toplevel_more_fuel, loop_example_trace.
  - eexists. vm_compute. reflexivity.
Qed.

(** C1 (as stated) fails: however long the lowered loop is run, its trace is
    never the three calls [putchard(1)], [putchard(2)], [putchard(3)]. *)
Lemma loop_example_not_three_times :
  ~ exists fuel,
      run_toplevel fuel (fun _ _ => 0%float) with_externs loop_example
      = Some (0%float, [("putchard", [1%float]); ("putchard", [2%float]);
                        ("putchard", [3%float])]).
Proof.
  intros [fuel H].
  pose proof (loop_example_trace (fun _ _ => 0%float)) as H4.
  pose proof (run_toplevel_deterministic _ _ _ _ _ _ _ H H4) as E.
  apply (f_equal (fun r => length (snd r))) in E. cbn in E. discriminate.
Qed.

(** ** Lowering cannot tell a null entry from a missing one *)

Lemma scope_equiv_refl s : scope_equiv s s.
Proof. repeat split. Qed.

Lemma respects_ret {A} (a : A) : respects (ret a).
Proof. intros s1 s2 H. cbn. auto. Qed.

Lemma respects_bind {A B} (m : M A) (k : A -> M B) :
  respects m -> (forall a, respects (k a)) -> respects (bind m k).
Proof.
  intros Hm Hk s1 s2 H. specialize (Hm s1 s2 H). unfold bind, same_outcome in *.
  destruct (m s1) as [a1 t1|], (m s2) as [a2 t2|]; try contradiction; auto.
  destruct Hm as [-> Ht]. apply (Hk a2 t1 t2 Ht).
Qed.

Lemma respects_assert_fail {A} : respects (@assert_fail A).
Proof. intros s1 s2 H. exact I. Qed.

Lemma respects_get {A} (f : state -> A) :
  (forall s1 s2, scope_equiv s1 s2 -> f s1 = f s2) -> respects (get f).
Proof. intros Hf s1 s2 H. cbn. split; auto. Qed.

Lemma respects_modify (f : state -> state) :
  (forall s1 s2, scope_equiv s1 s2 -> scope_equiv (f s1) (f s2)) ->
  respects (modify f).
Proof. intros Hf s1 s2 H. cbn. split; auto. Qed.

Lemma respects_fresh : respects fresh.
Proof.
  intros s1 s2 (Hr & Hb & Hm & Hi & Hn & He). cbn.
  rewrite Hn. repeat split; cbn; auto.
Qed.

Lemma respects_getFunction name :
  respects (get (fun s => getFunction (TheModule s) name)).
Proof. apply respects_get. intros s1 s2 (_ & _ & Hm & _). now rewrite Hm. Qed.

Lemma respects_get_TheModule : respects (get TheModule).
Proof. apply respects_get. intros s1 s2 (_ & _ & Hm & _). exact Hm. Qed.

Lemma respects_get_InsertBlock : respects (get InsertBlock).
Proof. apply respects_get. intros s1 s2 (_ & _ & _ & Hi & _). exact Hi. Qed.

Lemma respects_GetInsertParent : respects GetInsertParent.
Proof. apply respects_get. intros s1 s2 (_ & _ & _ & Hi & _). now rewrite Hi. Qed.

Lemma respects_GetInsertBlock : respects GetInsertBlock.
Proof. apply respects_get. intros s1 s2 (_ & _ & _ & Hi & _). now rewrite Hi. Qed.

Lemma respects_set_TheModule g : respects (modify (set_TheModule g)).
Proof.
  apply respects_modify. intros s1 s2 (Hr & Hb & Hm & Hi & Hn & He).
  repeat split; cbn; auto. now rewrite Hm.
Qed.

Lemma respects_set_InsertBlock p : respects (modify (set_InsertBlock p)).
Proof.
  apply respects_modify. intros s1 s2 (Hr & Hb & Hm & Hi & Hn & He).
  repeat split; cbn; auto.
Qed.

Lemma respects_set_stderr g : respects (modify (set_stderr g)).
Proof.
  apply respects_modify. intros s1 s2 (Hr & Hb & Hm & Hi & Hn & He).
  repeat split; cbn; auto. now rewrite He.
Qed.

Lemma respects_set_BinopPrecedence g : respects (modify (set_BinopPrecedence g)).
Proof.
  apply respects_modify. intros s1 s2 (Hr & Hb & Hm & Hi & Hn & He).
  repeat split; cbn; auto. now rewrite Hb.
Qed.

Lemma resolve_insert s name p n :
  resolve (set_NamedValues (insert name p) s) n
  = if decide (n = name) then p else resolve s n.
Proof.
  unfold resolve. cbn. destruct (decide (n = name)) as [->|Hne].
  - rewrite lookup_insert_eq. now destruct p.
  - now rewrite lookup_insert_ne.
Qed.

Lemma resolve_delete s name n :
  resolve (set_NamedValues (delete name) s) n
  = if decide (n = name) then None else resolve s n.
Proof.
  unfold resolve. cbn. destruct (decide (n = name)) as [->|Hne].
  - now rewrite lookup_delete_eq.
  - now rewrite lookup_delete_ne.
Qed.

Lemma respects_NamedValues_assign name p : respects (NamedValues_assign name p).
Proof.
  apply respects_modify. intros s1 s2 (Hr & Hb & Hm & Hi & Hn & He).
  repeat split; cbn; auto. intros n. rewrite !resolve_insert.
  destruct (decide (n = name)); auto.
Qed.

Lemma respects_NamedValues_erase name : respects (NamedValues_erase name).
Proof.
  apply respects_modify. intros s1 s2 (Hr & Hb & Hm & Hi & Hn & He).
  repeat split; cbn; auto. intros n. rewrite !resolve_delete.
  destruct (decide (n = name)); auto.
Qed.

Lemma respects_NamedValues_clear : respects NamedValues_clear.
Proof.
  apply respects_modify. intros s1 s2 (Hr & Hb & Hm & Hi & Hn & He).
  repeat split; cbn; auto.
Qed.

Lemma respects_NamedValues_index name : respects (NamedValues_index name).
Proof.
  intros s1 s2 H.
  destruct (NamedValues_index_resolve name s1)
    as (t1 & E1 & R1 & M1 & Er1 & N1 & I1 & B1 & _).
  destruct (NamedValues_index_resolve name s2)
    as (t2 & E2 & R2 & M2 & Er2 & N2 & I2 & B2 & _).
  rewrite E1, E2. destruct H as (Hr & Hb & Hm & Hi & Hn & He).
  cbn. split; [apply Hr|].
  repeat split; try congruence.
Qed.

Ltac respects_leaf :=
  first
    [ assumption
    | apply respects_ret
    | apply respects_assert_fail
    | apply respects_fresh
    | apply respects_getFunction
    | apply respects_get_TheModule
    | apply respects_get_InsertBlock
    | apply respects_GetInsertParent
    | apply respects_GetInsertBlock
    | apply respects_set_TheModule
    | apply respects_set_InsertBlock
    | apply respects_set_stderr
    | apply respects_set_BinopPrecedence
    | apply respects_NamedValues_assign
    | apply respects_NamedValues_erase
    | apply respects_NamedValues_clear
    | apply respects_NamedValues_index ].

Ltac respects_step :=
  lazymatch goal with
  | |- respects (bind _ _) => apply respects_bind; [|intros ?]
  | |- respects (match ?x with _ => _ end) => destruct x
  | |- respects _ => respects_leaf
  end.

Ltac respects_prim d := unfold d; repeat respects_step.

Lemma respects_Insert op : respects (Insert op).
Proof. respects_prim Insert. Qed.

Lemma respects_ErrorV Str : respects (ErrorV Str).
Proof. unfold ErrorV, Error. repeat respects_step. Qed.

Lemma respects_ErrorF Str : respects (ErrorF Str).
Proof. unfold ErrorF, Error. repeat respects_step. Qed.

Lemma respects_CreateStore v p : respects (CreateStore v p).
Proof. unfold CreateStore, Insert. repeat respects_step. Qed.

Lemma respects_CreateBr d : respects (CreateBr d).
Proof. unfold CreateBr, Insert. repeat respects_step. Qed.

Lemma respects_CreateCondBr c t f : respects (CreateCondBr c t f).
Proof. unfold CreateCondBr, Insert. repeat respects_step. Qed.

Lemma respects_CreateRet v : respects (CreateRet v).
Proof. unfold CreateRet, Insert. repeat respects_step. Qed.

Lemma respects_SetInsertPoint fn BB : respects (SetInsertPoint fn BB).
Proof. unfold SetInsertPoint. repeat respects_step. Qed.

Lemma respects_push_back_block fn BB : respects (push_back_block fn BB).
Proof. unfold push_back_block. repeat respects_step. Qed.

Lemma respects_BasicBlock_Create name parent : respects (BasicBlock_Create name parent).
Proof. unfold BasicBlock_Create, push_back_block. repeat respects_step. Qed.

Lemma respects_CreateEntryBlockAlloca fn name : respects (CreateEntryBlockAlloca fn name).
Proof. unfold CreateEntryBlockAlloca. repeat respects_step. Qed.

Ltac respects_auto :=
  unfold CreateLoad, CreateFAdd, CreateFSub, CreateFMul, CreateFCmpULT,
    CreateFCmpONE, CreateUIToFP, CreateCall, CreatePHI;
  repeat lazymatch goal with
    | |- respects (bind _ _) => apply respects_bind; [|intros ?]
    | |- respects (match ?x with _ => _ end) => destruct x
    | |- respects (ret _) => apply respects_ret
    | |- respects assert_fail => apply respects_assert_fail
    | |- respects (ErrorV _) => apply respects_ErrorV
    | |- respects (ErrorF _) => apply respects_ErrorF
    | |- respects (CreateStore _ _) => apply respects_CreateStore
    | |- respects (CreateBr _) => apply respects_CreateBr
    | |- respects (CreateCondBr _ _ _) => apply respects_CreateCondBr
    | |- respects (CreateRet _) => apply respects_CreateRet
    | |- respects (SetInsertPoint _ _) => apply respects_SetInsertPoint
    | |- respects (push_back_block _ _) => apply respects_push_back_block
    | |- respects (BasicBlock_Create _ _) => apply respects_BasicBlock_Create
    | |- respects (CreateEntryBlockAlloca _ _) => apply respects_CreateEntryBlockAlloca
    | |- respects (Insert _) => apply respects_Insert
    | |- respects GetInsertParent => apply respects_GetInsertParent
    | |- respects GetInsertBlock => apply respects_GetInsertBlock
    | |- respects (NamedValues_index _) => apply respects_NamedValues_index
    | |- respects (NamedValues_assign _ _) => apply respects_NamedValues_assign
    | |- respects (NamedValues_erase _) => apply respects_NamedValues_erase
    | |- respects NamedValues_clear => apply respects_NamedValues_clear
    | |- respects (get (fun s => getFunction (TheModule s) _)) =>
        apply respects_getFunction
    | |- respects (Codegen _) => solve [eauto]
    end.

Lemma respects_CallArgs cg Args :
  Forall (fun a => respects (cg a)) Args ->
  forall ArgsV, respects (CallArgs cg Args ArgsV).
Proof.
  induction 1 as [|a Args Ha _ IH]; intros ArgsV; cbn [CallArgs].
  - apply respects_ret.
  - apply respects_bind; [exact Ha|]. intros [v|]; [apply IH | apply respects_ret].
Qed.

Lemma respects_VarBind cg fn VarNames :
  Forall (fun p => forall e, snd p = Some e -> respects (cg e)) VarNames ->
  forall Olds, respects (VarBind cg fn VarNames Olds).
Proof.
  induction 1 as [|[x init] VarNames Hp _ IH]; intros Olds; cbn [VarBind].
  - apply respects_ret.
  - apply respects_bind.
    + destruct init as [e|]; [now apply Hp | apply respects_ret].
    + intros [v|]; [|apply respects_ret].
      respects_auto; apply IH.
Qed.

Lemma respects_VarRestore {A} (VarNames : list (string * A)) :
  forall Olds, respects (VarRestore VarNames Olds).
Proof.
  induction VarNames as [|[x i] VarNames IH]; intros [|o Olds]; cbn [VarRestore];
    respects_auto; apply IH.
Qed.

Lemma respects_Codegen e : respects (Codegen e).
Proof.
  induction e as [Val|Name|Opcode Operand IH|Op LHS RHS IHL IHR|Callee Args IH
                  |Cond Then Else IHc IHt IHe
                  |VarName Start End Step Body IHs IHe IHst IHb
                  |VarNames Body IHv IHb] using ExprAST_nested_ind;
    cbn [Codegen].
  - respects_auto.
  - respects_auto.
  - respects_auto.
  - destruct (decide (Op = binary_eq)).
    + destruct LHS; respects_auto.
    + unfold CreateFAdd, CreateFSub, CreateFMul, CreateFCmpULT, CreateUIToFP, CreateCall.
      respects_auto.
  - unfold CreateCall. respects_auto.
    apply respects_CallArgs. assumption.
  - unfold CreateFCmpONE, CreatePHI. respects_auto.
  - unfold CreateLoad, CreateFAdd, CreateFCmpONE. respects_auto.
    all: eauto.
  - respects_auto.
    + apply respects_VarBind. assumption.
    + apply respects_VarRestore.
Qed.

Lemma scope_equiv_null_entry s name :
  NamedValues s !! name = None ->
  scope_equiv s (set_NamedValues (insert name None) s).
Proof.
  intros Habs. repeat split; cbn; auto.
  intros n. rewrite resolve_insert. destruct (decide (n = name)) as [->|]; auto.
  unfold resolve. now rewrite Habs.
Qed.

(** C10: a scope-table entry that maps a name to the null handle cannot be
    told from the name being absent.  In both states a reference to the name
    and an assignment to it fail with "Unknown variable name", and lowering
    any expression gives the same result, emits the same code and prints the
    same diagnostics, and ends in states that again resolve every name
    alike. *)
Theorem null_entry_indistinguishable (s : state) (name : string) :
  NamedValues s !! name = None ->
  forall s0, s0 = s \/ s0 = set_NamedValues (insert name None) s ->
  (exists t, Codegen (VariableExprAST name) s0 = Done None t
             /\ last_error t = Some "Unknown variable name")
  /\ (forall RHS Val s1,
        Codegen RHS s0 = Done (Some Val) s1 -> resolve s1 name = None ->
        exists t, Codegen (BinaryExprAST binary_eq (VariableExprAST name) RHS) s0
                  = Done None t
                  /\ last_error t = Some "Unknown variable name")
  /\ (forall e, same_outcome (Codegen e s)
                             (Codegen e (set_NamedValues (insert name None) s))).
Proof.
  intros Habs s0 Hs0.
  assert (Hres : resolve s0 name = None).
  { destruct Hs0 as [->| ->].
    - unfold resolve. now rewrite Habs.
    - rewrite resolve_insert. now rewrite decide_True. }
  split; [|split].
  - destruct (variable_unbound name s0 Hres) as (t & H1 & H2 & _). eauto.
  - intros RHS Val s1 H Hr.
    destruct (assign_unbound name RHS s0 Val s1 H Hr) as (t & H1 & H2 & _). eauto.
  - intros e. apply respects_Codegen. now apply scope_equiv_null_entry.
Qed.

Lemma null_entry_indistinguishable_witness :
  (exists t, Codegen (VariableExprAST "y") (set_NamedValues (insert "y" None) inside_f)
             = Done None t
             /\ last_error t = Some "Unknown variable name")
  /\ same_outcome
       (Codegen (BinaryExprAST "+" (VariableExprAST "x") (VariableExprAST "y")) inside_f)
       (Codegen (BinaryExprAST "+" (VariableExprAST "x") (VariableExprAST "y"))
                (set_NamedValues (insert "y" None) inside_f)).
Proof.
  assert (Habs : NamedValues inside_f !! "y" = None) by reflexivity.
  split.
  - apply (proj1 (null_entry_indistinguishable inside_f "y" Habs
                    (set_NamedValues (insert "y" None) inside_f)
                    (or_intror eq_refl))).
  - apply (proj2 (proj2 (null_entry_indistinguishable inside_f "y" Habs
                           inside_f (or_introl eq_refl)))).
Defined.

(** ** What lowering leaves in place: the module's functions, the registry *)

Lemma fn_le_refl F : fn_le F F.
Proof. repeat split; auto. Qed.

Lemma fn_le_trans F G H : fn_le F G -> fn_le G H -> fn_le F H.
Proof.
  intros (a1 & a2 & a3 & a4) (b1 & b2 & b3 & b4).
  repeat split; try congruence. auto.
Qed.

Lemma mod_le_refl m : Forall2 fn_le m m.
Proof. induction m; constructor; auto using fn_le_refl. Qed.

Lemma mod_le_trans m1 : forall m2 m3,
  Forall2 fn_le m1 m2 -> Forall2 fn_le m2 m3 -> Forall2 fn_le m1 m3.
Proof.
  induction m1 as [|F m1 IH]; intros m2 m3 H12 H23;
    inversion H12; subst; inversion H23; subst; constructor.
  - eapply fn_le_trans; eauto.
  - eapply IH; eauto.
Qed.

Lemma grows_refl s : grows s s.
Proof. repeat split; auto using mod_le_refl. Qed.

Lemma grows_trans s1 s2 s3 : grows s1 s2 -> grows s2 s3 -> grows s1 s3.
Proof.
  intros (a1 & a2 & a3) (b1 & b2 & b3). repeat split.
  - lia.
  - congruence.
  - eapply mod_le_trans; eauto.
Qed.

Lemma mod_le_update_fn fn g m :
  (forall F, fn_le F (g F)) -> Forall2 fn_le m (update_fn fn g m).
Proof.
  intros Hg. induction m as [|F m IH]; cbn; constructor; auto.
  destruct (Nat.eqb (f_id F) fn); auto using fn_le_refl.
Qed.

Lemma fn_le_update_blocks g F :
  (forall bs, bs <> [] -> g bs <> []) -> fn_le F (update_blocks g F).
Proof.
  intros Hg. repeat split; auto. unfold empty. cbn.
  destruct (f_blocks F) as [|B bs] eqn:E; [discriminate|]. intros _.
  destruct (g (B :: bs)) eqn:E'; auto. now apply Hg in E'.
Qed.

Lemma append_inst_nonempty bb i bs : bs <> [] -> append_inst bb i bs <> [].
Proof. destruct bs; [congruence|discriminate]. Qed.

Lemma prepend_entry_nonempty i bs : bs <> [] -> prepend_entry i bs <> [].
Proof. destruct bs; [congruence|discriminate]. Qed.

Lemma push_back_nonempty (BB : BasicBlock) bs : bs <> [] -> bs ++ [BB] <> [].
Proof. destruct bs; [congruence|discriminate]. Qed.

Lemma keeps_ret {A} (a : A) : keeps (ret a).
Proof. intros s a' s' H. inversion H; subst. apply grows_refl. Qed.

Lemma keeps_bind {A B} (m : M A) (k : A -> M B) :
  keeps m -> (forall a, keeps (k a)) -> keeps (bind m k).
Proof.
  intros Hm Hk s b s' H. unfold bind in H.
  destruct (m s) as [a s1|] eqn:E; [|discriminate].
  eapply grows_trans; [eapply Hm|eapply Hk]; eauto.
Qed.

Lemma keeps_assert_fail {A} : keeps (@assert_fail A).
Proof. intros s a s' H. discriminate. Qed.

Lemma keeps_get {A} (f : state -> A) : keeps (get f).
Proof. intros s a s' H. inversion H; subst. apply grows_refl. Qed.

Lemma keeps_modify (f : state -> state) :
  (forall s, grows s (f s)) -> keeps (modify f).
Proof. intros Hf s a s' H. inversion H; subst. apply Hf. Qed.

Lemma keeps_fresh : keeps fresh.
Proof.
  intros s a s' H. inversion H; subst. repeat split; cbn; auto using mod_le_refl.
Qed.

Lemma keeps_set_NamedValues g : keeps (modify (set_NamedValues g)).
Proof. apply keeps_modify. intros s. repeat split; cbn; auto using mod_le_refl. Qed.

Lemma keeps_set_InsertBlock p : keeps (modify (set_InsertBlock p)).
Proof. apply keeps_modify. intros s. repeat split; cbn; auto using mod_le_refl. Qed.

Lemma keeps_set_stderr g : keeps (modify (set_stderr g)).
Proof. apply keeps_modify. intros s. repeat split; cbn; auto using mod_le_refl. Qed.

Lemma keeps_update_blocks fn g :
  (forall bs, bs <> [] -> g bs <> []) ->
  keeps (modify (set_TheModule (update_fn fn (update_blocks g)))).
Proof.
  intros Hg. apply keeps_modify. intros s. repeat split; cbn; auto.
  apply mod_le_update_fn. intros F. now apply fn_le_update_blocks.
Qed.

Lemma keeps_NamedValues_index name : keeps (NamedValues_index name).
Proof.
  intros s a s' H. unfold NamedValues_index in H.
  destruct (NamedValues s !! name); inversion H; subst;
    repeat split; cbn; auto using mod_le_refl.
Qed.

Ltac keeps_step :=
  first
    [ apply keeps_ret
    | apply keeps_assert_fail
    | apply keeps_fresh
    | apply keeps_get
    | apply keeps_set_NamedValues
    | apply keeps_set_InsertBlock
    | apply keeps_set_stderr
    | apply keeps_NamedValues_index
    | apply keeps_update_blocks;
      first [ apply append_inst_nonempty | apply prepend_entry_nonempty
            | apply push_back_nonempty ]
    | assumption
    | apply keeps_bind; [|intros ?]
    | match goal with
      | |- keeps (match ?x with _ => _ end) => destruct x
      | |- keeps (if ?b then _ else _) => destruct b
      end ].

Ltac keeps_unfold :=
  unfold ErrorV, ErrorF, Error, CreateLoad, CreateStore, CreateFAdd, CreateFSub,
    CreateFMul, CreateFCmpULT, CreateFCmpONE, CreateUIToFP, CreateCall, CreatePHI,
    CreateBr, CreateCondBr, CreateRet, Insert, GetInsertParent, GetInsertBlock,
    SetInsertPoint, push_back_block, BasicBlock_Create, CreateEntryBlockAlloca,
    NamedValues_assign, NamedValues_erase, NamedValues_clear.

Ltac keeps_auto := keeps_unfold; repeat keeps_step.

Lemma keeps_CallArgs cg Args :
  Forall (fun a => keeps (cg a)) Args ->
  forall ArgsV, keeps (CallArgs cg Args ArgsV).
Proof.
  induction 1 as [|a Args Ha _ IH]; intros ArgsV; cbn [CallArgs].
  - apply keeps_ret.
  - apply keeps_bind; [exact Ha|]. intros [v|]; [apply IH | apply keeps_ret].
Qed.

Lemma keeps_VarBind cg fn VarNames :
  Forall (fun p => forall e, snd p = Some e -> keeps (cg e)) VarNames ->
  forall Olds, keeps (VarBind cg fn VarNames Olds).
Proof.
  induction 1 as [|[x init] VarNames Hp _ IH]; intros Olds; cbn [VarBind].
  - apply keeps_ret.
  - apply keeps_bind.
    + destruct init as [e|]; [now apply Hp | apply keeps_ret].
    + intros [v|]; [|apply keeps_ret].
      keeps_auto; apply IH.
Qed.

Lemma keeps_VarRestore {A} (VarNames : list (string * A)) :
  forall Olds, keeps (VarRestore VarNames Olds).
Proof.
  induction VarNames as [|[x i] VarNames IH]; intros [|o Olds]; cbn [VarRestore];
    keeps_auto; apply IH.
Qed.

Lemma keeps_Codegen e : keeps (Codegen e).
Proof.
  induction e as [Val|Name|Opcode Operand IH|Op LHS RHS IHL IHR|Callee Args IH
                  |Cond Then Else IHc IHt IHe
                  |VarName Start End Step Body IHs IHe IHst IHb
                  |VarNames Body IHv IHb] using ExprAST_nested_ind;
    cbn [Codegen].
  - keeps_auto.
  - keeps_auto.
  - keeps_auto.
  - destruct (decide (Op = binary_eq)).
    + destruct LHS; keeps_auto.
    + keeps_auto.
  - keeps_auto. apply keeps_CallArgs. assumption.
  - keeps_auto.
  - keeps_auto. all: eauto.
  - keeps_auto.
    + apply keeps_VarBind. assumption.
    + apply keeps_VarRestore.
Qed.

(** ** Prototypes *)

Lemma length_append_string (a b : string) :
  String.length (a +:+ b) = String.length a + String.length b.
Proof. induction a as [|c a IH]; simpl; [reflexivity | now rewrite IH]. Qed.

Lemma uniquify_length fuel : forall m name,
  String.length name <= String.length (uniquify fuel m name).
Proof.
  induction fuel as [|fuel IH]; intros m name; cbn; [lia|].
  destruct (getFunction m name); [|lia].
  specialize (IH m (name +:+ "1")). rewrite length_append_string in IH. lia.
Qed.

Lemma uniquify_taken fuel m name F :
  getFunction m name = Some F -> uniquify (S fuel) m name <> name.
Proof.
  intros H E. cbn in E. rewrite H in E.
  pose proof (uniquify_length fuel m (name +:+ "1")) as L.
  rewrite E, length_append_string in L. cbn in L. lia.
Qed.

Lemma uniquify_free fuel m name :
  getFunction m name = None -> uniquify (S fuel) m name = name.
Proof. intros H. cbn. now rewrite H. Qed.

Lemma filter_fresh_id (m : list Function) n Fnew :
  Forall (fun G => f_id G < n) m -> f_id Fnew = n ->
  filter (fun G => f_id G <> n) (m ++ [Fnew]) = m.
Proof.
  intros Hm Hn. rewrite filter_app.
  rewrite (filter_cons_False _ Fnew []) by (intros H; now apply H).
  rewrite filter_nil, app_nil_r.
  induction Hm as [|G m HG _ IH]; [reflexivity|].
  rewrite filter_cons_True by lia. now rewrite IH.
Qed.

Lemma created_then_erased s Fnew :
  ids_fresh s -> f_id Fnew = next_id s ->
  set_TheModule (filter (fun G => f_id G <> next_id s))
    (set_TheModule (fun m => m ++ [Fnew]) (set_next_id (S (next_id s)) s))
  = set_next_id (S (next_id s)) s.
Proof.
  intros Hf Hid. unfold set_TheModule, set_next_id. cbn.
  now rewrite filter_fresh_id.
Qed.

Lemma PrototypeAST_Codegen_existing P s F :
  ids_fresh s ->
  getFunction (TheModule s) (Name P) = Some F ->
  PrototypeAST_Codegen P s
  = let s1 := set_next_id (S (next_id s)) s in
    if negb (empty F) then ErrorF "redefinition of function" s1
    else if negb (Nat.eqb (arg_size F) (length (Args P))) then
      ErrorF "redefinition of function with different # args" s1
    else
      Done (Some (f_id F))
           (set_TheModule
              (update_fn (f_id F)
                 (fun G => mkFn (f_id G) (f_name G) (Args P) (f_blocks G))) s1).
Proof.
  intros Hf Hg. unfold PrototypeAST_Codegen, Function_Create.
  unfold bind, fresh, get, modify, ret. cbn -[uniquify].
  rewrite decide_True by (eapply uniquify_taken; eauto).
  unfold eraseFromParent, bind, get, modify. cbn -[uniquify].
  rewrite filter_fresh_id by auto. rewrite Hg.
  unfold setArgNames, ErrorF, Error, bind, modify, ret.
  rewrite created_then_erased by auto.
  destruct (empty F); cbn; [|reflexivity].
  destruct (Nat.eqb (arg_size F) (length (Args P))); cbn; reflexivity.
Qed.

Lemma update_fn_fresh n g (m : list Function) :
  Forall (fun G => f_id G < n) m -> update_fn n g m = m.
Proof.
  unfold update_fn.
  induction 1 as [|G m HG _ IH]; cbn [map]; [reflexivity|].
  rewrite IH. destruct (Nat.eqb_spec (f_id G) n); [lia|reflexivity].
Qed.

Lemma PrototypeAST_Codegen_new P s :
  ids_fresh s ->
  getFunction (TheModule s) (Name P) = None ->
  PrototypeAST_Codegen P s
  = Done (Some (next_id s))
         (set_TheModule
            (fun m => m ++ [mkFn (next_id s) (Name P) (Args P) []])
            (set_next_id (S (next_id s)) s)).
Proof.
  intros Hf Hg. unfold PrototypeAST_Codegen, Function_Create.
  unfold bind, fresh, get, modify, ret. cbn -[uniquify].
  rewrite uniquify_free by auto.
  rewrite decide_False by (intros H; now apply H).
  unfold setArgNames, bind, modify, ret. cbn.
  unfold set_TheModule. cbn. unfold update_fn. rewrite map_app.
  fold (update_fn (next_id s)
          (fun G => mkFn (f_id G) (f_name G) (Args P) (f_blocks G)) (TheModule s)).
  rewrite update_fn_fresh by auto. cbn. now rewrite Nat.eqb_refl.
Qed.

Lemma ids_fresh_grows s s' : ids_fresh s -> grows s s' -> ids_fresh s'.
Proof.
  unfold ids_fresh. intros Hf (Hn & _ & Hm). revert Hf.
  induction Hm as [|F F' m m' HF _ IH]; intros Hf; constructor.
  - inversion Hf; subst. destruct HF as (-> & _). lia.
  - inversion Hf; subst. auto.
Qed.

Lemma getFunction_grows m m' name F :
  Forall2 fn_le m m' -> getFunction m name = Some F ->
  exists F', getFunction m' name = Some F' /\ fn_le F F'.
Proof.
  unfold getFunction. destruct (decide (name = "")); [discriminate|].
  induction 1 as [|G G' m m' HG _ IH]; cbn; [discriminate|].
  destruct HG as (Hid & Hname & Hargs & Hemp). rewrite Hname.
  destruct (bool_decide (f_name G = name)).
  - intros [= ->]. eexists. split; [reflexivity|]. repeat split; auto.
  - exact IH.
Qed.


(** ** Function definitions *)

Lemma FunctionAST_Codegen_enter Fn s :
  FunctionAST_Codegen Fn s
  = match enter_function (Proto Fn) s with
    | Done (Some F) s1 =>
        match Codegen (Body Fn) s1 with
        | Done (Some RetVal) s2 => Done (Some F) (inserted (Ret RetVal) s2)
        | Done None s2 => Done None (rolled_back Fn F s2)
        | AssertFail => AssertFail
        end
    | Done None s1 => Done None s1
    | AssertFail => AssertFail
    end.
Proof.
  unfold FunctionAST_Codegen, enter_function, rolled_back, bind.
  destruct (NamedValues_clear s) as [[] s0|]; [|reflexivity].
  destruct (PrototypeAST_Codegen (Proto Fn) s0) as [[F|] s1|]; try reflexivity.
  match goal with |- context [match ?m s1 with Done _ _ => _ | AssertFail => _ end] =>
    destruct (m s1) as [[] s2|] end; [|reflexivity].
  destruct (BasicBlock_Create "entry" (Some F) s2) as [BB s3|]; [|reflexivity].
  destruct (SetInsertPoint F BB s3) as [[] s4|]; [|reflexivity].
  destruct (CreateArgumentAllocas (Proto Fn) F s4) as [[] s5|]; [|reflexivity].
  cbn [ret].
  destruct (Codegen (Body Fn) s5) as [[v|] s6|]; try reflexivity.
  unfold eraseFromParent, modify, ret.
  destruct (isBinaryOp (Proto Fn)); reflexivity.
Qed.

Lemma bind_inv {A B} (m : M A) (k : A -> M B) s b s' :
  bind m k s = Done b s' -> exists a s1, m s = Done a s1 /\ k a s1 = Done b s'.
Proof.
  unfold bind. destruct (m s) as [a s1|]; [|discriminate]. eauto.
Qed.

Lemma getFunction_Some_In m name G :
  getFunction m name = Some G -> In G m /\ f_name G = name /\ name <> "".
Proof.
  unfold getFunction. destruct (decide (name = "")); [discriminate|].
  intros H. apply find_some in H as [Hin Hb].
  apply bool_decide_eq_true in Hb. auto.
Qed.

Lemma getFunction_None_In m name G :
  getFunction m name = None -> name <> "" -> In G m -> f_name G <> name.
Proof.
  unfold getFunction. destruct (decide (name = "")); [contradiction|].
  intros H _ Hin E. apply (find_none _ _ H) in Hin.
  apply bool_decide_eq_false in Hin. contradiction.
Qed.

Lemma getFunction_app_new m name Fnew :
  getFunction m name = None -> name <> "" -> f_name Fnew = name ->
  getFunction (m ++ [Fnew]) name = Some Fnew.
Proof.
  unfold getFunction. destruct (decide (name = "")); [contradiction|].
  intros H _ E. induction m as [|G m IH]; cbn in *.
  - now rewrite bool_decide_eq_true_2.
  - destruct (bool_decide (f_name G = name)); [discriminate|auto].
Qed.

Lemma getFunction_update_fn fn g m name :
  (forall G, f_name (g G) = f_name G) ->
  getFunction (update_fn fn g m) name
  = option_map (fun G => if Nat.eqb (f_id G) fn then g G else G) (getFunction m name).
Proof.
  intros Hg. unfold getFunction. destruct (decide (name = "")); [reflexivity|].
  unfold update_fn. induction m as [|G m IH]; cbn; [reflexivity|].
  replace (f_name (if Nat.eqb (f_id G) fn then g G else G)) with (f_name G)
    by (destruct (Nat.eqb (f_id G) fn); now rewrite ?Hg).
  destruct (bool_decide (f_name G = name)); [reflexivity|exact IH].
Qed.

Lemma In_update_fn fn g m G' :
  In G' (update_fn fn g m) ->
  exists G, In G m /\ G' = if Nat.eqb (f_id G) fn then g G else G.
Proof.
  unfold update_fn. intros H. apply in_map_iff in H as (G & E & Hin). eauto.
Qed.

Lemma In_grows m m' G' :
  Forall2 fn_le m m' -> In G' m' -> exists G, In G m /\ fn_le G G'.
Proof.
  induction 1 as [|G0 G0' m m' HG _ IH]; cbn; [contradiction|].
  intros [<-|Hin]; [eauto|].
  destruct (IH Hin) as (G & HinG & Hle). eauto.
Qed.

Lemma names_unique_grows m m' :
  Forall2 fn_le m m' -> names_unique m -> names_unique m'.
Proof.
  intros Hle Hu G1' G2' H1 H2 En Hne.
  destruct (In_grows _ _ _ Hle H1) as (G1 & Hin1 & (i1 & n1 & _)).
  destruct (In_grows _ _ _ Hle H2) as (G2 & Hin2 & (i2 & n2 & _)).
  rewrite i1, i2. apply Hu; congruence.
Qed.

Lemma In_update_fn_sig fn g m G' :
  (forall G, f_id (g G) = f_id G /\ f_name (g G) = f_name G) ->
  In G' (update_fn fn g m) ->
  exists G, In G m /\ f_id G' = f_id G /\ f_name G' = f_name G.
Proof.
  intros Hg H. apply In_update_fn in H as (G & Hin & ->).
  exists G. split; [exact Hin|].
  destruct (Nat.eqb (f_id G) fn); [apply Hg|auto].
Qed.

Lemma PrototypeAST_Codegen_spec P s F sA :
  ids_fresh s -> names_unique (TheModule s) ->
  PrototypeAST_Codegen P s = Done (Some F) sA ->
  ids_fresh sA /\ names_unique (TheModule sA)
  /\ BinopPrecedence sA = BinopPrecedence s
  /\ (forall G, In G (TheModule sA) -> f_name G = Name P -> Name P <> "" -> f_id G = F)
  /\ (Name P <> "" ->
      exists G, getFunction (TheModule sA) (Name P) = Some G /\ f_id G = F).
Proof.
  intros Hf Hu H.
  destruct (getFunction (TheModule s) (Name P)) as [G0|] eqn:Hg.
  - rewrite (PrototypeAST_Codegen_existing P s G0 Hf Hg) in H. cbn zeta in H.
    destruct (negb (empty G0)); [discriminate|].
    destruct (negb (Nat.eqb (arg_size G0) (length (Args P)))); [discriminate|].
    injection H as <- <-.
    cbn [TheModule set_TheModule set_next_id next_id BinopPrecedence].
    set (g := fun G => mkFn (f_id G) (f_name G) (Args P) (f_blocks G)).
    assert (Hg' : forall G, f_id (g G) = f_id G /\ f_name (g G) = f_name G)
      by (intros G; split; reflexivity).
    destruct (getFunction_Some_In _ _ _ Hg) as (Hin0 & Hn0 & Hne0).
    repeat split.
    + unfold ids_fresh in *.
      cbn [TheModule set_TheModule set_next_id next_id].
      apply List.Forall_forall. intros G' HG'.
      apply (In_update_fn_sig _ _ _ _ Hg') in HG' as (G & Hin & -> & _).
      rewrite List.Forall_forall in Hf. specialize (Hf G Hin). lia.
    + intros G1' G2' H1 H2 En Hne.
      apply (In_update_fn_sig _ _ _ _ Hg') in H1 as (G1 & Hin1 & -> & n1).
      apply (In_update_fn_sig _ _ _ _ Hg') in H2 as (G2 & Hin2 & -> & n2).
      apply Hu; congruence.
    + intros G' HG' En Hne.
      apply (In_update_fn_sig _ _ _ _ Hg') in HG' as (G & Hin & -> & n1).
      apply Hu; congruence.
    + intros _. rewrite getFunction_update_fn by (intros; reflexivity).
      rewrite Hg. cbn. rewrite Nat.eqb_refl. eexists. split; reflexivity.
  - rewrite (PrototypeAST_Codegen_new P s Hf Hg) in H.
    injection H as <- <-.
    cbn [TheModule set_TheModule set_next_id next_id BinopPrecedence].
    repeat split.
    + unfold ids_fresh in *.
      cbn [TheModule set_TheModule set_next_id next_id]. apply Forall_app. split.
      * eapply Forall_impl; [exact Hf|]. cbn. intros; lia.
      * constructor; [cbn; lia|constructor].
    + intros G1 G2 H1 H2 En Hne.
      apply in_app_iff in H1 as [H1|[<-|[]]]; apply in_app_iff in H2 as [H2|[<-|[]]];
        cbn in *; auto.
      * exfalso. eapply getFunction_None_In; eauto. congruence.
      * exfalso. eapply (getFunction_None_In _ _ G2 Hg); eauto.
    + intros G HG En Hne.
      apply in_app_iff in HG as [HG|[<-|[]]]; [|reflexivity].
      exfalso. eapply getFunction_None_In; eauto.
    + intros Hne. rewrite (getFunction_app_new _ (Name P)) by auto.
      eexists. split; reflexivity.
Qed.


Lemma keeps_ArgumentAllocas F Args : forall Idx, keeps (ArgumentAllocas F Args Idx).
Proof.
  induction Args as [|Arg Args IH]; intros Idx; cbn [ArgumentAllocas];
    keeps_auto; apply IH.
Qed.

Lemma keeps_BasicBlock_Create name parent : keeps (BasicBlock_Create name parent).
Proof. keeps_auto. Qed.

Lemma keeps_SetInsertPoint fn BB : keeps (SetInsertPoint fn BB).
Proof. keeps_auto. Qed.

Lemma keeps_CreateRet v : keeps (CreateRet v).
Proof. keeps_auto. Qed.

Lemma named_ids_grows m m' name F :
  Forall2 fn_le m m' ->
  (forall G, In G m -> f_name G = name -> name <> "" -> f_id G = F) ->
  (forall G, In G m' -> f_name G = name -> name <> "" -> f_id G = F).
Proof.
  intros Hle H G' Hin En Hne.
  destruct (In_grows _ _ _ Hle Hin) as (G & HinG & (i1 & n1 & _)).
  rewrite i1. apply H; congruence.
Qed.

Lemma enter_function_spec P s F s1 :
  ids_fresh s -> names_unique (TheModule s) ->
  enter_function P s = Done (Some F) s1 ->
  ids_fresh s1 /\ names_unique (TheModule s1)
  /\ (forall G, In G (TheModule s1) -> f_name G = Name P -> Name P <> "" -> f_id G = F)
  /\ (Name P <> "" ->
      exists G, getFunction (TheModule s1) (Name P) = Some G
                /\ f_id G = F /\ empty G = false).
Proof.
  intros Hf Hu H. unfold enter_function in H.
  apply bind_inv in H as ([] & s0 & E1 & H). injection E1 as <-.
  apply bind_inv in H as (oF & sA & E2 & H).
  destruct oF as [F'|]; [|discriminate].
  apply (PrototypeAST_Codegen_spec P (set_NamedValues (fun _ => ∅) s) F' sA Hf Hu)
    in E2 as (HfA & HuA & _ & HinA & HgA).
  apply bind_inv in H as ([] & sB & E3 & H).
  assert (HB : TheModule sB = TheModule sA /\ next_id sB = next_id sA).
  { destruct (isBinaryOp P); injection E3 as <-; split; reflexivity. }
  destruct HB as [HmB HnB].
  apply bind_inv in H as (BB & sC & E4 & H).
  pose proof (keeps_BasicBlock_Create _ _ _ _ _ E4) as GC.
  assert (HgC : Name P <> "" ->
                exists G, getFunction (TheModule sC) (Name P) = Some G
                          /\ f_id G = F' /\ empty G = false).
  { intros Hne. destruct (HgA Hne) as (G & HG & Hid).
    unfold BasicBlock_Create, push_back_block, bind, fresh, modify, ret in E4.
    injection E4 as _ <-. cbn [TheModule set_TheModule set_next_id].
    rewrite getFunction_update_fn by (intros; reflexivity).
    rewrite HmB, HG. cbn [option_map]. rewrite Hid, Nat.eqb_refl.
    eexists. split; [reflexivity|]. split; [exact Hid|].
    unfold empty, update_blocks. cbn. now destruct (f_blocks G). }
  apply bind_inv in H as ([] & sD & E5 & H).
  apply bind_inv in H as ([] & sE & E6 & H).
  injection H as <- <-.
  pose proof (keeps_SetInsertPoint _ _ _ _ _ E5) as GD.
  pose proof (keeps_ArgumentAllocas _ _ _ _ _ _ E6) as GE.
  assert (GCE : grows sC sE) by (eapply grows_trans; eauto).
  assert (GBE : grows sB sE) by (eapply grows_trans; eauto).
  assert (HfB : ids_fresh sB) by (unfold ids_fresh; now rewrite HmB, HnB).
  repeat split.
  - eapply ids_fresh_grows; eauto.
  - eapply names_unique_grows; [apply GBE|]. now rewrite HmB.
  - eapply named_ids_grows; [apply GBE|]. now rewrite HmB.
  - intros Hne. destruct (HgC Hne) as (G & HG & Hid & Hemp).
    destruct (getFunction_grows _ _ _ _ (proj2 (proj2 GCE)) HG)
      as (G' & HG' & (i1 & _ & _ & e1)).
    exists G'. repeat split; auto. congruence.
Qed.

Lemma Insert_Done op s : Insert op s = Done (InstResult (next_id s)) (inserted op s).
Proof. reflexivity. Qed.

Lemma keeps_Insert op : keeps (Insert op).
Proof. keeps_auto. Qed.

Lemma grows_inserted op s : grows s (inserted op s).
Proof. eapply keeps_Insert. apply Insert_Done. Qed.

Lemma enter_function_redefinition P s G :
  ids_fresh s ->
  getFunction (TheModule s) (Name P) = Some G -> empty G = false ->
  exists s', enter_function P s = Done None s'
             /\ last_error s' = Some "redefinition of function"
             /\ TheModule s' = TheModule s.
Proof.
  intros Hf Hg He. unfold enter_function, bind, NamedValues_clear, modify.
  rewrite (PrototypeAST_Codegen_existing P (set_NamedValues (fun _ => ∅) s) G Hf Hg).
  cbn zeta. rewrite He. cbn [negb]. unfold ErrorF, Error, bind, modify, ret.
  eexists. split; [reflexivity|]. split; [|reflexivity].
  unfold last_error. cbn. apply last_snoc.
Qed.

Lemma FunctionAST_success_defined Fn s F s1 :
  ids_fresh s -> names_unique (TheModule s) ->
  FunctionAST_Codegen Fn s = Done (Some F) s1 ->
  ids_fresh s1 /\ names_unique (TheModule s1)
  /\ (Name (Proto Fn) <> "" ->
      exists G, getFunction (TheModule s1) (Name (Proto Fn)) = Some G
                /\ f_id G = F /\ empty G = false).
Proof.
  intros Hf Hu H. rewrite FunctionAST_Codegen_enter in H.
  destruct (enter_function (Proto Fn) s) as [[F'|] sX|] eqn:E; try discriminate.
  destruct (Codegen (Body Fn) sX) as [[v|] sY|] eqn:EB; try discriminate.
  injection H as <- <-.
  destruct (enter_function_spec _ _ _ _ Hf Hu E) as (HfX & HuX & _ & HgX).
  assert (G1 : grows sX (inserted (Ret v) sY)).
  { eapply grows_trans; [eapply keeps_Codegen; eauto|apply grows_inserted]. }
  repeat split.
  - eapply ids_fresh_grows; eauto.
  - eapply names_unique_grows; [apply G1|auto].
  - intros Hne. destruct (HgX Hne) as (G & HG & Hid & Hemp).
    destruct (getFunction_grows _ _ _ _ (proj2 (proj2 G1)) HG)
      as (G' & HG' & (i1 & _ & _ & e1)).
    exists G'. repeat split; auto. congruence.
Qed.

(** C6: the redefinition rules of [PrototypeAST::Codegen].  When a callable
    of the prototype's name exists: if it has a body the prototype is
    rejected with "redefinition of function"; if it has none and a different
    number of parameters, with "redefinition of function with different #
    args"; if it has none and the same number of parameters, the existing
    callable is returned, renamed parameters apart, and nothing is created.
    Hence a second definition of a name that was defined with a body fails
    with "redefinition of function". *)
Theorem declareOrDefine_rules :
  (forall P s F,
      ids_fresh s -> getFunction (TheModule s) (Name P) = Some F ->
      (empty F = false ->
         exists s', PrototypeAST_Codegen P s = Done None s'
                    /\ last_error s' = Some "redefinition of function"
                    /\ TheModule s' = TheModule s)
      /\ (empty F = true -> arg_size F <> length (Args P) ->
            exists s', PrototypeAST_Codegen P s = Done None s'
                       /\ last_error s'
                          = Some "redefinition of function with different # args"
                       /\ TheModule s' = TheModule s)
      /\ (empty F = true -> arg_size F = length (Args P) ->
            exists s', PrototypeAST_Codegen P s = Done (Some (f_id F)) s'
                       /\ stderr s' = stderr s
                       /\ length (TheModule s') = length (TheModule s)
                       /\ getFunction (TheModule s') (Name P)
                          = Some (mkFn (f_id F) (f_name F) (Args P) (f_blocks F))))
  /\ (forall Fn1 Fn2 s F1 s1,
        ids_fresh s -> names_unique (TheModule s) ->
        Name (Proto Fn1) <> "" ->
        FunctionAST_Codegen Fn1 s = Done (Some F1) s1 ->
        Name (Proto Fn2) = Name (Proto Fn1) ->
        exists s2, FunctionAST_Codegen Fn2 s1 = Done None s2
                   /\ last_error s2 = Some "redefinition of function"
                   /\ TheModule s2 = TheModule s1).
Proof.
  split.
  - intros P s F Hf Hg.
    rewrite (PrototypeAST_Codegen_existing P s F Hf Hg). cbn zeta.
    unfold ErrorF, Error, bind, modify, ret. repeat split.
    + intros ->. cbn [negb]. eexists. split; [reflexivity|].
      split; [|reflexivity]. unfold last_error. cbn. apply last_snoc.
    + intros -> Hne. cbn [negb]. apply Nat.eqb_neq in Hne. rewrite Hne. cbn [negb].
      eexists. split; [reflexivity|].
      split; [|reflexivity]. unfold last_error. cbn. apply last_snoc.
    + intros -> He. cbn [negb]. apply Nat.eqb_eq in He. rewrite He. cbn [negb].
      eexists. split; [reflexivity|]. split; [reflexivity|].
      cbn [TheModule set_TheModule set_next_id]. split.
      * unfold update_fn. apply length_map.
      * rewrite getFunction_update_fn by (intros; reflexivity).
        rewrite Hg. cbn. now rewrite Nat.eqb_refl.
  - intros Fn1 Fn2 s F1 s1 Hf Hu Hne H En.
    destruct (FunctionAST_success_defined _ _ _ _ Hf Hu H) as (Hf1 & _ & Hg1).
    destruct (Hg1 Hne) as (G & HG & _ & Hemp).
    rewrite <- En in HG.
    destruct (enter_function_redefinition _ _ _ Hf1 HG Hemp) as (s2 & E & Hl & Hm).
    exists s2. rewrite FunctionAST_Codegen_enter, E. auto.
Qed.

Lemma enter_function_registry P s F s1 :
  ids_fresh s -> names_unique (TheModule s) ->
  enter_function P s = Done (Some F) s1 ->
  BinopPrecedence s1
  = if isBinaryOp P
    then <[getOperatorName P := to_int (getBinaryPrecedence P)]> (BinopPrecedence s)
    else BinopPrecedence s.
Proof.
  intros Hf Hu H. unfold enter_function in H.
  apply bind_inv in H as ([] & s0 & E1 & H). injection E1 as <-.
  apply bind_inv in H as (oF & sA & E2 & H).
  destruct oF as [F'|]; [|discriminate].
  apply (PrototypeAST_Codegen_spec P (set_NamedValues (fun _ => ∅) s) F' sA Hf Hu)
    in E2 as (_ & _ & HbA & _).
  apply bind_inv in H as ([] & sB & E3 & H).
  apply bind_inv in H as (BB & sC & E4 & H).
  apply bind_inv in H as ([] & sD & E5 & H).
  apply bind_inv in H as ([] & sE & E6 & H).
  injection H as <- <-.
  apply keeps_ArgumentAllocas in E6 as (_ & -> & _).
  apply keeps_SetInsertPoint in E5 as (_ & -> & _).
  apply keeps_BasicBlock_Create in E4 as (_ & -> & _).
  destruct (isBinaryOp P); injection E3 as <-; cbn; now rewrite HbA.
Qed.



(** ** The bookkeeping invariants hold in every state the driver reaches *)

Lemma invariants_initial_state :
  ids_fresh initial_state /\ names_unique (TheModule initial_state).
Proof. split; [constructor|]. intros G1 G2 []. Qed.

Lemma invariants_PrototypeAST_Codegen P s r s' :
  ids_fresh s -> names_unique (TheModule s) ->
  PrototypeAST_Codegen P s = Done r s' ->
  ids_fresh s' /\ names_unique (TheModule s').
Proof.
  intros Hf Hu H. destruct r as [F|].
  - destruct (PrototypeAST_Codegen_spec _ _ _ _ Hf Hu H) as (? & ? & _). auto.
  - destruct (getFunction (TheModule s) (Name P)) as [G|] eqn:Hg.
    + rewrite (PrototypeAST_Codegen_existing P s G Hf Hg) in H. cbn zeta in H.
      assert (E : TheModule s' = TheModule s /\ next_id s' = S (next_id s)).
      { destruct (negb (empty G)); [injection H as <-; auto|].
        destruct (negb (Nat.eqb (arg_size G) (length (Args P))));
          [injection H as <-; auto|discriminate]. }
      destruct E as [Em En]. unfold ids_fresh. rewrite Em, En. split; [|exact Hu].
      eapply Forall_impl; [exact Hf|]. cbn. intros; lia.
    + rewrite (PrototypeAST_Codegen_new P s Hf Hg) in H. discriminate.
Qed.

Lemma enter_function_failed P s s1 :
  enter_function P s = Done None s1 ->
  PrototypeAST_Codegen P (set_NamedValues (fun _ => ∅) s) = Done None s1.
Proof.
  intros H. unfold enter_function in H.
  apply bind_inv in H as ([] & s0 & E1 & H). injection E1 as <-.
  apply bind_inv in H as (oF & sA & E2 & H).
  destruct oF as [F'|]; [|now injection H as <-].
  apply bind_inv in H as ([] & sB & E3 & H).
  apply bind_inv in H as (BB & sC & E4 & H).
  apply bind_inv in H as ([] & sD & E5 & H).
  apply bind_inv in H as ([] & sE & E6 & H).
  discriminate.
Qed.

Lemma invariants_FunctionAST_Codegen Fn s r s' :
  ids_fresh s -> names_unique (TheModule s) ->
  FunctionAST_Codegen Fn s = Done r s' ->
  ids_fresh s' /\ names_unique (TheModule s').
Proof.
  intros Hf Hu H. destruct r as [F|].
  - destruct (FunctionAST_success_defined _ _ _ _ Hf Hu H) as (? & ? & _). auto.
  - rewrite FunctionAST_Codegen_enter in H.
    destruct (enter_function (Proto Fn) s) as [[F'|] sX|] eqn:E; try discriminate.
    + destruct (Codegen (Body Fn) sX) as [[v|] sY|] eqn:EB; try discriminate.
      injection H as <-.
      destruct (enter_function_spec _ _ _ _ Hf Hu E) as (HfX & HuX & _).
      pose proof (keeps_Codegen _ _ _ _ EB) as GY.
      pose proof (ids_fresh_grows _ _ HfX GY) as HfY.
      pose proof (names_unique_grows _ _ (proj2 (proj2 GY)) HuX) as HuY.
      assert (Hmod : TheModule (rolled_back Fn F' sY)
                     = filter (fun G => f_id G <> F') (TheModule sY)
                     /\ next_id (rolled_back Fn F' sY) = next_id sY).
      { unfold rolled_back. cbn zeta. now destruct (isBinaryOp (Proto Fn)). }
      destruct Hmod as [Hm Hn]. unfold ids_fresh. rewrite Hm, Hn. split.
      * apply List.Forall_forall. intros G HG.
        apply list_elem_of_In, list_elem_of_filter in HG as [_ HG].
        apply list_elem_of_In in HG.
        unfold ids_fresh in HfY. rewrite List.Forall_forall in HfY. auto.
      * intros G1 G2 H1 H2.
        apply list_elem_of_In, list_elem_of_filter in H1 as [_ H1].
        apply list_elem_of_In, list_elem_of_filter in H2 as [_ H2].
        apply list_elem_of_In in H1, H2. auto.
    + injection H as <-. apply enter_function_failed in E.
      eapply invariants_PrototypeAST_Codegen; [| |exact E]; auto.
Qed.

Lemma invariants_with_externs :
  ids_fresh with_externs /\ names_unique (TheModule with_externs).
Proof.
  destruct invariants_initial_state as [H0 U0].
  assert (H1 : ids_fresh with_putchard /\ names_unique (TheModule with_putchard)).
  { apply (invariants_PrototypeAST_Codegen (mkProto "putchard" ["x"] NoOperator)
             initial_state (Some 0) with_putchard H0 U0).
    vm_compute. reflexivity. }
  destruct H1 as [H1 U1].
  apply (invariants_PrototypeAST_Codegen (mkProto "atan2" ["a"; "b"] NoOperator)
           with_putchard (Some 1) with_externs H1 U1).
  vm_compute. reflexivity.
Qed.

Lemma declareOrDefine_rules_witness :
  (exists s', PrototypeAST_Codegen (mkProto "putchard" ["a"; "b"] NoOperator) with_externs
              = Done None s'
              /\ last_error s' = Some "redefinition of function with different # args"
              /\ TheModule s' = TheModule with_externs)
  /\ (exists s', PrototypeAST_Codegen (mkProto "putchard" ["c"] NoOperator) with_externs
                 = Done (Some 0) s'
                 /\ stderr s' = stderr with_externs
                 /\ length (TheModule s') = length (TheModule with_externs)
                 /\ getFunction (TheModule s') "putchard"
                    = Some (mkFn 0 "putchard" ["c"] []))
  /\ (exists s2, FunctionAST_Codegen def_foo after_def_foo = Done None s2
                 /\ last_error s2 = Some "redefinition of function"
                 /\ TheModule s2 = TheModule after_def_foo).
Proof.
  split; [|split].
  - apply (proj1 (proj2 (proj1 declareOrDefine_rules
                           (mkProto "putchard" ["a"; "b"] NoOperator) with_externs
                           (mkFn 0 "putchard" ["x"] [])
                           (proj1 invariants_with_externs) ltac:(vm_compute; reflexivity)))).
    + vm_compute. reflexivity.
    + vm_compute. lia.
  - apply (proj2 (proj2 (proj1 declareOrDefine_rules
                           (mkProto "putchard" ["c"] NoOperator) with_externs
                           (mkFn 0 "putchard" ["x"] [])
                           (proj1 invariants_with_externs) ltac:(vm_compute; reflexivity)))).
    + vm_compute. reflexivity.
    + vm_compute. reflexivity.
  - apply (proj2 declareOrDefine_rules def_foo def_foo with_externs 2 after_def_foo
             (proj1 invariants_with_externs) (proj2 invariants_with_externs)).
    + vm_compute. discriminate.
    + vm_compute. reflexivity.
    + vm_compute. reflexivity.
Defined.

(** ** Steps that leave the scope table alone *)

Lemma scope_kept_ret {A} (a : A) : scope_kept (ret a).
Proof. intros s a' s' H. inversion H; subst. auto. Qed.

Lemma scope_kept_bind {A B} (m : M A) (k : A -> M B) :
  scope_kept m -> (forall a, scope_kept (k a)) -> scope_kept (bind m k).
Proof.
  intros Hm Hk s b s' H. apply bind_inv in H as (a & s1 & E1 & E2).
  destruct (Hm _ _ _ E1) as [R1 N1]. destruct (Hk _ _ _ _ E2) as [R2 N2].
  split; [|lia]. intros n. now rewrite R2, R1.
Qed.

Lemma scope_kept_get {A} (f : state -> A) : scope_kept (get f).
Proof. intros s a s' H. inversion H; subst. auto. Qed.

Lemma scope_kept_fresh : scope_kept fresh.
Proof. intros s a s' H. inversion H; subst. split; [intro; reflexivity|cbn; lia]. Qed.

Lemma scope_kept_set_TheModule g : scope_kept (modify (set_TheModule g)).
Proof. intros s a s' H. inversion H; subst. split; [intro; reflexivity|cbn; lia]. Qed.

Lemma scope_kept_set_InsertBlock p : scope_kept (modify (set_InsertBlock p)).
Proof. intros s a s' H. inversion H; subst. split; [intro; reflexivity|cbn; lia]. Qed.

Lemma scope_kept_set_stderr g : scope_kept (modify (set_stderr g)).
Proof. intros s a s' H. inversion H; subst. split; [intro; reflexivity|cbn; lia]. Qed.

Lemma scope_kept_NamedValues_index name : scope_kept (NamedValues_index name).
Proof.
  intros s a s' H.
  destruct (NamedValues_index_resolve name s) as (t & E & R & _ & _ & N & _).
  rewrite E in H. inversion H; subst. split; [exact R|lia].
Qed.

Ltac scope_kept_auto :=
  unfold BasicBlock_Create, CreateEntryBlockAlloca,
    ErrorV, ErrorF, Error, CreateLoad, CreateStore, CreateFAdd, CreateFSub,
    CreateFMul, CreateFCmpULT, CreateFCmpONE, CreateUIToFP, CreateCall, CreatePHI,
    CreateBr, CreateCondBr, CreateRet, Insert, GetInsertParent, GetInsertBlock,
    SetInsertPoint, push_back_block;
  repeat lazymatch goal with
    | |- scope_kept (bind _ _) => apply scope_kept_bind; [|intros ?]
    | |- scope_kept (let _ := _ in _) => cbv zeta
    | |- scope_kept (match ?x with _ => _ end) => destruct x
    | |- scope_kept (ret _) => apply scope_kept_ret
    | |- scope_kept (get _) => apply scope_kept_get
    | |- scope_kept fresh => apply scope_kept_fresh
    | |- scope_kept (modify (set_TheModule _)) => apply scope_kept_set_TheModule
    | |- scope_kept (modify (set_InsertBlock _)) => apply scope_kept_set_InsertBlock
    | |- scope_kept (modify (set_stderr _)) => apply scope_kept_set_stderr
    | |- scope_kept (NamedValues_index _) => apply scope_kept_NamedValues_index
    end.

Lemma scope_kept_Insert op : scope_kept (Insert op).
Proof. scope_kept_auto. Qed.
Lemma scope_kept_ErrorV Str : scope_kept (ErrorV Str).
Proof. scope_kept_auto. Qed.
Lemma scope_kept_CreateStore v p : scope_kept (CreateStore v p).
Proof. scope_kept_auto. Qed.
Lemma scope_kept_CreateBr d : scope_kept (CreateBr d).
Proof. scope_kept_auto. Qed.
Lemma scope_kept_CreateCondBr c t f : scope_kept (CreateCondBr c t f).
Proof. scope_kept_auto. Qed.
Lemma scope_kept_SetInsertPoint fn BB : scope_kept (SetInsertPoint fn BB).
Proof. scope_kept_auto. Qed.
Lemma scope_kept_push_back_block fn BB : scope_kept (push_back_block fn BB).
Proof. scope_kept_auto. Qed.
Lemma scope_kept_BasicBlock_Create name parent : scope_kept (BasicBlock_Create name parent).
Proof. scope_kept_auto. Qed.
Lemma scope_kept_CreateEntryBlockAlloca fn name : scope_kept (CreateEntryBlockAlloca fn name).
Proof. scope_kept_auto. Qed.
Lemma scope_kept_GetInsertParent : scope_kept GetInsertParent.
Proof. scope_kept_auto. Qed.
Lemma scope_kept_GetInsertBlock : scope_kept GetInsertBlock.
Proof. scope_kept_auto. Qed.
Lemma scope_kept_getFunction name :
  scope_kept (get (fun s => getFunction (TheModule s) name)).
Proof. scope_kept_auto. Qed.

(** The alloca is the next fresh number. *)
Lemma CreateEntryBlockAlloca_fresh fn name s a s' :
  CreateEntryBlockAlloca fn name s = Done a s' ->
  a = next_id s /\ next_id s' = S (next_id s) /\ (forall n, resolve s' n = resolve s n).
Proof. intros H. inversion H; subst. repeat split. Qed.

(** ** Where bindings come from *)

Lemma provenance_refl s : provenance s s.
Proof. repeat split; auto. Qed.

Lemma provenance_trans s1 s2 s3 :
  provenance s1 s2 -> provenance s2 s3 -> provenance s1 s3.
Proof.
  intros (N1 & P1 & B1) (N2 & P2 & B2). repeat split.
  - lia.
  - intros n h H. destruct (P2 n h H) as [H2|H2]; [|right; lia].
    destruct (P1 n h H2) as [H1|H1]; [now left|right; lia].
  - auto.
Qed.

Lemma provenance_kept s0 s s' :
  provenance s0 s -> (forall n, resolve s' n = resolve s n) ->
  next_id s <= next_id s' -> provenance s0 s'.
Proof.
  intros (N & P & B) R N'. repeat split.
  - lia.
  - intros n h H. rewrite R in H. destruct (P n h H); [now left|right; lia].
  - intros n H. rewrite R. auto.
Qed.

Lemma provenance_assign s0 s x o :
  provenance s0 s -> saved_ok s0 s x o ->
  provenance s0 (set_NamedValues (insert x o) s).
Proof.
  intros (N & P & B) (O1 & O2). repeat split.
  - exact N.
  - intros n h. rewrite resolve_insert. destruct (decide (n = x)) as [->|]; auto.
  - intros n. rewrite resolve_insert. destruct (decide (n = x)) as [->|]; auto.
Qed.

Lemma provenance_erase s0 s x :
  provenance s0 s -> resolve s0 x = None ->
  provenance s0 (set_NamedValues (delete x) s).
Proof.
  intros (N & P & B) Hx. repeat split.
  - exact N.
  - intros n h. rewrite resolve_delete.
    destruct (decide (n = x)) as [->|]; [discriminate|auto].
  - intros n. rewrite resolve_delete.
    destruct (decide (n = x)) as [->|]; [congruence|auto].
Qed.

Lemma saved_ok_resolve s0 s s' x :
  provenance s0 s -> next_id s <= next_id s' -> saved_ok s0 s' x (resolve s x).
Proof.
  intros (N & P & B) N'. split.
  - intros h H. destruct (P x h H); [now left|right; lia].
  - auto.
Qed.

Lemma saved_ok_fresh s0 s x a :
  next_id s0 <= a < next_id s -> saved_ok s0 s x (Some a).
Proof. intros Ha. split; [intros h [= <-]; now right|discriminate]. Qed.

Lemma saved_ok_weaken s0 s1 s s' x o :
  provenance s0 s1 -> next_id s1 <= next_id s -> next_id s <= next_id s' ->
  saved_ok s1 s x o -> saved_ok s0 s' x o.
Proof.
  intros (N & P & B) N1 N' (O1 & O2). split.
  - intros h H. destruct (O1 h H) as [H1|H1]; [|right; lia].
    destruct (P x h H1); [now left|right; lia].
  - auto.
Qed.

Lemma traced_kept {A} (m : M A) : scope_kept m -> traced m.
Proof.
  intros Hm s a s' H. destruct (Hm _ _ _ H) as [R N].
  eapply provenance_kept; eauto using provenance_refl.
Qed.

Lemma traced_ret {A} (a : A) : traced (ret a).
Proof. apply traced_kept, scope_kept_ret. Qed.

Lemma traced_assert_fail {A} : traced (@assert_fail A).
Proof. intros s a s' H. discriminate. Qed.

Lemma traced_bind {A B} (m : M A) (k : A -> M B) :
  traced m -> (forall a, traced (k a)) -> traced (bind m k).
Proof.
  intros Hm Hk s b s' H. apply bind_inv in H as (a & s1 & E1 & E2).
  eapply provenance_trans; [eapply Hm|eapply Hk]; eauto.
Qed.

Ltac traced_auto :=
  unfold CreateLoad, CreateFAdd, CreateFSub, CreateFMul, CreateFCmpULT,
    CreateFCmpONE, CreateUIToFP, CreateCall, CreatePHI;
  repeat lazymatch goal with
    | |- traced (bind _ _) => apply traced_bind; [|intros ?]
    | |- traced (match ?x with _ => _ end) => destruct x
    | |- traced (ret _) => apply traced_ret
    | |- traced assert_fail => apply traced_assert_fail
    | |- traced (ErrorV _) => apply traced_kept, scope_kept_ErrorV
    | |- traced (CreateStore _ _) => apply traced_kept, scope_kept_CreateStore
    | |- traced (CreateBr _) => apply traced_kept, scope_kept_CreateBr
    | |- traced (CreateCondBr _ _ _) => apply traced_kept, scope_kept_CreateCondBr
    | |- traced (SetInsertPoint _ _) => apply traced_kept, scope_kept_SetInsertPoint
    | |- traced (push_back_block _ _) => apply traced_kept, scope_kept_push_back_block
    | |- traced (BasicBlock_Create _ _) => apply traced_kept, scope_kept_BasicBlock_Create
    | |- traced (Insert _) => apply traced_kept, scope_kept_Insert
    | |- traced GetInsertParent => apply traced_kept, scope_kept_GetInsertParent
    | |- traced GetInsertBlock => apply traced_kept, scope_kept_GetInsertBlock
    | |- traced (NamedValues_index _) => apply traced_kept, scope_kept_NamedValues_index
    | |- traced (get (fun s => getFunction (TheModule s) _)) =>
        apply traced_kept, scope_kept_getFunction
    | |- traced (Codegen _) => solve [eauto]
    end.

Lemma traced_CallArgs cg Args :
  Forall (fun a => traced (cg a)) Args ->
  forall ArgsV, traced (CallArgs cg Args ArgsV).
Proof.
  induction 1 as [|a Args Ha _ IH]; intros ArgsV; cbn [CallArgs].
  - apply traced_ret.
  - apply traced_bind; [exact Ha|]. intros [v|]; [apply IH | apply traced_ret].
Qed.

Lemma traced_step {A} (m : M A) s0 b s a s' :
  traced m -> provenance s0 s /\ b <= next_id s -> m s = Done a s' ->
  provenance s0 s' /\ b <= next_id s'.
Proof.
  intros Hm [P N] E. pose proof (Hm _ _ _ E) as P'. split.
  - eapply provenance_trans; eauto.
  - destruct P'. lia.
Qed.

Ltac fwd H P lem a s :=
  let E := fresh "E" in
  apply bind_inv in H as (a & s & E & H);
  apply (traced_step _ _ _ _ _ _ lem P) in E; clear P; rename E into P.

Ltac fwd_kept H P lem a s := fwd H P (traced_kept _ lem) a s.

Lemma NamedValues_index_inv name s a s' :
  NamedValues_index name s = Done a s' ->
  a = resolve s name /\ (forall n, resolve s' n = resolve s n)
  /\ next_id s' = next_id s.
Proof.
  intros H. destruct (NamedValues_index_resolve name s) as (t & E & R & _ & _ & N & _).
  rewrite E in H. inversion H; subst. auto.
Qed.

Lemma VarBind_traced cg fn VarNames :
  Forall (fun p => forall e, snd p = Some e -> traced (cg e)) VarNames ->
  forall Olds s r s',
    VarBind cg fn VarNames Olds s = Done r s' ->
    provenance s s'
    /\ (forall Olds', r = Some Olds' ->
          exists News, Olds' = Olds ++ News
                       /\ Forall2 (fun p o => saved_ok s s' (fst p) o) VarNames News).
Proof.
  induction 1 as [|[x init] VarNames Hp _ IH]; intros Olds s r s' H; cbn [VarBind] in H.
  - inversion H; subst. split; [apply provenance_refl|].
    intros Olds' [= <-]. exists []. split; [now rewrite app_nil_r|constructor].
  - assert (P : provenance s s /\ next_id s <= next_id s)
      by (split; [apply provenance_refl|lia]).
    assert (Hinit : traced (match init with
                            | Some Init => cg Init
                            | None => ret (Some (ConstantFP 0))
                            end))
      by (destruct init; [now apply Hp|apply traced_ret]).
    fwd H P Hinit iv s1. destruct iv as [InitVal|].
    2:{ inversion H; subst. split; [apply P|discriminate]. }
    destruct P as [P1 N1].
    apply bind_inv in H as (A & s2 & E2 & H).
    pose proof (CreateEntryBlockAlloca_fresh _ _ _ _ _ E2) as (-> & N2 & R2).
    assert (P : provenance s s2 /\ next_id s2 <= next_id s2).
    { split; [|lia]. eapply provenance_kept; eauto. lia. }
    fwd_kept H P (scope_kept_CreateStore InitVal (next_id s1)) u s3.
    apply bind_inv in H as (Old & s4 & E4 & H).
    pose proof (NamedValues_index_inv _ _ _ _ E4) as (-> & R4 & N4).
    destruct P as [P3 N3].
    assert (P4 : provenance s s4) by (eapply provenance_kept; eauto; lia).
    apply bind_inv in H as ([] & s5 & E5 & H). inversion E5; subst; clear E5.
    set (s5 := set_NamedValues (insert x (Some (next_id s1))) s4) in *.
    assert (N5 : next_id s5 = next_id s4) by reflexivity.
    assert (P5 : provenance s s5).
    { apply provenance_assign; [exact P4|]. apply saved_ok_fresh. lia. }
    destruct (IH _ _ _ _ H) as (P6 & Hsaved).
    assert (N6 : next_id s5 <= next_id s') by apply P6.
    split; [eapply provenance_trans; eauto|].
    intros Olds' ->. destruct (Hsaved _ eq_refl) as (News & -> & HF).
    exists (resolve s3 x :: News). split; [now rewrite <- app_assoc|].
    constructor.
    + cbn [fst]. apply (saved_ok_resolve s s3 s'); [exact P3|lia].
    + eapply Forall2_impl; [exact HF|]. cbn beta. intros p o Hs.
      eapply saved_ok_weaken; [exact P5|exact N6|apply Nat.le_refl|exact Hs].
Qed.

Lemma VarRestore_traced {A} (VarNames : list (string * A)) :
  forall Olds s0 s a s',
    provenance s0 s ->
    Forall2 (fun p o => saved_ok s0 s (fst p) o) VarNames Olds ->
    VarRestore VarNames Olds s = Done a s' ->
    provenance s0 s'.
Proof.
  induction VarNames as [|[x i] VarNames IH]; intros Olds s0 s a s' P HF H.
  - destruct Olds; inversion H; subst; exact P.
  - inversion HF as [|? o ? Olds' Hx HF']; subst. cbn [VarRestore] in H.
    apply bind_inv in H as ([] & s1 & E1 & H). inversion E1; subst; clear E1.
    apply (IH Olds' s0 (set_NamedValues (insert x o) s) a s');
      [now apply provenance_assign|exact HF'|exact H].
Qed.

Ltac exit_with H P :=
  let X := fresh in pose proof P as X; inversion H; subst; exact X.

Lemma traced_Codegen e : traced (Codegen e).
Proof.
  induction e as [Val|Name|Opcode Operand IH|Op LHS RHS IHL IHR|Callee Args IH
                  |Cond Then Else IHc IHt IHe
                  |VarName Start End Step Body IHs IHe IHst IHb
                  |VarNames Body IHv IHb] using ExprAST_nested_ind;
    cbn [Codegen].
  - traced_auto.
  - traced_auto.
  - traced_auto.
  - destruct (decide (Op = binary_eq)).
    + destruct LHS; traced_auto.
    + traced_auto.
  - traced_auto. apply traced_CallArgs. assumption.
  - traced_auto.
  - (* counted loop *)
    intros s r s' H.
    assert (P : provenance s s /\ next_id s <= next_id s)
      by (split; [apply provenance_refl|lia]).
    fwd_kept H P scope_kept_GetInsertParent fn s1.
    destruct P as [P1 N1].
    apply bind_inv in H as (A & s2 & E2 & H).
    pose proof (CreateEntryBlockAlloca_fresh _ _ _ _ _ E2) as (-> & N2 & R2).
    assert (P : provenance s s2 /\ next_id s2 <= next_id s2).
    { split; [|lia]. eapply provenance_kept; eauto. lia. }
    fwd H P IHs sv s3. destruct sv as [StartVal|]; [|exit_with H (proj1 P)].
    fwd_kept H P (scope_kept_CreateStore StartVal (next_id s1)) u4 s4.
    fwd_kept H P (scope_kept_BasicBlock_Create "loop" (Some fn)) LoopBB s5.
    fwd_kept H P (scope_kept_CreateBr LoopBB) u6 s6.
    fwd_kept H P (scope_kept_SetInsertPoint fn LoopBB) u7 s7.
    apply bind_inv in H as (OldVal & s8 & E8 & H).
    pose proof (NamedValues_index_inv _ _ _ _ E8) as (-> & R8 & N8).
    destruct P as [P7 N7].
    assert (P8 : provenance s s8) by (eapply provenance_kept; eauto; lia).
    apply bind_inv in H as ([] & s9 & E9 & H). inversion E9; subst; clear E9.
    set (s9 := set_NamedValues (insert VarName (Some (next_id s1))) s8) in *.
    assert (P : provenance s s9 /\ next_id s8 <= next_id s9).
    { split; [|apply Nat.le_refl].
      apply provenance_assign; [exact P8|]. apply saved_ok_fresh. lia. }
    fwd H P IHb bv s10. destruct bv as [BodyV|]; [|exit_with H (proj1 P)].
    assert (Hstep : traced (match Step with
                            | Some Step => Codegen Step
                            | None => ret (Some (ConstantFP 1))
                            end))
      by (destruct Step; [now apply IHst|apply traced_ret]).
    fwd H P Hstep stv s11. destruct stv as [StepVal|]; [|exit_with H (proj1 P)].
    fwd H P IHe ev s12. destruct ev as [EndCond|]; [|exit_with H (proj1 P)].
    fwd_kept H P (scope_kept_Insert (Load (next_id s1))) CurVar s13.
    fwd_kept H P (scope_kept_Insert (FAdd CurVar StepVal)) NextVar s14.
    fwd_kept H P (scope_kept_CreateStore NextVar (next_id s1)) u15 s15.
    fwd_kept H P (scope_kept_Insert (FCmpONE EndCond (ConstantFP 0))) EndCond' s16.
    fwd_kept H P (scope_kept_BasicBlock_Create "afterloop" (Some fn)) AfterBB s17.
    fwd_kept H P (scope_kept_CreateCondBr EndCond' LoopBB AfterBB) u18 s18.
    fwd_kept H P (scope_kept_SetInsertPoint fn AfterBB) u19 s19.
    destruct P as [P19 N19].
    apply bind_inv in H as ([] & s20 & E20 & H). inversion H; subst; clear H.
    destruct (resolve s7 VarName) as [h|] eqn:Hold;
      inversion E20; subst; clear E20.
    + apply provenance_assign; [exact P19|]. rewrite <- Hold.
      apply (saved_ok_resolve s s7 s19); [exact P7|lia].
    + apply provenance_erase; [exact P19|].
      destruct P7 as (_ & _ & B7).
      destruct (resolve s VarName) eqn:Hs; [|reflexivity].
      exfalso. apply (B7 VarName); [congruence|exact Hold].
  - (* scoped-binding block *)
    intros s r s' H.
    assert (P : provenance s s /\ next_id s <= next_id s)
      by (split; [apply provenance_refl|lia]).
    fwd_kept H P scope_kept_GetInsertParent fn s1.
    destruct P as [P1 N1].
    apply bind_inv in H as (Olds & s2 & E2 & H).
    destruct (VarBind_traced _ _ _ IHv _ _ _ _ E2) as (P2 & Hsaved).
    assert (P12 : provenance s s2) by (eapply provenance_trans; eauto).
    destruct Olds as [Olds|]; [|exit_with H P12].
    destruct (Hsaved _ eq_refl) as (News & HN & HF). cbn in HN. subst News.
    apply bind_inv in H as (bv & s3 & E3 & H).
    pose proof (IHb _ _ _ E3) as P3.
    assert (P13 : provenance s s3) by (eapply provenance_trans; eauto).
    destruct bv as [BodyVal|]; [|exit_with H P13].
    apply bind_inv in H as ([] & s4 & E4 & H). inversion H; subst; clear H.
    eapply VarRestore_traced; [exact P13| |exact E4].
    eapply Forall2_impl; [exact HF|]. cbn beta. intros p o Hs.
    eapply saved_ok_weaken; [exact P1| |apply P3|exact Hs]. apply P2.
Qed.

(** ** Successful lowering restores the scope *)

Lemma never_succeeds_ret_None {A} : never_succeeds (@ret (option A) None).
Proof. intros s v s' H. discriminate. Qed.

Lemma never_succeeds_ErrorV Str : never_succeeds (ErrorV Str).
Proof. intros s v s' H. discriminate. Qed.

Lemma never_succeeds_bind {A B} (m : M A) (k : A -> M (option B)) :
  (forall a, never_succeeds (k a)) -> never_succeeds (bind m k).
Proof.
  intros Hk s v s' H. apply bind_inv in H as (a & s1 & _ & H). now apply Hk in H.
Qed.

Lemma restores_never {A} (m : M (option A)) : never_succeeds m -> restores m.
Proof. intros Hm s v s' H. now apply Hm in H. Qed.

Lemma restores_ret {A} (a : option A) : restores (ret a).
Proof. intros s v s' H. inversion H; subst. reflexivity. Qed.

Lemma restores_bind_kept {A B} (m : M A) (k : A -> M (option B)) :
  scope_kept m -> (forall a, restores (k a)) -> restores (bind m k).
Proof.
  intros Hm Hk s v s' H n. apply bind_inv in H as (a & s1 & E1 & E2).
  rewrite (Hk _ _ _ _ E2). apply (Hm _ _ _ E1).
Qed.

Lemma restores_bind_opt {A B} (m : M (option A)) (k : option A -> M (option B)) :
  restores m -> (forall a, restores (k (Some a))) -> never_succeeds (k None) ->
  restores (bind m k).
Proof.
  intros Hm Hk Hn s v s' H n. apply bind_inv in H as ([a|] & s1 & E1 & E2).
  - rewrite (Hk _ _ _ _ E2). apply (Hm _ _ _ E1).
  - now apply Hn in E2.
Qed.

Ltac never_auto :=
  repeat lazymatch goal with
    | |- never_succeeds (bind _ _) => apply never_succeeds_bind; intros ?
    | |- never_succeeds (match ?x with _ => _ end) => destruct x
    | |- never_succeeds (ret None) => apply never_succeeds_ret_None
    | |- never_succeeds (ErrorV _) => apply never_succeeds_ErrorV
    end.

Ltac restores_auto :=
  unfold CreateLoad, CreateFAdd, CreateFSub, CreateFMul, CreateFCmpULT,
    CreateFCmpONE, CreateUIToFP, CreateCall, CreatePHI;
  repeat lazymatch goal with
    | |- restores (bind (Codegen _) _) =>
        apply restores_bind_opt;
        [solve [eauto] | intros ?; cbv beta iota | cbv beta iota; solve [never_auto]]
    | |- restores (bind (CallArgs _ _ _) _) =>
        apply restores_bind_opt;
        [ | intros ?; cbv beta iota | cbv beta iota; solve [never_auto]]
    | |- restores (bind (CreateStore _ _) _) =>
        apply restores_bind_kept; [apply scope_kept_CreateStore|intros ?]
    | |- restores (bind (CreateBr _) _) =>
        apply restores_bind_kept; [apply scope_kept_CreateBr|intros ?]
    | |- restores (bind (CreateCondBr _ _ _) _) =>
        apply restores_bind_kept; [apply scope_kept_CreateCondBr|intros ?]
    | |- restores (bind (SetInsertPoint _ _) _) =>
        apply restores_bind_kept; [apply scope_kept_SetInsertPoint|intros ?]
    | |- restores (bind (push_back_block _ _) _) =>
        apply restores_bind_kept; [apply scope_kept_push_back_block|intros ?]
    | |- restores (bind (BasicBlock_Create _ _) _) =>
        apply restores_bind_kept; [apply scope_kept_BasicBlock_Create|intros ?]
    | |- restores (bind (Insert _) _) =>
        apply restores_bind_kept; [apply scope_kept_Insert|intros ?]
    | |- restores (bind GetInsertParent _) =>
        apply restores_bind_kept; [apply scope_kept_GetInsertParent|intros ?]
    | |- restores (bind GetInsertBlock _) =>
        apply restores_bind_kept; [apply scope_kept_GetInsertBlock|intros ?]
    | |- restores (bind (NamedValues_index _) _) =>
        apply restores_bind_kept; [apply scope_kept_NamedValues_index|intros ?]
    | |- restores (bind (get (fun s => getFunction (TheModule s) _)) _) =>
        apply restores_bind_kept; [apply scope_kept_getFunction|intros ?]
    | |- restores (match ?x with _ => _ end) => destruct x
    | |- restores (ret _) => apply restores_ret
    | |- restores (ErrorV _) => apply restores_never, never_succeeds_ErrorV
    | |- restores assert_fail => intros ? ? ? ?; discriminate
    end.

Lemma restores_CallArgs cg Args :
  Forall (fun a => restores (cg a)) Args ->
  forall ArgsV, restores (CallArgs cg Args ArgsV).
Proof.
  induction 1 as [|a Args Ha _ IH]; intros ArgsV; cbn [CallArgs].
  - apply restores_ret.
  - apply restores_bind_opt; [exact Ha|intros v; apply IH|apply never_succeeds_ret_None].
Qed.

Lemma VarRestore_lookup {A} (R : string -> option nat) (VarNames : list (string * A)) :
  NoDup (map fst VarNames) ->
  forall s a s',
    VarRestore VarNames (map (fun p => R (fst p)) VarNames) s = Done a s' ->
    (forall n, NamedValues s' !! n
               = if decide (n ∈ map fst VarNames) then Some (R n)
                 else NamedValues s !! n)
    /\ next_id s' = next_id s.
Proof.
  induction VarNames as [|[x i] VarNames IH]; intros Hnd s a s' H;
    cbn [map fst VarRestore] in *.
  - inversion H; subst. split; [|reflexivity]. intros n.
    rewrite decide_False; [reflexivity|]. apply not_elem_of_nil.
  - apply NoDup_cons in Hnd as [Hx Hnd].
    apply bind_inv in H as ([] & s1 & E1 & H). inversion E1; subst; clear E1.
    destruct (IH Hnd _ _ _ H) as [IH1 IH2]. split; [|exact IH2].
    intros n. rewrite IH1. cbn.
    destruct (decide (n ∈ map fst VarNames)) as [Hin|Hin].
    + rewrite decide_True by (now right). reflexivity.
    + destruct (decide (n = x)) as [->|Hne].
      * rewrite decide_True by left. now rewrite lookup_insert_eq.
      * rewrite decide_False by (intros Hc; apply elem_of_cons in Hc as [?|?]; auto).
        now rewrite lookup_insert_ne.
Qed.

Lemma VarBind_restores cg fn VarNames :
  Forall (fun p => forall e, snd p = Some e -> restores (cg e)) VarNames ->
  NoDup (map fst VarNames) ->
  forall Olds s Olds' s',
    VarBind cg fn VarNames Olds s = Done (Some Olds') s' ->
    Olds' = Olds ++ map (fun p => resolve s (fst p)) VarNames
    /\ (forall n, n ∉ map fst VarNames -> resolve s' n = resolve s n).
Proof.
  induction 1 as [|[x init] VarNames Hp _ IH]; intros Hnd Olds s Olds' s' H;
    cbn [VarBind] in H.
  - inversion H; subst. cbn. now rewrite app_nil_r.
  - cbn in Hnd. apply NoDup_cons in Hnd as [Hx Hnd].
    apply bind_inv in H as (iv & s1 & E1 & H).
    destruct iv as [InitVal|]; [|discriminate].
    assert (R1 : forall n, resolve s1 n = resolve s n).
    { destruct init as [e|]; [eapply Hp; eauto|]. inversion E1; subst. reflexivity. }
    apply bind_inv in H as (A & s2 & E2 & H).
    apply scope_kept_CreateEntryBlockAlloca in E2 as [R2 _].
    apply bind_inv in H as ([] & s3 & E3 & H).
    apply scope_kept_CreateStore in E3 as [R3 _].
    apply bind_inv in H as (Old & s4 & E4 & H).
    apply NamedValues_index_inv in E4 as (-> & R4 & _).
    apply bind_inv in H as ([] & s5 & E5 & H). inversion E5; subst; clear E5.
    destruct (IH Hnd _ _ _ _ H) as (-> & Hout).
    assert (R5 : forall n, n <> x ->
                 resolve (set_NamedValues (insert x (Some A)) s4) n = resolve s n).
    { intros n Hne. rewrite resolve_insert, decide_False by exact Hne.
      now rewrite R4, R3, R2, R1. }
    split.
    + cbn [map fst]. rewrite <- app_assoc. cbn [app]. do 2 f_equal.
      * now rewrite R3, R2, R1.
      * apply map_ext_in. intros [y j] Hin. cbn [fst]. apply R5.
        intros ->. apply Hx. apply list_elem_of_In.
        apply in_map_iff. exists (x, j). auto.
    + intros n Hn. cbn [map fst] in Hn. apply not_elem_of_cons in Hn as [Hne Hn].
      rewrite (Hout n Hn). now apply R5.
Qed.

Lemma resolve_lookup s n : resolve s n = default None (NamedValues s !! n).
Proof. unfold resolve. now destruct (NamedValues s !! n) as [[h|]|]. Qed.

(** The counted loop: on success every name resolves as before, the value
    is the constant 0.0, and a loop variable that was not bound is erased
    from the table. *)
Lemma For_restores VarName Start End Step Body :
  restores (Codegen Start) -> restores (Codegen End) ->
  (forall e, Step = Some e -> restores (Codegen e)) -> restores (Codegen Body) ->
  forall s v s',
    Codegen (ForExprAST VarName Start End Step Body) s = Done (Some v) s' ->
    (forall n, resolve s' n = resolve s n)
    /\ v = ConstantFP 0
    /\ (resolve s VarName = None -> NamedValues s' !! VarName = None).
Proof.
  intros IHs IHe IHst IHb s v s' H. cbn [Codegen] in H.
  apply bind_inv in H as (fn & s1 & E & H).
  apply scope_kept_GetInsertParent in E as [R1 _].
  apply bind_inv in H as (A & s2 & E & H).
  apply scope_kept_CreateEntryBlockAlloca in E as [R2 _].
  apply bind_inv in H as (sv & s3 & E & H).
  destruct sv as [StartVal|]; [|discriminate]. apply IHs in E. rename E into R3.
  apply bind_inv in H as (u4 & s4 & E & H).
  apply scope_kept_CreateStore in E as [R4 _].
  apply bind_inv in H as (LoopBB & s5 & E & H).
  apply scope_kept_BasicBlock_Create in E as [R5 _].
  apply bind_inv in H as (u6 & s6 & E & H).
  apply scope_kept_CreateBr in E as [R6 _].
  apply bind_inv in H as (u7 & s7 & E & H).
  apply scope_kept_SetInsertPoint in E as [R7 _].
  apply bind_inv in H as (OldVal & s8 & E & H).
  apply NamedValues_index_inv in E as (-> & R8 & _).
  apply bind_inv in H as ([] & s9 & E & H). inversion E; subst; clear E.
  apply bind_inv in H as (bv & s10 & E & H).
  destruct bv as [BodyV|]; [|discriminate]. apply IHb in E. rename E into R10.
  apply bind_inv in H as (stv & s11 & E & H).
  destruct stv as [StepVal|]; [|discriminate].
  assert (R11 : forall n, resolve s11 n = resolve s10 n).
  { destruct Step as [e|]; [eapply IHst; eauto|]. inversion E; subst. reflexivity. }
  clear E.
  apply bind_inv in H as (ev & s12 & E & H).
  destruct ev as [EndCond|]; [|discriminate]. apply IHe in E. rename E into R12.
  unfold CreateLoad, CreateFAdd, CreateFCmpONE in H.
  apply bind_inv in H as (CurVar & s13 & E & H).
  apply scope_kept_Insert in E as [R13 _].
  apply bind_inv in H as (NextVar & s14 & E & H).
  apply scope_kept_Insert in E as [R14 _].
  apply bind_inv in H as (u15 & s15 & E & H).
  apply scope_kept_CreateStore in E as [R15 _].
  apply bind_inv in H as (EndCond' & s16 & E & H).
  apply scope_kept_Insert in E as [R16 _].
  apply bind_inv in H as (AfterBB & s17 & E & H).
  apply scope_kept_BasicBlock_Create in E as [R17 _].
  apply bind_inv in H as (u18 & s18 & E & H).
  apply scope_kept_CreateCondBr in E as [R18 _].
  apply bind_inv in H as (u19 & s19 & E & H).
  apply scope_kept_SetInsertPoint in E as [R19 _].
  apply bind_inv in H as ([] & s20 & E & H). inversion H; subst; clear H.
  assert (Rold : resolve s7 VarName = resolve s VarName)
    by now rewrite R7, R6, R5, R4, R3, R2, R1.
  assert (Rin : forall n, n <> VarName -> resolve s19 n = resolve s n).
  { intros n Hne.
    rewrite R19, R18, R17, R16, R15, R14, R13, R12, R11, R10.
    rewrite resolve_insert, decide_False by exact Hne.
    now rewrite R8, R7, R6, R5, R4, R3, R2, R1. }
  destruct (resolve s7 VarName) as [h|] eqn:Hold; inversion E; subst; clear E.
  - repeat split.
    + intros n. rewrite resolve_insert.
      destruct (decide (n = VarName)) as [->|Hne]; [now rewrite <- Rold|auto].
    + intros Hn. congruence.
  - repeat split.
    + intros n. rewrite resolve_delete.
      destruct (decide (n = VarName)) as [->|Hne]; [now rewrite <- Rold|auto].
    + intros _. cbn. apply lookup_delete_eq.
Qed.

(** The scoped-binding block with pairwise distinct names: on success every
    name resolves as before, and a name of the block that was not bound is
    left in the table with a null handle. *)
Lemma Var_restores VarNames Body :
  Forall (fun p => forall e, snd p = Some e -> restores (Codegen e)) VarNames ->
  restores (Codegen Body) ->
  NoDup (map fst VarNames) ->
  forall s v s',
    Codegen (VarExprAST VarNames Body) s = Done (Some v) s' ->
    (forall n, resolve s' n = resolve s n)
    /\ (forall n, n ∈ map fst VarNames -> resolve s n = None ->
                  NamedValues s' !! n = Some None).
Proof.
  intros IHv IHb Hnd s v s' H. cbn [Codegen] in H.
  apply bind_inv in H as (fn & s1 & E & H).
  pose proof (scope_kept_GetInsertParent _ _ _ E) as [R1 _].
  apply bind_inv in H as (Olds & s2 & E2 & H).
  destruct Olds as [Olds|]; [|discriminate].
  destruct (VarBind_restores _ _ _ IHv Hnd _ _ _ _ E2) as (-> & R2).
  apply bind_inv in H as (bv & s3 & E3 & H).
  destruct bv as [BodyVal|]; [|discriminate]. apply IHb in E3. rename E3 into R3.
  apply bind_inv in H as ([] & s4 & E4 & H). inversion H; subst; clear H.
  cbn [app] in E4.
  destruct (VarRestore_lookup (resolve s1) _ Hnd _ _ _ E4) as [L4 _].
  assert (Hres : forall n, n ∈ map fst VarNames -> resolve s' n = resolve s n).
  { intros n Hin. rewrite resolve_lookup, L4, decide_True by exact Hin.
    cbn. apply R1. }
  split.
  - intros n. destruct (decide (n ∈ map fst VarNames)) as [Hin|Hin]; [auto|].
    rewrite resolve_lookup, L4, decide_False by exact Hin.
    rewrite <- resolve_lookup. rewrite R3, (R2 n Hin). apply R1.
  - intros n Hin Hn. rewrite L4, decide_True by exact Hin.
    now rewrite R1, Hn.
Qed.

Lemma distinct_names_restores e :
  distinct_names e = true -> restores (Codegen e).
Proof.
  induction e as [Val|Name|Opcode Operand IH|Op LHS RHS IHL IHR|Callee Args IH
                  |Cond Then Else IHc IHt IHe
                  |VarName Start End Step Body IHs IHe IHst IHb
                  |VarNames Body IHv IHb] using ExprAST_nested_ind;
    cbn [distinct_names]; intros Hd;
    repeat (apply andb_prop in Hd as [Hd ?]).
  - cbn [Codegen]. restores_auto.
  - cbn [Codegen]. restores_auto.
  - cbn [Codegen]. restores_auto.
  - cbn [Codegen]. destruct (decide (Op = binary_eq)).
    + destruct LHS; restores_auto.
    + apply restores_bind_opt; [auto| |solve [never_auto]].
      intros L. cbv beta.
      apply restores_bind_opt; [auto| |solve [never_auto]].
      intros R. cbv beta iota. restores_auto.
  - cbn [Codegen]. restores_auto.
    apply restores_CallArgs.
    rewrite forallb_forall in Hd. rewrite List.Forall_forall in *. auto.
  - cbn [Codegen]. restores_auto.
  - intros s v s' Hc.
    eapply (For_restores VarName Start End Step Body); eauto.
    intros e ->. auto.
  - apply bool_decide_eq_true in Hd.
    intros s v s' Hc.
    eapply (Var_restores VarNames Body); eauto.
    rewrite forallb_forall in H0. rewrite List.Forall_forall in *.
    intros p Hin e He. apply (IHv p Hin e He).
    specialize (H0 p Hin). now rewrite He in H0.
Qed.

Lemma VarBind_app cg fn pre : forall rest Olds s,
  VarBind cg fn (pre ++ rest) Olds s
  = match VarBind cg fn pre Olds s with
    | Done (Some Olds1) s1 => VarBind cg fn rest Olds1 s1
    | Done None s1 => Done None s1
    | AssertFail => AssertFail
    end.
Proof.
  induction pre as [|[x init] pre IH]; intros rest Olds s; [reflexivity|].
  cbn [app VarBind]. unfold bind.
  destruct (match init with Some Init => cg Init | None => ret (Some (ConstantFP 0)) end s)
    as [[InitVal|] s1|]; try reflexivity.
  destruct (CreateEntryBlockAlloca fn x s1) as [A s2|]; [|reflexivity].
  destruct (CreateStore InitVal A s2) as [[] s3|]; [|reflexivity].
  destruct (NamedValues_index x s3) as [Old s4|]; [|reflexivity].
  destruct (NamedValues_assign x (Some A) s4) as [[] s5|]; [|reflexivity].
  apply IH.
Qed.

(** After the first loop of a block every name of the block is bound to
    storage allocated by the block. *)
Lemma VarBind_binds fn VarNames : forall Olds s Olds' s',
  VarBind Codegen fn VarNames Olds s = Done (Some Olds') s' ->
  forall n, n ∈ map fst VarNames ->
    exists h, resolve s' n = Some h /\ next_id s <= h < next_id s'.
Proof.
  induction VarNames as [|[x init] VarNames IH]; intros Olds s Olds' s' H n Hin.
  - cbn in Hin. now apply elem_of_nil in Hin.
  - cbn [VarBind] in H.
    apply bind_inv in H as (iv & s1 & E1 & H).
    destruct iv as [InitVal|]; [|discriminate].
    assert (N1 : next_id s <= next_id s1).
    { destruct init as [e|]; [apply (traced_Codegen e _ _ _ E1)|].
      inversion E1; subst. lia. }
    apply bind_inv in H as (A & s2 & E2 & H).
    apply CreateEntryBlockAlloca_fresh in E2 as (-> & N2 & _).
    apply bind_inv in H as ([] & s3 & E3 & H).
    apply scope_kept_CreateStore in E3 as [_ N3].
    apply bind_inv in H as (Old & s4 & E4 & H).
    apply NamedValues_index_inv in E4 as (_ & _ & N4).
    apply bind_inv in H as ([] & s5 & E5 & H). inversion E5; subst; clear E5.
    set (s5 := set_NamedValues (insert x (Some (next_id s1))) s4) in *.
    assert (N5 : next_id s5 = next_id s4) by reflexivity.
    assert (IHv : Forall (fun p : string * option ExprAST =>
                            forall e, snd p = Some e -> traced (Codegen e)) VarNames).
    { apply List.Forall_forall. intros p _ e _. apply traced_Codegen. }
    destruct (VarBind_traced _ _ _ IHv _ _ _ _ H) as ((N6 & P6 & B6) & _).
    cbn [map fst] in Hin.
    destruct (decide (n ∈ map fst VarNames)) as [Hin'|Hin'].
    + destruct (IH _ _ _ _ H n Hin') as (h & Hh & Hb). exists h. split; [exact Hh|lia].
    + apply elem_of_cons in Hin as [->|Hin]; [|contradiction].
      assert (Hx : resolve s5 x = Some (next_id s1))
        by (unfold s5; rewrite resolve_insert; now rewrite decide_True).
      destruct (resolve s' x) as [h|] eqn:Hs';
        [|exfalso; apply (B6 x); [rewrite Hx; discriminate|exact Hs']].
      exists h. split; [reflexivity|].
      destruct (P6 x h Hs') as [Hh|Hh]; [|lia].
      rewrite Hx in Hh. injection Hh as <-. lia.
Qed.

Lemma handles_allocated_provenance s s' :
  provenance s s' -> handles_allocated s -> handles_allocated s'.
Proof.
  intros (N & P & _) Ha n h H. destruct (P n h H) as [H1|H1]; [|lia].
  apply Ha in H1. lia.
Qed.

Lemma traced_ArgumentAllocas F Args : forall Idx, traced (ArgumentAllocas F Args Idx).
Proof.
  induction Args as [|Arg Args IH]; intros Idx s a s' H; cbn [ArgumentAllocas] in H.
  - inversion H; subst. apply provenance_refl.
  - apply bind_inv in H as (A & s1 & E1 & H).
    pose proof (CreateEntryBlockAlloca_fresh _ _ _ _ _ E1) as (-> & N1 & R1).
    apply bind_inv in H as ([] & s2 & E2 & H).
    apply scope_kept_CreateStore in E2 as [R2 N2].
    apply bind_inv in H as ([] & s3 & E3 & H). inversion E3; subst; clear E3.
    apply IH in H. eapply provenance_trans; [|exact H].
    apply provenance_assign.
    + eapply provenance_kept; [apply provenance_refl| |lia].
      intros n. now rewrite R2, R1.
    + apply saved_ok_fresh. lia.
Qed.

Lemma enter_function_handles_allocated P s F s1 :
  enter_function P s = Done (Some F) s1 -> handles_allocated s1.
Proof.
  intros H. unfold enter_function in H.
  apply bind_inv in H as ([] & s0 & E1 & H). inversion E1; subst; clear E1.
  apply bind_inv in H as (oF & sA & E2 & H).
  destruct oF as [F'|]; [|discriminate].
  apply bind_inv in H as ([] & sB & E3 & H).
  apply bind_inv in H as (BB & sC & E4 & H).
  apply bind_inv in H as ([] & sD & E5 & H).
  apply bind_inv in H as ([] & sE & E6 & H).
  inversion H; subst; clear H.
  apply traced_ArgumentAllocas in E6.
  apply (handles_allocated_provenance _ _ E6).
  intros n h Hn.
  apply scope_kept_SetInsertPoint in E5 as [R5 _].
  apply scope_kept_BasicBlock_Create in E4 as [R4 _].
  rewrite R5, R4 in Hn.
  assert (RB : NamedValues sB = NamedValues sA)
    by (destruct (isBinaryOp P); inversion E3; subst; reflexivity).
  assert (RA : NamedValues sA = ∅).
  { clear - E2. unfold PrototypeAST_Codegen, Function_Create in E2.
    apply bind_inv in E2 as (Fn & t1 & E & H).
    assert (NamedValues t1 = ∅).
    { unfold bind, fresh, get, modify, ret in E. inversion E; subst. reflexivity. }
    clear E. unfold eraseFromParent, setArgNames, ErrorF, Error in H.
    destruct (decide (f_name Fn <> Name P)).
    - unfold bind, get, modify, ret in H. cbn in H.
      destruct (getFunction _ _) as [G|]; [|discriminate].
      destruct (negb (empty G)); [discriminate|].
      destruct (negb _); [discriminate|]. inversion H; subst. exact H0.
    - unfold bind, modify, ret in H. inversion H; subst. exact H0. }
  unfold resolve in Hn. rewrite RB, RA, lookup_empty in Hn. discriminate.
Qed.


(** ** Scope restoration *)



(** C3 (as amended): after the successful lowering of an expression whose
    scoped-binding blocks each introduce pairwise distinct names, at any
    nesting depth, every name resolves as it did before: to the same handle,
    or not at all.  A counted loop erases its loop variable from the table
    when the variable was not found before; a scoped-binding block leaves
    each of its names that was not found before in the table, bound to the
    null handle. *)
Theorem scope_restoration (e : ExprAST) (s s' : state) (v : Value) :
  distinct_names e = true ->
  Codegen e s = Done (Some v) s' ->
  (forall n, resolve s' n = resolve s n)
  /\ (forall VarName Start End Step Body,
        e = ForExprAST VarName Start End Step Body ->
        resolve s VarName = None -> NamedValues s' !! VarName = None)
  /\ (forall VarNames Body n,
        e = VarExprAST VarNames Body ->
        n ∈ map fst VarNames -> resolve s n = None ->
        NamedValues s' !! n = Some None).
Proof.
  intros Hd H. split; [exact (distinct_names_restores e Hd s v s' H)|]. split.
  - intros VarName Start End Step Body ->.
    cbn [distinct_names] in Hd. repeat (apply andb_prop in Hd as [Hd ?]).
    eapply (For_restores VarName Start End Step Body);
      eauto using distinct_names_restores.
    intros e ->. now apply distinct_names_restores.
  - intros VarNames Body n ->.
    cbn [distinct_names] in Hd. repeat (apply andb_prop in Hd as [Hd ?]).
    apply bool_decide_eq_true in Hd.
    eapply (Var_restores VarNames Body); eauto using distinct_names_restores.
    rewrite forallb_forall in H1. apply List.Forall_forall.
    intros p Hin e He. apply distinct_names_restores.
    specialize (H1 p Hin). now rewrite He in H1.
Qed.

Lemma scope_restoration_witness :
  (forall n, resolve (state_of (Codegen nested_example inside_f) inside_f) n
             = resolve inside_f n)
  /\ NamedValues (state_of (Codegen nested_example inside_f) inside_f) !! "y"
     = Some None.
Proof.
  assert (Hd : distinct_names nested_example = true) by (vm_compute; reflexivity).
  assert (H : Codegen nested_example inside_f
              = Done (Some (ConstantFP 0))
                     (state_of (Codegen nested_example inside_f) inside_f))
    by (vm_compute; reflexivity).
  split.
  - apply (proj1 (scope_restoration nested_example inside_f _ _ Hd H)).
  - apply (proj2 (proj2 (scope_restoration nested_example inside_f _ _ Hd H))
             [("x", Some (NumberExprAST 1)); ("y", None)]
             (ForExprAST "x" (VariableExprAST "y")
                (BinaryExprAST "<" (VariableExprAST "x") (NumberExprAST 1)) None
                (VarExprAST [("y", Some (VariableExprAST "x"))] (VariableExprAST "y")))
             "y" eq_refl).
    + apply list_elem_of_In. right. left. reflexivity.
    + vm_compute. reflexivity.
Defined.

(** C3 (as stated) fails: [y] is not in the table before [var y = 1 in y]
    is lowered, and after the block's successful lowering it is in the
    table, bound to the null handle, instead of being removed. *)
Lemma block_leaves_null_entry :
  NamedValues inside_f !! "y" = None
  /\ exists v s', Codegen block_example inside_f = Done (Some v) s'
                  /\ NamedValues s' !! "y" = Some None.
Proof.
  split; [reflexivity|]. eexists. eexists.
  split; [vm_compute; reflexivity|]. vm_compute. reflexivity.
Qed.

(** Without distinct names the restoration law fails: the block
    [var x = 1, x = 2 in x] restores in index order and leaves [x] bound to
    the storage of its first binding. *)
Example duplicate_names_leave_binding :
  resolve inside_toplevel "x" = None
  /\ exists v s',
       Codegen (VarExprAST [("x", Some (NumberExprAST 1)); ("x", Some (NumberExprAST 2))]
                  (VariableExprAST "x")) inside_toplevel = Done (Some v) s'
       /\ resolve s' "x" = Some (next_id inside_toplevel).
Proof.
  split; [reflexivity|]. eexists. eexists.
  split; [vm_compute; reflexivity|]. vm_compute. reflexivity.
Qed.

(** ** Failure paths leave the shadow bindings in place *)




Lemma For_failure_keeps_binding VarName Start End Step Body s s' sv s1 :
  handles_allocated s ->
  Codegen Start (loop_entry VarName s) = Done (Some sv) s1 ->
  Codegen (ForExprAST VarName Start End Step Body) s = Done None s' ->
  exists sb,
    (forall n, resolve sb n
               = if decide (n = VarName) then Some (next_id s) else resolve s1 n)
    /\ loop_fails Body Step End sb s'
    /\ exists h, resolve s' VarName = Some h
                 /\ next_id s <= h < next_id s'
                 /\ resolve s VarName <> Some h
                 /\ resolve s1 VarName <> Some h.
Proof.
  intros Ha Hstart H. cbn [Codegen] in H.
  apply bind_inv in H as (fn & s0 & E & H). inversion E; subst; clear E.
  apply bind_inv in H as (A & s2 & E & H).
  assert (Es2 : s2 = loop_entry VarName s0).
  { unfold loop_entry. now rewrite E. }
  pose proof (CreateEntryBlockAlloca_fresh _ _ _ _ _ E) as (-> & N2 & R2).
  subst s2. clear E.
  apply bind_inv in H as (sv' & s3 & E & H).
  rewrite Hstart in E. inversion E; subst; clear E.
  pose proof (traced_Codegen _ _ _ _ Hstart) as (N3 & P3 & _).
  apply bind_inv in H as (u4 & s4 & E & H).
  apply scope_kept_CreateStore in E as [R4 N4].
  apply bind_inv in H as (LoopBB & s5 & E & H).
  apply scope_kept_BasicBlock_Create in E as [R5 N5].
  apply bind_inv in H as (u6 & s6 & E & H).
  apply scope_kept_CreateBr in E as [R6 N6].
  apply bind_inv in H as (u7 & s7 & E & H).
  apply scope_kept_SetInsertPoint in E as [R7 N7].
  apply bind_inv in H as (OldVal & s8 & E & H).
  apply NamedValues_index_inv in E as (-> & R8 & N8).
  apply bind_inv in H as ([] & s9 & E & H). inversion E; subst; clear E.
  set (s9 := set_NamedValues (insert VarName (Some (next_id s0))) s8) in *.
  assert (Hx : resolve s9 VarName = Some (next_id s0))
    by (unfold s9; rewrite resolve_insert; now rewrite decide_True).
  assert (N9 : next_id s9 = next_id s8) by reflexivity.
  assert (D : loop_fails Body Step End s9 s').
  { apply bind_inv in H as (bv & s10 & E10 & H).
    destruct bv as [BodyV|]; [|inversion H; subst; left; exact E10].
    right. exists BodyV, s10. split; [exact E10|].
    apply bind_inv in H as (stv & s11 & E11 & H).
    destruct stv as [StepVal|]; [|inversion H; subst; left; exact E11].
    right. exists StepVal, s11. split; [exact E11|].
    apply bind_inv in H as (ev & s12 & E12 & H).
    destruct ev as [EndCond|]; [|inversion H; subst; exact E12].
    exfalso.
    apply bind_inv in H as (? & ? & _ & H).
    apply bind_inv in H as (? & ? & _ & H).
    apply bind_inv in H as (? & ? & _ & H).
    apply bind_inv in H as (? & ? & _ & H).
    apply bind_inv in H as (? & ? & _ & H).
    apply bind_inv in H as (? & ? & _ & H).
    apply bind_inv in H as (? & ? & _ & H).
    apply bind_inv in H as (? & ? & _ & H).
    discriminate. }
  assert (Pstep : forall t v t', Codegen_step Step t = Done v t' -> provenance t t').
  { intros t v t' E. destruct Step as [e|]; [exact (traced_Codegen _ _ _ _ E)|].
    inversion E; subst. apply provenance_refl. }
  assert (P : provenance s9 s').
  { destruct D as [E10|(bv & s10 & E10 & [E11|(stv & s11 & E11 & E12)])].
    - exact (traced_Codegen _ _ _ _ E10).
    - eapply provenance_trans; [exact (traced_Codegen _ _ _ _ E10)|eauto].
    - eapply provenance_trans; [exact (traced_Codegen _ _ _ _ E10)|].
      eapply provenance_trans; [eauto|exact (traced_Codegen _ _ _ _ E12)]. }
  exists s9. split; [|split; [exact D|]].
  { intros n. unfold s9. rewrite resolve_insert.
    destruct (decide (n = VarName)); [reflexivity|].
    now rewrite R8, R7, R6, R5, R4. }
  destruct P as (N' & P' & B').
  destruct (resolve s' VarName) as [h|] eqn:Hs';
    [|exfalso; apply (B' VarName); [rewrite Hx; discriminate|exact Hs']].
  exists h. split; [reflexivity|].
  assert (Hh : h = next_id s0 \/ next_id s9 <= h < next_id s').
  { destruct (P' VarName h Hs') as [Hh|Hh]; [left; congruence|right; lia]. }
  repeat split.
  - lia.
  - lia.
  - intros Hc. apply Ha in Hc. lia.
  - intros Hc. destruct (P3 _ _ Hc) as [Hc'|Hc'].
    + rewrite R2 in Hc'. apply Ha in Hc'. lia.
    + lia.
Qed.

Lemma Var_failure_keeps_bindings VarNames Body s Olds s1 s' :
  handles_allocated s ->
  VarBind Codegen (fst (InsertBlock s)) VarNames [] s = Done (Some Olds) s1 ->
  Codegen Body s1 = Done None s' ->
  Codegen (VarExprAST VarNames Body) s = Done None s'
  /\ forall n, n ∈ map fst VarNames ->
       (exists h1, resolve s1 n = Some h1 /\ next_id s <= h1 < next_id s1)
       /\ exists h, resolve s' n = Some h /\ next_id s <= h < next_id s'
                    /\ resolve s n <> Some h.
Proof.
  intros Ha Hbind Hbody. split.
  - cbn [Codegen]. unfold bind, GetInsertParent, get. now rewrite Hbind, Hbody.
  - intros n Hin.
    destruct (VarBind_binds _ _ _ _ _ _ Hbind n Hin) as (h1 & H1 & Hb1).
    split; [eauto|].
    destruct (traced_Codegen _ _ _ _ Hbody) as (N' & P' & B').
    destruct (resolve s' n) as [h|] eqn:Hs';
      [|exfalso; apply (B' n); [rewrite H1; discriminate|exact Hs']].
    exists h. split; [reflexivity|].
    assert (Hh : next_id s <= h < next_id s').
    { destruct (P' n h Hs') as [Hh|Hh]; [|lia].
      rewrite H1 in Hh. injection Hh as <-. lia. }
    split; [exact Hh|]. intros Hc. apply Ha in Hc. lia.
Qed.

Lemma FunctionAST_Codegen_clears Fn s :
  FunctionAST_Codegen Fn s
  = FunctionAST_Codegen Fn (set_NamedValues (fun _ => ∅) s).
Proof. reflexivity. Qed.

(** C9 (as amended): on the failure path the shadow bindings are not
    restored.  A counted loop lowers its body in the scope the start
    expression left, with its variable bound to the loop's own storage;
    when the body, the step or the end condition fails to lower, the loop
    returns at once, in the state the failing expression left.  The loop variable is then bound to a handle handed out since the
    lowering of the loop began - the loop's own storage unless an
    expression of the loop left another binding of the name behind - and
    neither to what the name was bound to before the loop nor to the
    binding the loop had saved.  A scoped-binding block binds each of its
    names to storage of its own before it lowers the body; when the body
    fails to lower, the failure is returned in the state the body left and
    every name of the block is bound to a handle handed out since the
    lowering of the block began, not to what it was bound to before.  A
    failed function definition leaves the scope table as the failed body
    left it, and the next function definition starts by clearing it. *)
Theorem failure_keeps_shadow_bindings :
  (forall VarName Start End Step Body s s' sv s1,
      handles_allocated s ->
      Codegen Start (loop_entry VarName s) = Done (Some sv) s1 ->
      Codegen (ForExprAST VarName Start End Step Body) s = Done None s' ->
      CreateEntryBlockAlloca (fst (InsertBlock s)) VarName s
      = Done (next_id s) (loop_entry VarName s)
      /\ exists sb,
           (forall n, resolve sb n
                      = if decide (n = VarName) then Some (next_id s) else resolve s1 n)
           /\ loop_fails Body Step End sb s'
           /\ exists h, resolve s' VarName = Some h
                        /\ next_id s <= h < next_id s'
                        /\ resolve s VarName <> Some h
                        /\ resolve s1 VarName <> Some h)
  /\ (forall VarNames Body s Olds s1 s',
        handles_allocated s ->
        VarBind Codegen (fst (InsertBlock s)) VarNames [] s = Done (Some Olds) s1 ->
        Codegen Body s1 = Done None s' ->
        Codegen (VarExprAST VarNames Body) s = Done None s'
        /\ forall n, n ∈ map fst VarNames ->
             (exists h1, resolve s1 n = Some h1 /\ next_id s <= h1 < next_id s1)
             /\ exists h, resolve s' n = Some h /\ next_id s <= h < next_id s'
                          /\ resolve s n <> Some h)
  /\ (forall Fn s F s1 s2,
        enter_function (Proto Fn) s = Done (Some F) s1 ->
        Codegen (Body Fn) s1 = Done None s2 ->
        exists s', FunctionAST_Codegen Fn s = Done None s'
                   /\ NamedValues s' = NamedValues s2)
  /\ (forall Fn s,
        FunctionAST_Codegen Fn s
        = FunctionAST_Codegen Fn (set_NamedValues (fun _ => ∅) s)).
Proof.
  split; [|split; [|split]].
  - intros. split; [reflexivity|]. eapply For_failure_keeps_binding; eauto.
  - intros. eapply Var_failure_keeps_bindings; eauto.
  - intros Fn s F s1 s2 E1 E2.
    exists (rolled_back Fn F s2). rewrite FunctionAST_Codegen_enter, E1, E2.
    split; [reflexivity|]. unfold rolled_back. cbn zeta.
    now destruct (isBinaryOp (Proto Fn)).
  - intros. apply FunctionAST_Codegen_clears.
Qed.


Lemma handles_allocated_inside_f : handles_allocated inside_f.
Proof.
  apply (enter_function_handles_allocated (mkProto "f" ["x"] NoOperator)
           initial_state 0).
  vm_compute. reflexivity.
Qed.

Lemma failure_keeps_shadow_bindings_witness :
  (CreateEntryBlockAlloca (fst (InsertBlock inside_f)) "i" inside_f
   = Done (next_id inside_f) (loop_entry "i" inside_f)
   /\ exists sb,
        (forall n,
            resolve sb n
            = if decide (n = "i") then Some (next_id inside_f)
              else resolve (state_of (Codegen (NumberExprAST 1) (loop_entry "i" inside_f))
                                     inside_f) n)
        /\ loop_fails
             (BinaryExprAST "+"
                (VarExprAST [("i", Some (NumberExprAST 2)); ("i", Some (NumberExprAST 3))]
                   (VariableExprAST "i"))
                (VariableExprAST "unknown"))
             None (NumberExprAST 1) sb
             (state_of (Codegen slipping_loop_example inside_f) inside_f)
        /\ exists h,
             resolve (state_of (Codegen slipping_loop_example inside_f) inside_f) "i"
             = Some h
             /\ next_id inside_f <= h
                < next_id (state_of (Codegen slipping_loop_example inside_f) inside_f)
             /\ resolve inside_f "i" <> Some h
             /\ resolve (state_of (Codegen (NumberExprAST 1) (loop_entry "i" inside_f))
                                  inside_f) "i" <> Some h)
  /\ (Codegen failing_block_example inside_f
      = Done None (state_of (Codegen failing_block_example inside_f) inside_f)
      /\ forall n, n ∈ map fst [("x", Some (NumberExprAST 1)); ("y", Some (NumberExprAST 2))] ->
           (exists h1,
               resolve (state_of (VarBind Codegen (fst (InsertBlock inside_f))
                                    [("x", Some (NumberExprAST 1));
                                     ("y", Some (NumberExprAST 2))]
                                    [] inside_f) inside_f) n = Some h1
               /\ next_id inside_f <= h1
                  < next_id (state_of (VarBind Codegen (fst (InsertBlock inside_f))
                                         [("x", Some (NumberExprAST 1));
                                          ("y", Some (NumberExprAST 2))]
                                         [] inside_f) inside_f))
           /\ exists h,
                resolve (state_of (Codegen failing_block_example inside_f) inside_f) n
                = Some h
                /\ next_id inside_f <= h
                   < next_id (state_of (Codegen failing_block_example inside_f) inside_f)
                /\ resolve inside_f n <> Some h)
  /\ (exists s', FunctionAST_Codegen failing_definition with_externs = Done None s'
                 /\ NamedValues s'
                    = NamedValues
                        (state_of
                           (Codegen failing_body_example
                              (state_of (enter_function (Proto failing_definition)
                                                        with_externs) with_externs))
                           with_externs)).
Proof.
  split; [|split].
  - apply (proj1 failure_keeps_shadow_bindings
             "i" (NumberExprAST 1) (NumberExprAST 1) None
             (BinaryExprAST "+"
                (VarExprAST [("i", Some (NumberExprAST 2)); ("i", Some (NumberExprAST 3))]
                   (VariableExprAST "i"))
                (VariableExprAST "unknown"))
             inside_f _ (ConstantFP 1) _ handles_allocated_inside_f).
    + vm_compute. reflexivity.
    + vm_compute. reflexivity.
  - apply (proj1 (proj2 failure_keeps_shadow_bindings)
             [("x", Some (NumberExprAST 1)); ("y", Some (NumberExprAST 2))]
             (VariableExprAST "unknown") inside_f [Some 2; None]
             (state_of (VarBind Codegen (fst (InsertBlock inside_f))
                          [("x", Some (NumberExprAST 1)); ("y", Some (NumberExprAST 2))]
                          [] inside_f) inside_f)
             _ handles_allocated_inside_f).
    + vm_compute. reflexivity.
    + vm_compute. reflexivity.
  - apply (proj1 (proj2 (proj2 failure_keeps_shadow_bindings))
             failing_definition with_externs 2
             (state_of (enter_function (Proto failing_definition) with_externs)
                       with_externs)).
    + vm_compute. reflexivity.
    + vm_compute. reflexivity.
Defined.

(** C9 (as stated) fails: in [for i = 1, 1 in (var i = 2 in unknown)] the
    body fails while the inner block shadows [i]; the loop variable is then
    bound to the inner block's storage, not to the loop's. *)
Lemma loop_variable_not_bound_to_loop_storage :
  CreateEntryBlockAlloca (fst (InsertBlock inside_toplevel)) "i" inside_toplevel
  = Done 4 (loop_entry "i" inside_toplevel)
  /\ exists s', Codegen failing_loop_example inside_toplevel = Done None s'
                /\ resolve s' "i" = Some 8.
Proof.
  split; [vm_compute; reflexivity|]. eexists.
  split; [vm_compute; reflexivity|]. vm_compute. reflexivity.
Qed.

(** The binding left behind need not come from a construct that failed: in
    [for i = 1, 1 in ((var i = 2, i = 3 in i) + unknown)] the inner block
    lowers, but it binds [i] twice and so leaves [i] bound to the storage of
    its first binding; the loop then fails on [unknown] with that binding
    in place. *)
Example loop_variable_left_by_lowered_block :
  CreateEntryBlockAlloca (fst (InsertBlock inside_toplevel)) "i" inside_toplevel
  = Done 4 (loop_entry "i" inside_toplevel)
  /\ exists s', Codegen slipping_loop_example inside_toplevel = Done None s'
                /\ resolve s' "i" = Some 8.
Proof.
  split; [vm_compute; reflexivity|]. eexists.
  split; [vm_compute; reflexivity|]. vm_compute. reflexivity.
Qed.

(** ** The scope of initializers *)


Lemma shadow_example_value (ext : string -> list float -> float) :
  run_toplevel 20 ext with_externs shadow_example = Some (1%float, []).
Proof. vm_compute. reflexivity. Qed.

(** C2 (as amended): in a scoped-binding block with pairwise distinct
    names, when no scoped-binding block inside the earlier initializers
    binds a name twice, each initializer is lowered after the earlier pairs
    of the block were bound and before its own name is: it sees the block's
    earlier names, bound to the block's new storage, and every other name,
    its own and the later ones included, as it resolves outside the block.
    In particular [var a = 1 in (var a = a in a)] yields 1.0. *)
Theorem initializer_scope
    (pre post : list (string * option ExprAST)) (x : string) (Init : ExprAST)
    (s s1 : state) (Olds : list (option nat)) :
  NoDup (map fst (pre ++ (x, Some Init) :: post)) ->
  forallb (fun p => match snd p with
                    | Some e => distinct_names e
                    | None => true
                    end) pre = true ->
  VarBind Codegen (fst (InsertBlock s)) pre [] s = Done (Some Olds) s1 ->
  VarBind Codegen (fst (InsertBlock s)) (pre ++ (x, Some Init) :: post) [] s
  = (InitVal <- Codegen Init ;;
     match InitVal with
     | None => ret None
     | Some InitVal =>
         Alloca <- CreateEntryBlockAlloca (fst (InsertBlock s)) x ;;
         CreateStore InitVal Alloca ;;;
         Old <- NamedValues_index x ;;
         NamedValues_assign x (Some Alloca) ;;;
         VarBind Codegen (fst (InsertBlock s)) post (Olds ++ [Old])
     end) s1
  /\ (forall n, n ∉ map fst pre -> resolve s1 n = resolve s n)
  /\ resolve s1 x = resolve s x
  /\ (forall n, n ∈ map fst pre ->
        exists h, resolve s1 n = Some h /\ next_id s <= h < next_id s1)
  /\ (forall ext k,
        run_toplevel (20 + k) ext with_externs shadow_example = Some (1%float, [])).
Proof.
  intros Hnd Hd Hpre.
  rewrite map_app in Hnd. apply NoDup_app in Hnd as (Hnd1 & Hdisj & Hnd2).
  assert (IHv : Forall (fun p : string * option ExprAST =>
                          forall e, snd p = Some e -> restores (Codegen e)) pre).
  { rewrite forallb_forall in Hd. apply List.Forall_forall.
    intros p Hin e He. apply distinct_names_restores.
    specialize (Hd p Hin). now rewrite He in Hd. }
  destruct (VarBind_restores _ _ _ IHv Hnd1 _ _ _ _ Hpre) as (_ & Hout).
  split; [|split; [|split; [|split]]].
  - rewrite VarBind_app, Hpre. reflexivity.
  - exact Hout.
  - apply Hout. intros Hin. apply (Hdisj x Hin). cbn. left.
  - intros n Hin. eapply VarBind_binds; eauto.
  - intros ext k. apply run_toplevel_more_fuel, shadow_example_value.
Qed.

Lemma initializer_scope_witness :
  resolve
    (state_of (VarBind Codegen (fst (InsertBlock inside_f))
                 [("a", Some (NumberExprAST 1))] [] inside_f) inside_f) "x"
  = resolve inside_f "x"
  /\ exists h,
       resolve
         (state_of (VarBind Codegen (fst (InsertBlock inside_f))
                      [("a", Some (NumberExprAST 1))] [] inside_f) inside_f) "a"
       = Some h
       /\ next_id inside_f <= h.
Proof.
  assert (Hnd : NoDup (map fst ([("a", Some (NumberExprAST 1))]
                                  ++ ("x", Some (VariableExprAST "a"))
                                  :: [("b", Some (VariableExprAST "x"))]))).
  { apply (bool_decide_unpack _). vm_compute. exact I. }
  assert (Hd : forallb (fun p : string * option ExprAST =>
                          match snd p with
                          | Some e => distinct_names e
                          | None => true
                          end) [("a", Some (NumberExprAST 1))] = true)
    by (vm_compute; reflexivity).
  assert (Hpre : VarBind Codegen (fst (InsertBlock inside_f))
                   [("a", Some (NumberExprAST 1))] [] inside_f
                 = Done (Some [None])
                     (state_of (VarBind Codegen (fst (InsertBlock inside_f))
                                  [("a", Some (NumberExprAST 1))] [] inside_f)
                               inside_f))
    by (vm_compute; reflexivity).
  pose proof (initializer_scope _ _ _ _ _ _ _ Hnd Hd Hpre) as (_ & _ & Hx & Hin & _).
  split; [exact Hx|].
  destruct (Hin "a") as (h & Hh & Hb).
  - apply list_elem_of_In. left. reflexivity.
  - exists h. split; [exact Hh|]. lia.
Defined.

(** The condition on the earlier initializers is needed: in
    [var a = (var x = 1, x = 2 in x), x = x in x] the first initializer
    binds [x] twice and leaves it bound, so the initializer of [x] refers
    to that [x], although no [x] is in scope outside the block and the
    block has not bound its own yet.  The block lowers without a message
    and yields 1.0. *)
Example stale_name_reaches_initializer :
  resolve inside_toplevel "x" = None
  /\ (exists v s',
        Codegen stale_initializer_example inside_toplevel = Done (Some v) s'
        /\ stderr s' = stderr inside_toplevel)
  /\ forall ext,
       run_toplevel 40 ext with_externs stale_initializer_example = Some (1%float, []).
Proof.
  split; [reflexivity|]. split.
  - eexists. eexists. split; [vm_compute; reflexivity|]. vm_compute. reflexivity.
  - intros ext. vm_compute. reflexivity.
Qed.

(** C2 (as stated) fails: in [var a = 1, b = a in b], lowered where no [a]
    is in scope, the initializer of [b] refers to the [a] of the same block;
    the lowering succeeds and the code yields 1.0. *)
Lemma later_initializer_sees_earlier_name :
  resolve inside_toplevel "a" = None
  /\ (exists s', Codegen (VariableExprAST "a") inside_toplevel = Done None s')
  /\ (exists v s', Codegen later_initializer_example inside_toplevel
                   = Done (Some v) s')
  /\ run_toplevel 20 (fun _ _ => 0%float) with_externs later_initializer_example
     = Some (1%float, []).
Proof.
  split; [reflexivity|]. split; [eexists; vm_compute; reflexivity|].
  split; [eexists; eexists; vm_compute; reflexivity|].
  vm_compute. reflexivity.
Qed.

(** * Further properties *)

(** ** Unary and user-defined binary operators *)

Lemma unary_lowering (Opcode : ascii) (Operand : ExprAST) (s : state) :
  (Codegen Operand s = AssertFail ->
     Codegen (UnaryExprAST Opcode Operand) s = AssertFail)
  /\ (forall s1, Codegen Operand s = Done None s1 ->
        Codegen (UnaryExprAST Opcode Operand) s = Done None s1)
  /\ (forall v s1, Codegen Operand s = Done (Some v) s1 ->
        getFunction (TheModule s1) (unary_name Opcode) = None ->
        Codegen (UnaryExprAST Opcode Operand) s
        = Done None (error_state "Unknown unary operator" s1))
  /\ (forall v s1 F, Codegen Operand s = Done (Some v) s1 ->
        getFunction (TheModule s1) (unary_name Opcode) = Some F ->
        Codegen (UnaryExprAST Opcode Operand) s
        = Done (Some (InstResult (next_id s1))) (inserted (Call (f_id F) [v]) s1)).
Proof.
  cbn [Codegen]. repeat split.
  - intros H. now apply bind_AssertFail.
  - intros s1 H. now rewrite (bind_Done _ _ _ _ _ H).
  - intros v s1 H Hg. rewrite (bind_Done _ _ _ _ _ H).
    unfold bind, get. unfold unary_name in Hg. now rewrite Hg.
  - intros v s1 F H Hg. rewrite (bind_Done _ _ _ _ _ H).
    unfold bind at 1. unfold get. unfold unary_name in Hg. now rewrite Hg.
Qed.

Lemma user_binary_lowering (Op : ascii) (LHS RHS : ExprAST) (s s1 s2 : state)
    (L R : Value) :
  user_operator Op = true ->
  Codegen LHS s = Done (Some L) s1 ->
  Codegen RHS s1 = Done (Some R) s2 ->
  (getFunction (TheModule s2) (binary_name Op) = None ->
     Codegen (BinaryExprAST Op LHS RHS) s = AssertFail)
  /\ (forall F, getFunction (TheModule s2) (binary_name Op) = Some F ->
        Codegen (BinaryExprAST Op LHS RHS) s
        = Done (Some (InstResult (next_id s2))) (inserted (Call (f_id F) [L; R]) s2)).
Proof.
  intros Hop HL HR. unfold user_operator, builtin_operator in Hop.
  apply andb_prop in Hop as [H1 H2]. apply negb_true_iff in H1, H2.
  apply bool_decide_eq_false in H1.
  repeat (apply orb_false_elim in H2 as [H2 ?]).
  repeat match goal with H : bool_decide _ = false |- _ =>
    apply bool_decide_eq_false in H end.
  cbn [Codegen]. rewrite decide_False by exact H1.
  rewrite (bind_Done _ _ _ _ _ HL), (bind_Done _ _ _ _ _ HR).
  rewrite !decide_False by assumption.
  unfold binary_name. split.
  - intros Hg. unfold bind, get. now rewrite Hg.
  - intros F Hg. unfold bind at 1. unfold get. now rewrite Hg.
Qed.




Lemma CallArgs_one cg a s v s1 :
  cg a s = Done (Some v) s1 -> CallArgs cg [a] [] s = Done (Some [v]) s1.
Proof. intros H. cbn [CallArgs]. now rewrite (bind_Done _ _ _ _ _ H). Qed.

(** X1: when the function [unary<op>] exists and takes one parameter,
    applying the unary operator lowers exactly as the call of that function
    on the operand does, whatever the operand does.  Unlike a call, the
    operator form does not check the number of parameters: with any other
    count it still emits the one-argument call where the call form reports
    an error. *)
Theorem unary_operator_is_call (Opcode : ascii) (Operand : ExprAST) (s : state)
    (F : Function) :
  getFunction (TheModule s) (unary_name Opcode) = Some F ->
  (arg_size F = 1 ->
     Codegen (UnaryExprAST Opcode Operand) s
     = Codegen (CallExprAST (unary_name Opcode) [Operand]) s)
  /\ (arg_size F <> 1 ->
      forall v s1, Codegen Operand s = Done (Some v) s1 ->
        Codegen (UnaryExprAST Opcode Operand) s
        = Done (Some (InstResult (next_id s1))) (inserted (Call (f_id F) [v]) s1)
        /\ Codegen (CallExprAST (unary_name Opcode) [Operand]) s
           = Done None (error_state "Incorrect # arguments passed" s)).
Proof.
  intros Hg.
  assert (Hun : forall v s1, Codegen Operand s = Done (Some v) s1 ->
            Codegen (UnaryExprAST Opcode Operand) s
            = Done (Some (InstResult (next_id s1))) (inserted (Call (f_id F) [v]) s1)).
  { intros v s1 H.
    destruct (keeps_Codegen _ _ _ _ H) as (_ & _ & Hm).
    destruct (getFunction_grows _ _ _ _ Hm Hg) as (F' & Hg' & (Hid & _)).
    rewrite (proj2 (proj2 (proj2 (unary_lowering Opcode Operand s))) v s1 F' H Hg').
    now rewrite Hid. }
  split.
  - intros Ha.
    assert (Hcall : Codegen (CallExprAST (unary_name Opcode) [Operand]) s
                    = (ArgsV <- CallArgs Codegen [Operand] [] ;;
                       match ArgsV with
                       | None => ret None
                       | Some ArgsV => v <- CreateCall F ArgsV ;; ret (Some v)
                       end) s).
    { cbn [Codegen]. unfold bind at 1. unfold get. rewrite Hg.
      cbn [length]. now rewrite Ha. }
    rewrite Hcall.
    destruct (Codegen Operand s) as [[v|] s1|] eqn:E.
    + rewrite (Hun v s1 eq_refl).
      now rewrite (bind_Done _ _ _ _ _ (CallArgs_one Codegen Operand s v s1 E)).
    + rewrite (proj1 (proj2 (unary_lowering Opcode Operand s)) s1 E).
      cbn [CallArgs]. unfold bind. now rewrite E.
    + rewrite (proj1 (unary_lowering Opcode Operand s) E).
      cbn [CallArgs]. unfold bind. now rewrite E.
  - intros Ha v s1 H. split; [now apply Hun|].
    cbn [Codegen]. unfold bind, get. rewrite Hg. cbn [length].
    destruct (Nat.eqb_spec (arg_size F) 1); [contradiction|]. reflexivity.
Qed.

(** X2: for an operator that is neither the assignment nor built in, whose
    function [binary<op>] exists and takes two parameters, the application
    lowers exactly as the call [binary<op>(LHS, RHS)] does, provided the left
    operand lowers.  (When the left operand fails the two differ: the
    operator form still lowers the right operand.) *)
Theorem user_binary_operator_is_call (Op : ascii) (LHS RHS : ExprAST)
    (s s1 : state) (F : Function) (L : Value) :
  user_operator Op = true ->
  getFunction (TheModule s) (binary_name Op) = Some F ->
  arg_size F = 2 ->
  Codegen LHS s = Done (Some L) s1 ->
  Codegen (BinaryExprAST Op LHS RHS) s
  = Codegen (CallExprAST (binary_name Op) [LHS; RHS]) s.
Proof.
  intros Hop Hg Ha HL.
  assert (Hcall : Codegen (CallExprAST (binary_name Op) [LHS; RHS]) s
                  = (ArgsV <- CallArgs Codegen [LHS; RHS] [] ;;
                     match ArgsV with
                     | None => ret None
                     | Some ArgsV => v <- CreateCall F ArgsV ;; ret (Some v)
                     end) s).
  { cbn [Codegen]. unfold bind at 1. unfold get. rewrite Hg.
    cbn [length]. now rewrite Ha. }
  rewrite Hcall. cbn [CallArgs].
  destruct (Codegen RHS s1) as [[R|] s2|] eqn:HR.
  - destruct (keeps_Codegen _ _ _ _ HL) as (_ & _ & Hm1).
    destruct (keeps_Codegen _ _ _ _ HR) as (_ & _ & Hm2).
    destruct (getFunction_grows _ _ _ _ Hm1 Hg) as (F1 & Hg1 & (Hid1 & _)).
    destruct (getFunction_grows _ _ _ _ Hm2 Hg1) as (F2 & Hg2 & (Hid2 & _)).
    rewrite (proj2 (user_binary_lowering Op LHS RHS s s1 s2 L R Hop HL HR) F2 Hg2).
    unfold bind. rewrite HL, HR. cbn [app]. unfold CreateCall.
    unfold ret at 1. cbv beta iota. rewrite Insert_Done.
    unfold ret. now rewrite Hid2, Hid1.
  - unfold user_operator, builtin_operator in Hop.
    apply andb_prop in Hop as [H1 H2]. apply negb_true_iff in H1, H2.
    apply bool_decide_eq_false in H1.
    cbn [Codegen]. rewrite decide_False by exact H1.
    unfold bind. now rewrite HL, HR.
  - unfold user_operator, builtin_operator in Hop.
    apply andb_prop in Hop as [H1 H2]. apply negb_true_iff in H1, H2.
    apply bool_decide_eq_false in H1.
    cbn [Codegen]. rewrite decide_False by exact H1.
    unfold bind. now rewrite HL, HR.
Qed.

(** ** Entering a function *)

Lemma scope_kept_PrototypeAST_Codegen P : scope_kept (PrototypeAST_Codegen P).
Proof.
  unfold PrototypeAST_Codegen, Function_Create, eraseFromParent, setArgNames.
  scope_kept_auto.
  all: try apply scope_kept_set_TheModule.
  all: try (intros ? ? ? ?; discriminate).
Qed.

Lemma enter_function_inv P s F s1 :
  enter_function P s = Done (Some F) s1 ->
  exists sD, (forall n, resolve sD n = None)
             /\ next_id s <= next_id sD
             /\ ArgumentAllocas F (Args P) 0 sD = Done tt s1.
Proof.
  intros H. unfold enter_function in H.
  apply bind_inv in H as ([] & s0 & E1 & H). inversion E1; subst; clear E1.
  apply bind_inv in H as (oF & sA & E2 & H).
  destruct oF as [F'|]; [|discriminate].
  apply scope_kept_PrototypeAST_Codegen in E2 as [RA NA].
  apply bind_inv in H as ([] & sB & E3 & H).
  assert (RB : (forall n, resolve sB n = resolve sA n) /\ next_id sB = next_id sA)
    by (destruct (isBinaryOp P); inversion E3; subst; split; reflexivity).
  destruct RB as [RB NB].
  apply bind_inv in H as (BB & sC & E4 & H).
  apply scope_kept_BasicBlock_Create in E4 as [RC NC].
  apply bind_inv in H as ([] & sD & E5 & H).
  apply scope_kept_SetInsertPoint in E5 as [RD ND].
  apply bind_inv in H as ([] & sE & E6 & H).
  inversion H; subst; clear H.
  exists sD. split; [|split].
  - intros n. rewrite RD, RC, RB, RA. unfold resolve. cbn. now rewrite lookup_empty.
  - cbn in NA. lia.
  - exact E6.
Qed.

Lemma ArgumentAllocas_scope F Args : forall Idx s u s',
  ArgumentAllocas F Args Idx s = Done u s' ->
  next_id s <= next_id s'
  /\ (forall n, n ∉ Args -> resolve s' n = resolve s n)
  /\ (forall n, n ∈ Args ->
        exists h, resolve s' n = Some h /\ next_id s <= h < next_id s')
  /\ (NoDup Args ->
      forall n1 n2 h, n1 ∈ Args -> n2 ∈ Args ->
        resolve s' n1 = Some h -> resolve s' n2 = Some h -> n1 = n2).
Proof.
  induction Args as [|Arg Args IH]; intros Idx s u s' H; cbn [ArgumentAllocas] in H.
  - inversion H; subst. repeat split; auto.
    + intros n Hn. now apply elem_of_nil in Hn.
    + intros _ n1 n2 h Hn. now apply elem_of_nil in Hn.
  - apply bind_inv in H as (A & s1 & E1 & H).
    pose proof (CreateEntryBlockAlloca_fresh _ _ _ _ _ E1) as (-> & N1 & R1).
    apply bind_inv in H as ([] & s2 & E2 & H).
    apply scope_kept_CreateStore in E2 as [R2 N2].
    apply bind_inv in H as ([] & s3 & E3 & H). inversion E3; subst; clear E3.
    set (s3 := set_NamedValues (insert Arg (Some (next_id s))) s2) in *.
    assert (N3 : next_id s3 = next_id s2) by reflexivity.
    destruct (IH _ _ _ _ H) as (N4 & Hout & Hin & Hinj).
    assert (Hhead : Arg ∉ Args -> resolve s' Arg = Some (next_id s)).
    { intros Hn. rewrite (Hout _ Hn). unfold s3. rewrite resolve_insert.
      now rewrite decide_True. }
    repeat split.
    + lia.
    + intros n Hn. apply not_elem_of_cons in Hn as [Hne Hn].
      rewrite (Hout _ Hn). unfold s3. rewrite resolve_insert, decide_False by exact Hne.
      now rewrite R2, R1.
    + intros n Hn. destruct (decide (n ∈ Args)) as [Hn'|Hn'].
      * destruct (Hin _ Hn') as (h & Hh & Hb). exists h. split; [exact Hh|lia].
      * apply elem_of_cons in Hn as [->|Hn]; [|contradiction].
        exists (next_id s). split; [now apply Hhead|lia].
    + intros Hnd n1 n2 h H1 H2 Hr1 Hr2.
      apply NoDup_cons in Hnd as [Hx Hnd].
      apply elem_of_cons in H1 as [->|H1]; apply elem_of_cons in H2 as [->|H2].
      * reflexivity.
      * exfalso. rewrite (Hhead Hx) in Hr1. injection Hr1 as <-.
        destruct (Hin _ H2) as (h & Hh & Hb). rewrite Hr2 in Hh.
        injection Hh as <-. lia.
      * exfalso. rewrite (Hhead Hx) in Hr2. injection Hr2 as <-.
        destruct (Hin _ H1) as (h & Hh & Hb). rewrite Hr1 in Hh.
        injection Hh as <-. lia.
      * eapply Hinj; eauto.
Qed.

(** X3: the body of a function is lowered in a scope that holds exactly the
    parameters: a name resolves iff it is a parameter, whatever was in scope
    before; every handle was allocated while the function was entered; and
    distinct parameters have distinct storage. *)
Theorem function_scope_is_parameters (P : PrototypeAST) (s s1 : state) (F : nat) :
  enter_function P s = Done (Some F) s1 ->
  (forall n, resolve s1 n <> None <-> n ∈ Args P)
  /\ (forall n h, resolve s1 n = Some h -> next_id s <= h < next_id s1)
  /\ (NoDup (Args P) ->
      forall n1 n2 h, resolve s1 n1 = Some h -> resolve s1 n2 = Some h -> n1 = n2).
Proof.
  intros H. destruct (enter_function_inv _ _ _ _ H) as (sD & RD & ND & E).
  destruct (ArgumentAllocas_scope _ _ _ _ _ _ E) as (N & Hout & Hin & Hinj).
  assert (Hiff : forall n, resolve s1 n <> None <-> n ∈ Args P).
  { intros n. split.
    - intros Hn. destruct (decide (n ∈ Args P)) as [|Hnin]; [assumption|].
      exfalso. apply Hn. rewrite (Hout _ Hnin). apply RD.
    - intros Hn. destruct (Hin _ Hn) as (h & -> & _). discriminate. }
  split; [exact Hiff|]. split.
  - intros n h Hn. assert (Hn' : n ∈ Args P) by (apply Hiff; congruence).
    destruct (Hin _ Hn') as (h' & Hh & Hb). rewrite Hn in Hh. injection Hh as <-. lia.
  - intros Hnd n1 n2 h H1 H2. eapply Hinj; eauto; apply Hiff; congruence.
Qed.

Lemma function_scope_is_parameters_witness :
  (forall n, resolve inside_f n <> None <-> n ∈ ["x"])
  /\ (forall n h, resolve inside_f n = Some h ->
                  next_id initial_state <= h < next_id inside_f).
Proof.
  assert (H : enter_function (mkProto "f" ["x"] NoOperator) initial_state
              = Done (Some 0) inside_f) by (vm_compute; reflexivity).
  split.
  - apply (proj1 (function_scope_is_parameters _ _ _ _ H)).
  - apply (proj1 (proj2 (function_scope_is_parameters _ _ _ _ H))).
Defined.

(** ** The operator registry across a definition *)

Lemma to_int_range z : (-2147483648 <= to_int z < 2147483648)%Z.
Proof. unfold to_int. pose proof (Z.mod_pos_bound (z + 2147483648) 4294967296). lia. Qed.

Lemma to_int_congruent z : ((to_int z - z) mod 4294967296 = 0)%Z.
Proof.
  unfold to_int.
  rewrite (Z.mod_eq (z + 2147483648) 4294967296) by lia.
  replace (z + 2147483648 - 4294967296 * ((z + 2147483648) / 4294967296)
           - 2147483648 - z)%Z
    with ((- ((z + 2147483648) / 4294967296)) * 4294967296)%Z by lia.
  apply Z.mod_mul. lia.
Qed.

Lemma to_int_small z : (0 <= z < 2147483648)%Z -> to_int z = z.
Proof. intros H. unfold to_int. rewrite Z.mod_small; lia. Qed.

Lemma Codegen_registry e s r s' :
  Codegen e s = Done r s' -> BinopPrecedence s' = BinopPrecedence s.
Proof. intros H. apply keeps_Codegen in H as (_ & Hb & _). exact Hb. Qed.

(** X4: the operator registry across a definition whose prototype is
    accepted.  When the body lowers, the registry is the old one with the
    operator of a binary-operator definition installed, and unchanged for
    any other definition.  The registry holds [int]s: the precedence of the
    prototype is installed as converted to a 32-bit [int], that is reduced
    modulo 2^32 into the range from -2^31 to 2^31 - 1, so a precedence
    below 2^31 is installed as it is and 4294967295 as -1.  When the body
    fails, the entry of the operator is removed, also when the operator was
    registered before the definition: the old precedence is not put
    back. *)
Theorem definition_registry (Fn : FunctionAST) (s s1 : state) (F : nat) :
  ids_fresh s -> names_unique (TheModule s) ->
  enter_function (Proto Fn) s = Done (Some F) s1 ->
  let op := getOperatorName (Proto Fn) in
  let prec := to_int (getBinaryPrecedence (Proto Fn)) in
  (forall v s2, Codegen (Body Fn) s1 = Done (Some v) s2 ->
     exists s', FunctionAST_Codegen Fn s = Done (Some F) s'
                /\ BinopPrecedence s'
                   = if isBinaryOp (Proto Fn)
                     then <[op := prec]> (BinopPrecedence s)
                     else BinopPrecedence s)
  /\ (forall s2, Codegen (Body Fn) s1 = Done None s2 ->
        exists s', FunctionAST_Codegen Fn s = Done None s'
                   /\ BinopPrecedence s'
                      = if isBinaryOp (Proto Fn)
                        then delete op (BinopPrecedence s)
                        else BinopPrecedence s)
  /\ (-2147483648 <= prec < 2147483648)%Z
  /\ ((prec - getBinaryPrecedence (Proto Fn)) mod 4294967296 = 0)%Z
  /\ ((0 <= getBinaryPrecedence (Proto Fn) < 2147483648)%Z ->
      prec = getBinaryPrecedence (Proto Fn)).
Proof.
  intros Hf Hu E1 op prec.
  pose proof (enter_function_registry _ _ _ _ Hf Hu E1) as Hreg.
  split; [|split; [|split; [|split]]];
    [| |apply to_int_range|apply to_int_congruent|apply to_int_small].
  - intros v s2 E2. rewrite FunctionAST_Codegen_enter, E1, E2.
    eexists. split; [reflexivity|].
    change (BinopPrecedence (inserted (Ret v) s2)) with (BinopPrecedence s2).
    now rewrite (Codegen_registry _ _ _ _ E2).
  - intros s2 E2. rewrite FunctionAST_Codegen_enter, E1, E2.
    eexists. split; [reflexivity|]. unfold rolled_back. cbn zeta.
    pose proof (Codegen_registry _ _ _ _ E2) as Hb.
    destruct (isBinaryOp (Proto Fn)); cbn; rewrite Hb, Hreg; [|reflexivity].
    apply delete_insert_eq.
Qed.

Lemma definition_registry_witness :
  (BinopPrecedence with_externs !! "+"%char = Some 20%Z
   /\ exists s', FunctionAST_Codegen bad_plus with_externs = Done None s'
                 /\ BinopPrecedence s' = delete "+"%char (BinopPrecedence with_externs))
  /\ exists s', FunctionAST_Codegen wide_operator with_externs = Done (Some 2) s'
                /\ BinopPrecedence s'
                   = <["@"%char := (-1)%Z]> (BinopPrecedence with_externs).
Proof.
  split.
  2:{ apply (proj1 (definition_registry wide_operator with_externs
                      (state_of (enter_function (Proto wide_operator) with_externs)
                                with_externs)
                      2 (proj1 invariants_with_externs) (proj2 invariants_with_externs)
                      ltac:(vm_compute; reflexivity))
               (InstResult 8)
               (state_of (Codegen (Body wide_operator)
                            (state_of (enter_function (Proto wide_operator) with_externs)
                                      with_externs)) with_externs)).
      vm_compute. reflexivity. }
  split; [reflexivity|].
  apply (proj1 (proj2 (definition_registry bad_plus with_externs
                  (state_of (enter_function (Proto bad_plus) with_externs) with_externs)
                  2 (proj1 invariants_with_externs) (proj2 invariants_with_externs)
                  ltac:(vm_compute; reflexivity)))
           (state_of (Codegen (Body bad_plus)
                        (state_of (enter_function (Proto bad_plus) with_externs)
                                  with_externs)) with_externs)).
  vm_compute. reflexivity.
Defined.

(** X5: a definition whose name is already defined, or declared with
    another number of parameters, is rejected without touching the module,
    the operator registry or the insertion point; the scope table is left
    empty and exactly one message is printed. *)
Theorem rejected_definition_changes_nothing (Fn : FunctionAST) (s : state) (G : Function) :
  ids_fresh s ->
  getFunction (TheModule s) (Name (Proto Fn)) = Some G ->
  empty G = false \/ arg_size G <> length (Args (Proto Fn)) ->
  exists s', FunctionAST_Codegen Fn s = Done None s'
             /\ TheModule s' = TheModule s
             /\ BinopPrecedence s' = BinopPrecedence s
             /\ InsertBlock s' = InsertBlock s
             /\ (forall n, resolve s' n = None)
             /\ exists msg, stderr s' = stderr s ++ [msg].
Proof.
  intros Hf Hg Hrej.
  assert (E : exists msg,
             enter_function (Proto Fn) s
             = Done None (error_state msg
                            (set_next_id (S (next_id s))
                               (set_NamedValues (fun _ => ∅) s)))).
  { unfold enter_function, bind, NamedValues_clear, modify.
    rewrite (PrototypeAST_Codegen_existing (Proto Fn)
               (set_NamedValues (fun _ => ∅) s) G Hf Hg).
    cbn zeta. unfold ErrorF, Error, bind, modify, ret.
    destruct (empty G) eqn:He; cbn [negb].
    - destruct Hrej as [Hrej|Hrej]; [discriminate|].
      apply Nat.eqb_neq in Hrej. rewrite Hrej. cbn [negb]. eexists. reflexivity.
    - eexists. reflexivity. }
  destruct E as (msg & E). rewrite FunctionAST_Codegen_enter, E.
  eexists. split; [reflexivity|].
  split; [reflexivity|]. split; [reflexivity|]. split; [reflexivity|]. split.
  - intros n. unfold resolve. cbn. now rewrite lookup_empty.
  - exists msg. reflexivity.
Qed.

Lemma rejected_definition_changes_nothing_witness :
  exists s', FunctionAST_Codegen def_foo after_def_foo = Done None s'
             /\ TheModule s' = TheModule after_def_foo
             /\ BinopPrecedence s' = BinopPrecedence after_def_foo
             /\ InsertBlock s' = InsertBlock after_def_foo
             /\ (forall n, resolve s' n = None)
             /\ exists msg, stderr s' = stderr after_def_foo ++ [msg].
Proof.
  assert (Hf : ids_fresh after_def_foo).
  { apply (invariants_FunctionAST_Codegen def_foo with_externs (Some 2) after_def_foo
             (proj1 invariants_with_externs) (proj2 invariants_with_externs)).
    vm_compute. reflexivity. }
  apply (rejected_definition_changes_nothing def_foo after_def_foo
           (default (mkFn 0 "" [] [])
                    (getFunction (TheModule after_def_foo) "foo")) Hf).
  - vm_compute. reflexivity.
  - left. vm_compute. reflexivity.
Defined.

(** ** What lowering an expression leaves alone *)



(** ** The handles in the scope table *)

(** X7: the scope table only holds allocated handles, and lowering an
    expression keeps it so, successfully or not: a bound name stays bound,
    and a handle a name did not already have was allocated during the
    lowering. *)
Theorem lowering_keeps_handles (e : ExprAST) (s s' : state) (r : option Value) :
  handles_allocated s ->
  Codegen e s = Done r s' ->
  handles_allocated s'
  /\ next_id s <= next_id s'
  /\ (forall n, resolve s n <> None -> resolve s' n <> None)
  /\ (forall n h, resolve s' n = Some h -> resolve s n <> Some h ->
                  next_id s <= h).
Proof.
  intros Ha H. pose proof (traced_Codegen _ _ _ _ H) as P.
  split; [eapply handles_allocated_provenance; eauto|].
  destruct P as (N & P & B). repeat split; auto.
  intros n h Hn Hne. destruct (P n h Hn) as [|]; [contradiction|lia].
Qed.

Lemma lowering_keeps_handles_witness :
  handles_allocated (state_of (Codegen failing_loop_example inside_f) inside_f)
  /\ resolve (state_of (Codegen failing_loop_example inside_f) inside_f) "x" <> None.
Proof.
  assert (H : Codegen failing_loop_example inside_f
              = Done None (state_of (Codegen failing_loop_example inside_f) inside_f))
    by (vm_compute; reflexivity).
  split.
  - apply (proj1 (lowering_keeps_handles _ _ _ _ handles_allocated_inside_f H)).
  - apply (proj1 (proj2 (proj2 (lowering_keeps_handles _ _ _ _
                                   handles_allocated_inside_f H)))).
    vm_compute. discriminate.
Defined.

(** ** Diagnostics *)

Lemma silent_ret {A} (a : A) : silent (ret a).
Proof. intros s a' s' H. inversion H; subst. reflexivity. Qed.

Lemma silent_bind {A B} (m : M A) (k : A -> M B) :
  silent m -> (forall a, silent (k a)) -> silent (bind m k).
Proof.
  intros Hm Hk s b s' H. apply bind_inv in H as (a & s1 & E1 & E2).
  rewrite (Hk _ _ _ _ E2). apply (Hm _ _ _ E1).
Qed.

Lemma silent_get {A} (f : state -> A) : silent (get f).
Proof. intros s a s' H. inversion H; subst. reflexivity. Qed.

Lemma silent_fresh : silent fresh.
Proof. intros s a s' H. inversion H; subst. reflexivity. Qed.

Lemma silent_assert_fail {A} : silent (@assert_fail A).
Proof. intros s a s' H. discriminate. Qed.

Lemma silent_set_TheModule g : silent (modify (set_TheModule g)).
Proof. intros s a s' H. inversion H; subst. reflexivity. Qed.

Lemma silent_set_InsertBlock p : silent (modify (set_InsertBlock p)).
Proof. intros s a s' H. inversion H; subst. reflexivity. Qed.

Lemma silent_set_NamedValues g : silent (modify (set_NamedValues g)).
Proof. intros s a s' H. inversion H; subst. reflexivity. Qed.

Lemma silent_set_BinopPrecedence g : silent (modify (set_BinopPrecedence g)).
Proof. intros s a s' H. inversion H; subst. reflexivity. Qed.

Lemma silent_NamedValues_index name : silent (NamedValues_index name).
Proof.
  intros s a s' H.
  destruct (NamedValues_index_resolve name s) as (t & E & _ & _ & Er & _).
  rewrite E in H. inversion H; subst. exact Er.
Qed.

Ltac silent_auto :=
  unfold BasicBlock_Create, CreateEntryBlockAlloca, CreateArgumentAllocas,
    Function_Create, eraseFromParent, setArgNames,
    BinopPrecedence_assign, BinopPrecedence_erase,
    CreateLoad, CreateStore, CreateFAdd, CreateFSub,
    CreateFMul, CreateFCmpULT, CreateFCmpONE, CreateUIToFP, CreateCall, CreatePHI,
    CreateBr, CreateCondBr, CreateRet, Insert, GetInsertParent, GetInsertBlock,
    SetInsertPoint, push_back_block, NamedValues_assign, NamedValues_erase,
    NamedValues_clear;
  repeat lazymatch goal with
    | |- silent (bind _ _) => apply silent_bind; [|intros ?]
    | |- silent (let _ := _ in _) => cbv zeta
    | |- silent (match ?x with _ => _ end) => destruct x
    | |- silent (ret _) => apply silent_ret
    | |- silent (get _) => apply silent_get
    | |- silent fresh => apply silent_fresh
    | |- silent assert_fail => apply silent_assert_fail
    | |- silent (modify (set_TheModule _)) => apply silent_set_TheModule
    | |- silent (modify (set_InsertBlock _)) => apply silent_set_InsertBlock
    | |- silent (modify (set_NamedValues _)) => apply silent_set_NamedValues
    | |- silent (modify (set_BinopPrecedence _)) => apply silent_set_BinopPrecedence
    | |- silent (NamedValues_index _) => apply silent_NamedValues_index
    end.

Lemma appends_silent {A} (m : M A) : silent m -> appends m.
Proof. intros Hm s a s' H. exists []. rewrite app_nil_r. eauto. Qed.

Lemma appends_reports {A} (m : M (option A)) : reports m -> appends m.
Proof. intros Hm s a s' H. destruct (Hm _ _ _ H) as (msgs & E & _). eauto. Qed.

Lemma appends_bind {A B} (m : M A) (k : A -> M B) :
  appends m -> (forall a, appends (k a)) -> appends (bind m k).
Proof.
  intros Hm Hk s b s' H. apply bind_inv in H as (a & s1 & E1 & E2).
  destruct (Hm _ _ _ E1) as (m1 & H1). destruct (Hk _ _ _ _ E2) as (m2 & H2).
  exists (m1 ++ m2). now rewrite H2, H1, app_assoc.
Qed.

Lemma reports_ret_Some {A} (a : A) : reports (ret (Some a)).
Proof.
  intros s r s' H. inversion H; subst. exists []. rewrite app_nil_r.
  split; [reflexivity|]. split; [discriminate|congruence].
Qed.

Lemma reports_Error {A} Str : reports (Error Str ;;; @ret (option A) None).
Proof.
  intros s r s' H. inversion H; subst. exists [Str].
  split; [reflexivity|]. split; [discriminate|reflexivity].
Qed.

Lemma reports_assert_fail {A} : reports (@assert_fail (option A)).
Proof. intros s r s' H. discriminate. Qed.

Lemma reports_bind_silent {A B} (m : M A) (k : A -> M (option B)) :
  silent m -> (forall a, reports (k a)) -> reports (bind m k).
Proof.
  intros Hm Hk s r s' H. apply bind_inv in H as (a & s1 & E1 & E2).
  destruct (Hk _ _ _ _ E2) as (msgs & E & Hr). exists msgs.
  rewrite E, (Hm _ _ _ E1). auto.
Qed.

Lemma reports_bind_opt {A B} (m : M (option A)) (k : option A -> M (option B)) :
  reports m -> (forall a, reports (k (Some a))) ->
  never_succeeds (k None) -> appends (k None) ->
  reports (bind m k).
Proof.
  intros Hm Hk Hn Ha s r s' H. apply bind_inv in H as (oa & s1 & E1 & E2).
  destruct (Hm _ _ _ E1) as (m1 & H1 & R1). destruct oa as [a|].
  - destruct (Hk _ _ _ _ E2) as (m2 & H2 & R2).
    assert (m1 = []) by (destruct m1; [reflexivity|]; destruct R1 as [_ R1];
                         discriminate R1; discriminate).
    subst m1. exists m2. rewrite H2, H1, app_nil_r. auto.
  - destruct (Ha _ _ _ E2) as (m2 & H2).
    exists (m1 ++ m2). rewrite H2, H1, app_assoc. split; [reflexivity|].
    destruct r as [v|]; [now apply Hn in E2|].
    split; [|reflexivity]. intros _ Hc. apply app_eq_nil in Hc as [Hc _].
    now apply R1.
Qed.

Ltac appends_auto :=
  repeat lazymatch goal with
    | |- appends (bind _ _) => apply appends_bind; [|intros ?]
    | |- appends (match ?x with _ => _ end) => destruct x
    | |- appends (ret _) => apply appends_silent, silent_ret
    | |- appends (Codegen _) => apply appends_reports; solve [eauto]
    | |- appends _ => apply appends_silent; solve [silent_auto]
    end.

Ltac reports_auto :=
  unfold ErrorV, ErrorF;
  repeat lazymatch goal with
    | |- reports (bind (Codegen _) _) =>
        apply reports_bind_opt;
        [ solve [eauto] | intros ?; cbv beta iota
        | cbv beta iota; solve [never_auto]
        | cbv beta iota; solve [appends_auto] ]
    | |- reports (bind (Error _) (fun _ => ret None)) => apply reports_Error
    | |- reports (bind _ _) =>
        apply reports_bind_silent; [solve [silent_auto]|intros ?]
    | |- reports (match ?x with _ => _ end) => destruct x
    | |- reports (ret (Some _)) => apply reports_ret_Some
    | |- reports assert_fail => apply reports_assert_fail
    end.

Lemma reports_CallArgs cg Args :
  Forall (fun a => reports (cg a)) Args ->
  forall ArgsV, reports (CallArgs cg Args ArgsV).
Proof.
  induction 1 as [|a Args Ha _ IH]; intros ArgsV; cbn [CallArgs].
  - apply reports_ret_Some.
  - apply reports_bind_opt; [exact Ha|intros v; apply IH
                            |apply never_succeeds_ret_None
                            |apply appends_silent, silent_ret].
Qed.

Lemma reports_VarBind cg fn VarNames :
  Forall (fun p => forall e, snd p = Some e -> reports (cg e)) VarNames ->
  forall Olds, reports (VarBind cg fn VarNames Olds).
Proof.
  induction 1 as [|[x init] VarNames Hp _ IH]; intros Olds; cbn [VarBind].
  - apply reports_ret_Some.
  - apply reports_bind_opt.
    + destruct init as [e|]; [now apply Hp|apply reports_ret_Some].
    + intros v. cbv beta iota.
      apply reports_bind_silent; [solve [silent_auto]|intros A].
      apply reports_bind_silent; [solve [silent_auto]|intros ?].
      apply reports_bind_silent; [solve [silent_auto]|intros Old].
      apply reports_bind_silent; [solve [silent_auto]|intros ?].
      apply IH.
    + apply never_succeeds_ret_None.
    + apply appends_silent, silent_ret.
Qed.

Lemma silent_VarRestore {A} (VarNames : list (string * A)) :
  forall Olds, silent (VarRestore VarNames Olds).
Proof.
  induction VarNames as [|[x i] VarNames IH]; intros [|o Olds]; cbn [VarRestore];
    silent_auto; apply IH.
Qed.

Lemma reports_Codegen e : reports (Codegen e).
Proof.
  induction e as [Val|Name|Opcode Operand IH|Op LHS RHS IHL IHR|Callee Args IH
                  |Cond Then Else IHc IHt IHe
                  |VarName Start End Step Body IHs IHe IHst IHb
                  |VarNames Body IHv IHb] using ExprAST_nested_ind;
    cbn [Codegen].
  - reports_auto.
  - reports_auto.
  - reports_auto.
  - destruct (decide (Op = binary_eq)).
    + destruct LHS; reports_auto.
    + reports_auto.
  - reports_auto.
    apply reports_bind_opt;
      [apply reports_CallArgs; assumption|intros ?; cbv beta iota
      |apply never_succeeds_ret_None|apply appends_silent, silent_ret].
    reports_auto.
  - reports_auto.
  - reports_auto.
    apply reports_bind_opt;
      [destruct Step; [now apply IHst|apply reports_ret_Some]
      |intros ?; cbv beta iota
      |apply never_succeeds_ret_None|apply appends_silent, silent_ret].
    reports_auto.
  - reports_auto.
    apply reports_bind_opt;
      [apply reports_VarBind; assumption|intros ?; cbv beta iota
      |apply never_succeeds_ret_None|apply appends_silent, silent_ret].
    reports_auto.
    apply reports_bind_silent; [apply silent_VarRestore|intros ?].
    apply reports_ret_Some.
Qed.

Lemma silent_ArgumentAllocas F Args : forall Idx, silent (ArgumentAllocas F Args Idx).
Proof.
  induction Args as [|a Args IH]; intros Idx; cbn [ArgumentAllocas].
  - apply silent_ret.
  - silent_auto; apply IH.
Qed.

Lemma reports_PrototypeAST_Codegen P : reports (PrototypeAST_Codegen P).
Proof. unfold PrototypeAST_Codegen. reports_auto. Qed.

Lemma reports_FunctionAST_Codegen Fn : reports (FunctionAST_Codegen Fn).
Proof.
  unfold FunctionAST_Codegen.
  apply reports_bind_silent; [solve [silent_auto]|intros ?].
  apply reports_bind_opt;
    [apply reports_PrototypeAST_Codegen|intros F; cbv beta iota
    |apply never_succeeds_ret_None|apply appends_silent, silent_ret].
  apply reports_bind_silent; [solve [silent_auto]|intros ?].
  apply reports_bind_silent; [solve [silent_auto]|intros BB].
  apply reports_bind_silent; [solve [silent_auto]|intros ?].
  apply reports_bind_silent;
    [unfold CreateArgumentAllocas; apply silent_ArgumentAllocas|intros ?].
  apply reports_bind_opt;
    [apply reports_Codegen|intros v; cbv beta iota| |].
  - reports_auto.
  - never_auto.
  - apply appends_silent. silent_auto.
Qed.

(** X8: lowering only appends to the error stream, and it returns null
    exactly when it printed at least one message; this holds for
    expressions, prototypes and definitions alike.  So a success is silent
    and a failure is never silent. *)
Theorem failure_iff_diagnostic :
  (forall e s r s', Codegen e s = Done r s' ->
     exists msgs, stderr s' = stderr s ++ msgs /\ (r = None <-> msgs <> [])) /\
  (forall P s r s', PrototypeAST_Codegen P s = Done r s' ->
     exists msgs, stderr s' = stderr s ++ msgs /\ (r = None <-> msgs <> [])) /\
  (forall Fn s r s', FunctionAST_Codegen Fn s = Done r s' ->
     exists msgs, stderr s' = stderr s ++ msgs /\ (r = None <-> msgs <> [])).
Proof.
  split; [|split].
  - intros e. apply reports_Codegen.
  - intros P. apply reports_PrototypeAST_Codegen.
  - intros Fn. apply reports_FunctionAST_Codegen.
Qed.

(** ** The assertion on operator functions *)












(** ** Straight-line expressions

    The value of an expression built from literals, variables, the built-in
    operators and assignments, given the values of the variables in scope;
    [None] outside this fragment or when a variable is not in scope. *)

Lemma steps_app n k m ext c c1 c2 :
  steps n m ext c = Some c1 -> steps k m ext c1 = Some c2 ->
  steps (n + k) m ext c = Some c2.
Proof.
  revert c. induction n as [|n IH]; intros c H1 H2; cbn in *.
  - now inversion H1; subst.
  - destruct c as [st tr|]; [|discriminate].
    destruct (step m ext st tr); [|discriminate]. now apply IH.
Qed.

Lemma run_steps n m ext c c' k :
  steps n m ext c = Some c' -> run (n + k) m ext c = run k m ext c'.
Proof.
  revert c. induction n as [|n IH]; intros c H; cbn in *.
  - now inversion H; subst.
  - destruct c as [st tr|]; [|discriminate].
    destruct (step m ext st tr); [|discriminate]. now apply IH.
Qed.

Lemma lookupF_update_fn F g (m : list Function) :
  (forall G, f_id (g G) = f_id G) ->
  lookupF F (update_fn F g m) = g <$> lookupF F m.
Proof.
  intros Hg. unfold lookupF, update_fn.
  induction m as [|G m IH]; [reflexivity|]. cbn [map find].
  destruct (Nat.eqb (f_id G) F) eqn:E.
  - rewrite Hg, E. reflexivity.
  - rewrite E. exact IH.
Qed.

Lemma code_of_inv s c :
  code_of s = Some c ->
  exists Fn B, lookupF (fst (InsertBlock s)) (TheModule s) = Some Fn
               /\ f_blocks Fn = [B] /\ bb_id B = snd (InsertBlock s)
               /\ bb_insts B = c.
Proof.
  unfold code_of. intros H.
  destruct (lookupF _ _) as [Fn|]; [|discriminate].
  destruct (f_blocks Fn) as [|B [|]] eqn:EB; try discriminate.
  destruct (Nat.eqb_spec (bb_id B) (snd (InsertBlock s))); [|discriminate].
  inversion H; subst. eauto 10.
Qed.

Lemma code_of_inserted op s c :
  code_of s = Some c ->
  code_of (inserted op s) = Some (c ++ [mkInst (next_id s) op]).
Proof.
  intros H. apply code_of_inv in H as (Fn & B & EF & EB & Eid & Ec).
  unfold code_of, inserted, Insert, bind, fresh, get, modify, ret, state_of.
  cbn [InsertBlock TheModule set_TheModule set_next_id].
  rewrite lookupF_update_fn by reflexivity. rewrite EF. cbn [fmap option_fmap option_map].
  unfold update_blocks. cbn [f_blocks]. rewrite EB. cbn [append_inst map].
  rewrite Eid, Nat.eqb_refl. cbn [bb_id bb_insts]. rewrite Nat.eqb_refl.
  now rewrite Ec.
Qed.

Lemma inserted_facts op s :
  next_id (inserted op s) = S (next_id s)
  /\ InsertBlock (inserted op s) = InsertBlock s
  /\ NamedValues (inserted op s) = NamedValues s.
Proof. repeat split. Qed.

Lemma resolve_inserted op s x : resolve (inserted op s) x = resolve s x.
Proof. reflexivity. Qed.

(** One step of a straight-line instruction. *)
Lemma step_Alloca m ext fr callers tr i code x :
  fr_code fr = i :: code -> i_op i = Alloca x ->
  step m ext (fr :: callers) tr = Some (Running (skip fr code :: callers) tr).
Proof. intros E1 E2. unfold step. now rewrite E1, E2. Qed.

Lemma step_Load m ext fr callers tr i code p f :
  fr_code fr = i :: code -> i_op i = Load p -> fr_mem fr !! p = Some f ->
  step m ext (fr :: callers) tr
  = Some (Running (set_reg fr (i_id i) (RFloat f) code :: callers) tr).
Proof. intros E1 E2 E3. unfold step. now rewrite E1, E2, E3. Qed.

Lemma step_Store m ext fr callers tr i code v p f :
  fr_code fr = i :: code -> i_op i = Store v p -> eval_float fr v = Some f ->
  step m ext (fr :: callers) tr
  = Some (Running (set_mem fr p f code :: callers) tr).
Proof. intros E1 E2 E3. unfold step. now rewrite E1, E2, E3. Qed.

Lemma step_FAdd m ext fr callers tr i code l r a b :
  fr_code fr = i :: code -> i_op i = FAdd l r ->
  eval_float fr l = Some a -> eval_float fr r = Some b ->
  step m ext (fr :: callers) tr
  = Some (Running (set_reg fr (i_id i) (RFloat (PrimFloat.add a b)) code :: callers) tr).
Proof. intros E1 E2 E3 E4. unfold step. now rewrite E1, E2, E3, E4. Qed.

Lemma step_FSub m ext fr callers tr i code l r a b :
  fr_code fr = i :: code -> i_op i = FSub l r ->
  eval_float fr l = Some a -> eval_float fr r = Some b ->
  step m ext (fr :: callers) tr
  = Some (Running (set_reg fr (i_id i) (RFloat (PrimFloat.sub a b)) code :: callers) tr).
Proof. intros E1 E2 E3 E4. unfold step. now rewrite E1, E2, E3, E4. Qed.

Lemma step_FMul m ext fr callers tr i code l r a b :
  fr_code fr = i :: code -> i_op i = FMul l r ->
  eval_float fr l = Some a -> eval_float fr r = Some b ->
  step m ext (fr :: callers) tr
  = Some (Running (set_reg fr (i_id i) (RFloat (PrimFloat.mul a b)) code :: callers) tr).
Proof. intros E1 E2 E3 E4. unfold step. now rewrite E1, E2, E3, E4. Qed.

Lemma step_FCmpULT m ext fr callers tr i code l r a b :
  fr_code fr = i :: code -> i_op i = FCmpULT l r ->
  eval_float fr l = Some a -> eval_float fr r = Some b ->
  step m ext (fr :: callers) tr
  = Some (Running (set_reg fr (i_id i) (RBool (fcmp_ult a b)) code :: callers) tr).
Proof. intros E1 E2 E3 E4. unfold step. now rewrite E1, E2, E3, E4. Qed.

Lemma step_UIToFP m ext fr callers tr i code v b :
  fr_code fr = i :: code -> i_op i = UIToFP v -> eval_bool fr v = Some b ->
  step m ext (fr :: callers) tr
  = Some (Running (set_reg fr (i_id i)
                     (RFloat (if b then 1%float else 0%float)) code :: callers) tr).
Proof. intros E1 E2 E3. unfold step. now rewrite E1, E2, E3. Qed.

Lemma step_Ret m ext fr tr i code v x :
  fr_code fr = i :: code -> i_op i = Ret v -> eval_float fr v = Some x ->
  step m ext [fr] tr = Some (Finished x tr).
Proof. intros E1 E2 E3. unfold step. now rewrite E1, E2, E3. Qed.

Lemma eval_float_regs n fr fr' v :
  val_below n v ->
  (forall id, id < n -> fr_regs fr' !! id = fr_regs fr !! id) ->
  eval_float fr' v = eval_float fr v.
Proof.
  intros Hv Hr. unfold eval_float, eval. destruct v as [f|F idx|id]; cbn in Hv.
  - reflexivity.
  - contradiction.
  - now rewrite Hr.
Qed.

Lemma val_below_le n k v : val_below n v -> n <= k -> val_below k v.
Proof. destruct v; cbn; auto. lia. Qed.

Lemma bound_in_equiv s s' env mem :
  (forall x, resolve s' x = resolve s x) -> bound_in s env mem -> bound_in s' env mem.
Proof.
  intros He Hb x f Hx. destruct (Hb x f Hx) as (h & H1 & H2).
  exists h. now rewrite He.
Qed.

Lemma injective_scope_equiv s s' :
  (forall x, resolve s' x = resolve s x) -> injective_scope s -> injective_scope s'.
Proof. intros He Hi x y h. rewrite !He. apply Hi. Qed.

Lemma runs_to_one op s env v (f : RtVal) :
  (forall m ext callers tr fr rest,
     fr_code fr = mkInst (next_id s) op :: rest -> bound_in s env (fr_mem fr) ->
     step m ext (fr :: callers) tr
     = Some (Running (set_reg fr (next_id s) f rest :: callers) tr)) ->
  f = RFloat v ->
  runs_to [mkInst (next_id s) op] s env env (InstResult (next_id s)) v.
Proof.
  intros Hstep -> m ext callers tr fr rest Hc Hb.
  exists (set_reg fr (next_id s) (RFloat v) rest).
  cbn [length steps]. rewrite (Hstep m ext callers tr fr rest Hc Hb).
  split; [reflexivity|]. split; [reflexivity|].
  split; [unfold eval_float, eval; cbn; now rewrite lookup_insert_eq|].
  split; [exact Hb|]. split; [reflexivity|].
  intros id Hid. cbn. apply lookup_insert_ne. lia.
Qed.

Lemma runs_to_seq new1 new2 s s1 env env1 env2 val1 v1 val2 v2 :
  (forall x, resolve s1 x = resolve s x) -> next_id s <= next_id s1 ->
  runs_to new1 s env env1 val1 v1 ->
  runs_to new2 s1 env1 env2 val2 v2 ->
  forall m ext callers tr fr rest,
    fr_code fr = (new1 ++ new2) ++ rest -> bound_in s env (fr_mem fr) ->
    exists fr1 fr2,
      steps (length new1) m ext (Running (fr :: callers) tr)
      = Some (Running (fr1 :: callers) tr)
      /\ steps (length new2) m ext (Running (fr1 :: callers) tr)
         = Some (Running (fr2 :: callers) tr)
      /\ fr_code fr2 = rest
      /\ eval_float fr1 val1 = Some v1
      /\ eval_float fr2 val2 = Some v2
      /\ bound_in s env2 (fr_mem fr2)
      /\ fr_args fr2 = fr_args fr
      /\ (forall id, id < next_id s1 -> fr_regs fr2 !! id = fr_regs fr1 !! id)
      /\ (forall id, id < next_id s -> fr_regs fr2 !! id = fr_regs fr !! id).
Proof.
  intros He Hn H1 H2 m ext callers tr fr rest Hc Hb.
  rewrite <- app_assoc in Hc.
  destruct (H1 m ext callers tr fr _ Hc Hb) as (fr1 & S1 & C1 & V1 & B1 & A1 & R1).
  apply (bound_in_equiv s s1) in B1; [|exact He].
  destruct (H2 m ext callers tr fr1 _ C1 B1) as (fr2 & S2 & C2 & V2 & B2 & A2 & R2).
  exists fr1, fr2. repeat (split; [assumption|]).
  split; [eapply bound_in_equiv; [|exact B2]; intros x; now rewrite He|].
  split; [congruence|]. split; [exact R2|].
  intros id Hid. rewrite R2 by lia. now apply R1.
Qed.

Lemma denote_dom e : forall env v env',
  denote e env = Some (v, env') ->
  forall x, is_Some (env' !! x) -> is_Some (env !! x).
Proof.
  induction e as [Val|Name|Opcode Operand IH|Op LHS RHS IHL IHR|Callee Args IH
                  |Cond Then Else IHc IHt IHe
                  |VarName Start End Step Body IHs IHe IHst IHb
                  |VarNames Body IHv IHb] using ExprAST_nested_ind;
    intros env v env' H; cbn [denote] in H; try discriminate.
  - inversion H; subst. auto.
  - destruct (env !! Name); [|discriminate]. inversion H; subst. auto.
  - destruct (decide (Op = binary_eq)).
    + destruct LHS as [|LHSName| | | | | |]; try discriminate.
      destruct (denote RHS env) as [[v1 env1]|] eqn:ER; [|discriminate].
      destruct (env1 !! LHSName) eqn:EN; [|discriminate].
      inversion H; subst. intros x Hx.
      apply (IHR _ _ _ ER).
      destruct (decide (x = LHSName)) as [->|Hne]; [now rewrite EN|].
      now rewrite lookup_insert_ne in Hx.
    + destruct (denote LHS env) as [[l env1]|] eqn:EL; [|discriminate].
      destruct (denote RHS env1) as [[r env2]|] eqn:ER; [|discriminate].
      destruct (binop Op l r); [|discriminate].
      inversion H; subst. intros x Hx.
      apply (IHL _ _ _ EL), (IHR _ _ _ ER), Hx.
Qed.

Lemma lowering_correct e : forall env v env',
  denote e env = Some (v, env') ->
  forall s c, code_of s = Some c -> injective_scope s ->
    (forall x, is_Some (env !! x) -> is_Some (resolve s x)) ->
    lowered_to e s c env env' v.
Proof.
  induction e as [Val|Name|Opcode Operand IH|Op LHS RHS IHL IHR|Callee Args IH
                  |Cond Then Else IHc IHt IHe
                  |VarName Start End Step Body IHs IHe IHst IHb
                  |VarNames Body IHv IHb] using ExprAST_nested_ind;
    intros env v env' H s c Hc Hi Hd; cbn [denote] in H; try discriminate.
  - (* literal *)
    inversion H; subst. exists (ConstantFP v), s, [].
    split; [reflexivity|]. split; [now rewrite app_nil_r|].
    split; [reflexivity|]. split; [reflexivity|]. split; [lia|].
    split; [exact I|].
    intros m ext callers tr fr rest Hcode Hb. exists fr.
    repeat (split; [first [reflexivity | assumption]|]). reflexivity.
  - (* variable *)
    destruct (env !! Name) as [f|] eqn:EN; [|discriminate]. inversion H; subst.
    destruct (Hd Name) as [h Hh]; [now rewrite EN|].
    exists (InstResult (next_id s)), (inserted (Load h) s),
      [mkInst (next_id s) (Load h)].
    split.
    { cbn [Codegen].
      destruct (NamedValues_index_resolve Name s) as (s0 & E & _ & _ & _ & _ & _ & _ & Es).
      rewrite Hh in E, Es. rewrite Es in E by discriminate.
      rewrite (bind_Done _ _ _ _ _ E). reflexivity. }
    split; [now apply code_of_inserted|].
    split; [reflexivity|]. split; [reflexivity|]. split; [cbn; lia|].
    split; [cbn; lia|].
    apply runs_to_one with (f := RFloat v); [|reflexivity].
    intros m ext callers tr fr rest Hcode Hb.
    destruct (Hb _ _ EN) as (h' & Hh' & Hm).
    assert (h' = h) by congruence. subst h'.
    exact (step_Load m ext fr callers tr _ rest h v Hcode eq_refl Hm).
  - destruct (decide (Op = binary_eq)) as [Heq|Hne].
    + (* assignment *)
      destruct LHS as [|Name| | | | | |]; try discriminate.
      destruct (denote RHS env) as [[v1 env1]|] eqn:ER; [|discriminate].
      destruct (env1 !! Name) as [old|] eqn:EN; [|discriminate].
      inversion H; subst v1 env'. clear H.
      destruct (IHR _ _ _ ER s c Hc Hi Hd)
        as (val & s1 & new & E1 & C1 & R1 & I1 & N1 & V1 & X1).
      destruct (Hd Name) as [h Hh];
        [apply (denote_dom _ _ _ _ ER); now rewrite EN|].
      exists val, (inserted (Store val h) s1), (new ++ [mkInst (next_id s1) (Store val h)]).
      split.
      { cbn [Codegen]. rewrite decide_True by assumption.
        rewrite (bind_Done _ _ _ _ _ E1).
        destruct (NamedValues_index_resolve Name s1)
          as (s0 & E & _ & _ & _ & _ & _ & _ & Es).
        rewrite R1, Hh in E, Es. rewrite Es in E by discriminate.
        rewrite (bind_Done _ _ _ _ _ E). reflexivity. }
      split; [rewrite app_assoc; now apply code_of_inserted|].
      split; [intros x; apply R1|]. split; [exact I1|]. split; [cbn; lia|].
      split; [eapply val_below_le; [exact V1|cbn; lia]|].
      intros m ext callers tr fr rest Hcode Hb.
      rewrite <- app_assoc in Hcode.
      destruct (X1 m ext callers tr fr _ Hcode Hb) as (fr1 & S1 & C1' & E1' & B1 & A1 & G1).
      exists (set_mem fr1 h v rest).
      split.
      { rewrite length_app. eapply steps_app; [exact S1|].
        cbn [length steps]. erewrite step_Store; eauto. }
      split; [reflexivity|]. split; [exact E1'|].
      split.
      { intros x f Hx. destruct (decide (x = Name)) as [->|Hxn].
        - rewrite lookup_insert_eq in Hx. inversion Hx; subst f.
          exists h. split; [exact Hh|]. cbn. apply lookup_insert_eq.
        - rewrite lookup_insert_ne in Hx by congruence.
          destruct (B1 _ _ Hx) as (h' & Hh' & Hm). exists h'. split; [exact Hh'|].
          cbn. rewrite lookup_insert_ne; [exact Hm|].
          intros <-. apply Hxn. eapply Hi; eauto. }
      split; [exact A1|exact G1].
    + (* built-in operator *)
      destruct (denote LHS env) as [[l env1]|] eqn:EL; [|discriminate].
      destruct (denote RHS env1) as [[r env2]|] eqn:ER; [|discriminate].
      destruct (binop Op l r) as [w|] eqn:EO; [|discriminate].
      inversion H; subst w env'. clear H.
      destruct (IHL _ _ _ EL s c Hc Hi Hd)
        as (L & s1 & new1 & E1 & C1 & R1 & I1 & N1 & V1 & X1).
      assert (Hi1 : injective_scope s1) by (eapply injective_scope_equiv; eauto).
      assert (Hd1 : forall x, is_Some (env1 !! x) -> is_Some (resolve s1 x)).
      { intros x Hx. rewrite R1. apply Hd. eapply denote_dom; eauto. }
      destruct (IHR _ _ _ ER s1 _ C1 Hi1 Hd1)
        as (R & s2 & new2 & E2 & C2 & R2 & I2 & N2 & V2 & X2).
      pose proof (runs_to_seq _ _ _ _ _ _ _ _ _ _ _ R1 N1 X1 X2) as X.
      assert (Hres : forall x, resolve s2 x = resolve s x)
        by (intros x; now rewrite R2, R1).
      unfold lowered_to. cbn [Codegen]. rewrite decide_False by assumption.
      rewrite (bind_Done _ _ _ _ _ E1), (bind_Done _ _ _ _ _ E2).
      rewrite <- app_assoc in C2.
      unfold binop in EO.
      destruct (decide (Op = "+"%char));
        [|destruct (decide (Op = "-"%char));
          [|destruct (decide (Op = "*"%char));
            [|destruct (decide (Op = "<"%char)); [|discriminate]]]];
        inversion EO; subst v; clear EO.
      * exists (InstResult (next_id s2)), (inserted (FAdd L R) s2),
          ((new1 ++ new2) ++ [mkInst (next_id s2) (FAdd L R)]).
        split; [reflexivity|].
        split; [rewrite <- !app_assoc, !app_assoc; rewrite <- (app_assoc c);
                now apply code_of_inserted|].
        split; [exact Hres|]. split; [cbn; congruence|]. split; [cbn; lia|].
        split; [cbn; lia|].
        intros m ext callers tr fr rest Hcode Hb. rewrite <- app_assoc in Hcode.
        destruct (X m ext callers tr fr _ Hcode Hb)
          as (fr1 & fr2 & S1 & S2 & C2' & EL' & ER' & B2 & A2 & G21 & G2).
        exists (set_reg fr2 (next_id s2) (RFloat (PrimFloat.add l r)) rest).
        split.
        { rewrite !length_app. eapply steps_app; [eapply steps_app; eauto|].
          assert (EL2 : eval_float fr2 L = Some l)
            by (rewrite (eval_float_regs (next_id s1) fr1 fr2); auto).
          cbn [length steps].
          now rewrite (step_FAdd m ext fr2 callers tr _ rest L R l r C2' eq_refl EL2 ER'). }
        split; [reflexivity|].
        split; [unfold eval_float, eval; cbn; now rewrite lookup_insert_eq|].
        split; [exact B2|]. split; [exact A2|].
        intros id Hid. cbn. rewrite lookup_insert_ne by lia. now apply G2.
      * exists (InstResult (next_id s2)), (inserted (FSub L R) s2),
          ((new1 ++ new2) ++ [mkInst (next_id s2) (FSub L R)]).
        split; [reflexivity|].
        split; [rewrite <- !app_assoc, !app_assoc; rewrite <- (app_assoc c);
                now apply code_of_inserted|].
        split; [exact Hres|]. split; [cbn; congruence|]. split; [cbn; lia|].
        split; [cbn; lia|].
        intros m ext callers tr fr rest Hcode Hb. rewrite <- app_assoc in Hcode.
        destruct (X m ext callers tr fr _ Hcode Hb)
          as (fr1 & fr2 & S1 & S2 & C2' & EL' & ER' & B2 & A2 & G21 & G2).
        exists (set_reg fr2 (next_id s2) (RFloat (PrimFloat.sub l r)) rest).
        split.
        { rewrite !length_app. eapply steps_app; [eapply steps_app; eauto|].
          assert (EL2 : eval_float fr2 L = Some l)
            by (rewrite (eval_float_regs (next_id s1) fr1 fr2); auto).
          cbn [length steps].
          now rewrite (step_FSub m ext fr2 callers tr _ rest L R l r C2' eq_refl EL2 ER'). }
        split; [reflexivity|].
        split; [unfold eval_float, eval; cbn; now rewrite lookup_insert_eq|].
        split; [exact B2|]. split; [exact A2|].
        intros id Hid. cbn. rewrite lookup_insert_ne by lia. now apply G2.
      * exists (InstResult (next_id s2)), (inserted (FMul L R) s2),
          ((new1 ++ new2) ++ [mkInst (next_id s2) (FMul L R)]).
        split; [reflexivity|].
        split; [rewrite <- !app_assoc, !app_assoc; rewrite <- (app_assoc c);
                now apply code_of_inserted|].
        split; [exact Hres|]. split; [cbn; congruence|]. split; [cbn; lia|].
        split; [cbn; lia|].
        intros m ext callers tr fr rest Hcode Hb. rewrite <- app_assoc in Hcode.
        destruct (X m ext callers tr fr _ Hcode Hb)
          as (fr1 & fr2 & S1 & S2 & C2' & EL' & ER' & B2 & A2 & G21 & G2).
        exists (set_reg fr2 (next_id s2) (RFloat (PrimFloat.mul l r)) rest).
        split.
        { rewrite !length_app. eapply steps_app; [eapply steps_app; eauto|].
          assert (EL2 : eval_float fr2 L = Some l)
            by (rewrite (eval_float_regs (next_id s1) fr1 fr2); auto).
          cbn [length steps].
          now rewrite (step_FMul m ext fr2 callers tr _ rest L R l r C2' eq_refl EL2 ER'). }
        split; [reflexivity|].
        split; [unfold eval_float, eval; cbn; now rewrite lookup_insert_eq|].
        split; [exact B2|]. split; [exact A2|].
        intros id Hid. cbn. rewrite lookup_insert_ne by lia. now apply G2.
      * exists (InstResult (S (next_id s2))),
          (inserted (UIToFP (InstResult (next_id s2))) (inserted (FCmpULT L R) s2)),
          ((new1 ++ new2) ++ [mkInst (next_id s2) (FCmpULT L R);
                              mkInst (S (next_id s2)) (UIToFP (InstResult (next_id s2)))]).
        split; [reflexivity|].
        split.
        { replace (c ++ (new1 ++ new2) ++
                   [mkInst (next_id s2) (FCmpULT L R);
                    mkInst (S (next_id s2)) (UIToFP (InstResult (next_id s2)))])
            with (((c ++ new1 ++ new2) ++ [mkInst (next_id s2) (FCmpULT L R)])
                  ++ [mkInst (next_id (inserted (FCmpULT L R) s2))
                        (UIToFP (InstResult (next_id s2)))])
            by (cbn; now rewrite <- !app_assoc).
          apply code_of_inserted. now apply code_of_inserted. }
        split; [exact Hres|]. split; [cbn; congruence|]. split; [cbn; lia|].
        split; [cbn; lia|].
        intros m ext callers tr fr rest Hcode Hb. rewrite <- app_assoc in Hcode.
        destruct (X m ext callers tr fr _ Hcode Hb)
          as (fr1 & fr2 & S1 & S2 & C2' & EL' & ER' & B2 & A2 & G21 & G2).
        set (fr3 := set_reg fr2 (next_id s2) (RBool (fcmp_ult l r))
                      (mkInst (S (next_id s2)) (UIToFP (InstResult (next_id s2))) :: rest)).
        exists (set_reg fr3 (S (next_id s2))
                  (RFloat (if fcmp_ult l r then 1%float else 0%float)) rest).
        split.
        { rewrite !length_app. eapply steps_app; [eapply steps_app; eauto|].
          assert (EL2 : eval_float fr2 L = Some l)
            by (rewrite (eval_float_regs (next_id s1) fr1 fr2); auto).
          cbn [length steps].
          rewrite (step_FCmpULT m ext fr2 callers tr _ _ L R l r C2' eq_refl EL2 ER').
          change (set_reg fr2 _ _ _) with fr3.
          assert (EB : eval_bool fr3 (InstResult (next_id s2)) = Some (fcmp_ult l r))
            by (unfold eval_bool, eval, fr3; cbn; now rewrite lookup_insert_eq).
          now rewrite (step_UIToFP m ext fr3 callers tr _ rest _ _ eq_refl eq_refl EB). }
        split; [reflexivity|].
        split; [unfold eval_float, eval; cbn; now rewrite lookup_insert_eq|].
        split; [exact B2|]. split; [exact A2|].
        intros id Hid. cbn. rewrite !lookup_insert_ne by lia. now apply G2.
Qed.

Lemma steps_allocas m ext callers tr pre : forall fr rest,
  Forall is_alloca pre -> fr_code fr = pre ++ rest ->
  exists fr',
    steps (length pre) m ext (Running (fr :: callers) tr)
    = Some (Running (fr' :: callers) tr)
    /\ fr_code fr' = rest /\ fr_mem fr' = fr_mem fr /\ fr_args fr' = fr_args fr.
Proof.
  induction pre as [|i pre IH]; intros fr rest Hp Hc.
  - exists fr. repeat split. exact Hc.
  - inversion Hp as [|? ? Hi Hp']; subst.
    unfold is_alloca in Hi. destruct (i_op i) eqn:Ei; try contradiction.
    destruct (IH (skip fr (pre ++ rest)) rest Hp' eq_refl) as (fr' & S' & C' & M' & A').
    exists fr'. cbn [length steps].
    rewrite (step_Alloca m ext fr callers tr i (pre ++ rest) _ Hc Ei).
    repeat split; assumption.
Qed.

Lemma code_of_alloca s c x :
  code_of s = Some c ->
  exists s1,
    CreateEntryBlockAlloca (fst (InsertBlock s)) x s = Done (next_id s) s1
    /\ code_of s1 = Some (mkInst (next_id s) (Alloca x) :: c)
    /\ next_id s1 = S (next_id s)
    /\ InsertBlock s1 = InsertBlock s
    /\ NamedValues s1 = NamedValues s.
Proof.
  intros H. apply code_of_inv in H as (Fn & B & EF & EB & Eid & Ec).
  eexists. split; [reflexivity|]. split; [|repeat split].
  unfold code_of. cbn [InsertBlock TheModule set_TheModule set_next_id].
  rewrite lookupF_update_fn by reflexivity. rewrite EF.
  cbn [fmap option_fmap option_map]. unfold update_blocks. cbn [f_blocks].
  rewrite EB. cbn [prepend_entry bb_id bb_insts]. rewrite Eid, Nat.eqb_refl.
  now rewrite Ec.
Qed.

Lemma code_of_set_NamedValues g s : code_of (set_NamedValues g s) = code_of s.
Proof. reflexivity. Qed.

Lemma bind_params_dom names : forall args env x,
  is_Some (bind_params names args env !! x) -> In x names \/ is_Some (env !! x).
Proof.
  induction names as [|n names IH]; intros args env x H; [now right|].
  destruct args as [|a args]; [now right|]. cbn [bind_params] in H.
  destruct (IH _ _ _ H) as [Hin|Hs]; [left; now right|].
  destruct (decide (x = n)) as [->|Hne]; [left; now left|].
  rewrite lookup_insert_ne in Hs by congruence. now right.
Qed.

Lemma ArgumentAllocas_correct F Args : forall Idx s c,
  code_of s = Some c -> fst (InsertBlock s) = F ->
  handles_allocated s -> injective_scope s ->
  exists s' pre new,
    ArgumentAllocas F Args Idx s = Done tt s'
    /\ code_of s' = Some (pre ++ c ++ new)
    /\ Forall is_alloca pre
    /\ InsertBlock s' = InsertBlock s
    /\ injective_scope s'
    /\ (forall x, In x Args \/ is_Some (resolve s x) -> is_Some (resolve s' x))
    /\ forall env m ext callers tr fr rest,
         fr_code fr = new ++ rest -> bound_in s env (fr_mem fr) ->
         length Args + Idx <= length (fr_args fr) ->
         exists fr',
           steps (length new) m ext (Running (fr :: callers) tr)
           = Some (Running (fr' :: callers) tr)
           /\ fr_code fr' = rest
           /\ bound_in s' (bind_params Args (drop Idx (fr_args fr)) env) (fr_mem fr')
           /\ fr_args fr' = fr_args fr.
Proof.
  induction Args as [|x Args IH]; intros Idx s c Hc HF Ha Hi.
  - exists s, [], []. split; [reflexivity|].
    split; [now rewrite app_nil_r|]. split; [constructor|].
    split; [reflexivity|]. split; [exact Hi|].
    split; [intros x [[]|Hx]; exact Hx|].
    intros env m ext callers tr fr rest Hcode Hb _. exists fr.
    repeat split; assumption.
  - destruct (code_of_alloca s c x Hc) as (s1 & E1 & C1 & N1 & I1 & V1).
    rewrite HF in E1.
    set (A := next_id s) in *.
    set (st := mkInst (next_id s1) (Store (Argument F Idx) A)).
    set (s2 := inserted (Store (Argument F Idx) A) s1).
    set (s3 := set_NamedValues (insert x (Some A)) s2).
    assert (C3 : code_of s3 = Some ((mkInst A (Alloca x) :: c) ++ [st]))
      by (apply (code_of_inserted _ _ _ C1)).
    assert (R3 : forall y, resolve s3 y
                           = if decide (y = x) then Some A else resolve s y).
    { intros y. unfold s3. rewrite resolve_insert.
      destruct (decide (y = x)); [reflexivity|].
      unfold s2. rewrite resolve_inserted. unfold resolve. now rewrite V1. }
    assert (Ha3 : handles_allocated s3).
    { intros y h. rewrite R3. cbn. rewrite N1.
      destruct (decide (y = x)).
      - intros [= <-]. unfold A. lia.
      - intros Hy. apply Ha in Hy. lia. }
    assert (Hi3 : injective_scope s3).
    { intros y z h. rewrite !R3.
      destruct (decide (y = x)) as [->|Hy], (decide (z = x)) as [->|Hz]; auto.
      - intros [= <-] Hz'. apply Ha in Hz'. unfold A in Hz'. lia.
      - intros Hy' [= <-]. apply Ha in Hy'. unfold A in Hy'. lia.
      - apply Hi. }
    assert (F3 : fst (InsertBlock s3) = F) by (cbn; now rewrite I1).
    destruct (IH (S Idx) s3 _ C3 F3 Ha3 Hi3)
      as (s' & pre & new & E' & C' & P' & I' & Hi' & D' & X').
    exists s', (pre ++ [mkInst A (Alloca x)]), (st :: new).
    split.
    { cbn [ArgumentAllocas]. rewrite (bind_Done _ _ _ _ _ E1).
      rewrite (bind_Done _ _ _ _ _
                 (eq_refl : CreateStore (Argument F Idx) A s1 = Done tt s2)).
      rewrite (bind_Done _ _ _ _ _
                 (eq_refl : NamedValues_assign x (Some A) s2 = Done tt s3)).
      exact E'. }
    split; [rewrite C'; f_equal; rewrite <- !app_assoc; reflexivity|].
    split; [apply Forall_app; split; [exact P'|repeat constructor]|].
    split; [rewrite I'; cbn; exact I1|].
    split; [exact Hi'|].
    split.
    { intros y Hy. apply D'. rewrite R3.
      destruct (decide (y = x)) as [->|Hne]; [right; eexists; reflexivity|].
      destruct Hy as [[Hy|Hy]|Hy]; [congruence|now left|now right]. }
    intros env m ext callers tr fr rest Hcode Hb Hlen.
    destruct (lookup_lt_is_Some_2 (fr_args fr) Idx) as [a Ea];
      [cbn [length] in Hlen; lia|].
    set (fr1 := set_mem fr A a (new ++ rest)).
    assert (B1 : bound_in s3 (<[x := a]> env) (fr_mem fr1)).
    { intros y f Hy. rewrite R3. cbn.
      destruct (decide (y = x)) as [->|Hne].
      - rewrite lookup_insert_eq in Hy. inversion Hy; subst f.
        exists A. split; [reflexivity|]. apply lookup_insert_eq.
      - rewrite lookup_insert_ne in Hy by congruence.
        destruct (Hb _ _ Hy) as (h & Hh & Hm). exists h. split; [exact Hh|].
        rewrite lookup_insert_ne; [exact Hm|].
        apply Ha in Hh. unfold A. lia. }
    destruct (X' (<[x := a]> env) m ext callers tr fr1 rest eq_refl B1)
      as (fr' & S' & Cd' & Bd' & Ar').
    { cbn [length] in Hlen. cbn. lia. }
    exists fr'. split.
    { cbn [length steps].
      assert (EA : eval_float fr (Argument F Idx) = Some a)
        by (unfold eval_float, eval; now rewrite Ea).
      rewrite (step_Store m ext fr callers tr st (new ++ rest) _ A a Hcode eq_refl EA).
      exact S'. }
    split; [exact Cd'|]. split; [|exact Ar'].
    rewrite (drop_S _ _ _ Ea). cbn [bind_params]. exact Bd'.
Qed.

Lemma lookupF_fresh n (m : list Function) :
  Forall (fun G => f_id G < n) m -> lookupF n m = None.
Proof.
  unfold lookupF. induction 1 as [|G m HG _ IH]; [reflexivity|]. cbn [find].
  destruct (Nat.eqb_spec (f_id G) n); [lia|exact IH].
Qed.

Lemma lookupF_app_new n (m : list Function) G :
  Forall (fun G => f_id G < n) m -> f_id G = n -> lookupF n (m ++ [G]) = Some G.
Proof.
  intros Hf Hid. unfold lookupF.
  induction Hf as [|G' m HG _ IH]; cbn [app find].
  - now rewrite Hid, Nat.eqb_refl.
  - destruct (Nat.eqb_spec (f_id G') n); [lia|exact IH].
Qed.

(** The state in which the parameters of a new function are spilled. *)
Lemma enter_function_new P s :
  ids_fresh s -> getFunction (TheModule s) (Name P) = None ->
  exists s0,
    enter_function P s
    = (CreateArgumentAllocas P (next_id s) ;;; ret (Some (next_id s))) s0
    /\ code_of s0 = Some []
    /\ fst (InsertBlock s0) = next_id s
    /\ NamedValues s0 = ∅.
Proof.
  intros Hf Hg.
  set (s1 := set_NamedValues (fun _ => ∅) s).
  pose proof (PrototypeAST_Codegen_new P s1 Hf Hg) as E.
  unfold enter_function.
  rewrite (bind_Done _ _ _ _ _ (eq_refl : NamedValues_clear s = Done tt s1)).
  rewrite (bind_Done _ _ _ _ _ E). cbv beta iota.
  match goal with |- context [bind ?m _ ?st] =>
    assert (E2 : exists s2, m st = Done tt s2
                            /\ TheModule s2 = TheModule st
                            /\ next_id s2 = next_id st
                            /\ NamedValues s2 = NamedValues st)
  end.
  { destruct (isBinaryOp P); eexists; (split; [reflexivity|]); repeat split. }
  destruct E2 as (s2 & E2 & M2 & N2 & V2).
  rewrite (bind_Done _ _ _ _ _ E2).
  eexists.
  rewrite (bind_Done _ _ _ _ _ (eq_refl : BasicBlock_Create "entry" (Some (next_id s)) s2
                                          = Done _ _)).
  rewrite (bind_Done _ _ _ _ _ (eq_refl : SetInsertPoint _ _ _ = Done tt _)).
  split; [reflexivity|].
  split; [|split; [reflexivity|exact V2]].
  unfold code_of. cbn [InsertBlock set_InsertBlock TheModule set_TheModule set_next_id fst snd].
  rewrite lookupF_update_fn by reflexivity. rewrite M2.
  cbn [TheModule set_TheModule set_next_id s1 set_NamedValues].
  change (next_id s1) with (next_id s).
  rewrite (lookupF_app_new (next_id s) (TheModule s)
             (mkFn (next_id s) (Name P) (Args P) []) Hf eq_refl).
  cbn. rewrite N2. cbn. now rewrite Nat.eqb_refl.
Qed.

(** X9: a new function whose body is built from literals, parameters, the
    built-in operators and assignments is compiled correctly: the
    definition is accepted, and calling the generated function on as many
    arguments as it has parameters returns the value of the body, without
    any external call.  In particular [a < b] is 1.0 when [a] is less than
    [b] or either is not a number and 0.0 otherwise, an assignment has the
    value assigned, the operands are evaluated from left to right, and of
    two parameters of the same name the later one is in scope. *)
Theorem straight_line_definition_correct Fn s args v env' :
  ids_fresh s ->
  getFunction (TheModule s) (Name (Proto Fn)) = None ->
  length args = length (Args (Proto Fn)) ->
  denote (Body Fn) (bind_params (Args (Proto Fn)) args ∅) = Some (v, env') ->
  exists F s' fuel,
    FunctionAST_Codegen Fn s = Done (Some F) s'
    /\ forall ext k, call (fuel + k) ext s' F args = Some (v, []).
Proof.
  intros Hf Hg Hlen Hden.
  destruct (enter_function_new (Proto Fn) s Hf Hg) as (s0 & E0 & C0 & F0 & V0).
  assert (R0 : forall x, resolve s0 x = None)
    by (intros x; unfold resolve; now rewrite V0, lookup_empty).
  assert (Ha0 : handles_allocated s0) by (intros x h; now rewrite R0).
  assert (Hi0 : injective_scope s0) by (intros x y h; now rewrite R0).
  destruct (ArgumentAllocas_correct _ (Args (Proto Fn)) 0 s0 [] C0 F0 Ha0 Hi0)
    as (s1 & pre & newA & EA & CA & PA & IA & HiA & DA & XA).
  assert (E1 : enter_function (Proto Fn) s = Done (Some (next_id s)) s1).
  { rewrite E0. unfold CreateArgumentAllocas. now rewrite (bind_Done _ _ _ _ _ EA). }
  assert (Hd : forall x, is_Some (bind_params (Args (Proto Fn)) args ∅ !! x) ->
                         is_Some (resolve s1 x)).
  { intros x Hx. apply DA. apply bind_params_dom in Hx as [Hx|Hx]; [now left|].
    rewrite lookup_empty in Hx. now destruct Hx. }
  destruct (lowering_correct _ _ _ _ Hden s1 _ CA HiA Hd)
    as (val & s2 & newB & EB & CB & RB & IB & NB & VB & XB).
  set (rt := mkInst (next_id s2) (Ret val)).
  exists (next_id s), (inserted (Ret val) s2),
    (length pre + (length newA + (length newB + 1))).
  split; [rewrite FunctionAST_Codegen_enter, E1, EB; reflexivity|].
  intros ext k.
  pose proof (code_of_inserted (Ret val) s2 _ CB) as C3.
  apply code_of_inv in C3 as (Fn' & B & EF & EBl & _ & Ec).
  assert (HF : fst (InsertBlock (inserted (Ret val) s2)) = next_id s)
    by (cbn; now rewrite IB, IA).
  rewrite HF in EF. unfold call. rewrite EF. unfold enter. rewrite EBl.
  set (fr0 := mkFrame Fn' args ∅ ∅ (bb_id B) (bb_id B) (bb_insts B) 0).
  assert (Hcode : fr_code fr0 = pre ++ newA ++ newB ++ [rt])
    by (cbn; rewrite Ec; cbn [app]; now rewrite <- !app_assoc).
  set (m := TheModule (inserted (Ret val) s2)).
  destruct (steps_allocas m ext [] [] pre fr0 _ PA Hcode) as (fr1 & S1 & C1 & M1 & A1).
  assert (B1 : bound_in s0 ∅ (fr_mem fr1)) by (intros x f Hx; now rewrite lookup_empty in Hx).
  destruct (XA ∅ m ext [] [] fr1 _ C1 B1) as (fr2 & S2 & C2 & B2 & A2).
  { rewrite A1. cbn. lia. }
  rewrite A1 in B2. cbn [drop fr_args fr0] in B2.
  destruct (XB m ext [] [] fr2 _ C2 B2) as (fr3 & S3 & C3 & V3 & _).
  assert (S4 : steps 1 m ext (Running [fr3] []) = Some (Finished v [])).
  { cbn [steps]. now rewrite (step_Ret m ext fr3 [] rt [] val v C3 eq_refl V3). }
  rewrite (run_steps _ m ext _ (Finished v []) k); [now destruct k|].
  eapply steps_app; [exact S1|]. eapply steps_app; [exact S2|].
  eapply steps_app; [exact S3|exact S4].
Qed.




















Lemma unary_operator_is_call_witness :
  Codegen (UnaryExprAST "!" (NumberExprAST 1)) with_operators
  = Codegen (CallExprAST "unary!" [NumberExprAST 1]) with_operators.
Proof.
  apply (proj1 (unary_operator_is_call "!" (NumberExprAST 1) with_operators
                  (default (mkFn 0 "" [] [])
                           (getFunction (TheModule with_operators) "unary!"))
                  ltac:(vm_compute; reflexivity))).
  vm_compute. reflexivity.
Defined.

Lemma user_binary_operator_is_call_witness :
  Codegen (BinaryExprAST "@" (NumberExprAST 1) (NumberExprAST 2)) with_operators
  = Codegen (CallExprAST "binary@" [NumberExprAST 1; NumberExprAST 2]) with_operators.
Proof.
  apply (user_binary_operator_is_call "@" (NumberExprAST 1) (NumberExprAST 2)
           with_operators with_operators
           (default (mkFn 0 "" [] [])
                    (getFunction (TheModule with_operators) "binary@"))
           (ConstantFP 1)).
  - vm_compute. reflexivity.
  - vm_compute. reflexivity.
  - vm_compute. reflexivity.
  - reflexivity.
Defined.

Lemma failure_iff_diagnostic_witness :
  exists msgs,
    stderr (state_of (Codegen (VariableExprAST "c") inside_f) inside_f)
    = stderr inside_f ++ msgs
    /\ ((None : option Value) = None <-> msgs <> []).
Proof.
  apply (proj1 failure_iff_diagnostic (VariableExprAST "c") inside_f).
  vm_compute. reflexivity.
Defined.

Lemma straight_line_definition_correct_witness :
  exists F s' fuel,
    FunctionAST_Codegen def_poly with_externs = Done (Some F) s'
    /\ forall ext k, call (fuel + k) ext s' F [3%float; 2%float]
                     = Some (10%float, []).
Proof.
  apply (straight_line_definition_correct def_poly with_externs
           [3%float; 2%float] 10%float
           (<["y" := 1%float]> (<["y" := 2%float]> (<["x" := 3%float]> ∅)))
           (proj1 invariants_with_externs)).
  - vm_compute. reflexivity.
  - reflexivity.
  - vm_compute. reflexivity.
Defined.




(** ** Calls and control flow *)

Lemma skip_allocas_app i l :
  non_alloca (i_op i) -> skip_allocas (l ++ [i]) = skip_allocas l ++ [i].
Proof.
  intros Hi. induction l as [|j l IH]; cbn.
  - destruct (i_op i); try reflexivity. contradiction.
  - destruct (i_op j); try reflexivity. exact IH.
Qed.

Lemma steps_skip_allocas m ext callers tr l : forall fr,
  fr_code fr = l ->
  exists k,
    steps k m ext (Running (fr :: callers) tr)
    = Some (Running (skip fr (skip_allocas l) :: callers) tr).
Proof.
  induction l as [|i l IH]; intros fr Hc.
  - exists 0. cbn. destruct fr; cbn in *; subst; reflexivity.
  - cbn [skip_allocas]. destruct (i_op i) eqn:Ei;
      try (exists 0; cbn; destruct fr; cbn in *; subst; reflexivity).
    destruct (IH (skip fr l) eq_refl) as (k & Hk).
    exists (S k). cbn [steps].
    rewrite (step_Alloca m ext fr callers tr i l _ Hc Ei). exact Hk.
Qed.

(** *** Looking up blocks *)

Lemma block_insts_append_inst bs B i B' :
  block_insts (append_inst B i bs) B'
  = if Nat.eqb B' B then (fun l => l ++ [i]) <$> block_insts bs B'
    else block_insts bs B'.
Proof.
  unfold block_insts, append_inst.
  induction bs as [|b bs IH]; cbn [map find].
  - now destruct (Nat.eqb B' B).
  - destruct (Nat.eqb (bb_id b) B) eqn:Eb; cbn [bb_id].
    + destruct (Nat.eqb (bb_id b) B') eqn:Eb'.
      * apply Nat.eqb_eq in Eb, Eb'. subst. now rewrite Nat.eqb_refl.
      * exact IH.
    + destruct (Nat.eqb (bb_id b) B') eqn:Eb'.
      * apply Nat.eqb_eq in Eb'. subst. now rewrite Eb.
      * exact IH.
Qed.

Lemma block_insts_prepend_entry bs i B x :
  i_op i = Alloca x ->
  match block_insts bs B with
  | Some l => exists l', block_insts (prepend_entry i bs) B = Some l'
                         /\ skip_allocas l' = skip_allocas l
  | None => block_insts (prepend_entry i bs) B = None
  end.
Proof.
  intros Hi. unfold block_insts, prepend_entry.
  destruct bs as [|b bs]; [reflexivity|]. cbn [find bb_id].
  destruct (Nat.eqb (bb_id b) B).
  - cbn. eexists. split; [reflexivity|]. cbn. now rewrite Hi.
  - destruct (find _ bs); cbn; eauto.
Qed.

Lemma block_insts_prepend_entry_eq bs i B :
  block_insts (prepend_entry i bs) B
  = if decide (entry_of bs = Some B) then cons i <$> block_insts bs B
    else block_insts bs B.
Proof.
  unfold block_insts, prepend_entry, entry_of.
  destruct bs as [|b bs]; cbn [head fmap option_fmap option_map find bb_id].
  - now destruct (decide _).
  - destruct (Nat.eqb_spec (bb_id b) B) as [->|Hne]; cbn.
    + now rewrite decide_True.
    + rewrite decide_False by congruence. reflexivity.
Qed.

Lemma block_insts_app bs b B :
  block_insts (bs ++ [b]) B
  = match block_insts bs B with
    | Some l => Some l
    | None => if Nat.eqb (bb_id b) B then Some (bb_insts b) else None
    end.
Proof.
  unfold block_insts. induction bs as [|b0 bs IH]; cbn [app find].
  - now destruct (Nat.eqb (bb_id b) B).
  - destruct (Nat.eqb (bb_id b0) B); [reflexivity|exact IH].
Qed.

Lemma entry_of_append_inst B i bs : entry_of (append_inst B i bs) = entry_of bs.
Proof.
  destruct bs as [|b bs]; [reflexivity|]. unfold entry_of. cbn.
  now destruct (Nat.eqb (bb_id b) B).
Qed.

Lemma entry_of_prepend_entry i bs : entry_of (prepend_entry i bs) = entry_of bs.
Proof. now destruct bs. Qed.

Lemma entry_of_app bs b B : entry_of bs = Some B -> entry_of (bs ++ [b]) = Some B.
Proof. now destruct bs. Qed.

Lemma blocks_le_refl bs : blocks_le bs bs.
Proof. intros B l H. exists l, []. now rewrite app_nil_r. Qed.

Lemma blocks_le_trans bs1 bs2 bs3 :
  blocks_le bs1 bs2 -> blocks_le bs2 bs3 -> blocks_le bs1 bs3.
Proof.
  intros H1 H2 B l Hl. destruct (H1 B l Hl) as (l2 & suf2 & E2 & S2).
  destruct (H2 B l2 E2) as (l3 & suf3 & E3 & S3).
  exists l3, (suf2 ++ suf3). split; [exact E3|]. now rewrite S3, S2, app_assoc.
Qed.

Lemma skip_allocas_pre pre l :
  Forall is_alloca pre -> skip_allocas (pre ++ l) = skip_allocas l.
Proof.
  induction 1 as [|i pre Hi _ IH]; [reflexivity|]. cbn [app skip_allocas].
  unfold is_alloca in Hi. destruct (i_op i); try contradiction. exact IH.
Qed.

Lemma skip_allocas_suf l suf :
  Forall (fun i => non_alloca (i_op i)) suf ->
  skip_allocas (l ++ suf) = skip_allocas l ++ suf.
Proof.
  intros Hs. induction l as [|i l IH]; cbn [app skip_allocas].
  - destruct Hs as [|j suf Hj _]; [reflexivity|]. cbn [skip_allocas].
    destruct (i_op j); try reflexivity. contradiction.
  - destruct (i_op i); try reflexivity. exact IH.
Qed.

Lemma blocks_grow_le bs bs' : blocks_grow bs bs' -> blocks_le bs bs'.
Proof.
  intros H B l Hl. destruct (H B l Hl) as (pre & suf & E & Hp & Hs & _).
  exists (pre ++ l ++ suf), suf. split; [exact E|].
  now rewrite (skip_allocas_pre _ _ Hp), (skip_allocas_suf _ _ Hs).
Qed.

Lemma blocks_grow_refl bs : blocks_grow bs bs.
Proof.
  intros B l H. exists [], []. rewrite app_nil_r. repeat split; auto.
Qed.

Lemma blocks_grow_trans bs1 bs2 bs3 :
  (forall B, entry_of bs1 = Some B -> entry_of bs2 = Some B) ->
  blocks_grow bs1 bs2 -> blocks_grow bs2 bs3 -> blocks_grow bs1 bs3.
Proof.
  intros He H1 H2 B l Hl.
  destruct (H1 B l Hl) as (p1 & s1 & E1 & Hp1 & Hs1 & Hn1).
  destruct (H2 B _ E1) as (p2 & s2 & E2 & Hp2 & Hs2 & Hn2).
  exists (p2 ++ p1), (s1 ++ s2).
  split; [rewrite E2; f_equal; now rewrite <- !app_assoc|].
  split; [apply Forall_app; auto|]. split; [apply Forall_app; auto|].
  intros Hne. rewrite (Hn1 Hne).
  assert (Hne2 : entry_of bs2 <> Some B).
  { destruct bs1 as [|b bs1]; [discriminate Hl|].
    rewrite (He (bb_id b) eq_refl). exact Hne. }
  now rewrite (Hn2 Hne2).
Qed.

(** Changing the blocks of a function leaves the names of the module
    alone. *)
Lemma names_update_blocks F g (m : list Function) f :
  f_id <$> getFunction (update_fn F (update_blocks g) m) f
  = f_id <$> getFunction m f.
Proof.
  rewrite getFunction_update_fn by reflexivity.
  destruct (getFunction m f) as [G|]; [|reflexivity]. cbn.
  now destruct (Nat.eqb (f_id G) F).
Qed.

Lemma update_blocks_id G : update_blocks (fun bs => bs) G = G.
Proof. now destruct G. Qed.

Lemma module_kept_refl F m : module_kept F m m.
Proof.
  exists (fun bs => bs). unfold update_fn. symmetry. rewrite <- (map_id m) at 2.
  apply map_ext. intros G. rewrite update_blocks_id. now destruct (Nat.eqb _ _).
Qed.

Lemma module_kept_trans F m1 m2 m3 :
  module_kept F m1 m2 -> module_kept F m2 m3 -> module_kept F m1 m3.
Proof.
  intros [g1 ->] [g2 ->]. exists (fun bs => g2 (g1 bs)).
  unfold update_fn. rewrite map_map. apply map_ext. intros G.
  destruct (Nat.eqb (f_id G) F) eqn:E; cbn [update_blocks f_id]; now rewrite E.
Qed.

Lemma module_kept_names F m m' f :
  module_kept F m m' -> f_id <$> getFunction m' f = f_id <$> getFunction m f.
Proof. intros [g ->]. apply names_update_blocks. Qed.

Lemma ext_from_refl n s : ext_from n s s.
Proof. repeat split; auto using blocks_grow_refl, module_kept_refl. Qed.

Lemma ext_from_names n s s' f :
  ext_from n s s' ->
  f_id <$> getFunction (TheModule s') f = f_id <$> getFunction (TheModule s) f.
Proof. intros (_ & _ & _ & _ & _ & G). now apply (module_kept_names _ _ _ f) in G. Qed.

Lemma ext_from_trans n s1 s2 s3 :
  ext_from n s1 s2 -> ext_from n s2 s3 -> ext_from n s1 s3.
Proof.
  intros (F1 & N1 & L1 & A1 & H1 & G1) (F2 & N2 & L2 & A2 & H2 & G2).
  split; [congruence|]. split; [lia|]. split; [eapply blocks_grow_trans; eauto|].
  split; [|split; [intros B HB; now apply H2, H1|]].
  2:{ rewrite F1 in G2. eapply module_kept_trans; eauto. }
  intros B HB Hn. apply A2; [exact HB|]. now apply A1.
Qed.

Lemma ext_from_weaken n n' s s' : n <= n' -> ext_from n' s s' -> ext_from n s s'.
Proof.
  intros Hn (F1 & N1 & L1 & A1 & H1). repeat (split; [assumption|]).
  split; [|exact H1]. intros B HB. apply A1. lia.
Qed.

Lemma contains_ext_from n s s' Fn m :
  ext_from n s s' -> contains s' Fn m -> contains s Fn m.
Proof.
  intros Hx [H1 H2]. split.
  - destruct Hx as (_ & _ & L & _).
    eapply blocks_le_trans; [apply blocks_grow_le, L|exact H1].
  - intros f F E. pose proof (ext_from_names _ _ _ f Hx) as G. rewrite E in G.
    destruct (getFunction (TheModule s') f) as [F'|] eqn:E'; [|discriminate].
    injection G as G. rewrite (H2 _ _ E'). now rewrite G.
Qed.

Lemma contains_ext s s' Fn m : extends s s' -> contains s' Fn m -> contains s Fn m.
Proof. apply contains_ext_from. Qed.

(** *** The builder's primitives on the blocks *)

Lemma blocks_of_inserted op s :
  blocks_of (inserted op s)
  = append_inst (snd (InsertBlock s)) (mkInst (next_id s) op) (blocks_of s).
Proof.
  unfold blocks_of, inserted, Insert, bind, fresh, get, modify, ret, state_of.
  cbn [InsertBlock TheModule set_TheModule set_next_id].
  rewrite lookupF_update_fn by reflexivity.
  destruct (lookupF _ _); reflexivity.
Qed.

Lemma blocks_of_alloca x s s1 a :
  CreateEntryBlockAlloca (fst (InsertBlock s)) x s = Done a s1 ->
  a = next_id s /\ next_id s1 = S (next_id s)
  /\ InsertBlock s1 = InsertBlock s /\ NamedValues s1 = NamedValues s
  /\ blocks_of s1 = prepend_entry (mkInst (next_id s) (Alloca x)) (blocks_of s).
Proof.
  intros H. inversion H; subst; clear H. repeat (split; [reflexivity|]).
  unfold blocks_of. cbn [InsertBlock TheModule set_TheModule set_next_id].
  rewrite lookupF_update_fn by reflexivity.
  destruct (lookupF _ _); reflexivity.
Qed.

Lemma blocks_of_pushed BB s :
  wf s -> blocks_of (pushed (fst (InsertBlock s)) BB s) = blocks_of s ++ [BB].
Proof.
  intros [[Fs HF] _]. unfold blocks_of, pushed.
  cbn [InsertBlock TheModule set_TheModule].
  rewrite lookupF_update_fn by reflexivity. now rewrite HF.
Qed.


(** Appending an instruction. *)
Lemma ext_inserted op s : non_alloca op -> extends s (inserted op s).
Proof.
  intros Hop. split; [reflexivity|]. split; [cbn; lia|].
  rewrite blocks_of_inserted. split; [|split; [|split]].
  - intros B l Hl. rewrite block_insts_append_inst, Hl.
    destruct (Nat.eqb B (snd (InsertBlock s))); cbn.
    + exists [], [mkInst (next_id s) op]. repeat split; auto.
    + exists [], []. rewrite app_nil_r. repeat split; auto.
  - intros B _ Hn. rewrite block_insts_append_inst, Hn.
    now destruct (Nat.eqb B (snd (InsertBlock s))).
  - intros B. now rewrite entry_of_append_inst.
  - eexists. reflexivity.
Qed.

Lemma wf_inserted op s : wf s -> wf (inserted op s).
Proof.
  intros [[Fs HF] Hb]. split.
  - unfold inserted, Insert, bind, fresh, get, modify, ret, state_of.
    cbn [InsertBlock TheModule set_TheModule set_next_id].
    rewrite lookupF_update_fn by reflexivity. rewrite HF. cbn. eauto.
  - intros B. rewrite blocks_of_inserted, block_insts_append_inst. cbn.
    intros HB. assert (is_Some (block_insts (blocks_of s) B)).
    { destruct (Nat.eqb B (snd (InsertBlock s))); [|exact HB].
      destruct (block_insts (blocks_of s) B); [eauto|now destruct HB]. }
    apply Hb in H. lia.
Qed.

(** Where the frame stands after the instruction the builder appended. *)
Lemma pos_inserted op s Fn m fr :
  non_alloca op -> contains (inserted op s) Fn m -> pos s Fn fr ->
  exists rest,
    fr_code fr = mkInst (next_id s) op :: rest
    /\ forall fr', fr_fn fr' = fr_fn fr -> fr_cur fr' = fr_cur fr ->
                   fr_code fr' = rest -> pos (inserted op s) Fn fr'.
Proof.
  intros Hop Hc (Hfn & Hcur & l & lf & Hl & Hlf & Hs).
  assert (Hl' : block_insts (blocks_of (inserted op s)) (snd (InsertBlock s))
                = Some (l ++ [mkInst (next_id s) op])).
  { rewrite blocks_of_inserted, block_insts_append_inst, Nat.eqb_refl, Hl.
    reflexivity. }
  destruct (proj1 Hc _ _ Hl') as (lf' & suf & Hlf' & Hs').
  rewrite Hlf in Hlf'. inversion Hlf'; subst lf'; clear Hlf'.
  rewrite skip_allocas_app in Hs' by exact Hop.
  rewrite Hs, <- app_assoc in Hs'. apply app_inv_head in Hs'.
  exists suf. split; [exact Hs'|].
  intros fr' E1 E2 E3. split; [congruence|]. split; [cbn; congruence|].
  exists (l ++ [mkInst (next_id s) op]), lf. cbn [InsertBlock inserted].
  split; [exact Hl'|]. split; [exact Hlf|].
  rewrite skip_allocas_app by exact Hop. now rewrite Hs, Hs', E3, <- app_assoc.
Qed.

(** *** The states of the builder *)

Lemma blocks_of_moved_eq F B s :
  F = fst (InsertBlock s) -> blocks_of (moved F B s) = blocks_of s.
Proof. intros ->. reflexivity. Qed.

Lemma blocks_of_set_NamedValues g s : blocks_of (set_NamedValues g s) = blocks_of s.
Proof. reflexivity. Qed.

Lemma ext_created n s : ext_from n s (created s).
Proof.
  split; [reflexivity|]. split; [cbn; lia|].
  split; [apply blocks_grow_refl|]. split; [auto|]. split; [auto|].
  apply module_kept_refl.
Qed.

Lemma ext_moved n B s : ext_from n s (moved (fst (InsertBlock s)) B s).
Proof.
  split; [reflexivity|]. split; [cbn; lia|].
  split; [apply blocks_grow_refl|]. split; [auto|]. split; [auto|].
  apply module_kept_refl.
Qed.

Lemma ext_set_NamedValues n g s : ext_from n s (set_NamedValues g s).
Proof.
  split; [reflexivity|]. split; [cbn; lia|].
  split; [apply blocks_grow_refl|]. split; [auto|]. split; [auto|].
  apply module_kept_refl.
Qed.

Lemma ext_pushed n BB s :
  wf s -> n <= bb_id BB -> ext_from n s (pushed (fst (InsertBlock s)) BB s).
Proof.
  intros Hw Hn. split; [reflexivity|]. split; [cbn; lia|].
  rewrite blocks_of_pushed by exact Hw. split; [|split].
  - intros B l Hl. exists [], []. rewrite block_insts_app, Hl, app_nil_r.
    repeat split; auto.
  - intros B HB Hnone. rewrite block_insts_app, Hnone.
    destruct (Nat.eqb_spec (bb_id BB) B); [lia|reflexivity].
  - split; [intros B; apply entry_of_app|].
    eexists. reflexivity.
Qed.

Lemma ext_alloca n x s a s1 :
  CreateEntryBlockAlloca (fst (InsertBlock s)) x s = Done a s1 -> ext_from n s s1.
Proof.
  intros H.
  assert (G : module_kept (fst (InsertBlock s)) (TheModule s) (TheModule s1)).
  { inversion H; subst. eexists. reflexivity. }
  apply blocks_of_alloca in H as (_ & N & I & _ & B).
  split; [now rewrite I|]. split; [lia|]. rewrite B. split; [|split; [|split; [|exact G]]].
  - intros B0 l Hl. rewrite block_insts_prepend_entry_eq, Hl.
    destruct (decide (entry_of (blocks_of s) = Some B0)); cbn.
    + exists [mkInst (next_id s) (Alloca x)], []. rewrite app_nil_r.
      split; [reflexivity|]. split; [repeat constructor|].
      split; [constructor|]. intros; contradiction.
    + exists [], []. rewrite app_nil_r. repeat split; auto.
  - intros B0 _ Hnone.
    pose proof (block_insts_prepend_entry (blocks_of s)
                  (mkInst (next_id s) (Alloca x)) B0 x eq_refl) as P.
    now rewrite Hnone in P.
  - intros B0. now rewrite entry_of_prepend_entry.
Qed.

Lemma wf_created s : wf s -> wf (created s).
Proof. intros [Hf Hb]. split; [exact Hf|]. intros B HB. apply Hb in HB. cbn. lia. Qed.

Lemma wf_moved B s : wf s -> wf (moved (fst (InsertBlock s)) B s).
Proof. intros [Hf Hb]. split; [exact Hf|exact Hb]. Qed.

Lemma wf_set_NamedValues g s : wf s -> wf (set_NamedValues g s).
Proof. intros [Hf Hb]. split; [exact Hf|exact Hb]. Qed.

Lemma wf_pushed BB s :
  wf s -> bb_id BB < next_id s -> wf (pushed (fst (InsertBlock s)) BB s).
Proof.
  intros Hw Hlt. pose proof Hw as [[Fs HF] Hb]. split.
  - unfold pushed. cbn [InsertBlock TheModule set_TheModule].
    rewrite lookupF_update_fn by reflexivity. rewrite HF. cbn. eauto.
  - intros B. rewrite blocks_of_pushed by exact Hw. rewrite block_insts_app.
    destruct (block_insts (blocks_of s) B) eqn:E.
    + intros _. apply Hb. rewrite E. eauto.
    + destruct (Nat.eqb_spec (bb_id BB) B); [intros _; cbn; lia|].
      intros HB. now destruct HB.
Qed.

Lemma wf_alloca x s a s1 :
  wf s -> CreateEntryBlockAlloca (fst (InsertBlock s)) x s = Done a s1 -> wf s1.
Proof.
  intros [[Fs HF] Hb] H. pose proof (blocks_of_alloca _ _ _ _ H) as (_ & N & I & _ & B).
  split.
  - inversion H; subst. cbn [InsertBlock TheModule set_TheModule set_next_id].
    rewrite lookupF_update_fn by reflexivity. rewrite HF. cbn. eauto.
  - intros B0 HB. rewrite B in HB.
    pose proof (block_insts_prepend_entry (blocks_of s)
                  (mkInst (next_id s) (Alloca x)) B0 x eq_refl) as P.
    destruct (block_insts (blocks_of s) B0) eqn:E.
    + assert (B0 < next_id s) by (apply Hb; rewrite E; eauto). lia.
    + rewrite P in HB. now destruct HB.
Qed.

Lemma grown_refl n s : wf s -> grown n s s.
Proof. intros Hw. split; [apply ext_from_refl|]. split; [exact Hw|now left]. Qed.

Lemma grown_trans n s1 s2 s3 : grown n s1 s2 -> grown n s2 s3 -> grown n s1 s3.
Proof.
  intros (E1 & W1 & I1) (E2 & W2 & I2).
  split; [eapply ext_from_trans; eauto|]. split; [exact W2|].
  destruct I2 as [I2|I2]; [rewrite I2; exact I1|now right].
Qed.

Lemma grown_weaken n n' s s' : n <= n' -> grown n' s s' -> grown n s s'.
Proof.
  intros Hn (E & W & I). split; [eapply ext_from_weaken; eauto|].
  split; [exact W|]. destruct I as [I|I]; [now left|right; lia].
Qed.

Lemma grown_inserted n op s : non_alloca op -> wf s -> grown n s (inserted op s).
Proof.
  intros Hop Hw. split.
  - destruct (ext_inserted op s Hop) as (E1 & E2 & E3 & E4 & E5).
    repeat (split; [assumption|]). split; [|exact E5].
    intros B _ Hn. rewrite blocks_of_inserted, block_insts_append_inst, Hn.
    now destruct (Nat.eqb B (snd (InsertBlock s))).
  - split; [now apply wf_inserted|now left].
Qed.

Lemma grown_created n s : wf s -> grown n s (created s).
Proof.
  intros Hw. split; [apply ext_created|]. split; [now apply wf_created|now left].
Qed.

Lemma grown_pushed n F BB s :
  F = fst (InsertBlock s) -> wf s -> n <= bb_id BB < next_id s ->
  grown n s (pushed F BB s).
Proof.
  intros -> Hw [H1 H2]. split; [now apply ext_pushed|].
  split; [now apply wf_pushed|now left].
Qed.

Lemma grown_moved n F B s :
  F = fst (InsertBlock s) -> wf s -> n <= B -> grown n s (moved F B s).
Proof.
  intros -> Hw Hn. split; [apply ext_moved|].
  split; [now apply wf_moved|now right].
Qed.

Lemma grown_set_NamedValues n g s : wf s -> grown n s (set_NamedValues g s).
Proof.
  intros Hw. split; [apply ext_set_NamedValues|].
  split; [now apply wf_set_NamedValues|now left].
Qed.

Lemma grown_alloca n x s : wf s -> grown n s (loop_entry x s).
Proof.
  intros Hw.
  assert (E : CreateEntryBlockAlloca (fst (InsertBlock s)) x s
              = Done (next_id s) (loop_entry x s)) by reflexivity.
  split; [eapply ext_alloca; eauto|]. split; [eapply wf_alloca; eauto|now left].
Qed.

Lemma NamedValues_index_state x s a s' :
  NamedValues_index x s = Done a s' ->
  a = resolve s x
  /\ exists g, s' = set_NamedValues g s /\ (forall n, resolve s' n = resolve s n).
Proof.
  unfold NamedValues_index, resolve. intros H.
  destruct (NamedValues s !! x) as [p|] eqn:E; inversion H; subst; clear H.
  - split; [now destruct a|]. exists (fun g => g). split; [now destruct s'|auto].
  - split; [reflexivity|]. eexists. split; [reflexivity|].
    intros n. cbn. destruct (decide (n = x)) as [->|Hne].
    + now rewrite lookup_insert_eq, E.
    + now rewrite lookup_insert_ne.
Qed.

Lemma grown_wf n s s' : grown n s s' -> wf s'.
Proof. now intros (_ & W & _). Qed.

Lemma grown_next_id n s s' : grown n s s' -> next_id s <= next_id s'.
Proof. intros ((_ & N & _) & _). exact N. Qed.

Lemma grown_fst n s s' : grown n s s' -> fst (InsertBlock s') = fst (InsertBlock s).
Proof. intros ((F & _) & _). exact F. Qed.

Lemma inblock_inserted op s : inblock s -> inblock (inserted op s).
Proof.
  unfold inblock. rewrite blocks_of_inserted, block_insts_append_inst. cbn.
  rewrite Nat.eqb_refl. intros [l ->]. cbn. eauto.
Qed.

Lemma structure_ok_refl s : wf s -> structure_ok s s.
Proof. intros Hw. split; [now apply grown_refl|auto]. Qed.

Lemma structure_ok_trans s1 s2 s3 :
  structure_ok s1 s2 -> structure_ok s2 s3 -> structure_ok s1 s3.
Proof.
  intros (G1 & B1) (G2 & B2). split; [|auto].
  eapply grown_trans; [exact G1|].
  eapply grown_weaken; [|exact G2]. now apply grown_next_id in G1.
Qed.

Lemma structure_ok_inserted op s :
  non_alloca op -> wf s -> structure_ok s (inserted op s).
Proof.
  intros Hop Hw. split; [now apply grown_inserted|apply inblock_inserted].
Qed.

(** *** The lowering of each construct, step by step *)

Lemma Variable_success x s val s' :
  Codegen (VariableExprAST x) s = Done (Some val) s' ->
  exists h, resolve s x = Some h
            /\ val = InstResult (next_id s) /\ s' = inserted (Load h) s.
Proof.
  cbn [Codegen]. intros H.
  destruct (NamedValues_index_resolve x s) as (s0 & E & _ & _ & _ & _ & _ & _ & Es).
  rewrite (bind_Done _ _ _ _ _ E) in H.
  destruct (resolve s x) as [h|] eqn:R; [|discriminate].
  rewrite Es in H by discriminate. exists h.
  inversion H; subst. auto.
Qed.

Lemma Assign_success x RHS s val s' :
  Codegen (BinaryExprAST binary_eq (VariableExprAST x) RHS) s = Done (Some val) s' ->
  exists s1 h, Codegen RHS s = Done (Some val) s1
               /\ resolve s1 x = Some h /\ s' = inserted (Store val h) s1.
Proof.
  cbn [Codegen]. rewrite decide_True by reflexivity. intros H.
  apply bind_inv in H as ([v|] & s1 & E1 & H); [|discriminate].
  destruct (NamedValues_index_resolve x s1) as (s0 & E & _ & _ & _ & _ & _ & _ & Es).
  rewrite (bind_Done _ _ _ _ _ E) in H.
  destruct (resolve s1 x) as [h|] eqn:R; [|discriminate].
  rewrite Es in H by discriminate. exists s1, h.
  inversion H; subst. auto.
Qed.

Lemma Binary_success Op LHS RHS s val s' :
  Op <> binary_eq ->
  Codegen (BinaryExprAST Op LHS RHS) s = Done (Some val) s' ->
  exists L s1 R s2,
    Codegen LHS s = Done (Some L) s1 /\ Codegen RHS s1 = Done (Some R) s2
    /\ ((exists op, s' = inserted op s2 /\ val = InstResult (next_id s2)
                    /\ non_alloca op
                    /\ (Op = "+"%char -> op = FAdd L R)
                    /\ (Op = "-"%char -> op = FSub L R)
                    /\ (Op = "*"%char -> op = FMul L R)
                    /\ Op <> "<"%char)
        \/ (Op = "<"%char
            /\ s' = inserted (UIToFP (InstResult (next_id s2)))
                      (inserted (FCmpULT L R) s2)
            /\ val = InstResult (S (next_id s2)))).
Proof.
  intros Hne. cbn [Codegen]. rewrite decide_False by exact Hne. intros H.
  apply bind_inv in H as (oL & s1 & E1 & H).
  apply bind_inv in H as (oR & s2 & E2 & H).
  destruct oL as [L|]; [|destruct oR; discriminate].
  destruct oR as [R|]; [|discriminate].
  exists L, s1, R, s2. split; [exact E1|]. split; [exact E2|].
  destruct (decide (Op = "+"%char)) as [->|N1].
  { left. exists (FAdd L R). inversion H; subst.
    repeat split; auto; try discriminate. }
  destruct (decide (Op = "-"%char)) as [->|N2].
  { left. exists (FSub L R). inversion H; subst.
    repeat split; auto; try discriminate. }
  destruct (decide (Op = "*"%char)) as [->|N3].
  { left. exists (FMul L R). inversion H; subst.
    repeat split; auto; try discriminate. }
  destruct (decide (Op = "<"%char)) as [->|N4].
  { right. inversion H; subst. auto. }
  left. unfold bind at 1 in H. unfold get in H.
  destruct (getFunction (TheModule s2) _) as [F|]; [|discriminate].
  exists (Call (f_id F) [L; R]). inversion H; subst.
  repeat split; auto; try contradiction.
Qed.

Lemma Unary_success Opcode Operand s val s' :
  Codegen (UnaryExprAST Opcode Operand) s = Done (Some val) s' ->
  exists v s1 F, Codegen Operand s = Done (Some v) s1
                 /\ s' = inserted (Call F [v]) s1 /\ val = InstResult (next_id s1).
Proof.
  cbn [Codegen]. intros H.
  apply bind_inv in H as ([v|] & s1 & E1 & H); [|discriminate].
  unfold bind at 1 in H. unfold get in H.
  destruct (getFunction (TheModule s1) _) as [F|]; [|discriminate].
  exists v, s1, (f_id F). inversion H; subst. auto.
Qed.

Lemma If_eq Cond Then Else s :
  Codegen (IfExprAST Cond Then Else) s
  = match Codegen Cond s with
    | Done (Some cv) s1 =>
        let F := fst (InsertBlock s1) in
        let s2 := inserted (FCmpONE cv (ConstantFP 0%float)) s1 in
        let t := next_id s2 in
        let s5 := created (created (pushed F (mkBB t "then" []) (created s2))) in
        let s6 := inserted (CondBr (InstResult (next_id s1)) t (S t)) s5 in
        let s7 := moved F t s6 in
        match Codegen Then s7 with
        | Done (Some tv) s8 =>
            let s9 := inserted (Br (S (S t))) s8 in
            let s11 := moved F (S t) (pushed F (mkBB (S t) "else" []) s9) in
            match Codegen Else s11 with
            | Done (Some ev) s12 =>
                let s13 := inserted (Br (S (S t))) s12 in
                let s15 :=
                  moved F (S (S t)) (pushed F (mkBB (S (S t)) "ifcont" []) s13) in
                Done (Some (InstResult (next_id s15)))
                     (inserted (PHI [(tv, snd (InsertBlock s8));
                                     (ev, snd (InsertBlock s12))]) s15)
            | Done None s12 => Done None s12
            | AssertFail => AssertFail
            end
        | Done None s8 => Done None s8
        | AssertFail => AssertFail
        end
    | Done None s1 => Done None s1
    | AssertFail => AssertFail
    end.
Proof.
  cbn [Codegen]. unfold bind at 1.
  destruct (Codegen Cond s) as [[cv|] s1|]; try reflexivity.
  cbv zeta.
  unfold bind at 1. unfold CreateFCmpONE. rewrite Insert_Done.
  unfold bind at 1. unfold GetInsertParent, get.
  unfold bind at 1. unfold BasicBlock_Create at 1.
  unfold bind at 1. unfold fresh at 1.
  unfold bind at 1. unfold push_back_block at 1. unfold modify at 1. unfold ret at 1.
  unfold bind at 1. unfold BasicBlock_Create at 1.
  unfold bind at 1. unfold fresh at 1. unfold ret at 1.
  unfold bind at 1. unfold BasicBlock_Create at 1.
  unfold bind at 1. unfold fresh at 1. unfold ret at 1.
  unfold bind at 1. unfold CreateCondBr at 1.
  unfold bind at 1. rewrite Insert_Done. unfold ret at 1.
  unfold bind at 1. unfold SetInsertPoint at 1. unfold modify at 1.
  unfold bind at 1.
  match goal with |- match Codegen Then ?a with _ => _ end
                     = match Codegen Then ?b with _ => _ end =>
    change a with b end.
  destruct (Codegen Then _) as [[tv|] s8|]; try reflexivity.
  unfold bind at 1. unfold CreateBr at 1.
  unfold bind at 1. rewrite Insert_Done. unfold ret at 1.
  unfold bind at 1. unfold GetInsertBlock at 1. unfold get at 1.
  unfold bind at 1. unfold push_back_block at 1. unfold modify at 1.
  unfold bind at 1. unfold SetInsertPoint at 1. unfold modify at 1.
  unfold bind at 1.
  match goal with |- match Codegen Else ?a with _ => _ end
                     = match Codegen Else ?b with _ => _ end =>
    change a with b end.
  destruct (Codegen Else _) as [[ev|] s12|]; try reflexivity.
Qed.

Lemma For_eq VarName Start End Step Body s :
  Codegen (ForExprAST VarName Start End Step Body) s
  = let F := fst (InsertBlock s) in
    let A := next_id s in
    match Codegen Start (loop_entry VarName s) with
    | Done (Some sv) s1 =>
        let s2 := inserted (Store sv A) s1 in
        let L := next_id s2 in
        let s4 := inserted (Br L) (pushed F (mkBB L "loop" []) (created s2)) in
        match NamedValues_index VarName (moved F L s4) with
        | Done OldVal s5 =>
            match Codegen Body (set_NamedValues (insert VarName (Some A)) s5) with
            | Done (Some _) s7 =>
                match (match Step with
                       | Some Step => Codegen Step
                       | None => ret (Some (ConstantFP 1%float))
                       end) s7 with
                | Done (Some stv) s8 =>
                    match Codegen End s8 with
                    | Done (Some ec) s9 =>
                        let s10 := inserted (Load A) s9 in
                        let s11 := inserted (FAdd (InstResult (next_id s9)) stv) s10 in
                        let s12 := inserted (Store (InstResult (next_id s10)) A) s11 in
                        let s13 := inserted (FCmpONE ec (ConstantFP 0%float)) s12 in
                        let Aft := next_id s13 in
                        let s15 :=
                          inserted (CondBr (InstResult (next_id s12)) L Aft)
                            (pushed F (mkBB Aft "afterloop" []) (created s13)) in
                        Done (Some (ConstantFP 0%float))
                             (set_NamedValues
                                (match OldVal with
                                 | Some _ => insert VarName OldVal
                                 | None => delete VarName
                                 end) (moved F Aft s15))
                    | Done None s9 => Done None s9
                    | AssertFail => AssertFail
                    end
                | Done None s8 => Done None s8
                | AssertFail => AssertFail
                end
            | Done None s7 => Done None s7
            | AssertFail => AssertFail
            end
        | AssertFail => AssertFail
        end
    | Done None s1 => Done None s1
    | AssertFail => AssertFail
    end.
Proof.
  cbn [Codegen]. cbv zeta.
  unfold bind at 1. unfold GetInsertParent at 1. unfold get at 1.
  unfold bind at 1.
  change (CreateEntryBlockAlloca (fst (InsertBlock s)) VarName s)
    with (Done (next_id s) (loop_entry VarName s)).
  unfold bind at 1.
  destruct (Codegen Start (loop_entry VarName s)) as [[sv|] s1|]; try reflexivity.
  unfold bind at 1. unfold CreateStore at 1.
  unfold bind at 1. rewrite Insert_Done. unfold ret at 1.
  unfold bind at 1. unfold BasicBlock_Create at 1.
  unfold bind at 1. unfold fresh at 1.
  unfold bind at 1. unfold push_back_block at 1. unfold modify at 1. unfold ret at 1.
  unfold bind at 1. unfold CreateBr at 1.
  unfold bind at 1. rewrite Insert_Done. unfold ret at 1.
  unfold bind at 1. unfold SetInsertPoint at 1. unfold modify at 1.
  unfold bind at 1.
  match goal with |- match NamedValues_index _ ?a with _ => _ end
                     = match NamedValues_index _ ?b with _ => _ end =>
    change a with b end.
  destruct (NamedValues_index VarName _) as [OldVal s5|]; [|reflexivity].
  unfold bind at 1. unfold NamedValues_assign at 1. unfold modify at 1.
  unfold bind at 1.
  destruct (Codegen Body _) as [[bv|] s7|]; try reflexivity.
  unfold bind at 1.
  destruct (match Step with Some Step0 => Codegen Step0 | None => _ end s7)
    as [[stv|] s8|]; try reflexivity.
  unfold bind at 1.
  destruct (Codegen End s8) as [[ec|] s9|]; try reflexivity.
  unfold bind at 1. unfold CreateLoad at 1. rewrite Insert_Done.
  unfold bind at 1. unfold CreateFAdd at 1. rewrite Insert_Done.
  unfold bind at 1. unfold CreateStore at 1.
  unfold bind at 1. rewrite Insert_Done. unfold ret at 1.
  unfold bind at 1. unfold CreateFCmpONE at 1. rewrite Insert_Done.
  unfold bind at 1. unfold BasicBlock_Create at 1.
  unfold bind at 1. unfold fresh at 1.
  unfold bind at 1. unfold push_back_block at 1. unfold modify at 1. unfold ret at 1.
  unfold bind at 1. unfold CreateCondBr at 1.
  unfold bind at 1. rewrite Insert_Done. unfold ret at 1.
  unfold bind at 1. unfold SetInsertPoint at 1. unfold modify at 1.
  unfold bind at 1.
  destruct OldVal; reflexivity.
Qed.

(** *** The structure of the lowered code *)

(** Arithmetic on the counters of the builder's states. *)
Ltac idlia_hyps :=
  repeat match goal with
    | H : _ <= _ |- _ => progress cbn in H
    | H : _ < _ |- _ => progress cbn in H
    | H : @eq nat _ _ |- _ => progress cbn in H
    | H : _ \/ _ |- _ => progress cbn in H
    end.

Ltac idlia := cbn; first [lia | idlia_hyps; lia].

Lemma since_inserted s0 s op :
  grown (next_id s0) s0 s -> non_alloca op -> grown (next_id s0) s0 (inserted op s).
Proof.
  intros G Hop. eapply grown_trans; [exact G|].
  apply grown_inserted; [exact Hop|eapply grown_wf; eauto].
Qed.

Lemma since_created s0 s :
  grown (next_id s0) s0 s -> grown (next_id s0) s0 (created s).
Proof.
  intros G. eapply grown_trans; [exact G|].
  apply grown_created. eapply grown_wf; eauto.
Qed.

Lemma since_pushed s0 s F BB :
  grown (next_id s0) s0 s -> F = fst (InsertBlock s0) ->
  next_id s0 <= bb_id BB < next_id s ->
  grown (next_id s0) s0 (pushed F BB s).
Proof.
  intros G -> HB. eapply grown_trans; [exact G|].
  apply grown_pushed; [|eapply grown_wf; eauto|exact HB].
  symmetry. eapply grown_fst; eauto.
Qed.

Lemma since_moved s0 s F B :
  grown (next_id s0) s0 s -> F = fst (InsertBlock s0) -> next_id s0 <= B ->
  grown (next_id s0) s0 (moved F B s).
Proof.
  intros G -> HB. eapply grown_trans; [exact G|].
  apply grown_moved; [|eapply grown_wf; eauto|exact HB].
  symmetry. eapply grown_fst; eauto.
Qed.

Lemma since_set_NamedValues s0 s g :
  grown (next_id s0) s0 s -> grown (next_id s0) s0 (set_NamedValues g s).
Proof.
  intros G. eapply grown_trans; [exact G|].
  apply grown_set_NamedValues. eapply grown_wf; eauto.
Qed.

Lemma since_index s0 s x a s' :
  grown (next_id s0) s0 s -> NamedValues_index x s = Done a s' ->
  grown (next_id s0) s0 s'.
Proof.
  intros G H. apply NamedValues_index_state in H as (_ & g & -> & _).
  now apply since_set_NamedValues.
Qed.

Lemma since_alloca s0 s x :
  grown (next_id s0) s0 s -> grown (next_id s0) s0 (loop_entry x s).
Proof.
  intros G. eapply grown_trans; [exact G|].
  apply grown_alloca. eapply grown_wf; eauto.
Qed.

Lemma since_sub s0 s s' :
  grown (next_id s0) s0 s -> structure_ok s s' -> grown (next_id s0) s0 s'.
Proof.
  intros G [G' _]. eapply grown_trans; [exact G|].
  eapply grown_weaken; [|exact G']. eapply grown_next_id; eauto.
Qed.

Lemma inblock_kept n s s' :
  ext_from n s s' -> snd (InsertBlock s') = snd (InsertBlock s) ->
  inblock s -> inblock s'.
Proof.
  intros (_ & _ & L & _) E [l Hl]. unfold inblock. rewrite E.
  destruct (L _ _ Hl) as (l' & suf & -> & _). eauto.
Qed.

Lemma present_pushed F BB s :
  F = fst (InsertBlock s) -> wf s ->
  is_Some (block_insts (blocks_of (pushed F BB s)) (bb_id BB)).
Proof.
  intros -> Hw. rewrite blocks_of_pushed by exact Hw. rewrite block_insts_app.
  destruct (block_insts (blocks_of s) (bb_id BB)); [eauto|].
  rewrite Nat.eqb_refl. eauto.
Qed.

Lemma CallArgs_structure Args :
  Forall (fun a => forall s val s', Codegen a s = Done (Some val) s' -> wf s ->
                     structure_ok s s' /\ val_below (next_id s') val) Args ->
  forall acc s vs s',
    CallArgs Codegen Args acc s = Done (Some vs) s' -> wf s ->
    structure_ok s s'.
Proof.
  induction 1 as [|a Args Ha _ IH]; intros acc s vs s' H Hw; cbn [CallArgs] in H.
  - inversion H; subst. now apply structure_ok_refl.
  - apply bind_inv in H as ([v|] & s1 & E1 & H); [|discriminate].
    destruct (Ha _ _ _ E1 Hw) as [S1 _].
    eapply structure_ok_trans; [exact S1|].
    eapply IH; [exact H|]. eapply grown_wf, S1.
Qed.

Lemma Call_success Callee Args s val s' :
  Codegen (CallExprAST Callee Args) s = Done (Some val) s' ->
  exists F vs s1, CallArgs Codegen Args [] s = Done (Some vs) s1
                  /\ s' = inserted (Call F vs) s1 /\ val = InstResult (next_id s1).
Proof.
  cbn [Codegen]. intros H. unfold bind at 1 in H. unfold get in H.
  destruct (getFunction (TheModule s) Callee) as [F|]; [|discriminate].
  destruct (negb _); [discriminate|].
  apply bind_inv in H as ([vs|] & s1 & E1 & H); [|discriminate].
  exists (f_id F), vs, s1. inversion H; subst. auto.
Qed.

Lemma VarRestore_state {A} (VarNames : list (string * A)) : forall Olds s a s',
  VarRestore VarNames Olds s = Done a s' -> exists g, s' = set_NamedValues g s.
Proof.
  induction VarNames as [|[x i] VarNames IH]; intros [|o Olds] s a s' H;
    cbn [VarRestore] in H;
    try (inversion H; subst; exists (fun g => g); now destruct s').
  apply bind_inv in H as ([] & s1 & E1 & H). inversion E1; subst; clear E1.
  destruct (IH _ _ _ _ H) as (g & ->). eexists (fun m => g (<[x := o]> m)).
  reflexivity.
Qed.

Lemma Var_eq VarNames Body s :
  Codegen (VarExprAST VarNames Body) s
  = match VarBind Codegen (fst (InsertBlock s)) VarNames [] s with
    | Done (Some Olds) s1 =>
        match Codegen Body s1 with
        | Done (Some bv) s2 =>
            match VarRestore VarNames Olds s2 with
            | Done _ s3 => Done (Some bv) s3
            | AssertFail => AssertFail
            end
        | Done None s2 => Done None s2
        | AssertFail => AssertFail
        end
    | Done None s1 => Done None s1
    | AssertFail => AssertFail
    end.
Proof.
  cbn [Codegen]. unfold bind at 1. unfold GetInsertParent, get.
  unfold bind at 1.
  destruct (VarBind Codegen _ VarNames [] s) as [[Olds|] s1|]; try reflexivity.
  unfold bind at 1.
  destruct (Codegen Body s1) as [[bv|] s2|]; try reflexivity.
Qed.


Lemma structure_ok_alloca x s : wf s -> structure_ok s (loop_entry x s).
Proof.
  intros Hw. split; [now apply grown_alloca|].
  apply (inblock_kept (next_id s)); [|reflexivity].
  now apply grown_alloca.
Qed.

Lemma structure_ok_set_NamedValues g s : wf s -> structure_ok s (set_NamedValues g s).
Proof. intros Hw. split; [now apply grown_set_NamedValues|auto]. Qed.

Lemma structure_ok_index x s a s' :
  wf s -> NamedValues_index x s = Done a s' -> structure_ok s s'.
Proof.
  intros Hw H. apply NamedValues_index_state in H as (_ & g & -> & _).
  now apply structure_ok_set_NamedValues.
Qed.

Lemma structure_ok_wf s s' : structure_ok s s' -> wf s'.
Proof. intros [G _]. eapply grown_wf; eauto. Qed.

Lemma structure_ok_fst s s' :
  structure_ok s s' -> fst (InsertBlock s') = fst (InsertBlock s).
Proof. intros [G _]. eapply grown_fst; eauto. Qed.

Lemma structure_ok_next_id s s' : structure_ok s s' -> next_id s <= next_id s'.
Proof. intros [G _]. eapply grown_next_id; eauto. Qed.

Lemma VarBind_structure VarNames :
  Forall (fun p => forall e, snd p = Some e ->
            forall s val s', Codegen e s = Done (Some val) s' -> wf s ->
              structure_ok s s' /\ val_below (next_id s') val) VarNames ->
  forall F Olds s Olds' s',
    VarBind Codegen F VarNames Olds s = Done (Some Olds') s' ->
    F = fst (InsertBlock s) -> wf s -> structure_ok s s'.
Proof.
  induction 1 as [|[x init] VarNames Hp _ IH]; intros F Olds s Olds' s' H HF Hw;
    cbn [VarBind] in H.
  - inversion H; subst. now apply structure_ok_refl.
  - apply bind_inv in H as ([iv|] & s1 & E1 & H); [|discriminate].
    assert (S1 : structure_ok s s1).
    { destruct init as [e|]; [now apply (Hp e eq_refl _ _ _ E1)|].
      inversion E1; subst. now apply structure_ok_refl. }
    pose proof (structure_ok_wf _ _ S1) as W1.
    pose proof (structure_ok_fst _ _ S1) as F1.
    apply bind_inv in H as (A & s2 & E2 & H).
    assert (s2 = loop_entry x s1) as ->.
    { unfold loop_entry. rewrite F1, <- HF, E2. reflexivity. }
    pose proof (structure_ok_alloca x s1 W1) as S2.
    pose proof (structure_ok_wf _ _ S2) as W2.
    apply bind_inv in H as ([] & s3 & E3 & H).
    unfold CreateStore in E3. rewrite (bind_Done _ _ _ _ _ (Insert_Done _ _)) in E3.
    inversion E3; subst s3; clear E3.
    pose proof (structure_ok_inserted (Store iv A) _ I W2) as S3.
    pose proof (structure_ok_wf _ _ S3) as W3.
    apply bind_inv in H as (Old & s4 & E4 & H).
    pose proof (structure_ok_index _ _ _ _ W3 E4) as S4.
    pose proof (structure_ok_wf _ _ S4) as W4.
    apply bind_inv in H as ([] & s5 & E5 & H).
    inversion E5; subst s5; clear E5.
    pose proof (structure_ok_set_NamedValues (insert x (Some A)) _ W4) as S5.
    pose proof (structure_ok_wf _ _ S5) as W5.
    assert (S05 : structure_ok s (set_NamedValues (insert x (Some A)) s4)).
    { eapply structure_ok_trans; [exact S1|].
      eapply structure_ok_trans; [exact S2|].
      eapply structure_ok_trans; [exact S3|].
      eapply structure_ok_trans; [exact S4|exact S5]. }
    eapply structure_ok_trans; [exact S05|].
    eapply IH; [exact H| |exact W5].
    rewrite (structure_ok_fst _ _ S05). exact HF.
Qed.

Lemma Codegen_structure e : forall s val s',
  Codegen e s = Done (Some val) s' -> wf s ->
  structure_ok s s' /\ val_below (next_id s') val.
Proof.
  induction e as [Val|Name|Opcode Operand IH|Op LHS RHS IHL IHR|Callee Args IH
                  |Cond Then Else IHc IHt IHe
                  |VarName Start End Step Body IHs IHe IHst IHb
                  |VarNames Body IHv IHb] using ExprAST_nested_ind;
    intros s val s' H Hw.
  - inversion H; subst. split; [now apply structure_ok_refl|exact I].
  - apply Variable_success in H as (h & _ & -> & ->).
    split; [now apply structure_ok_inserted|cbn; lia].
  - apply Unary_success in H as (v & s1 & F & E1 & -> & ->).
    destruct (IH _ _ _ E1 Hw) as [S1 _].
    split; [|cbn; lia].
    eapply structure_ok_trans; [exact S1|].
    apply structure_ok_inserted; [exact I|eapply structure_ok_wf; eauto].
  - destruct (decide (Op = binary_eq)) as [->|Hne].
    + destruct LHS as [|x| | | | | |];
        try (cbn [Codegen] in H; rewrite decide_True in H by reflexivity;
             discriminate H).
      apply Assign_success in H as (s1 & h & E1 & _ & ->).
      destruct (IHR _ _ _ E1 Hw) as [S1 V1].
      split; [|eapply val_below_le; [exact V1|cbn; lia]].
      eapply structure_ok_trans; [exact S1|].
      apply structure_ok_inserted; [exact I|eapply structure_ok_wf; eauto].
    + apply (Binary_success _ _ _ _ _ _ Hne) in H
        as (L & s1 & R & s2 & E1 & E2 & Hop).
      destruct (IHL _ _ _ E1 Hw) as [S1 _].
      destruct (IHR _ _ _ E2 (structure_ok_wf _ _ S1)) as [S2 _].
      pose proof (structure_ok_wf _ _ S2) as W2.
      destruct Hop as [(op & -> & -> & Hna & _)|(_ & -> & ->)].
      * split; [|cbn; lia].
        eapply structure_ok_trans; [exact S1|].
        eapply structure_ok_trans; [exact S2|].
        now apply structure_ok_inserted.
      * split; [|cbn; lia].
        eapply structure_ok_trans; [exact S1|].
        eapply structure_ok_trans; [exact S2|].
        eapply structure_ok_trans; [now apply (structure_ok_inserted (FCmpULT L R))|].
        apply structure_ok_inserted; [exact I|now apply wf_inserted].
  - apply Call_success in H as (F & vs & s1 & E1 & -> & ->).
    pose proof (CallArgs_structure Args IH _ _ _ _ E1 Hw) as S1.
    split; [|cbn; lia].
    eapply structure_ok_trans; [exact S1|].
    apply structure_ok_inserted; [exact I|eapply structure_ok_wf; eauto].
  - (* conditional *)
    rewrite If_eq in H.
    destruct (Codegen Cond s) as [[cv|] s1|] eqn:E1; try discriminate.
    destruct (IHc _ _ _ E1 Hw) as [S1 _].
    cbv zeta in H. rewrite (structure_ok_fst _ _ S1) in H.
    set (F := fst (InsertBlock s)) in *.
    set (s2 := inserted (FCmpONE cv (ConstantFP 0%float)) s1) in *.
    set (t := next_id s2) in *.
    set (s5 := created (created (pushed F (mkBB t "then" []) (created s2)))) in *.
    set (s6 := inserted (CondBr (InstResult (next_id s1)) t (S t)) s5) in *.
    set (s7 := moved F t s6) in *.
    assert (G1 : grown (next_id s) s s1) by apply S1.
    assert (G2 : grown (next_id s) s s2) by (apply since_inserted; [exact G1|exact I]).
    assert (Nt : next_id s <= t) by (eapply grown_next_id; eauto).
    assert (G5 : grown (next_id s) s s5).
    { do 2 apply since_created. apply since_pushed; [|reflexivity|idlia].
      now apply since_created. }
    assert (G7 : grown (next_id s) s s7).
    { apply since_moved; [|reflexivity|exact Nt].
      apply since_inserted; [exact G5|exact I]. }
    destruct (Codegen Then s7) as [[tv|] s8|] eqn:E2; try discriminate.
    destruct (IHt _ _ _ E2 (grown_wf _ _ _ G7)) as [S8 _].
    pose proof (structure_ok_next_id _ _ S8) as N8.
    assert (N7 : next_id s7 = S (S (S (S t)))) by reflexivity.
    set (s9 := inserted (Br (S (S t))) s8) in *.
    set (s11 := moved F (S t) (pushed F (mkBB (S t) "else" []) s9)) in *.
    assert (G11 : grown (next_id s) s s11).
    { apply since_moved; [|reflexivity|idlia].
      apply since_pushed; [|reflexivity|idlia].
      apply since_inserted; [|exact I]. eapply since_sub; eauto. }
    destruct (Codegen Else s11) as [[ev|] s12|] eqn:E3; try discriminate.
    destruct (IHe _ _ _ E3 (grown_wf _ _ _ G11)) as [S12 _].
    pose proof (structure_ok_next_id _ _ S12) as N12.
    assert (N11 : next_id s11 = S (next_id s8)) by reflexivity.
    set (s13 := inserted (Br (S (S t))) s12) in *.
    set (s14 := pushed F (mkBB (S (S t)) "ifcont" []) s13) in *.
    set (s15 := moved F (S (S t)) s14) in *.
    assert (G13 : grown (next_id s) s s13).
    { apply since_inserted; [|exact I]. eapply since_sub; eauto. }
    assert (G14 : grown (next_id s) s s14)
      by (apply since_pushed; [exact G13|reflexivity|idlia]).
    assert (G15 : grown (next_id s) s s15)
      by (apply since_moved; [exact G14|reflexivity|idlia]).
    inversion H; subst; clear H.
    split; [|idlia]. split.
    + apply since_inserted; [exact G15|exact I].
    + intros _. apply inblock_inserted. unfold inblock.
      change (snd (InsertBlock s15)) with (bb_id (mkBB (S (S t)) "ifcont" [])).
      unfold s15. rewrite blocks_of_moved_eq by (symmetry; eapply grown_fst; eauto).
      apply present_pushed; [|eapply grown_wf; eauto].
      symmetry. eapply grown_fst; eauto.
  - (* loop *)
    rewrite For_eq in H. cbv zeta in H.
    set (F := fst (InsertBlock s)) in *.
    set (A := next_id s) in *.
    assert (G0 : grown (next_id s) s (loop_entry VarName s))
      by (apply since_alloca; now apply grown_refl).
    destruct (Codegen Start (loop_entry VarName s)) as [[sv|] s1|] eqn:E1;
      try discriminate.
    destruct (IHs _ _ _ E1 (grown_wf _ _ _ G0)) as [S1 _].
    assert (G1 : grown (next_id s) s s1) by (eapply since_sub; eauto).
    set (s2 := inserted (Store sv A) s1) in *.
    set (L := next_id s2) in *.
    set (s4 := inserted (Br L) (pushed F (mkBB L "loop" []) (created s2))) in *.
    assert (G2 : grown (next_id s) s s2) by (apply since_inserted; [exact G1|exact I]).
    assert (NL : next_id s <= L) by (eapply grown_next_id; eauto).
    assert (G4 : grown (next_id s) s s4).
    { apply since_inserted; [|exact I].
      apply since_pushed; [|reflexivity|idlia]. now apply since_created. }
    assert (G4' : grown (next_id s) s (moved F L s4))
      by (apply since_moved; [exact G4|reflexivity|exact NL]).
    destruct (NamedValues_index VarName (moved F L s4)) as [OldVal s5|] eqn:E5;
      [|discriminate].
    pose proof (since_index _ _ _ _ _ G4' E5) as G5.
    pose proof (since_set_NamedValues _ _ (insert VarName (Some A)) G5) as G6.
    destruct (Codegen Body _) as [[bv|] s7|] eqn:E7; try discriminate.
    destruct (IHb _ _ _ E7 (grown_wf _ _ _ G6)) as [S7 _].
    assert (G7 : grown (next_id s) s s7) by (eapply since_sub; eauto).
    destruct (match Step with Some Step0 => Codegen Step0 | None => _ end s7)
      as [[stv|] s8|] eqn:E8; try discriminate.
    assert (S8 : structure_ok s7 s8).
    { destruct Step as [st|]; [now apply (IHst st eq_refl _ _ _ E8 (grown_wf _ _ _ G7))|].
      inversion E8; subst. apply structure_ok_refl. eapply grown_wf; eauto. }
    assert (G8 : grown (next_id s) s s8) by (eapply since_sub; eauto).
    destruct (Codegen End s8) as [[ec|] s9|] eqn:E9; try discriminate.
    destruct (IHe _ _ _ E9 (grown_wf _ _ _ G8)) as [S9 _].
    assert (G9 : grown (next_id s) s s9) by (eapply since_sub; eauto).
    inversion H; subst; clear H.
    set (s10 := inserted (Load A) s9) in *.
    set (s11 := inserted (FAdd (InstResult (next_id s9)) stv) s10) in *.
    set (s12 := inserted (Store (InstResult (next_id s10)) A) s11) in *.
    set (s13 := inserted (FCmpONE ec (ConstantFP 0%float)) s12) in *.
    set (Aft := next_id s13) in *.
    set (s14 := pushed F (mkBB Aft "afterloop" []) (created s13)) in *.
    set (s15 := inserted (CondBr (InstResult (next_id s12)) L Aft) s14) in *.
    assert (G13 : grown (next_id s) s s13) by (repeat apply since_inserted; auto; exact I).
    assert (NA : next_id s <= Aft) by (eapply grown_next_id; eauto).
    assert (G14 : grown (next_id s) s s14).
    { apply since_pushed; [|reflexivity|idlia]. now apply since_created. }
    assert (G15 : grown (next_id s) s s15) by (apply since_inserted; [exact G14|exact I]).
    split; [|exact I]. split.
    + apply since_set_NamedValues. apply since_moved; [exact G15|reflexivity|exact NA].
    + intros _. unfold inblock.
      rewrite blocks_of_set_NamedValues.
      rewrite blocks_of_moved_eq by (symmetry; eapply grown_fst; eauto).
      change (is_Some (block_insts (blocks_of s15) Aft)).
      unfold s15. rewrite blocks_of_inserted, block_insts_append_inst.
      assert (P : is_Some (block_insts (blocks_of s14) Aft)).
      { apply (present_pushed F (mkBB Aft "afterloop" []) (created s13));
          [|apply wf_created; eapply grown_wf; eauto].
        symmetry. change (fst (InsertBlock (created s13))) with (fst (InsertBlock s13)).
        eapply grown_fst; eauto. }
      destruct P as [l ->]. destruct (Nat.eqb _ _); cbn; eauto.
  - rewrite Var_eq in H.
    destruct (VarBind Codegen _ VarNames [] s) as [[Olds|] s1|] eqn:E1;
      try discriminate.
    pose proof (VarBind_structure VarNames IHv _ _ _ _ _ E1 eq_refl Hw) as S1.
    destruct (Codegen Body s1) as [[bv|] s2|] eqn:E2; try discriminate.
    destruct (IHb _ _ _ E2 (structure_ok_wf _ _ S1)) as [S2 V2].
    destruct (VarRestore VarNames Olds s2) as [[] s3|] eqn:E3; [|discriminate].
    inversion H; subst; clear H.
    destruct (VarRestore_state _ _ _ _ _ E3) as (g & ->).
    split; [|exact V2].
    eapply structure_ok_trans; [exact S1|].
    eapply structure_ok_trans; [exact S2|].
    apply structure_ok_set_NamedValues. eapply structure_ok_wf; eauto.
Qed.

(** *** Running the lowered code *)

Lemma step_FCmpONE m ext fr callers tr i code l r a b :
  fr_code fr = i :: code -> i_op i = FCmpONE l r ->
  eval_float fr l = Some a -> eval_float fr r = Some b ->
  step m ext (fr :: callers) tr
  = Some (Running (set_reg fr (i_id i) (RBool (fcmp_one a b)) code :: callers) tr).
Proof. intros E1 E2 E3 E4. unfold step. now rewrite E1, E2, E3, E4. Qed.

Lemma step_Br m ext fr callers tr i code dest fr' :
  fr_code fr = i :: code -> i_op i = Br dest -> jump fr dest = Some fr' ->
  step m ext (fr :: callers) tr = Some (Running (fr' :: callers) tr).
Proof. intros E1 E2 E3. unfold step. now rewrite E1, E2, E3. Qed.

Lemma step_CondBr m ext fr callers tr i code c t f b fr' :
  fr_code fr = i :: code -> i_op i = CondBr c t f -> eval_bool fr c = Some b ->
  jump fr (if b then t else f) = Some fr' ->
  step m ext (fr :: callers) tr = Some (Running (fr' :: callers) tr).
Proof. intros E1 E2 E3 E4. unfold step. now rewrite E1, E2, E3, E4. Qed.

Lemma step_PHI m ext fr callers tr i code incoming v B x :
  fr_code fr = i :: code -> i_op i = PHI incoming ->
  find (fun p => Nat.eqb (snd p) (fr_prev fr)) incoming = Some (v, B) ->
  eval fr v = Some x ->
  step m ext (fr :: callers) tr
  = Some (Running (set_reg fr (i_id i) x code :: callers) tr).
Proof. intros E1 E2 E3 E4. unfold step. now rewrite E1, E2, E3, E4. Qed.

Lemma eval_float_eval fr v f : eval_float fr v = Some f -> eval fr v = Some (RFloat f).
Proof.
  unfold eval_float. destruct (eval fr v) as [[g|b]|]; try discriminate.
  now intros [= ->].
Qed.

(** Moving the frame to an empty block the builder is about to fill. *)
Lemma jump_lands s Fn fr T l m ext callers tr :
  contains s Fn m -> snd (InsertBlock s) = T ->
  block_insts (blocks_of s) T = Some l -> skip_allocas l = [] ->
  fr_fn fr = Fn ->
  exists frj k fr',
    jump fr T = Some frj
    /\ steps k m ext (Running (frj :: callers) tr) = Some (Running (fr' :: callers) tr)
    /\ pos s Fn fr'
    /\ fr_prev fr' = fr_cur fr /\ fr_regs fr' = fr_regs fr
    /\ fr_mem fr' = fr_mem fr /\ fr_args fr' = fr_args fr
    /\ fr_dest fr' = fr_dest fr.
Proof.
  intros Hc HT Hl Hs Hfn.
  destruct (proj1 Hc _ _ Hl) as (lf & suf & Hlf & Hsuf).
  unfold block_insts in Hlf.
  destruct (find (fun b => Nat.eqb (bb_id b) T) (f_blocks Fn)) as [b|] eqn:Ef;
    [|discriminate].
  cbn in Hlf. inversion Hlf; subst lf; clear Hlf.
  set (frj := mkFrame Fn (fr_args fr) (fr_regs fr) (fr_mem fr)
                (fr_cur fr) T (bb_insts b) (fr_dest fr)).
  assert (Hj : jump fr T = Some frj) by (unfold jump; rewrite Hfn, Ef; reflexivity).
  destruct (steps_skip_allocas m ext callers tr (bb_insts b) frj eq_refl) as (k & Hk).
  exists frj, k, (skip frj (skip_allocas (bb_insts b))).
  split; [exact Hj|]. split; [exact Hk|]. split; [|repeat split].
  split; [reflexivity|]. split; [cbn; now rewrite HT|].
  exists l, (bb_insts b). rewrite HT. split; [exact Hl|]. split.
  - unfold block_insts. now rewrite Ef.
  - cbn. now rewrite Hs.
Qed.

(** The frame stays where it is when the insertion block is not touched. *)
Lemma pos_same s s' Fn fr :
  snd (InsertBlock s') = snd (InsertBlock s) ->
  (forall l, block_insts (blocks_of s) (snd (InsertBlock s)) = Some l ->
             exists l', block_insts (blocks_of s') (snd (InsertBlock s)) = Some l'
                        /\ skip_allocas l' = skip_allocas l) ->
  pos s Fn fr -> pos s' Fn fr.
Proof.
  intros EB Hl (Hfn & Hcur & l & lf & E1 & E2 & E3).
  destruct (Hl _ E1) as (l' & E1' & Es).
  split; [exact Hfn|]. split; [congruence|].
  exists l', lf. rewrite EB. repeat (split; [assumption|]). now rewrite Es.
Qed.

Lemma pos_created s Fn fr : pos s Fn fr -> pos (created s) Fn fr.
Proof. apply pos_same; [reflexivity|]. intros l Hl. eauto. Qed.

Lemma pos_set_NamedValues g s Fn fr : pos s Fn fr -> pos (set_NamedValues g s) Fn fr.
Proof. apply pos_same; [reflexivity|]. intros l Hl. eauto. Qed.

Lemma pos_pushed F BB s Fn fr :
  F = fst (InsertBlock s) -> wf s -> pos s Fn fr -> pos (pushed F BB s) Fn fr.
Proof.
  intros -> Hw. apply pos_same; [reflexivity|]. intros l Hl.
  rewrite blocks_of_pushed by exact Hw. rewrite block_insts_app, Hl. eauto.
Qed.

Lemma pos_alloca x s Fn fr : pos s Fn fr -> pos (loop_entry x s) Fn fr.
Proof.
  apply pos_same; [reflexivity|]. intros l Hl.
  assert (E : CreateEntryBlockAlloca (fst (InsertBlock s)) x s
              = Done (next_id s) (loop_entry x s)) by reflexivity.
  apply blocks_of_alloca in E as (_ & _ & _ & _ & ->).
  pose proof (block_insts_prepend_entry (blocks_of s)
                (mkInst (next_id s) (Alloca x)) (snd (InsertBlock s)) x eq_refl) as P.
  now rewrite Hl in P.
Qed.

Lemma pos_inblock s Fn fr : pos s Fn fr -> inblock s.
Proof. intros (_ & _ & l & _ & E & _). unfold inblock. rewrite E. eauto. Qed.

(** Absent blocks. *)
Lemma absent_inserted op s B :
  block_insts (blocks_of s) B = None -> block_insts (blocks_of (inserted op s)) B = None.
Proof.
  intros H. rewrite blocks_of_inserted, block_insts_append_inst, H.
  now destruct (Nat.eqb B (snd (InsertBlock s))).
Qed.

Lemma absent_pushed F BB s B :
  F = fst (InsertBlock s) -> wf s -> bb_id BB <> B ->
  block_insts (blocks_of s) B = None -> block_insts (blocks_of (pushed F BB s)) B = None.
Proof.
  intros -> Hw Hne H. rewrite blocks_of_pushed by exact Hw.
  rewrite block_insts_app, H. destruct (Nat.eqb_spec (bb_id BB) B); [contradiction|reflexivity].
Qed.

Lemma absent_sub s s' B :
  structure_ok s s' -> B < next_id s ->
  block_insts (blocks_of s) B = None -> block_insts (blocks_of s') B = None.
Proof. intros [((_ & _ & _ & A & _) & _) _] HB H. now apply A. Qed.

Lemma absent_fresh s B :
  wf s -> next_id s <= B -> block_insts (blocks_of s) B = None.
Proof.
  intros [_ Hb] HB. destruct (block_insts (blocks_of s) B) eqn:E; [|reflexivity].
  assert (B < next_id s) by (apply Hb; rewrite E; eauto). lia.
Qed.

Lemma empty_pushed F BB s :
  F = fst (InsertBlock s) -> wf s -> bb_insts BB = [] ->
  block_insts (blocks_of s) (bb_id BB) = None ->
  block_insts (blocks_of (pushed F BB s)) (bb_id BB) = Some [].
Proof.
  intros -> Hw Hi H. rewrite blocks_of_pushed by exact Hw.
  rewrite block_insts_app, H, Nat.eqb_refl. now rewrite Hi.
Qed.

Lemma other_inserted op s B :
  B <> snd (InsertBlock s) ->
  block_insts (blocks_of (inserted op s)) B = block_insts (blocks_of s) B.
Proof.
  intros Hne. rewrite blocks_of_inserted, block_insts_append_inst.
  destruct (Nat.eqb_spec B (snd (InsertBlock s))); [contradiction|reflexivity].
Qed.

Lemma lowered_invariants e s val s1 :
  Codegen e s = Done (Some val) s1 -> distinct_names e = true ->
  (forall x, resolve s1 x = resolve s x)
  /\ (handles_allocated s -> handles_allocated s1)
  /\ (injective_scope s -> injective_scope s1).
Proof.
  intros H Hd. pose proof (distinct_names_restores e Hd _ _ _ H) as R.
  split; [exact R|]. split.
  - apply handles_allocated_provenance. eapply traced_Codegen; eauto.
  - now apply injective_scope_equiv.
Qed.

Lemma sem_Number ext fsem s env v : sem ext fsem s s env env (ConstantFP v) v [].
Proof.
  intros Fn m callers tr fr Him Hc Hp Hb. exists 0, fr. rewrite app_nil_r.
  repeat (split; [first [reflexivity|assumption]|]). reflexivity.
Qed.

(** An instruction that computes a register. *)
Lemma sem_register ext fsem op s env v :
  non_alloca op ->
  (forall m callers tr fr rest,
     fr_code fr = mkInst (next_id s) op :: rest -> bound_in s env (fr_mem fr) ->
     step m ext (fr :: callers) tr
     = Some (Running (set_reg fr (next_id s) (RFloat v) rest :: callers) tr)) ->
  sem ext fsem s (inserted op s) env env (InstResult (next_id s)) v [].
Proof.
  intros Hop Hstep Fn m callers tr fr Him Hc Hp Hb.
  destruct (pos_inserted op s Fn m fr Hop Hc Hp) as (rest & Hcode & Hpos).
  exists 1, (set_reg fr (next_id s) (RFloat v) rest). rewrite app_nil_r.
  cbn [steps]. rewrite (Hstep m callers tr fr rest Hcode Hb).
  split; [reflexivity|]. split; [apply Hpos; reflexivity|].
  split; [unfold eval_float, eval; cbn; now rewrite lookup_insert_eq|].
  split; [exact Hb|]. split; [reflexivity|]. split; [reflexivity|]. split.
  - intros id Hid. cbn. apply lookup_insert_ne. lia.
  - reflexivity.
Qed.

(** Running two pieces of code one after the other, the second computing
    from the value of the first. *)
Lemma sem_seq ext fsem s s1 s2 env env1 env2 val1 v1 val2 v2 t1 t2 :
  extends s1 s2 -> next_id s <= next_id s1 ->
  (forall x, resolve s1 x = resolve s x) ->
  val_below (next_id s1) val1 ->
  sem ext fsem s s1 env env1 val1 v1 t1 -> sem ext fsem s1 s2 env1 env2 val2 v2 t2 ->
  forall Fn m callers tr fr,
    implements m ext fsem ->
    contains s2 Fn m -> pos s Fn fr -> bound_in s env (fr_mem fr) ->
    exists k fr',
      steps k m ext (Running (fr :: callers) tr)
      = Some (Running (fr' :: callers) (tr ++ (t1 ++ t2)))
      /\ pos s2 Fn fr' /\ eval_float fr' val1 = Some v1 /\ eval_float fr' val2 = Some v2
      /\ bound_in s env2 (fr_mem fr')
      /\ preserved s fr fr'.
Proof.
  intros He Hn Hr Hv H1 H2 Fn m callers tr fr Him Hc Hp Hb.
  destruct (H1 Fn m callers tr fr Him (contains_ext _ _ _ _ He Hc) Hp Hb)
    as (k1 & fr1 & S1 & P1 & V1 & B1 & A1 & D1 & R1 & M1).
  apply (bound_in_equiv s s1) in B1; [|exact Hr].
  destruct (H2 Fn m callers (tr ++ t1) fr1 Him Hc P1 B1)
    as (k2 & fr2 & S2 & P2 & V2 & B2 & A2 & D2 & R2 & M2).
  exists (k1 + k2), fr2. rewrite app_assoc.
  split; [eapply steps_app; eauto|]. split; [exact P2|].
  split; [rewrite (eval_float_regs (next_id s1) fr1 fr2); auto|].
  split; [exact V2|].
  split; [eapply bound_in_equiv; [|exact B2]; intros x; now rewrite Hr|].
  split; [congruence|]. split; [congruence|]. split.
  - intros id Hid. rewrite R2 by lia. now apply R1.
  - intros h Hh Hx. rewrite M2; [now apply M1|lia|].
    intros x. rewrite Hr. apply Hx.
Qed.


Lemma compiles_Number ext fsem v env :
  compiles ext fsem (NumberExprAST v) env env v [].
Proof.
  intros s val s' Hw Hi Ha H. inversion H; subst. apply sem_Number.
Qed.

Lemma compiles_Variable ext fsem x env f :
  env !! x = Some f -> compiles ext fsem (VariableExprAST x) env env f [].
Proof.
  intros EN s val s' Hw Hi Ha H.
  apply Variable_success in H as (h & Hh & -> & ->).
  apply sem_register; [exact I|].
  intros m callers tr fr rest Hcode Hb.
  destruct (Hb _ _ EN) as (h' & Hh' & Hm).
  assert (h' = h) by congruence. subst h'.
  exact (step_Load m ext fr callers tr _ rest h f Hcode eq_refl Hm).
Qed.

Lemma compiles_assign ext fsem x RHS env env1 v old t :
  distinct_names RHS = true ->
  compiles ext fsem RHS env env1 v t -> env1 !! x = Some old ->
  compiles ext fsem (BinaryExprAST binary_eq (VariableExprAST x) RHS)
           env (<[x := v]> env1) v t.
Proof.
  intros Hdn IH EN s val s' Hw Hi Ha H.
  apply Assign_success in H as (s1 & h & E1 & Hh1 & ->).
  pose proof (IH _ _ _ Hw Hi Ha E1) as S1.
  destruct (lowered_invariants _ _ _ _ E1 Hdn) as (R1 & _ & _).
  destruct (Codegen_structure _ _ _ _ E1 Hw) as [St1 V1].
  pose proof (structure_ok_wf _ _ St1) as W1.
  assert (Hh : resolve s x = Some h) by (now rewrite <- R1).
  assert (X2 : extends s1 (inserted (Store val h) s1)) by now apply ext_inserted.
  intros Fn m callers tr fr Him Hc Hp Hb.
  destruct (S1 Fn m callers tr fr Him (contains_ext _ _ _ _ X2 Hc) Hp Hb)
    as (k1 & fr1 & St & P1 & Ev1 & B1 & A1 & D1 & G1 & M1).
  destruct (pos_inserted (Store val h) s1 Fn m fr1 I Hc P1) as (rest & Hcode & Hpos).
  exists (k1 + 1), (set_mem fr1 h v rest).
  split.
  { eapply steps_app; [exact St|]. cbn [steps].
    now rewrite (step_Store m ext fr1 callers (tr ++ t) _ rest val h v Hcode eq_refl Ev1). }
  split; [apply Hpos; reflexivity|]. split; [exact Ev1|].
  split.
  { intros y f Hy. destruct (decide (y = x)) as [->|Hxn].
    - rewrite lookup_insert_eq in Hy. inversion Hy; subst f.
      exists h. split; [exact Hh|]. cbn. apply lookup_insert_eq.
    - rewrite lookup_insert_ne in Hy by congruence.
      destruct (B1 _ _ Hy) as (h' & Hh' & Hm). exists h'. split; [exact Hh'|].
      cbn. rewrite lookup_insert_ne; [exact Hm|].
      intros <-. apply Hxn. eapply Hi; eauto. }
  split; [exact A1|]. split; [exact D1|]. split; [exact G1|].
  intros h0 Hh0 Hx. cbn. rewrite lookup_insert_ne; [now apply M1|].
  intros <-. now apply (Hx x).
Qed.

Lemma compiles_builtin ext fsem Op LHS RHS env env1 env2 l r v t1 t2 :
  Op <> binary_eq ->
  distinct_names LHS = true -> distinct_names RHS = true ->
  compiles ext fsem LHS env env1 l t1 -> compiles ext fsem RHS env1 env2 r t2 ->
  binop Op l r = Some v ->
  compiles ext fsem (BinaryExprAST Op LHS RHS) env env2 v (t1 ++ t2).
Proof.
  intros Hne HdL HdR IHL IHR EO s val s' Hw Hi Ha H.
  apply (Binary_success _ _ _ _ _ _ Hne) in H as (L & s1 & R & s2 & E1 & E2 & Hop).
  pose proof (IHL _ _ _ Hw Hi Ha E1) as S1.
  destruct (lowered_invariants _ _ _ _ E1 HdL) as (R1 & Ha1 & Hi1).
  destruct (Codegen_structure _ _ _ _ E1 Hw) as [St1 V1].
  pose proof (structure_ok_wf _ _ St1) as W1.
  pose proof (IHR _ _ _ W1 (Hi1 Hi) (Ha1 Ha) E2) as S2.
  destruct (Codegen_structure _ _ _ _ E2 W1) as [St2 V2].
  pose proof (structure_ok_wf _ _ St2) as W2.
  assert (N1 : next_id s <= next_id s1) by (eapply structure_ok_next_id; eauto).
  assert (N2 : next_id s1 <= next_id s2) by (eapply structure_ok_next_id; eauto).
  assert (X2 : extends s1 s2) by apply St2.
  pose proof (sem_seq _ _ _ _ _ _ _ _ _ _ _ _ _ _ X2 N1 R1 V1 S1 S2) as S12.
  unfold binop in EO.
  assert (Harith : forall op fop,
    non_alloca (op L R) ->
    (forall m fr callers tr i code a b,
       fr_code fr = i :: code -> i_op i = op L R ->
       eval_float fr L = Some a -> eval_float fr R = Some b ->
       step m ext (fr :: callers) tr
       = Some (Running (set_reg fr (i_id i) (RFloat (fop a b)) code :: callers) tr)) ->
    v = fop l r ->
    sem ext fsem s (inserted (op L R) s2) env env2 (InstResult (next_id s2)) v
        (t1 ++ t2)).
  { intros op fop Hna Hstep ->.
    assert (X3 : extends s2 (inserted (op L R) s2)) by now apply ext_inserted.
    intros Fn m callers tr fr Him Hc Hp Hb.
    destruct (S12 Fn m callers tr fr Him (contains_ext _ _ _ _ X3 Hc) Hp Hb)
      as (k & fr2 & St & P2 & EL & ER & B2 & A2 & D2 & G2 & M2).
    destruct (pos_inserted (op L R) s2 Fn m fr2 Hna Hc P2) as (rest & Hcode & Hpos).
    exists (k + 1), (set_reg fr2 (next_id s2) (RFloat (fop l r)) rest).
    split.
    { eapply steps_app; [exact St|]. cbn [steps].
      now rewrite (Hstep m fr2 callers (tr ++ (t1 ++ t2)) _ rest l r Hcode eq_refl EL ER). }
    split; [apply Hpos; reflexivity|].
    split; [unfold eval_float, eval; cbn; now rewrite lookup_insert_eq|].
    split; [exact B2|]. split; [exact A2|]. split; [exact D2|]. split.
    - intros id Hid. cbn. rewrite lookup_insert_ne by lia. now apply G2.
    - exact M2. }
  destruct Hop as [(op & -> & -> & _ & Hadd & Hsub & Hmul & Hlt)|(-> & -> & ->)].
  - destruct (decide (Op = "+"%char)) as [EOp|];
      [|destruct (decide (Op = "-"%char)) as [EOp|];
        [|destruct (decide (Op = "*"%char)) as [EOp|];
          [|destruct (decide (Op = "<"%char)); [contradiction|discriminate]]]];
      inversion EO as [EO']; clear EO; try subst v.
    + rewrite (Hadd EOp). apply (Harith FAdd PrimFloat.add I); [|reflexivity].
      intros; eapply step_FAdd; eauto.
    + rewrite (Hsub EOp). apply (Harith FSub PrimFloat.sub I); [|reflexivity].
      intros; eapply step_FSub; eauto.
    + rewrite (Hmul EOp). apply (Harith FMul PrimFloat.mul I); [|reflexivity].
      intros; eapply step_FMul; eauto.
  - cbn in EO. inversion EO as [EO']; clear EO; try subst v.
    set (s3 := inserted (FCmpULT L R) s2).
    assert (X3 : extends s2 s3) by now apply ext_inserted.
    assert (X4 : extends s3 (inserted (UIToFP (InstResult (next_id s2))) s3))
      by now apply ext_inserted.
    intros Fn m callers tr fr Him Hc Hp Hb.
    pose proof (contains_ext _ _ _ _ X4 Hc) as Hc3.
    destruct (S12 Fn m callers tr fr Him (contains_ext _ _ _ _ X3 Hc3) Hp Hb)
      as (k & fr2 & St & P2 & EL & ER & B2 & A2 & D2 & G2 & M2).
    destruct (pos_inserted (FCmpULT L R) s2 Fn m fr2 I Hc3 P2) as (rest & Hcode & Hpos).
    set (fr3 := set_reg fr2 (next_id s2) (RBool (fcmp_ult l r)) rest).
    assert (P3 : pos s3 Fn fr3) by (apply Hpos; reflexivity).
    destruct (pos_inserted (UIToFP (InstResult (next_id s2))) s3 Fn m fr3 I Hc P3)
      as (rest' & Hcode' & Hpos').
    exists (k + 2),
      (set_reg fr3 (S (next_id s2))
         (RFloat (if fcmp_ult l r then 1%float else 0%float)) rest').
    split.
    { eapply steps_app; [exact St|]. cbn [steps].
      rewrite (step_FCmpULT m ext fr2 callers (tr ++ (t1 ++ t2)) _ rest L R l r
                 Hcode eq_refl EL ER).
      change (set_reg fr2 _ _ _) with fr3.
      assert (EB : eval_bool fr3 (InstResult (next_id s2)) = Some (fcmp_ult l r))
        by (unfold eval_bool, eval, fr3; cbn; now rewrite lookup_insert_eq).
      now rewrite (step_UIToFP m ext fr3 callers (tr ++ (t1 ++ t2)) _ rest' _ _
                     Hcode' eq_refl EB). }
    split; [apply Hpos'; reflexivity|].
    split; [unfold eval_float, eval; cbn; now rewrite lookup_insert_eq|].
    split; [exact B2|]. split; [exact A2|]. split; [exact D2|]. split.
    + intros id Hid. unfold fr3. cbn. rewrite !lookup_insert_ne by lia. now apply G2.
    + exact M2.
Qed.

Lemma eval_same fr fr' v :
  fr_regs fr' = fr_regs fr -> fr_args fr' = fr_args fr -> eval fr' v = eval fr v.
Proof. intros E1 E2. unfold eval. destruct v; now rewrite ?E1, ?E2. Qed.

Lemma eval_float_same fr fr' v :
  fr_regs fr' = fr_regs fr -> fr_args fr' = fr_args fr ->
  eval_float fr' v = eval_float fr v.
Proof. intros E1 E2. unfold eval_float. now rewrite (eval_same fr fr'). Qed.

Lemma steps_one m ext st tr c :
  step m ext st tr = Some c -> steps 1 m ext (Running st tr) = Some c.
Proof. intros H. cbn [steps]. now rewrite H. Qed.

Lemma handles_allocated_mono s s' :
  (forall x, resolve s' x = resolve s x) -> next_id s <= next_id s' ->
  handles_allocated s -> handles_allocated s'.
Proof. intros R N Ha x h Hx. rewrite R in Hx. apply Ha in Hx. lia. Qed.

Lemma ext0_inserted op s : non_alloca op -> wf s -> ext_from 0 s (inserted op s).
Proof. intros Hop Hw. now apply grown_inserted. Qed.

Lemma ext0_pushed F BB s : F = fst (InsertBlock s) -> wf s -> ext_from 0 s (pushed F BB s).
Proof. intros -> Hw. apply ext_pushed; [exact Hw|lia]. Qed.

Lemma ext0_moved F B s : F = fst (InsertBlock s) -> ext_from 0 s (moved F B s).
Proof. intros ->. apply ext_moved. Qed.

Lemma ext0_sub s s' : structure_ok s s' -> ext_from 0 s s'.
Proof. intros [(E & _) _]. eapply ext_from_weaken; [|exact E]. lia. Qed.

Lemma wf_pushed_eq F BB s :
  F = fst (InsertBlock s) -> wf s -> bb_id BB < next_id s -> wf (pushed F BB s).
Proof. intros ->. apply wf_pushed. Qed.

Lemma wf_moved_eq F B s : F = fst (InsertBlock s) -> wf s -> wf (moved F B s).
Proof. intros ->. apply wf_moved. Qed.

Lemma absent_moved F B0 s B :
  F = fst (InsertBlock s) ->
  block_insts (blocks_of s) B = None -> block_insts (blocks_of (moved F B0 s)) B = None.
Proof. intros HF H. now rewrite blocks_of_moved_eq. Qed.

Lemma preserved_refl s fr : preserved s fr fr.
Proof. repeat split. Qed.

Lemma preserved_trans s fr1 fr2 fr3 :
  preserved s fr1 fr2 -> preserved s fr2 fr3 -> preserved s fr1 fr3.
Proof.
  intros (A1 & D1 & R1 & M1) (A2 & D2 & R2 & M2).
  split; [congruence|]. split; [congruence|]. split.
  - intros id Hid. rewrite R2 by exact Hid. now apply R1.
  - intros h Hh Hx. rewrite M2 by assumption. now apply M1.
Qed.

Lemma preserved_weaken s s' fr fr' :
  next_id s <= next_id s' ->
  (forall x h, resolve s' x = Some h -> h < next_id s ->
               exists y, resolve s y = Some h) ->
  preserved s' fr fr' -> preserved s fr fr'.
Proof.
  intros Hn Hr (A & D & R & M). split; [exact A|]. split; [exact D|]. split.
  - intros id Hid. apply R. lia.
  - intros h Hh Hx. apply M; [lia|]. intros x E.
    destruct (Hr _ _ E Hh) as (y & Hy). now apply (Hx y).
Qed.

Lemma preserved_equiv s s' fr fr' :
  next_id s <= next_id s' -> (forall x, resolve s' x = resolve s x) ->
  preserved s' fr fr' -> preserved s fr fr'.
Proof.
  intros Hn Hr. apply preserved_weaken; [exact Hn|].
  intros x h E _. exists x. now rewrite <- Hr.
Qed.

Lemma preserved_set_reg s fr id v code :
  next_id s <= id -> preserved s fr (set_reg fr id v code).
Proof.
  intros Hid. split; [reflexivity|]. split; [reflexivity|]. split; [|reflexivity].
  intros i Hi. cbn. apply lookup_insert_ne. lia.
Qed.

Lemma preserved_set_mem s fr h v code :
  (next_id s <= h \/ exists x, resolve s x = Some h) ->
  preserved s fr (set_mem fr h v code).
Proof.
  intros Hh. split; [reflexivity|]. split; [reflexivity|]. split; [reflexivity|].
  intros h' Hh' Hx. cbn. apply lookup_insert_ne. intros <-.
  destruct Hh as [?|(x & E)]; [lia|now apply (Hx x)].
Qed.

Lemma preserved_same s fr fr' :
  fr_args fr' = fr_args fr -> fr_dest fr' = fr_dest fr ->
  fr_regs fr' = fr_regs fr -> fr_mem fr' = fr_mem fr -> preserved s fr fr'.
Proof.
  intros A D R M. split; [exact A|]. split; [exact D|].
  split; intros; [now rewrite R|now rewrite M].
Qed.

Ltac ext_chain :=
  repeat first [eassumption | eapply ext_from_trans; [eassumption|]].

Lemma compiles_If ext fsem Cond Then Else env env1 env2 c v t1 t2 :
  distinct_names Cond = true -> distinct_names Then = true ->
  compiles ext fsem Cond env env1 c t1 ->
  (if fcmp_one c 0%float
   then compiles ext fsem Then env1 env2 v t2
   else compiles ext fsem Else env1 env2 v t2) ->
  compiles ext fsem (IfExprAST Cond Then Else) env env2 v (t1 ++ t2).
Proof.
  intros HdC HdT IHc IHb s val s' Hw Hi Ha H.
  rewrite If_eq in H.
  destruct (Codegen Cond s) as [[cv|] s1|] eqn:E1; try discriminate.
  pose proof (IHc _ _ _ Hw Hi Ha E1) as S1.
  destruct (lowered_invariants _ _ _ _ E1 HdC) as (R1 & Ha1 & Hi1).
  specialize (Ha1 Ha). specialize (Hi1 Hi).
  destruct (Codegen_structure _ _ _ _ E1 Hw) as [St1 V1].
  pose proof (structure_ok_wf _ _ St1) as W1.
  pose proof (structure_ok_next_id _ _ St1) as N1.
  cbv zeta in H.
  set (F := fst (InsertBlock s1)) in *.
  set (s2 := inserted (FCmpONE cv (ConstantFP 0%float)) s1) in *.
  set (t := next_id s2) in *.
  set (s3 := pushed F (mkBB t "then" []) (created s2)) in *.
  set (s5 := created (created s3)) in *.
  set (s6 := inserted (CondBr (InstResult (next_id s1)) t (S t)) s5) in *.
  set (s7 := moved F t s6) in *.
  destruct (Codegen Then s7) as [[tv|] s8|] eqn:E2; try discriminate.
  set (s9 := inserted (Br (S (S t))) s8) in *.
  set (s10 := pushed F (mkBB (S t) "else" []) s9) in *.
  set (s11 := moved F (S t) s10) in *.
  destruct (Codegen Else s11) as [[ev|] s12|] eqn:E3; try discriminate.
  set (s13 := inserted (Br (S (S t))) s12) in *.
  set (s14 := pushed F (mkBB (S (S t)) "ifcont" []) s13) in *.
  set (s15 := moved F (S (S t)) s14) in *.
  set (phi := PHI [(tv, snd (InsertBlock s8)); (ev, snd (InsertBlock s12))]) in *.
  inversion H; subst val s'; clear H.
  (* the builder's states are well formed *)
  assert (W2 : wf s2) by now apply wf_inserted.
  assert (W3 : wf s3) by (apply wf_pushed_eq; [reflexivity|now apply wf_created|idlia]).
  assert (W5 : wf s5) by now do 2 apply wf_created.
  assert (W6 : wf s6) by now apply wf_inserted.
  assert (W7 : wf s7) by (apply wf_moved_eq; [reflexivity|exact W6]).
  destruct (Codegen_structure _ _ _ _ E2 W7) as [St8 V8].
  destruct (lowered_invariants _ _ _ _ E2 HdT) as (R8 & _ & _).
  pose proof (structure_ok_wf _ _ St8) as W8.
  pose proof (structure_ok_next_id _ _ St8) as N8.
  assert (F8 : F = fst (InsertBlock s8)) by (symmetry; exact (structure_ok_fst _ _ St8)).
  assert (W9 : wf s9) by now apply wf_inserted.
  assert (W10 : wf s10) by (apply wf_pushed_eq; [exact F8|exact W9|idlia]).
  assert (W11 : wf s11) by (apply wf_moved_eq; [exact F8|exact W10]).
  destruct (Codegen_structure _ _ _ _ E3 W11) as [St12 V12].
  pose proof (structure_ok_wf _ _ St12) as W12.
  pose proof (structure_ok_next_id _ _ St12) as N12.
  assert (F12 : F = fst (InsertBlock s12)) by (symmetry; exact (structure_ok_fst _ _ St12)).
  assert (W13 : wf s13) by now apply wf_inserted.
  assert (W14 : wf s14) by (apply wf_pushed_eq; [exact F12|exact W13|idlia]).
  assert (W15 : wf s15) by (apply wf_moved_eq; [exact F12|exact W14]).
  (* the function only grows *)
  assert (C12 : ext_from 0 s1 s2) by now apply ext0_inserted.
  assert (C25 : ext_from 0 s2 s5).
  { eapply ext_from_trans; [apply ext_created|].
    eapply ext_from_trans; [apply (ext0_pushed F); [reflexivity|now apply wf_created]|].
    eapply ext_from_trans; apply ext_created. }
  assert (C56 : ext_from 0 s5 s6) by now apply ext0_inserted.
  assert (C67 : ext_from 0 s6 s7) by now apply ext0_moved.
  assert (C78 : ext_from 0 s7 s8) by now apply ext0_sub.
  assert (C89 : ext_from 0 s8 s9) by now apply ext0_inserted.
  assert (C9a : ext_from 0 s9 s10) by now apply ext0_pushed.
  assert (Cab : ext_from 0 s10 s11) by now apply ext0_moved.
  assert (Cbc : ext_from 0 s11 s12) by now apply ext0_sub.
  assert (Ccd : ext_from 0 s12 s13) by now apply ext0_inserted.
  assert (Cde : ext_from 0 s13 s14) by now apply ext0_pushed.
  assert (Cef : ext_from 0 s14 s15) by now apply ext0_moved.
  assert (Cfg : ext_from 0 s15 (inserted phi s15)) by now apply ext0_inserted.
  intros Fn m callers tr fr Him Hc Hp Hb.
  (* the blocks of the branches are empty when the builder enters them *)
  assert (Hb1 : snd (InsertBlock s1) < next_id s1).
  { apply W1. apply St1. eapply pos_inblock; eauto. }
  assert (At2 : forall B, t <= B -> block_insts (blocks_of s2) B = None)
    by (intros B HB; now apply absent_fresh).
  assert (T3 : block_insts (blocks_of s3) t = Some []).
  { apply (empty_pushed F (mkBB t "then" [])); [reflexivity|now apply wf_created|reflexivity|].
    apply At2. idlia. }
  assert (A3 : forall B, t < B -> block_insts (blocks_of s3) B = None).
  { intros B HB. apply absent_pushed; [reflexivity|now apply wf_created|idlia|].
    apply At2. idlia. }
  assert (T7 : block_insts (blocks_of s7) t = Some []).
  { unfold s7. rewrite blocks_of_moved_eq by reflexivity.
    unfold s6. rewrite other_inserted; [exact T3|]. idlia. }
  assert (A7 : forall B, t < B -> block_insts (blocks_of s7) B = None).
  { intros B HB. apply absent_moved; [reflexivity|]. apply absent_inserted.
    now apply A3. }
  assert (A9 : forall B, t < B -> B < t + 4 -> block_insts (blocks_of s9) B = None).
  { intros B HB HB'. apply absent_inserted.
    apply (absent_sub _ _ _ St8); [idlia|now apply A7]. }
  assert (T11 : block_insts (blocks_of s11) (S t) = Some []).
  { unfold s11. rewrite blocks_of_moved_eq by exact F8.
    apply (empty_pushed F (mkBB (S t) "else" [])); [exact F8|exact W9|reflexivity|].
    apply A9; cbn; lia. }
  assert (A11 : block_insts (blocks_of s11) (S (S t)) = None).
  { apply absent_moved; [exact F8|].
    apply absent_pushed; [exact F8|exact W9|cbn; lia|]. apply A9; cbn; lia. }
  assert (T15 : block_insts (blocks_of s15) (S (S t)) = Some []).
  { unfold s15. rewrite blocks_of_moved_eq by exact F12.
    apply (empty_pushed F (mkBB (S (S t)) "ifcont" []));
      [exact F12|exact W13|reflexivity|].
    apply absent_inserted. apply (absent_sub _ _ _ St12); [idlia|exact A11]. }
  (* the condition *)
  assert (Hc15 : contains s15 Fn m) by (eapply contains_ext_from; [exact Cfg|exact Hc]).
  assert (Hc1 : contains s1 Fn m) by (eapply contains_ext_from; [|exact Hc15]; ext_chain).
  destruct (S1 Fn m callers tr fr Him Hc1 Hp Hb)
    as (k1 & fr1 & X1 & P1 & Ev1 & B1 & K1).
  rewrite app_assoc.
  set (tr1 := tr ++ t1) in *. set (tr2 := tr1 ++ t2).
  assert (Hc2 : contains s2 Fn m) by (eapply contains_ext_from; [|exact Hc15]; ext_chain).
  destruct (pos_inserted (FCmpONE cv (ConstantFP 0%float)) s1 Fn m fr1 I Hc2 P1) as (rest2 & Hcode2 & Hpos2).
  set (fr2 := set_reg fr1 (next_id s1) (RBool (fcmp_one c 0%float)) rest2).
  assert (X2 : steps 1 m ext (Running (fr1 :: callers) tr1)
               = Some (Running (fr2 :: callers) tr1)).
  { apply steps_one.
    exact (step_FCmpONE m ext fr1 callers tr1 _ rest2 cv _ c _ Hcode2 eq_refl Ev1 eq_refl). }
  assert (P5 : pos s5 Fn fr2).
  { do 2 apply pos_created. apply pos_pushed; [reflexivity|now apply wf_created|].
    apply pos_created. apply Hpos2; reflexivity. }
  assert (Hc6 : contains s6 Fn m) by (eapply contains_ext_from; [|exact Hc15]; ext_chain).
  destruct (pos_inserted (CondBr (InstResult (next_id s1)) t (S t)) s5 Fn m fr2 I Hc6 P5) as (rest6 & Hcode6 & _).
  assert (Eb2 : eval_bool fr2 (InstResult (next_id s1)) = Some (fcmp_one c 0%float))
    by (unfold eval_bool, eval, fr2; cbn; now rewrite lookup_insert_eq).
  assert (K2 : preserved s fr fr2).
  { eapply preserved_trans; [exact K1|]. now apply preserved_set_reg. }
  assert (B2 : bound_in s7 env1 (fr_mem fr2)).
  { apply (bound_in_equiv s s7); [|exact B1]. intros x. exact (R1 x). }
  assert (Hfn2 : fr_fn fr2 = Fn) by (destruct P1 as (Hfn & _); exact Hfn).
  destruct (fcmp_one c 0%float) eqn:Ec.
  - (* the first branch *)
    assert (Hc7 : contains s7 Fn m) by (eapply contains_ext_from; [|exact Hc15]; ext_chain).
    destruct (jump_lands s7 Fn fr2 t [] m ext callers tr1 Hc7 eq_refl T7 eq_refl Hfn2)
      as (frj & k7 & fr7 & J7 & X7 & P7 & Pv7 & Rg7 & Mm7 & Ar7 & DAr7).
    assert (X6 : steps 1 m ext (Running (fr2 :: callers) tr1)
                 = Some (Running (frj :: callers) tr1)).
    { apply steps_one.
      exact (step_CondBr m ext fr2 callers tr1 _ rest6 _ t (S t) true frj
               Hcode6 eq_refl Eb2 J7). }
    assert (Hi7 : injective_scope s7)
      by (apply (injective_scope_equiv s1); [intros x; reflexivity|exact Hi1]).
    assert (Ha7 : handles_allocated s7)
      by (apply (handles_allocated_mono s1); [intros x; reflexivity|idlia|exact Ha1]).
    pose proof (IHb _ _ _ W7 Hi7 Ha7 E2) as S8.
    assert (Hc8 : contains s8 Fn m) by (eapply contains_ext_from; [|exact Hc15]; ext_chain).
    rewrite <- Mm7 in B2.
    destruct (S8 Fn m callers tr1 fr7 Him Hc8 P7 B2)
      as (k8 & fr8 & X8 & P8 & Ev8 & B8 & K8).
    fold tr2 in X8.
    assert (Hc9 : contains s9 Fn m) by (eapply contains_ext_from; [|exact Hc15]; ext_chain).
    destruct (pos_inserted (Br (S (S t))) s8 Fn m fr8 I Hc9 P8) as (rest9 & Hcode9 & _).
    assert (Hfn8 : fr_fn fr8 = Fn) by (destruct P8 as (Hfn & _); exact Hfn).
    destruct (jump_lands s15 Fn fr8 (S (S t)) [] m ext callers tr2 Hc15 eq_refl T15
                eq_refl Hfn8)
      as (frk & k15 & fr15 & J15 & X15 & P15 & Pv15 & Rg15 & Mm15 & Ar15 & DAr15).
    assert (X9 : steps 1 m ext (Running (fr8 :: callers) tr2)
                 = Some (Running (frk :: callers) tr2)).
    { apply steps_one.
      exact (step_Br m ext fr8 callers tr2 _ rest9 _ frk Hcode9 eq_refl J15). }
    destruct (pos_inserted phi s15 Fn m fr15 I Hc P15) as (rest16 & Hcode16 & Hpos16).
    set (fr16 := set_reg fr15 (next_id s15) (RFloat v) rest16).
    assert (X16 : steps 1 m ext (Running (fr15 :: callers) tr2)
                  = Some (Running (fr16 :: callers) tr2)).
    { apply steps_one.
      apply (step_PHI m ext fr15 callers tr2 _ rest16 _ tv (snd (InsertBlock s8)) _
               Hcode16 eq_refl).
      - cbn [find snd]. rewrite Pv15.
        destruct P8 as (_ & Hcur & _). rewrite Hcur. now rewrite Nat.eqb_refl.
      - apply eval_float_eval. now rewrite (eval_float_same fr8 fr15). }
    exists (k1 + (1 + (1 + (k7 + (k8 + (1 + (k15 + 1))))))), fr16.
    split.
    { eapply steps_app; [exact X1|]. eapply steps_app; [exact X2|].
      eapply steps_app; [exact X6|]. eapply steps_app; [exact X7|].
      eapply steps_app; [exact X8|]. eapply steps_app; [exact X9|].
      eapply steps_app; [exact X15|exact X16]. }
    split; [apply Hpos16; reflexivity|].
    split; [unfold eval_float, eval, fr16; cbn; now rewrite lookup_insert_eq|].
    split.
    { apply (bound_in_equiv s7 s); [intros x; symmetry; exact (R1 x)|].
      unfold fr16. cbn. now rewrite Mm15. }
    eapply preserved_trans; [exact K2|].
    eapply preserved_trans; [apply (preserved_same s fr2 fr7); assumption|].
    eapply preserved_trans.
    { apply (preserved_equiv s s7); [idlia|intros x; exact (R1 x)|exact K8]. }
    eapply preserved_trans; [apply (preserved_same s fr8 fr15); assumption|].
    apply preserved_set_reg. idlia.
  - (* the second branch *)
    assert (Hc11 : contains s11 Fn m) by (eapply contains_ext_from; [|exact Hc15]; ext_chain).
    destruct (jump_lands s11 Fn fr2 (S t) [] m ext callers tr1 Hc11 eq_refl T11 eq_refl Hfn2)
      as (frj & k11 & fr11 & J11 & X11 & P11 & Pv11 & Rg11 & Mm11 & Ar11 & DAr11).
    assert (X6 : steps 1 m ext (Running (fr2 :: callers) tr1)
                 = Some (Running (frj :: callers) tr1)).
    { apply steps_one.
      exact (step_CondBr m ext fr2 callers tr1 _ rest6 _ t (S t) false frj
               Hcode6 eq_refl Eb2 J11). }
    assert (R11 : forall x, resolve s11 x = resolve s1 x) by (intros x; exact (R8 x)).
    assert (Hi11 : injective_scope s11)
      by (apply (injective_scope_equiv s1); [exact R11|exact Hi1]).
    assert (Ha11 : handles_allocated s11)
      by (apply (handles_allocated_mono s1); [exact R11|idlia|exact Ha1]).
    pose proof (IHb _ _ _ W11 Hi11 Ha11 E3) as S12.
    assert (Hc12 : contains s12 Fn m) by (eapply contains_ext_from; [|exact Hc15]; ext_chain).
    assert (B11 : bound_in s11 env1 (fr_mem fr11)).
    { rewrite Mm11. apply (bound_in_equiv s s11); [|exact B1].
      intros x. rewrite R11. apply R1. }
    destruct (S12 Fn m callers tr1 fr11 Him Hc12 P11 B11)
      as (k12 & fr12 & X12 & P12 & Ev12 & B12 & K12).
    fold tr2 in X12.
    assert (Hc13 : contains s13 Fn m) by (eapply contains_ext_from; [|exact Hc15]; ext_chain).
    destruct (pos_inserted (Br (S (S t))) s12 Fn m fr12 I Hc13 P12)
      as (rest13 & Hcode13 & _).
    assert (Hfn12 : fr_fn fr12 = Fn) by (destruct P12 as (Hfn & _); exact Hfn).
    destruct (jump_lands s15 Fn fr12 (S (S t)) [] m ext callers tr2 Hc15 eq_refl T15
                eq_refl Hfn12)
      as (frk & k15 & fr15 & J15 & X15 & P15 & Pv15 & Rg15 & Mm15 & Ar15 & DAr15).
    assert (X13 : steps 1 m ext (Running (fr12 :: callers) tr2)
                  = Some (Running (frk :: callers) tr2)).
    { apply steps_one.
      exact (step_Br m ext fr12 callers tr2 _ rest13 _ frk Hcode13 eq_refl J15). }
    destruct (pos_inserted phi s15 Fn m fr15 I Hc P15) as (rest16 & Hcode16 & Hpos16).
    set (fr16 := set_reg fr15 (next_id s15) (RFloat v) rest16).
    (* the two branches end in different blocks *)
    assert (Hne : snd (InsertBlock s8) <> snd (InsertBlock s12)).
    { assert (I7 : inblock s7) by (unfold inblock; cbn [s7 moved InsertBlock set_InsertBlock snd];
                                    change (is_Some (block_insts (blocks_of s7) t));
                                    rewrite T7; eauto).
      assert (L8 : snd (InsertBlock s8) < next_id s8) by (apply W8; now apply St8).
      destruct St8 as [(_ & _ & D8) _]. destruct St12 as [(_ & _ & D12) _].
      idlia. }
    assert (X16 : steps 1 m ext (Running (fr15 :: callers) tr2)
                  = Some (Running (fr16 :: callers) tr2)).
    { apply steps_one.
      apply (step_PHI m ext fr15 callers tr2 _ rest16 _ ev (snd (InsertBlock s12)) _
               Hcode16 eq_refl).
      - cbn [find snd]. rewrite Pv15.
        destruct P12 as (_ & Hcur & _). rewrite Hcur.
        destruct (Nat.eqb_spec (snd (InsertBlock s8)) (snd (InsertBlock s12)));
          [contradiction|]. now rewrite Nat.eqb_refl.
      - apply eval_float_eval. now rewrite (eval_float_same fr12 fr15). }
    exists (k1 + (1 + (1 + (k11 + (k12 + (1 + (k15 + 1))))))), fr16.
    split.
    { eapply steps_app; [exact X1|]. eapply steps_app; [exact X2|].
      eapply steps_app; [exact X6|]. eapply steps_app; [exact X11|].
      eapply steps_app; [exact X12|]. eapply steps_app; [exact X13|].
      eapply steps_app; [exact X15|exact X16]. }
    split; [apply Hpos16; reflexivity|].
    split; [unfold eval_float, eval, fr16; cbn; now rewrite lookup_insert_eq|].
    split.
    { apply (bound_in_equiv s11 s); [intros x; rewrite R11; symmetry; apply R1|].
      unfold fr16. cbn. now rewrite Mm15. }
    eapply preserved_trans; [exact K2|].
    eapply preserved_trans; [apply (preserved_same s fr2 fr11); assumption|].
    eapply preserved_trans.
    { apply (preserved_equiv s s11); [idlia|intros x; rewrite R11; apply R1|exact K12]. }
    eapply preserved_trans; [apply (preserved_same s fr12 fr15); assumption|].
    apply preserved_set_reg. idlia.
Qed.

Lemma bound_in_bind s s' env mem x A v :
  (forall y, resolve s' y = if decide (y = x) then Some A else resolve s y) ->
  (forall y h, resolve s y = Some h -> h <> A) ->
  bound_in s env mem -> bound_in s' (<[x := v]> env) (<[A := v]> mem).
Proof.
  intros Hr Hne Hb y f Hy. rewrite Hr.
  destruct (decide (y = x)) as [->|Hyx].
  - rewrite lookup_insert_eq in Hy. inversion Hy; subst.
    exists A. split; [reflexivity|apply lookup_insert_eq].
  - rewrite lookup_insert_ne in Hy by congruence.
    destruct (Hb _ _ Hy) as (h & Hh & Hm). exists h. split; [exact Hh|].
    rewrite lookup_insert_ne; [exact Hm|]. intros E. apply (Hne _ _ Hh). now symmetry.
Qed.

Lemma bound_in_assign s env mem x A v :
  injective_scope s -> resolve s x = Some A ->
  bound_in s env mem -> bound_in s (<[x := v]> env) (<[A := v]> mem).
Proof.
  intros Hi Hx Hb y f Hy. destruct (decide (y = x)) as [->|Hyx].
  - rewrite lookup_insert_eq in Hy. inversion Hy; subst.
    exists A. split; [exact Hx|apply lookup_insert_eq].
  - rewrite lookup_insert_ne in Hy by congruence.
    destruct (Hb _ _ Hy) as (h & Hh & Hm). exists h. split; [exact Hh|].
    rewrite lookup_insert_ne; [exact Hm|]. intros <-. apply Hyx. eapply Hi; eauto.
Qed.

Lemma injective_scope_bind s s' x A :
  (forall y, resolve s' y = if decide (y = x) then Some A else resolve s y) ->
  (forall y h, resolve s y = Some h -> h <> A) ->
  injective_scope s -> injective_scope s'.
Proof.
  intros Hr Hne Hi y z h. rewrite !Hr.
  destruct (decide (y = x)) as [->|Hy], (decide (z = x)) as [->|Hz]; intros E1 E2.
  - reflexivity.
  - inversion E1; subst. exfalso. eapply Hne; eauto.
  - inversion E2; subst. exfalso. eapply Hne; eauto.
  - eapply Hi; eauto.
Qed.

Lemma handles_allocated_bind s s' x A :
  (forall y, resolve s' y = if decide (y = x) then Some A else resolve s y) ->
  A < next_id s' -> next_id s <= next_id s' ->
  handles_allocated s -> handles_allocated s'.
Proof.
  intros Hr HA Hn Ha y h. rewrite Hr. destruct (decide (y = x)) as [->|Hy].
  - intros [= <-]. exact HA.
  - intros E. apply Ha in E. lia.
Qed.

Lemma compiles_For ext fsem ev x Start End Step Body env env1 env2 sv n t1 t2 :
  (forall e a b w t, ev e a = Some (w, b, t) -> distinct_names e = true ->
                     compiles ext fsem e a b w t) ->
  distinct_names Start = true -> distinct_names End = true ->
  (forall st, Step = Some st -> distinct_names st = true) ->
  distinct_names Body = true ->
  ev Start env = Some (sv, env1, t1) ->
  iterate n ev x End Step Body (<[x := sv]> env1) = Some (env2, t2) ->
  compiles ext fsem (ForExprAST x Start End Step Body) env
           (restore_binding x (env1 !! x) env2) 0%float (t1 ++ t2).
Proof.
  intros IH HdS HdE HdSt HdB EvStart Hiter s val s' Hw Hi Ha H.
  rewrite For_eq in H. cbv zeta in H.
  set (F := fst (InsertBlock s)) in *.
  set (A := next_id s) in *.
  set (s0 := loop_entry x s) in *.
  destruct (Codegen Start s0) as [[sv'|] s1|] eqn:E1; try discriminate.
  set (s2 := inserted (Store sv' A) s1) in *.
  set (L := next_id s2) in *.
  set (s3 := pushed F (mkBB L "loop" []) (created s2)) in *.
  set (s4 := inserted (Br L) s3) in *.
  destruct (NamedValues_index x (moved F L s4)) as [OldVal s5|] eqn:E5; [|discriminate].
  set (s6 := set_NamedValues (insert x (Some A)) s5) in *.
  destruct (Codegen Body s6) as [[bv|] s7|] eqn:E7; try discriminate.
  destruct (match Step with Some Step0 => Codegen Step0 | None => _ end s7)
    as [[stv|] s8|] eqn:E8; try discriminate.
  destruct (Codegen End s8) as [[ec|] s9|] eqn:E9; try discriminate.
  set (s10 := inserted (Load A) s9) in *.
  set (s11 := inserted (FAdd (InstResult (next_id s9)) stv) s10) in *.
  set (s12 := inserted (Store (InstResult (next_id s10)) A) s11) in *.
  set (s13 := inserted (FCmpONE ec (ConstantFP 0%float)) s12) in *.
  set (Aft := next_id s13) in *.
  set (s14 := pushed F (mkBB Aft "afterloop" []) (created s13)) in *.
  set (s15 := inserted (CondBr (InstResult (next_id s12)) L Aft) s14) in *.
  set (s16 := moved F Aft s15) in *.
  inversion H; subst val s'; clear H.
  destruct (NamedValues_index_state _ _ _ _ E5) as (_ & g & -> & R5).
  set (s5 := set_NamedValues g (moved F L s4)) in *.
  (* the builder's states are well formed *)
  pose proof (structure_ok_alloca x s Hw) as St0.
  pose proof (structure_ok_wf _ _ St0) as W0.
  destruct (Codegen_structure _ _ _ _ E1 W0) as [St1 V1].
  pose proof (structure_ok_wf _ _ St1) as W1.
  pose proof (structure_ok_next_id _ _ St1) as N1.
  assert (F1 : F = fst (InsertBlock s1)) by (symmetry; exact (structure_ok_fst _ _ St1)).
  assert (W2 : wf s2) by now apply wf_inserted.
  assert (W3 : wf s3) by (apply wf_pushed_eq; [exact F1|now apply wf_created|idlia]).
  assert (W4 : wf s4) by now apply wf_inserted.
  assert (W5 : wf s5) by (apply wf_set_NamedValues, wf_moved_eq; [exact F1|exact W4]).
  assert (W6 : wf s6) by now apply wf_set_NamedValues.
  destruct (Codegen_structure _ _ _ _ E7 W6) as [St7 V7].
  pose proof (structure_ok_wf _ _ St7) as W7.
  pose proof (structure_ok_next_id _ _ St7) as N7.
  assert (St8 : structure_ok s7 s8 /\ val_below (next_id s8) stv).
  { destruct Step as [st|]; [exact (Codegen_structure _ _ _ _ E8 W7)|].
    inversion E8; subst. split; [now apply structure_ok_refl|exact I]. }
  destruct St8 as [St8 V8].
  pose proof (structure_ok_wf _ _ St8) as W8.
  pose proof (structure_ok_next_id _ _ St8) as N8.
  destruct (Codegen_structure _ _ _ _ E9 W8) as [St9 V9].
  pose proof (structure_ok_wf _ _ St9) as W9.
  pose proof (structure_ok_next_id _ _ St9) as N9.
  assert (F9 : F = fst (InsertBlock s9)).
  { rewrite (structure_ok_fst _ _ St9), (structure_ok_fst _ _ St8),
      (structure_ok_fst _ _ St7). reflexivity. }
  assert (W10 : wf s10) by now apply wf_inserted.
  assert (W11 : wf s11) by now apply wf_inserted.
  assert (W12 : wf s12) by now apply wf_inserted.
  assert (W13 : wf s13) by now apply wf_inserted.
  assert (W14 : wf s14) by (apply wf_pushed_eq; [exact F9|now apply wf_created|idlia]).
  assert (W15 : wf s15) by now apply wf_inserted.
  (* the function only grows *)
  assert (C00 : ext_from 0 s s0) by now apply ext0_sub.
  assert (C01 : ext_from 0 s0 s1) by now apply ext0_sub.
  assert (C12 : ext_from 0 s1 s2) by now apply ext0_inserted.
  assert (C23 : ext_from 0 s2 s3).
  { eapply ext_from_trans; [apply ext_created|].
    apply (ext0_pushed F); [exact F1|now apply wf_created]. }
  assert (C34 : ext_from 0 s3 s4) by now apply ext0_inserted.
  assert (C46 : ext_from 0 s4 s6).
  { eapply ext_from_trans; [apply (ext0_moved F L); exact F1|].
    eapply ext_from_trans; apply ext_set_NamedValues. }
  assert (C67 : ext_from 0 s6 s7) by now apply ext0_sub.
  assert (C78 : ext_from 0 s7 s8) by now apply ext0_sub.
  assert (C89 : ext_from 0 s8 s9) by now apply ext0_sub.
  assert (C9a : ext_from 0 s9 s10) by now apply ext0_inserted.
  assert (Cab : ext_from 0 s10 s11) by now apply ext0_inserted.
  assert (Cbc : ext_from 0 s11 s12) by now apply ext0_inserted.
  assert (Ccd : ext_from 0 s12 s13) by now apply ext0_inserted.
  assert (Cde : ext_from 0 s13 s14).
  { eapply ext_from_trans; [apply ext_created|].
    apply (ext0_pushed F); [exact F9|now apply wf_created]. }
  assert (Cef : ext_from 0 s14 s15) by now apply ext0_inserted.
  assert (Cfg : ext_from 0 s15 s16) by (apply ext0_moved; exact F9).
  (* the scope *)
  assert (R1 : forall y, resolve s1 y = resolve s y)
    by exact (proj1 (lowered_invariants _ _ _ _ E1 HdS)).
  assert (R6 : forall y, resolve s6 y = if decide (y = x) then Some A else resolve s y).
  { intros y. unfold s6. rewrite resolve_insert.
    destruct (decide (y = x)); [reflexivity|]. unfold s5. rewrite R5. exact (R1 y). }
  assert (Hne : forall y h, resolve s y = Some h -> h <> A)
    by (intros y h E; apply Ha in E; unfold A; lia).
  assert (Hi0 : injective_scope s0)
    by (apply (injective_scope_equiv s); [reflexivity|exact Hi]).
  assert (Ha0 : handles_allocated s0)
    by (apply (handles_allocated_mono s); [reflexivity|idlia|exact Ha]).
  assert (Hi6 : injective_scope s6) by exact (injective_scope_bind s s6 x A R6 Hne Hi).
  assert (Ha6 : handles_allocated s6)
    by (apply (handles_allocated_bind s s6 x A R6); [idlia|idlia|exact Ha]).
  destruct (lowered_invariants _ _ _ _ E7 HdB) as (R7 & Ha7 & Hi7).
  specialize (Ha7 Ha6). specialize (Hi7 Hi6).
  assert (I8 : (forall y, resolve s8 y = resolve s7 y)
               /\ handles_allocated s8 /\ injective_scope s8).
  { destruct Step as [st|].
    - destruct (lowered_invariants _ _ _ _ E8 (HdSt _ eq_refl)) as (R8 & Ha8 & Hi8).
      auto.
    - inversion E8; subst. auto. }
  destruct I8 as (R8 & Ha8 & Hi8).
  assert (R9 : forall y, resolve s9 y = resolve s8 y)
    by exact (proj1 (lowered_invariants _ _ _ _ E9 HdE)).
  assert (SSgen : forall a b w t,
            match Step with Some st => ev st a | None => Some (1%float, a, []) end
            = Some (w, b, t) -> sem ext fsem s7 s8 a b stv w t).
  { intros a b w t Ev. destruct Step as [st|].
    - exact (IH _ _ _ _ _ Ev (HdSt _ eq_refl) _ _ _ W7 Hi7 Ha7 E8).
    - inversion E8; subst. inversion Ev; subst. apply sem_Number. }
  intros Fn m callers tr fr Him Hc Hp Hb.
  match type of Hc with contains ?st _ _ => set (s17 := st) in * end.
  assert (Cgh : ext_from 0 s16 s17) by apply ext_set_NamedValues.
  assert (Hc16 : contains s16 Fn m) by (eapply contains_ext_from; [exact Cgh|exact Hc]).
  (* the loop block and the block after the loop are empty when the builder
     enters them *)
  pose proof (pos_alloca x s Fn fr Hp) as P0.
  assert (Hb1 : snd (InsertBlock s1) < next_id s1).
  { apply W1. apply St1. eapply pos_inblock; eauto. }
  assert (T3 : block_insts (blocks_of s3) L = Some []).
  { apply (empty_pushed F (mkBB L "loop" []) (created s2));
      [exact F1|now apply wf_created|reflexivity|].
    apply (absent_fresh s2); [exact W2|idlia]. }
  assert (T6 : block_insts (blocks_of s6) L = Some []).
  { unfold s6, s5. rewrite !blocks_of_set_NamedValues.
    rewrite blocks_of_moved_eq by exact F1.
    unfold s4. rewrite other_inserted; [exact T3|]. idlia. }
  assert (Ib6 : inblock s6).
  { unfold inblock. change (snd (InsertBlock s6)) with L. rewrite T6. eauto. }
  assert (Hb9 : snd (InsertBlock s9) < next_id s9).
  { apply W9. apply St9, St8, St7, Ib6. }
  assert (T16 : block_insts (blocks_of s16) Aft = Some []).
  { unfold s16. rewrite blocks_of_moved_eq by exact F9.
    unfold s15. rewrite other_inserted; [|idlia].
    apply (empty_pushed F (mkBB Aft "afterloop" []) (created s13));
      [exact F9|now apply wf_created|reflexivity|].
    apply (absent_fresh s13); [exact W13|idlia]. }
  assert (Hc6 : contains s6 Fn m) by (eapply contains_ext_from; [|exact Hc16]; ext_chain).
  assert (Hx6 : resolve s6 x = Some A) by (rewrite R6; now rewrite decide_True).
  (* the iterations *)
  assert (Loop : forall n envb envr tl frb tr0,
    iterate n ev x End Step Body envb = Some (envr, tl) ->
    pos s6 Fn frb -> bound_in s6 envb (fr_mem frb) ->
    exists k fr',
      steps k m ext (Running (frb :: callers) tr0)
      = Some (Running (fr' :: callers) (tr0 ++ tl))
      /\ pos s16 Fn fr' /\ bound_in s6 envr (fr_mem fr') /\ preserved s6 frb fr').
  { clear Hiter n. induction n as [|n IHn]; intros envb envr tl frb tr0 Hit Pb Bb;
      [discriminate|].
    cbn [iterate] in Hit.
    destruct (ev Body envb) as [[[bval envb1] tb]|] eqn:EvB; [|discriminate].
    destruct (match Step with Some Step0 => ev Step0 envb1 | None => _ end)
      as [[[stepv envb2] ts]|] eqn:EvS; [|discriminate].
    destruct (ev End envb2) as [[[cnd envb3] te]|] eqn:EvE; [|discriminate].
    destruct (envb3 !! x) as [cur|] eqn:Ecur; [|discriminate].
    cbv zeta in Hit.
    set (trb := (tr0 ++ tb) ++ (ts ++ te)).
    (* the body, the step and the end condition *)
    pose proof (IH _ _ _ _ _ EvB HdB _ _ _ W6 Hi6 Ha6 E7) as SB.
    assert (Hc7 : contains s7 Fn m) by (eapply contains_ext_from; [|exact Hc16]; ext_chain).
    destruct (SB Fn m callers tr0 frb Him Hc7 Pb Bb)
      as (k7 & fr7 & X7 & P7 & _ & B7 & K7).
    apply (bound_in_equiv s6 s7) in B7; [|exact R7].
    pose proof (IH _ _ _ _ _ EvE HdE _ _ _ W8 Hi8 Ha8 E9) as SE.
    assert (Hc9 : contains s9 Fn m) by (eapply contains_ext_from; [|exact Hc16]; ext_chain).
    assert (X89 : extends s8 s9) by apply St9.
    destruct (sem_seq ext fsem s7 s8 s9 _ _ _ _ _ _ _ _ _ X89 N8 R8 V8
                (SSgen _ _ _ _ EvS) SE Fn m callers (tr0 ++ tb) fr7 Him Hc9 P7 B7)
      as (k9 & fr9 & X9 & P9 & EvSt & EvC & B9 & K9).
    fold trb in X9.
    apply (bound_in_equiv s7 s6) in B9; [|intros y; symmetry; apply R7].
    (* the variable is advanced *)
    destruct (B9 _ _ Ecur) as (h & Hh & Hm).
    assert (h = A) by congruence. subst h.
    assert (Hc10 : contains s10 Fn m) by (eapply contains_ext_from; [|exact Hc16]; ext_chain).
    destruct (pos_inserted (Load A) s9 Fn m fr9 I Hc10 P9) as (rest10 & Hcode10 & Hpos10).
    set (fr10 := set_reg fr9 (next_id s9) (RFloat cur) rest10).
    assert (X10 : steps 1 m ext (Running (fr9 :: callers) trb)
                  = Some (Running (fr10 :: callers) trb)).
    { apply steps_one. exact (step_Load m ext fr9 callers trb _ rest10 A cur Hcode10 eq_refl Hm). }
    assert (P10 : pos s10 Fn fr10) by (apply Hpos10; reflexivity).
    assert (Hc11 : contains s11 Fn m) by (eapply contains_ext_from; [|exact Hc16]; ext_chain).
    destruct (pos_inserted (FAdd (InstResult (next_id s9)) stv) s10 Fn m fr10 I Hc11 P10)
      as (rest11 & Hcode11 & Hpos11).
    set (fr11 := set_reg fr10 (next_id s10) (RFloat (PrimFloat.add cur stepv)) rest11).
    assert (X11 : steps 1 m ext (Running (fr10 :: callers) trb)
                  = Some (Running (fr11 :: callers) trb)).
    { apply steps_one.
      apply (step_FAdd m ext fr10 callers trb _ rest11 _ _ cur stepv Hcode11 eq_refl).
      - unfold eval_float, eval, fr10. cbn. now rewrite lookup_insert_eq.
      - rewrite (eval_float_regs (next_id s9) fr9 fr10); [exact EvSt| |].
        + eapply val_below_le; [exact V8|exact N9].
        + intros id Hid. unfold fr10. cbn. apply lookup_insert_ne. lia. }
    assert (P11 : pos s11 Fn fr11) by (apply Hpos11; reflexivity).
    assert (Hc12 : contains s12 Fn m) by (eapply contains_ext_from; [|exact Hc16]; ext_chain).
    destruct (pos_inserted (Store (InstResult (next_id s10)) A) s11 Fn m fr11 I Hc12 P11)
      as (rest12 & Hcode12 & Hpos12).
    set (fr12 := set_mem fr11 A (PrimFloat.add cur stepv) rest12).
    assert (X12 : steps 1 m ext (Running (fr11 :: callers) trb)
                  = Some (Running (fr12 :: callers) trb)).
    { apply steps_one.
      apply (step_Store m ext fr11 callers trb _ rest12 _ A _ Hcode12 eq_refl).
      unfold eval_float, eval, fr11. cbn. now rewrite lookup_insert_eq. }
    assert (P12 : pos s12 Fn fr12) by (apply Hpos12; reflexivity).
    assert (Hc13 : contains s13 Fn m) by (eapply contains_ext_from; [|exact Hc16]; ext_chain).
    destruct (pos_inserted (FCmpONE ec (ConstantFP 0%float)) s12 Fn m fr12 I Hc13 P12)
      as (rest13 & Hcode13 & Hpos13).
    set (fr13 := set_reg fr12 (next_id s12) (RBool (fcmp_one cnd 0%float)) rest13).
    assert (X13 : steps 1 m ext (Running (fr12 :: callers) trb)
                  = Some (Running (fr13 :: callers) trb)).
    { apply steps_one.
      apply (step_FCmpONE m ext fr12 callers trb _ rest13 ec _ cnd _ Hcode13 eq_refl);
        [|reflexivity].
      rewrite (eval_float_regs (next_id s9) fr9 fr12); [exact EvC|exact V9|].
      intros id Hid. unfold fr12, fr11, fr10. cbn.
      rewrite !lookup_insert_ne by (cbn; lia). reflexivity. }
    assert (P14 : pos s14 Fn fr13).
    { apply pos_pushed; [exact F9|now apply wf_created|].
      apply pos_created. apply Hpos13; reflexivity. }
    assert (Hc15 : contains s15 Fn m) by (eapply contains_ext_from; [|exact Hc16]; ext_chain).
    destruct (pos_inserted (CondBr (InstResult (next_id s12)) L Aft) s14 Fn m fr13 I Hc15 P14)
      as (rest15 & Hcode15 & _).
    assert (Eb13 : eval_bool fr13 (InstResult (next_id s12)) = Some (fcmp_one cnd 0%float))
      by (unfold eval_bool, eval, fr13; cbn; now rewrite lookup_insert_eq).
    assert (B13 : bound_in s6 (<[x := PrimFloat.add cur stepv]> envb3) (fr_mem fr13))
      by exact (bound_in_assign s6 envb3 (fr_mem fr9) x A _ Hi6 Hx6 B9).
    assert (K13 : preserved s6 frb fr13).
    { apply (preserved_trans _ _ fr7); [exact K7|].
      apply (preserved_trans _ _ fr9);
        [apply (preserved_equiv s6 s7); [exact N7|exact R7|exact K9]|].
      apply (preserved_trans _ _ fr10); [apply preserved_set_reg; idlia|].
      apply (preserved_trans _ _ fr11); [apply preserved_set_reg; idlia|].
      apply (preserved_trans _ _ fr12); [apply preserved_set_mem; right; eauto|].
      apply preserved_set_reg. idlia. }
    assert (Hfn13 : fr_fn fr13 = Fn) by (destruct P9 as (Hfn & _); exact Hfn).
    destruct (fcmp_one cnd 0%float) eqn:Ecnd.
    - destruct (jump_lands s6 Fn fr13 L [] m ext callers trb Hc6 eq_refl T6 eq_refl Hfn13)
        as (frj & kj & frb' & Jj & Xj & Pb' & _ & Rg' & Mm' & Ar' & DAr').
      assert (X15 : steps 1 m ext (Running (fr13 :: callers) trb)
                    = Some (Running (frj :: callers) trb)).
      { apply steps_one.
        exact (step_CondBr m ext fr13 callers trb _ rest15 _ L Aft true frj
                 Hcode15 eq_refl Eb13 Jj). }
      rewrite <- Mm' in B13.
      destruct (iterate n ev x End Step Body _) as [[env5 t4]|] eqn:Hit';
        [|discriminate].
      inversion Hit; subst envr tl; clear Hit.
      destruct (IHn _ _ _ frb' trb Hit' Pb' B13) as (k' & fr' & X' & P' & B' & K').
      replace (tr0 ++ tb ++ ts ++ te ++ t4) with (trb ++ t4)
        by (unfold trb; now rewrite <- !app_assoc).
      exists (k7 + (k9 + (1 + (1 + (1 + (1 + (1 + (kj + k')))))))), fr'.
      split.
      { eapply steps_app; [exact X7|]. eapply steps_app; [exact X9|].
        eapply steps_app; [exact X10|]. eapply steps_app; [exact X11|].
        eapply steps_app; [exact X12|]. eapply steps_app; [exact X13|].
        eapply steps_app; [exact X15|]. eapply steps_app; [exact Xj|exact X']. }
      split; [exact P'|]. split; [exact B'|].
      eapply preserved_trans; [exact K13|].
      eapply preserved_trans; [apply (preserved_same s6 fr13 frb'); assumption|exact K'].
    - destruct (jump_lands s16 Fn fr13 Aft [] m ext callers trb Hc16 eq_refl T16 eq_refl Hfn13)
        as (frj & kj & fr16 & Jj & Xj & P16 & _ & Rg' & Mm' & Ar' & DAr').
      assert (X15 : steps 1 m ext (Running (fr13 :: callers) trb)
                    = Some (Running (frj :: callers) trb)).
      { apply steps_one.
        exact (step_CondBr m ext fr13 callers trb _ rest15 _ L Aft false frj
                 Hcode15 eq_refl Eb13 Jj). }
      inversion Hit; subst envr tl; clear Hit.
      replace (tr0 ++ tb ++ ts ++ te) with trb
        by (unfold trb; now rewrite <- !app_assoc).
      exists (k7 + (k9 + (1 + (1 + (1 + (1 + (1 + kj))))))), fr16.
      split.
      { eapply steps_app; [exact X7|]. eapply steps_app; [exact X9|].
        eapply steps_app; [exact X10|]. eapply steps_app; [exact X11|].
        eapply steps_app; [exact X12|]. eapply steps_app; [exact X13|].
        eapply steps_app; [exact X15|exact Xj]. }
      split; [exact P16|]. split; [now rewrite Mm'|].
      eapply preserved_trans; [exact K13|].
      apply (preserved_same s6 fr13 fr16); assumption. }
  (* the start value *)
  pose proof (IH _ _ _ _ _ EvStart HdS _ _ _ W0 Hi0 Ha0 E1) as S1.
  assert (Hc1 : contains s1 Fn m) by (eapply contains_ext_from; [|exact Hc16]; ext_chain).
  destruct (S1 Fn m callers tr fr Him Hc1 P0 Hb) as (k1 & fr1 & X1 & P1 & Ev1 & B1 & K1).
  rewrite app_assoc. set (tr1 := tr ++ t1) in *.
  assert (Hc2 : contains s2 Fn m) by (eapply contains_ext_from; [|exact Hc16]; ext_chain).
  destruct (pos_inserted (Store sv' A) s1 Fn m fr1 I Hc2 P1) as (rest2 & Hcode2 & Hpos2).
  set (fr2 := set_mem fr1 A sv rest2).
  assert (X2 : steps 1 m ext (Running (fr1 :: callers) tr1)
               = Some (Running (fr2 :: callers) tr1)).
  { apply steps_one.
    exact (step_Store m ext fr1 callers tr1 _ rest2 sv' A sv Hcode2 eq_refl Ev1). }
  assert (P3 : pos s3 Fn fr2).
  { apply pos_pushed; [exact F1|now apply wf_created|].
    apply pos_created. apply Hpos2; reflexivity. }
  assert (Hc4 : contains s4 Fn m) by (eapply contains_ext_from; [|exact Hc16]; ext_chain).
  destruct (pos_inserted (Br L) s3 Fn m fr2 I Hc4 P3) as (rest4 & Hcode4 & _).
  assert (Hfn2 : fr_fn fr2 = Fn) by (destruct P1 as (Hfn & _); exact Hfn).
  destruct (jump_lands s6 Fn fr2 L [] m ext callers tr1 Hc6 eq_refl T6 eq_refl Hfn2)
    as (frj & kj & frb & Jj & Xj & Pb & _ & Rgb & Mmb & Arb & DArb).
  assert (X4 : steps 1 m ext (Running (fr2 :: callers) tr1)
               = Some (Running (frj :: callers) tr1)).
  { apply steps_one. exact (step_Br m ext fr2 callers tr1 _ rest4 L frj Hcode4 eq_refl Jj). }
  assert (Bb : bound_in s6 (<[x := sv]> env1) (fr_mem frb)).
  { rewrite Mmb. exact (bound_in_bind s s6 env1 (fr_mem fr1) x A sv R6 Hne B1). }
  destruct (Loop n _ _ _ frb tr1 Hiter Pb Bb) as (k16 & fr16 & X16 & P16 & B16 & K16).
  exists (k1 + (1 + (1 + (kj + k16)))), fr16.
  split.
  { eapply steps_app; [exact X1|]. eapply steps_app; [exact X2|].
    eapply steps_app; [exact X4|]. eapply steps_app; [exact Xj|exact X16]. }
  split; [now apply pos_set_NamedValues|]. split; [reflexivity|].
  assert (K : preserved s fr fr16).
  { apply (preserved_trans _ _ fr1);
      [apply (preserved_equiv s s0); [idlia|reflexivity|exact K1]|].
    apply (preserved_trans _ _ fr2); [apply preserved_set_mem; left; unfold A; lia|].
    apply (preserved_trans _ _ frb); [apply preserved_same; assumption|].
    apply (preserved_weaken s s6); [idlia| |exact K16].
    intros y h E Hh. rewrite R6 in E. destruct (decide (y = x)); [|eauto].
    inversion E; subst h. unfold A in Hh. lia. }
  split; [|exact K].
  intros y f Hy. destruct (decide (y = x)) as [->|Hyx].
  - destruct (env1 !! x) as [f0|] eqn:E0; cbn [restore_binding] in Hy.
    + rewrite lookup_insert_eq in Hy. inversion Hy; subst f0; clear Hy.
      destruct (B1 _ _ E0) as (h & Hh & Hm). exists h. split; [exact Hh|].
      assert (Hlt : h < next_id s) by (apply (Ha x); exact Hh).
      transitivity (fr_mem frb !! h).
      * destruct K16 as (_ & _ & _ & M16). apply M16; [idlia|].
        intros z Ez. rewrite R6 in Ez. destruct (decide (z = x)) as [->|Hzx].
        -- inversion Ez. unfold A in *. lia.
        -- apply Hzx. exact (Hi _ _ _ Ez Hh).
      * rewrite Mmb. unfold fr2. cbn. rewrite lookup_insert_ne; [exact Hm|].
        unfold A. lia.
    + now rewrite lookup_delete_eq in Hy.
  - assert (Hy' : env2 !! y = Some f).
    { destruct (env1 !! x); cbn [restore_binding] in Hy.
      - now rewrite lookup_insert_ne in Hy by congruence.
      - now rewrite lookup_delete_ne in Hy by congruence. }
    destruct (B16 _ _ Hy') as (h & Hh & Hm). exists h. split; [|exact Hm].
    rewrite R6 in Hh. now destruct (decide (y = x)).
Qed.

(** *** Scoped variables *)

Lemma restore_binding_ne x o env y :
  y <> x -> restore_binding x o env !! y = env !! y.
Proof.
  intros Hne. destruct o as [f|]; cbn [restore_binding].
  - now rewrite lookup_insert_ne by congruence.
  - now rewrite lookup_delete_ne by congruence.
Qed.

Lemma restore_binding_eq x o env : restore_binding x o env !! x = o.
Proof.
  destruct o as [f|]; cbn [restore_binding].
  - apply lookup_insert_eq.
  - apply lookup_delete_eq.
Qed.

Lemma restore_bindings_notin names : forall olds env y,
  y ∉ names -> restore_bindings names olds env !! y = env !! y.
Proof.
  induction names as [|x names IH]; intros olds env y Hy; [reflexivity|].
  destruct olds as [|o olds]; [reflexivity|]. cbn [restore_bindings].
  apply not_elem_of_cons in Hy as [Hne Hy].
  rewrite IH by exact Hy. now apply restore_binding_ne.
Qed.

Lemma restore_bindings_in names : forall olds env env' y,
  y ∈ names -> length olds = length names ->
  restore_bindings names olds env !! y = restore_bindings names olds env' !! y.
Proof.
  induction names as [|x names IH]; intros olds env env' y Hy Hlen;
    [now apply elem_of_nil in Hy|].
  destruct olds as [|o olds]; [discriminate|]. cbn [restore_bindings].
  destruct (decide (y ∈ names)) as [Hin|Hnin].
  - apply IH; [exact Hin|]. cbn in Hlen. lia.
  - apply elem_of_cons in Hy as [->|Hy]; [|contradiction].
    rewrite !restore_bindings_notin by exact Hnin.
    now rewrite !restore_binding_eq.
Qed.

Lemma restore_binding_insert x o env y v :
  y <> x -> restore_binding x o (<[y := v]> env) = <[y := v]> (restore_binding x o env).
Proof.
  intros Hne. destruct o as [f|]; cbn [restore_binding].
  - now apply insert_insert_ne.
  - now apply delete_insert_ne.
Qed.

Lemma restore_binding_id x env v : restore_binding x (env !! x) (<[x := v]> env) = env.
Proof.
  destruct (env !! x) as [f|] eqn:E; cbn [restore_binding].
  - rewrite insert_insert_eq. now apply insert_id.
  - rewrite delete_insert_eq. now apply delete_id.
Qed.

(** Binding a further variable and restoring it right away changes nothing. *)
Lemma restore_bindings_bind names : forall olds env x v,
  x ∉ names -> length olds = length names ->
  restore_bindings (names ++ [x]) (olds ++ [env !! x]) (<[x := v]> env)
  = restore_bindings names olds env.
Proof.
  induction names as [|d names IH]; intros olds env x v Hx Hlen.
  - destruct olds; [|discriminate]. cbn [app restore_bindings].
    apply restore_binding_id.
  - destruct olds as [|o olds]; [discriminate|].
    apply not_elem_of_cons in Hx as [Hne Hx].
    cbn [app restore_bindings].
    rewrite restore_binding_insert by congruence.
    rewrite <- (restore_binding_ne d o env x Hne).
    apply IH; [exact Hx|]. cbn in Hlen. lia.
Qed.

Lemma shadows_refl s : shadows s s [].
Proof.
  split; [lia|]. split; [|reflexivity]. intros y Hy. now apply elem_of_nil in Hy.
Qed.

Lemma shadows_inherit s0 s names :
  handles_allocated s0 -> shadows s0 s names ->
  forall x h, resolve s x = Some h -> h < next_id s0 -> exists y, resolve s0 y = Some h.
Proof.
  intros Ha0 (_ & Hin & Hout) x h E Hh. destruct (decide (x ∈ names)) as [Hx|Hx].
  - destruct (Hin _ Hx) as (A & EA & HA). rewrite EA in E. inversion E; subst. lia.
  - exists x. now rewrite <- Hout.
Qed.

Lemma shadows_hidden s0 s names y h :
  injective_scope s0 -> handles_allocated s0 -> shadows s0 s names ->
  y ∈ names -> resolve s0 y = Some h -> forall z, resolve s z <> Some h.
Proof.
  intros Hi0 Ha0 (_ & Hin & Hout) Hy Hh z Ez.
  destruct (decide (z ∈ names)) as [Hz|Hz].
  - destruct (Hin _ Hz) as (A & EA & HA). rewrite EA in Ez. inversion Ez; subst.
    apply Ha0 in Hh. lia.
  - rewrite Hout in Ez by exact Hz.
    assert (z = y) by (eapply Hi0; eauto). subst z. contradiction.
Qed.

(** What the hidden variables will be restored to stays in their storage
    while code runs in the inner scope. *)
Lemma restored_step s0 s names olds env env' fr fr' :
  injective_scope s0 -> handles_allocated s0 -> shadows s0 s names ->
  length olds = length names ->
  bound_in s0 (restore_bindings names olds env) (fr_mem fr) ->
  bound_in s env' (fr_mem fr') -> preserved s fr fr' ->
  bound_in s0 (restore_bindings names olds env') (fr_mem fr').
Proof.
  intros Hi0 Ha0 Hs Hlen Hb0 Hb (_ & _ & _ & M) y f Hy.
  destruct (decide (y ∈ names)) as [Hin|Hnin].
  - rewrite (restore_bindings_in names olds env' env y Hin Hlen) in Hy.
    destruct (Hb0 _ _ Hy) as (h & Hh & Hm). exists h. split; [exact Hh|].
    rewrite M; [exact Hm| |].
    + pose proof (Ha0 _ _ Hh). destruct Hs as (Hn & _). lia.
    + eapply shadows_hidden; eauto.
  - rewrite restore_bindings_notin in Hy by exact Hnin.
    destruct (Hb _ _ Hy) as (h & Hh & Hm). exists h. split; [|exact Hm].
    destruct Hs as (_ & _ & Hout). now rewrite <- Hout.
Qed.

Lemma VarBind_sem ext fsem ev s0 F :
  (forall e a b w t, ev e a = Some (w, b, t) -> distinct_names e = true ->
                     compiles ext fsem e a b w t) ->
  injective_scope s0 -> handles_allocated s0 ->
  forall VarNames done Olds s Olds' s' env olds env' olds' tv,
    VarBind Codegen F VarNames Olds s = Done (Some Olds') s' ->
    bind_vars ev VarNames env olds = Some (env', olds', tv) ->
    forallb (fun p => match snd p with
                      | Some Init => distinct_names Init
                      | None => true
                      end) VarNames = true ->
    NoDup (done ++ map fst VarNames) -> length olds = length done ->
    F = fst (InsertBlock s) -> wf s -> injective_scope s -> handles_allocated s ->
    shadows s0 s done ->
    (wf s' /\ injective_scope s' /\ handles_allocated s'
     /\ shadows s0 s' (done ++ map fst VarNames)
     /\ length olds' = length (done ++ map fst VarNames)
     /\ ext_from 0 s s')
    /\ forall Fn m callers tr fr,
         implements m ext fsem ->
         contains s' Fn m -> pos s Fn fr -> bound_in s env (fr_mem fr) ->
         bound_in s0 (restore_bindings done olds env) (fr_mem fr) ->
         exists k fr',
           steps k m ext (Running (fr :: callers) tr)
           = Some (Running (fr' :: callers) (tr ++ tv))
           /\ pos s' Fn fr' /\ bound_in s' env' (fr_mem fr')
           /\ bound_in s0 (restore_bindings (done ++ map fst VarNames) olds' env')
                       (fr_mem fr')
           /\ preserved s0 fr fr'.
Proof.
  intros IH Hi0 Ha0.
  induction VarNames as [|[x init] VarNames IHv];
    intros done Olds s Olds' s' env olds env' olds' tv H Hev Hdn Hnd Hlen HF Hw Hi Ha Hsh.
  - cbn [VarBind] in H. inversion H; subst. cbn [bind_vars] in Hev.
    inversion Hev; subst. cbn [map]. rewrite app_nil_r. split.
    + split; [exact Hw|]. split; [exact Hi|]. split; [exact Ha|].
      split; [exact Hsh|]. split; [exact Hlen|apply ext_from_refl].
    + intros Fn m callers tr fr Him Hc Hp Hb Hb0. exists 0, fr. rewrite app_nil_r.
      split; [reflexivity|]. split; [exact Hp|]. split; [exact Hb|].
      split; [exact Hb0|apply preserved_refl].
  - cbn [VarBind] in H. cbn [bind_vars] in Hev.
    apply bind_inv in H as ([iv|] & s1 & E1 & H); [|discriminate].
    destruct (match init with Some Init => ev Init env | None => _ end)
      as [[[v env1] t1]|] eqn:Ev1; [|discriminate].
    match type of Hev with match ?X with _ => _ end = _ =>
      destruct X as [[[env2 olds2] t2]|] eqn:Hev'; [|discriminate] end.
    inversion Hev; subst env2 olds2 tv; clear Hev.
    cbn [forallb snd] in Hdn. apply andb_true_iff in Hdn as [Hd1 Hdn].
    assert (I1 : structure_ok s s1 /\ (forall y, resolve s1 y = resolve s y)
                 /\ sem ext fsem s s1 env env1 iv v t1).
    { destruct init as [e|].
      - destruct (Codegen_structure _ _ _ _ E1 Hw) as [S1 _].
        destruct (lowered_invariants _ _ _ _ E1 Hd1) as (R1 & _ & _).
        split; [exact S1|]. split; [exact R1|].
        exact (IH _ _ _ _ _ Ev1 Hd1 _ _ _ Hw Hi Ha E1).
      - inversion E1; subst. inversion Ev1; subst.
        split; [now apply structure_ok_refl|]. split; [reflexivity|apply sem_Number]. }
    destruct I1 as (S1 & R1 & Sem1).
    pose proof (structure_ok_wf _ _ S1) as W1.
    pose proof (structure_ok_fst _ _ S1) as F1.
    pose proof (structure_ok_next_id _ _ S1) as N1.
    apply bind_inv in H as (A & s2 & E2 & H).
    assert (EA : A = next_id s1) by (inversion E2; reflexivity).
    assert (s2 = loop_entry x s1) as ->.
    { unfold loop_entry. rewrite F1, <- HF, E2. reflexivity. }
    clear E2. subst A.
    apply bind_inv in H as ([] & s3 & E3 & H).
    unfold CreateStore in E3. rewrite (bind_Done _ _ _ _ _ (Insert_Done _ _)) in E3.
    inversion E3; subst s3; clear E3.
    apply bind_inv in H as (Old & s4 & E4 & H).
    destruct (NamedValues_index_state _ _ _ _ E4) as (_ & g & -> & R4).
    apply bind_inv in H as ([] & s5 & E5 & H). inversion E5; subst s5; clear E5.
    set (A := next_id s1) in *.
    set (s2 := loop_entry x s1) in *.
    set (s3 := inserted (Store iv A) s2) in *.
    set (s4 := set_NamedValues g s3) in *.
    set (s5 := set_NamedValues (insert x (Some A)) s4) in *.
    pose proof (structure_ok_alloca x s1 W1) as S2.
    pose proof (structure_ok_wf _ _ S2) as W2.
    assert (W3 : wf s3) by now apply wf_inserted.
    assert (W5 : wf s5) by now do 2 apply wf_set_NamedValues.
    assert (R5 : forall y, resolve s5 y = if decide (y = x) then Some A else resolve s y).
    { intros y. unfold s5. rewrite resolve_insert.
      destruct (decide (y = x)); [reflexivity|]. unfold s4. rewrite R4. exact (R1 y). }
    assert (Hne1 : forall y h, resolve s y = Some h -> h <> A)
      by (intros y h E; apply Ha in E; unfold A; lia).
    pose proof (injective_scope_bind s s5 x A R5 Hne1 Hi) as Hi5.
    assert (Ha5 : handles_allocated s5)
      by (apply (handles_allocated_bind s s5 x A R5); [idlia|idlia|exact Ha]).
    assert (Hxd : x ∉ done).
    { intros Hx. apply NoDup_app in Hnd as (_ & Hnd & _).
      apply (Hnd _ Hx). cbn. left. }
    assert (Hnd5 : NoDup ((done ++ [x]) ++ map fst VarNames))
      by (rewrite <- app_assoc; exact Hnd).
    assert (Hlen5 : length (olds ++ [env1 !! x]) = length (done ++ [x]))
      by (rewrite !length_app; cbn; lia).
    assert (Hsh5 : shadows s0 s5 (done ++ [x])).
    { destruct Hsh as (Hn & Hin & Hout). split; [idlia|]. split.
      - intros y Hy. rewrite R5. destruct (decide (y = x)) as [->|Hyx].
        + exists A. split; [reflexivity|]. unfold A. lia.
        + apply elem_of_app in Hy as [Hy|Hy]; [now apply Hin|].
          apply list_elem_of_singleton in Hy. contradiction.
      - intros y Hy. apply not_elem_of_app in Hy as [Hy Hyx].
        rewrite R5. destruct (decide (y = x)) as [->|_]; [|now apply Hout].
        exfalso. apply Hyx. now apply list_elem_of_singleton. }
    destruct (IHv (done ++ [x]) _ s5 _ _ _ _ _ _ _ H Hev' Hdn Hnd5 Hlen5
                (eq_trans HF (eq_sym F1)) W5 Hi5 Ha5 Hsh5)
      as [(W' & Hi' & Ha' & Hsh' & Hlen' & C5') Run].
    cbn [map fst]. rewrite <- app_assoc in Hsh', Hlen', Run. cbn [app] in Hsh', Hlen', Run.
    assert (C01 : ext_from 0 s s1) by now apply ext0_sub.
    assert (C12 : ext_from 0 s1 s2) by now apply ext0_sub.
    assert (C23 : ext_from 0 s2 s3) by now apply ext0_inserted.
    assert (C35 : ext_from 0 s3 s5) by (eapply ext_from_trans; apply ext_set_NamedValues).
    split.
    { split; [exact W'|]. split; [exact Hi'|]. split; [exact Ha'|].
      split; [exact Hsh'|]. split; [exact Hlen'|]. ext_chain. }
    intros Fn m callers tr fr Him Hc Hp Hb Hb0.
    assert (Hc1 : contains s1 Fn m) by (eapply contains_ext_from; [|exact Hc]; ext_chain).
    destruct (Sem1 Fn m callers tr fr Him Hc1 Hp Hb) as (k1 & fr1 & X1 & P1 & Ev & B1 & K1).
    rewrite app_assoc. set (tr1 := tr ++ t1) in *.
    pose proof (restored_step s0 s done olds env env1 fr fr1 Hi0 Ha0 Hsh Hlen Hb0 B1 K1) as B01.
    pose proof (pos_alloca x s1 Fn fr1 P1) as P2.
    assert (Hc3 : contains s3 Fn m) by (eapply contains_ext_from; [|exact Hc]; ext_chain).
    destruct (pos_inserted (Store iv A) s2 Fn m fr1 I Hc3 P2) as (rest3 & Hcode3 & Hpos3).
    set (fr3 := set_mem fr1 A v rest3).
    assert (X3 : steps 1 m ext (Running (fr1 :: callers) tr1)
                 = Some (Running (fr3 :: callers) tr1)).
    { apply steps_one.
      exact (step_Store m ext fr1 callers tr1 _ rest3 iv A v Hcode3 eq_refl Ev). }
    assert (P5 : pos s5 Fn fr3).
    { do 2 apply pos_set_NamedValues. apply Hpos3; reflexivity. }
    assert (B5 : bound_in s5 (<[x := v]> env1) (fr_mem fr3))
      by exact (bound_in_bind s s5 env1 (fr_mem fr1) x A v R5 Hne1 B1).
    assert (B05 : bound_in s0 (restore_bindings (done ++ [x]) (olds ++ [env1 !! x])
                                 (<[x := v]> env1)) (fr_mem fr3)).
    { rewrite restore_bindings_bind by assumption.
      intros y f Hy. destruct (B01 _ _ Hy) as (h & Hh & Hm). exists h.
      split; [exact Hh|]. unfold fr3. cbn. rewrite lookup_insert_ne; [exact Hm|].
      apply Ha0 in Hh. destruct Hsh as (Hn & _). unfold A. lia. }
    destruct (Run Fn m callers tr1 fr3 Him Hc P5 B5 B05) as (k' & fr' & X' & P' & B' & B0' & K').
    exists (k1 + (1 + k')), fr'.
    split; [eapply steps_app; [exact X1|]; eapply steps_app; [exact X3|exact X']|].
    split; [exact P'|]. split; [exact B'|]. split; [exact B0'|].
    apply (preserved_trans _ _ fr1).
    { apply (preserved_weaken s0 s); [apply Hsh| |exact K1].
      now apply (shadows_inherit s0 s done). }
    apply (preserved_trans _ _ fr3); [|exact K'].
    apply preserved_set_mem. left. destruct Hsh as (Hn & _). unfold A. lia.
Qed.

Lemma compiles_Var ext fsem ev VarNames Body env env1 env2 olds v t1 t2 :
  (forall e a b w t, ev e a = Some (w, b, t) -> distinct_names e = true ->
                     compiles ext fsem e a b w t) ->
  distinct_names (VarExprAST VarNames Body) = true ->
  bind_vars ev VarNames env [] = Some (env1, olds, t1) ->
  ev Body env1 = Some (v, env2, t2) ->
  compiles ext fsem (VarExprAST VarNames Body) env
           (restore_bindings (map fst VarNames) olds env2) v (t1 ++ t2).
Proof.
  intros IH Hd Hbv HB s val s' Hw Hi Ha H.
  rewrite Var_eq in H.
  destruct (VarBind Codegen _ VarNames [] s) as [[Olds|] s1|] eqn:E1; try discriminate.
  destruct (Codegen Body s1) as [[bv|] s2|] eqn:E2; try discriminate.
  destruct (VarRestore VarNames Olds s2) as [[] s3|] eqn:E3; [|discriminate].
  inversion H; subst val s'; clear H.
  destruct (VarRestore_state _ _ _ _ _ E3) as (g & ->).
  cbn [distinct_names] in Hd.
  apply andb_true_iff in Hd as [Hd HdB]. apply andb_true_iff in Hd as [Hnd Hdi].
  apply bool_decide_eq_true in Hnd.
  destruct (VarBind_sem ext fsem ev s (fst (InsertBlock s)) IH Hi Ha VarNames [] [] s
              Olds s1 env [] env1 olds t1 E1 Hbv Hdi Hnd eq_refl eq_refl Hw Hi Ha
              (shadows_refl s))
    as [(W1 & Hi1 & Ha1 & Hsh1 & Hlen1 & C01) Run].
  cbn [app] in Hsh1, Hlen1, Run.
  destruct (Codegen_structure _ _ _ _ E2 W1) as [S2 V2].
  pose proof (IH _ _ _ _ _ HB HdB _ _ _ W1 Hi1 Ha1 E2) as SemB.
  intros Fn m callers tr fr Him Hc Hp Hb.
  assert (Hc2 : contains s2 Fn m)
    by (eapply contains_ext_from; [apply (ext_set_NamedValues 0)|exact Hc]).
  assert (Hc1 : contains s1 Fn m)
    by (eapply contains_ext_from; [apply ext0_sub; exact S2|exact Hc2]).
  destruct (Run Fn m callers tr fr Him Hc1 Hp Hb Hb)
    as (k1 & fr1 & X1 & P1 & B1 & B01 & K1).
  destruct (SemB Fn m callers (tr ++ t1) fr1 Him Hc2 P1 B1)
    as (k2 & fr2 & X2 & P2 & Ev2 & B2 & K2).
  exists (k1 + k2), fr2. rewrite app_assoc.
  split; [eapply steps_app; eauto|].
  split; [now apply pos_set_NamedValues|]. split; [exact Ev2|]. split.
  - exact (restored_step s s1 (map fst VarNames) olds env1 env2 fr1 fr2
             Hi Ha Hsh1 Hlen1 B01 B2 K2).
  - apply (preserved_trans _ _ fr1); [exact K1|].
    apply (preserved_weaken s s1); [apply Hsh1| |exact K2].
    now apply (shadows_inherit s s1 (map fst VarNames)).
Qed.

(** *** Calls *)

Lemma Call_callee Callee Args s val s' :
  Codegen (CallExprAST Callee Args) s = Done (Some val) s' ->
  exists F vs s1,
    getFunction (TheModule s) Callee = Some F
    /\ CallArgs Codegen Args [] s = Done (Some vs) s1
    /\ s' = inserted (Call (f_id F) vs) s1 /\ val = InstResult (next_id s1).
Proof.
  cbn [Codegen]. intros H. unfold bind at 1 in H. unfold get in H.
  destruct (getFunction (TheModule s) Callee) as [F|] eqn:EF; [|discriminate].
  destruct (negb _); [discriminate|].
  apply bind_inv in H as ([vs|] & s1 & E1 & H); [|discriminate].
  exists F, vs, s1. inversion H; subst. auto.
Qed.

Lemma Unary_callee Opcode Operand s val s' :
  Codegen (UnaryExprAST Opcode Operand) s = Done (Some val) s' ->
  exists v s1 F,
    Codegen Operand s = Done (Some v) s1
    /\ getFunction (TheModule s1) (unary_name Opcode) = Some F
    /\ s' = inserted (Call (f_id F) [v]) s1 /\ val = InstResult (next_id s1).
Proof.
  intros H.
  destruct (Unary_success _ _ _ _ _ H) as (v & s1 & F0 & E1 & _ & _).
  destruct (unary_lowering Opcode Operand s) as (_ & _ & Hnone & Hsome).
  destruct (getFunction (TheModule s1) (unary_name Opcode)) as [F|] eqn:EF.
  - rewrite (Hsome _ _ _ E1 EF) in H. inversion H; subst. exists v, s1, F. auto.
  - rewrite (Hnone _ _ E1 EF) in H. discriminate.
Qed.

Lemma Binary_callee Op LHS RHS s val s' l r :
  Op <> binary_eq -> binop Op l r = None ->
  Codegen (BinaryExprAST Op LHS RHS) s = Done (Some val) s' ->
  exists L s1 R s2 F,
    Codegen LHS s = Done (Some L) s1 /\ Codegen RHS s1 = Done (Some R) s2
    /\ getFunction (TheModule s2) (binary_name Op) = Some F
    /\ s' = inserted (Call (f_id F) [L; R]) s2 /\ val = InstResult (next_id s2).
Proof.
  intros Hne Hb H.
  destruct (Binary_success _ _ _ _ _ _ Hne H) as (L & s1 & R & s2 & E1 & E2 & _).
  assert (Hu : user_operator Op = true).
  { unfold user_operator, builtin_operator. unfold binop in Hb.
    rewrite bool_decide_eq_false_2 by exact Hne.
    destruct (decide (Op = "+"%char)); [discriminate|].
    destruct (decide (Op = "-"%char)); [discriminate|].
    destruct (decide (Op = "*"%char)); [discriminate|].
    destruct (decide (Op = "<"%char)); [discriminate|].
    now rewrite !bool_decide_eq_false_2 by assumption. }
  destruct (user_binary_lowering Op LHS RHS s s1 s2 L R Hu E1 E2) as [Hnone Hsome].
  destruct (getFunction (TheModule s2) (binary_name Op)) as [F|] eqn:EF.
  - rewrite (Hsome _ eq_refl) in H. inversion H; subst. exists L, s1, R, s2, F. auto.
  - rewrite (Hnone eq_refl) in H. discriminate.
Qed.

Lemma CallArgs_inv Args : forall acc s vs s',
  CallArgs Codegen Args acc s = Done (Some vs) s' ->
  exists vs', vs = acc ++ vs' /\ lowers_all Args s vs' s'.
Proof.
  induction Args as [|a Args IH]; intros acc s vs s' H; cbn [CallArgs] in H.
  - inversion H; subst. exists []. split; [now rewrite app_nil_r|constructor].
  - apply bind_inv in H as ([v|] & s1 & E1 & H); [|discriminate].
    destruct (IH _ _ _ _ H) as (vs' & -> & Hl).
    exists (v :: vs'). split; [now rewrite <- app_assoc|].
    econstructor; eauto.
Qed.

(** The call instruction, the callee behaving as [fsem] says. *)
Lemma run_call ext fsem s f Fid vs args v evs Fn m callers tr fr :
  implements m ext fsem ->
  contains (inserted (Call Fid vs) s) Fn m ->
  f_id <$> getFunction (TheModule s) f = Some Fid ->
  fsem f args = Some (v, evs) ->
  pos s Fn fr -> eval_args fr vs = Some args ->
  exists k rest,
    steps k m ext (Running (fr :: callers) tr)
    = Some (Running (set_reg fr (next_id s) (RFloat v) rest :: callers) (tr ++ evs))
    /\ pos (inserted (Call Fid vs) s) Fn (set_reg fr (next_id s) (RFloat v) rest).
Proof.
  intros Him Hc Hf Hs Hp Ha.
  destruct (pos_inserted (Call Fid vs) s Fn m fr I Hc Hp) as (rest & Hcode & Hpos).
  assert (Hm : f_id <$> getFunction m f = Some Fid).
  { destruct Hc as [_ Hn].
    pose proof (ext_from_names _ _ _ f (ext_inserted (Call Fid vs) s I)) as G.
    rewrite Hf in G.
    destruct (getFunction (TheModule (inserted (Call Fid vs) s)) f) as [F'|] eqn:E';
      [|discriminate].
    injection G as G. rewrite (Hn _ _ E'). now rewrite G. }
  destruct (getFunction m f) as [F'|] eqn:EF; [|discriminate].
  cbn in Hm. injection Hm as Hm.
  destruct (Him f F' args v evs EF Hs fr callers tr _ rest vs Hcode
              (eq_trans eq_refl (f_equal (fun n => Call n vs) (eq_sym Hm))) Ha)
    as (k & Hk).
  exists k, rest. split; [exact Hk|apply Hpos; reflexivity].
Qed.

(** The arguments of a call, from left to right. *)
Lemma lowers_all_sem ext fsem ev :
  (forall e a b w t, ev e a = Some (w, b, t) -> distinct_names e = true ->
                     compiles ext fsem e a b w t) ->
  forall Args s vs s' env fs env' t,
    lowers_all Args s vs s' ->
    eval_list ev Args env = Some (fs, env', t) ->
    forallb distinct_names Args = true ->
    wf s -> injective_scope s -> handles_allocated s ->
    (wf s' /\ (forall y, resolve s' y = resolve s y) /\ next_id s <= next_id s'
     /\ ext_from 0 s s' /\ Forall (val_below (next_id s')) vs)
    /\ forall Fn m callers tr fr,
         implements m ext fsem ->
         contains s' Fn m -> pos s Fn fr -> bound_in s env (fr_mem fr) ->
         exists k fr',
           steps k m ext (Running (fr :: callers) tr)
           = Some (Running (fr' :: callers) (tr ++ t))
           /\ pos s' Fn fr' /\ eval_args fr' vs = Some fs
           /\ bound_in s env' (fr_mem fr') /\ preserved s fr fr'.
Proof.
  intros IH Args. induction Args as [|a Args IHa];
    intros s vs s' env fs env' t Hl Hev Hd Hw Hi Ha;
    inversion Hl as [|? ? ? v s1 vs1 ? E1 Hrest]; subst; cbn [eval_list] in Hev.
  - inversion Hev; subst. split.
    + split; [exact Hw|]. split; [reflexivity|]. split; [lia|].
      split; [apply ext_from_refl|constructor].
    + intros Fn m callers tr fr Him Hc Hp Hb. exists 0, fr. rewrite app_nil_r.
      split; [reflexivity|]. split; [exact Hp|]. split; [reflexivity|].
      split; [exact Hb|apply preserved_refl].
  - destruct (ev a env) as [[[f env1] ta]|] eqn:Eva; [|discriminate].
    match type of Hev with match ?X with _ => _ end = _ =>
      destruct X as [[[fs1 env2] tb]|] eqn:Hev'; [|discriminate] end.
    inversion Hev; subst fs env' t; clear Hev.
    cbn [forallb] in Hd. apply andb_true_iff in Hd as [Hda Hd].
    pose proof (IH _ _ _ _ _ Eva Hda _ _ _ Hw Hi Ha E1) as Sa.
    destruct (Codegen_structure _ _ _ _ E1 Hw) as [St1 V1].
    destruct (lowered_invariants _ _ _ _ E1 Hda) as (R1 & Ha1 & Hi1).
    pose proof (structure_ok_wf _ _ St1) as W1.
    pose proof (structure_ok_next_id _ _ St1) as N1.
    destruct (IHa _ _ _ _ _ _ _ Hrest Hev' Hd W1 (Hi1 Hi) (Ha1 Ha))
      as [(W' & R' & N' & C' & V') Run].
    assert (C01 : ext_from 0 s s1) by now apply ext0_sub.
    split.
    { split; [exact W'|]. split; [intros y; now rewrite R'|]. split; [lia|].
      split; [ext_chain|]. constructor; [|exact V'].
      eapply val_below_le; eauto. }
    intros Fn m callers tr fr Him Hc Hp Hb.
    assert (Hc1 : contains s1 Fn m) by (eapply contains_ext_from; [exact C'|exact Hc]).
    destruct (Sa Fn m callers tr fr Him Hc1 Hp Hb) as (k1 & fr1 & X1 & P1 & Ev1 & B1 & K1).
    apply (bound_in_equiv s s1) in B1; [|exact R1].
    destruct (Run Fn m callers (tr ++ ta) fr1 Him Hc P1 B1)
      as (k2 & fr2 & X2 & P2 & Ev2 & B2 & K2).
    exists (k1 + k2), fr2. rewrite app_assoc.
    split; [eapply steps_app; eauto|]. split; [exact P2|]. split.
    { cbn [eval_args]. rewrite Ev2.
      rewrite (eval_float_regs (next_id s1) fr1 fr2 v V1); [now rewrite Ev1|].
      apply K2. }
    split; [apply (bound_in_equiv s1 s); [intros y; now rewrite R1|exact B2]|].
    apply (preserved_trans _ _ fr1); [exact K1|].
    apply (preserved_equiv s s1); [exact N1|exact R1|exact K2].
Qed.

Lemma compiles_Call ext fsem ev Callee Args env env1 fs r t1 t2 :
  (forall e a b w t, ev e a = Some (w, b, t) -> distinct_names e = true ->
                     compiles ext fsem e a b w t) ->
  forallb distinct_names Args = true ->
  eval_list ev Args env = Some (fs, env1, t1) ->
  fsem Callee fs = Some (r, t2) ->
  compiles ext fsem (CallExprAST Callee Args) env env1 r (t1 ++ t2).
Proof.
  intros IH Hd Hev Hf s val s' Hw Hi Ha H.
  apply Call_callee in H as (F & vs & s1 & EF & E1 & -> & ->).
  apply CallArgs_inv in E1 as (vs' & -> & Hl). cbn [app].
  destruct (lowers_all_sem ext fsem ev IH _ _ _ _ _ _ _ _ Hl Hev Hd Hw Hi Ha)
    as [(W1 & R1 & N1 & C1 & V1) Run].
  assert (C2 : ext_from 0 s1 (inserted (Call (f_id F) vs') s1)) by now apply ext0_inserted.
  intros Fn m callers tr fr Him Hc Hp Hb.
  assert (Hc1 : contains s1 Fn m) by (eapply contains_ext_from; [exact C2|exact Hc]).
  destruct (Run Fn m callers tr fr Him Hc1 Hp Hb) as (k1 & fr1 & X1 & P1 & Ev1 & B1 & K1).
  assert (Hn : f_id <$> getFunction (TheModule s1) Callee = Some (f_id F)).
  { rewrite (ext_from_names _ _ _ Callee C1), EF. reflexivity. }
  destruct (run_call ext fsem s1 Callee (f_id F) vs' fs r t2 Fn m callers (tr ++ t1) fr1
              Him Hc Hn Hf P1 Ev1) as (k2 & rest & X2 & P2).
  exists (k1 + k2), (set_reg fr1 (next_id s1) (RFloat r) rest). rewrite app_assoc.
  split; [eapply steps_app; eauto|]. split; [exact P2|].
  split; [unfold eval_float, eval; cbn; now rewrite lookup_insert_eq|].
  split; [exact B1|].
  apply (preserved_trans _ _ fr1); [exact K1|]. apply preserved_set_reg. exact N1.
Qed.

Lemma compiles_Unary ext fsem Opcode Operand env env1 v r t1 t2 :
  distinct_names Operand = true ->
  compiles ext fsem Operand env env1 v t1 ->
  fsem (unary_name Opcode) [v] = Some (r, t2) ->
  compiles ext fsem (UnaryExprAST Opcode Operand) env env1 r (t1 ++ t2).
Proof.
  intros Hd IH Hf s val s' Hw Hi Ha H.
  apply Unary_callee in H as (ov & s1 & F & E1 & EF & -> & ->).
  pose proof (IH _ _ _ Hw Hi Ha E1) as S1.
  destruct (Codegen_structure _ _ _ _ E1 Hw) as [St1 V1].
  pose proof (structure_ok_wf _ _ St1) as W1.
  pose proof (structure_ok_next_id _ _ St1) as N1.
  assert (C2 : ext_from 0 s1 (inserted (Call (f_id F) [ov]) s1)) by now apply ext0_inserted.
  intros Fn m callers tr fr Him Hc Hp Hb.
  assert (Hc1 : contains s1 Fn m) by (eapply contains_ext_from; [exact C2|exact Hc]).
  destruct (S1 Fn m callers tr fr Him Hc1 Hp Hb) as (k1 & fr1 & X1 & P1 & Ev1 & B1 & K1).
  assert (Ea : eval_args fr1 [ov] = Some [v]) by (cbn [eval_args]; now rewrite Ev1).
  assert (Hn : f_id <$> getFunction (TheModule s1) (unary_name Opcode) = Some (f_id F))
    by now rewrite EF.
  destruct (run_call ext fsem s1 _ (f_id F) [ov] [v] r t2 Fn m callers (tr ++ t1) fr1
              Him Hc Hn Hf P1 Ea) as (k2 & rest & X2 & P2).
  exists (k1 + k2), (set_reg fr1 (next_id s1) (RFloat r) rest). rewrite app_assoc.
  split; [eapply steps_app; eauto|]. split; [exact P2|].
  split; [unfold eval_float, eval; cbn; now rewrite lookup_insert_eq|].
  split; [exact B1|].
  apply (preserved_trans _ _ fr1); [exact K1|]. apply preserved_set_reg. exact N1.
Qed.

Lemma compiles_operator ext fsem Op LHS RHS env env1 env2 l r v t1 t2 t3 :
  Op <> binary_eq ->
  distinct_names LHS = true -> distinct_names RHS = true ->
  compiles ext fsem LHS env env1 l t1 -> compiles ext fsem RHS env1 env2 r t2 ->
  binop Op l r = None ->
  fsem (binary_name Op) [l; r] = Some (v, t3) ->
  compiles ext fsem (BinaryExprAST Op LHS RHS) env env2 v ((t1 ++ t2) ++ t3).
Proof.
  intros Hne HdL HdR IHL IHR EO Hf s val s' Hw Hi Ha H.
  apply (Binary_callee _ _ _ _ _ _ l r Hne EO) in H
    as (L & s1 & R & s2 & F & E1 & E2 & EF & -> & ->).
  pose proof (IHL _ _ _ Hw Hi Ha E1) as S1.
  destruct (lowered_invariants _ _ _ _ E1 HdL) as (R1 & Ha1 & Hi1).
  destruct (Codegen_structure _ _ _ _ E1 Hw) as [St1 V1].
  pose proof (structure_ok_wf _ _ St1) as W1.
  pose proof (IHR _ _ _ W1 (Hi1 Hi) (Ha1 Ha) E2) as S2.
  destruct (Codegen_structure _ _ _ _ E2 W1) as [St2 V2].
  pose proof (structure_ok_wf _ _ St2) as W2.
  assert (N1 : next_id s <= next_id s1) by (eapply structure_ok_next_id; eauto).
  assert (N2 : next_id s1 <= next_id s2) by (eapply structure_ok_next_id; eauto).
  assert (X2 : extends s1 s2) by apply St2.
  pose proof (sem_seq _ _ _ _ _ _ _ _ _ _ _ _ _ _ X2 N1 R1 V1 S1 S2) as S12.
  assert (C3 : ext_from 0 s2 (inserted (Call (f_id F) [L; R]) s2))
    by now apply ext0_inserted.
  intros Fn m callers tr fr Him Hc Hp Hb.
  assert (Hc2 : contains s2 Fn m) by (eapply contains_ext_from; [exact C3|exact Hc]).
  destruct (S12 Fn m callers tr fr Him Hc2 Hp Hb)
    as (k1 & fr2 & X1 & P2 & EL & ER & B2 & K2).
  assert (Ea : eval_args fr2 [L; R] = Some [l; r])
    by (cbn [eval_args]; now rewrite EL, ER).
  assert (Hn : f_id <$> getFunction (TheModule s2) (binary_name Op) = Some (f_id F))
    by now rewrite EF.
  destruct (run_call ext fsem s2 _ (f_id F) [L; R] [l; r] v t3 Fn m callers
              (tr ++ (t1 ++ t2)) fr2 Him Hc Hn Hf P2 Ea) as (k2 & rest & X2' & P3).
  exists (k1 + k2), (set_reg fr2 (next_id s2) (RFloat v) rest). rewrite app_assoc.
  split; [eapply steps_app; eauto|]. split; [exact P3|].
  split; [unfold eval_float, eval; cbn; now rewrite lookup_insert_eq|].
  split; [exact B2|].
  apply (preserved_trans _ _ fr2); [exact K2|]. apply preserved_set_reg. lia.
Qed.

(** *** Every expression *)

Lemma evaluate_compiles ext fsem fuel : forall e env v env' t,
  evaluate fsem fuel e env = Some (v, env', t) -> distinct_names e = true ->
  compiles ext fsem e env env' v t.
Proof.
  induction fuel as [|fuel IH]; intros e env v env' t H Hd; [discriminate|].
  destruct e as [Val|Name|Opcode Operand|Op LHS RHS|Callee Args|Cond Then Else
                 |VarName Start End Step Body|VarNames Body];
    cbn [evaluate] in H; cbv zeta in H.
  - inversion H; subst. apply compiles_Number.
  - destruct (env !! Name) as [f|] eqn:E; [|discriminate].
    inversion H; subst. now apply compiles_Variable.
  - cbn [distinct_names] in Hd.
    destruct (evaluate fsem fuel Operand env) as [[[ov env1] t1]|] eqn:E1; [|discriminate].
    destruct (fsem (unary_name Opcode) [ov]) as [[r t2]|] eqn:E2; [|discriminate].
    inversion H; subst. eapply compiles_Unary; eauto.
  - cbn [distinct_names] in Hd. apply andb_true_iff in Hd as [HdL HdR].
    destruct (decide (Op = binary_eq)) as [->|Hne].
    + destruct LHS as [|LHSName| | | | | |]; try discriminate.
      destruct (evaluate fsem fuel RHS env) as [[[r env1] t1]|] eqn:E1; [|discriminate].
      destruct (env1 !! LHSName) as [old|] eqn:E2; [|discriminate].
      inversion H; subst. eapply compiles_assign; eauto.
    + destruct (evaluate fsem fuel LHS env) as [[[l env1] t1]|] eqn:E1; [|discriminate].
      destruct (evaluate fsem fuel RHS env1) as [[[r env2] t2]|] eqn:E2; [|discriminate].
      destruct (binop Op l r) as [w|] eqn:E3.
      * inversion H; subst. eapply compiles_builtin; eauto.
      * destruct (fsem (binary_name Op) [l; r]) as [[w t3]|] eqn:E4; [|discriminate].
        inversion H; subst. eapply compiles_operator; eauto.
  - cbn [distinct_names] in Hd.
    destruct (eval_list (evaluate fsem fuel) Args env) as [[[fs env1] t1]|] eqn:E1;
      [|discriminate].
    destruct (fsem Callee fs) as [[r t2]|] eqn:E2; [|discriminate].
    inversion H; subst.
    apply (compiles_Call ext fsem (evaluate fsem fuel) Callee Args env env' fs v t1 t2);
      auto.
  - cbn [distinct_names] in Hd.
    apply andb_true_iff in Hd as [Hd HdE]. apply andb_true_iff in Hd as [HdC HdT].
    destruct (evaluate fsem fuel Cond env) as [[[c env1] t1]|] eqn:E1; [|discriminate].
    destruct (if fcmp_one c 0%float then _ else _) as [[[w env2] t2]|] eqn:E2;
      [|discriminate].
    inversion H; subst.
    apply (compiles_If ext fsem Cond Then Else env env1 env' c v t1 t2 HdC HdT); [eauto|].
    destruct (fcmp_one c 0%float); eauto.
  - cbn [distinct_names] in Hd.
    apply andb_true_iff in Hd as [Hd HdB]. apply andb_true_iff in Hd as [Hd HdSt].
    apply andb_true_iff in Hd as [HdS HdE].
    destruct (evaluate fsem fuel Start env) as [[[sv env1] t1]|] eqn:E1; [|discriminate].
    destruct (iterate fuel (evaluate fsem fuel) VarName End Step Body _)
      as [[env2 t2]|] eqn:E2; [|discriminate].
    inversion H; subst.
    apply (compiles_For ext fsem (evaluate fsem fuel) VarName Start End Step Body
             env env1 env2 sv fuel t1 t2); auto.
    intros st ->. exact HdSt.
  - destruct (bind_vars (evaluate fsem fuel) VarNames env []) as [[[env1 olds] t1]|] eqn:E1;
      [|discriminate].
    destruct (evaluate fsem fuel Body env1) as [[[w env2] t2]|] eqn:E2; [|discriminate].
    inversion H; subst.
    apply (compiles_Var ext fsem (evaluate fsem fuel) VarNames Body env env1 env2 olds
             v t1 t2); auto.
Qed.

(** *** Function numbers *)

Lemma lookupF_distinct (m : list Function) F :
  NoDup (map f_id m) -> In F m -> lookupF (f_id F) m = Some F.
Proof.
  unfold lookupF. induction m as [|G m IH]; cbn [map find In]; [contradiction|].
  intros Hn Hin. apply NoDup_cons in Hn as [Hni Hn].
  destruct (Nat.eqb_spec (f_id G) (f_id F)) as [E|E].
  - destruct Hin as [->|Hin]; [reflexivity|].
    exfalso. apply Hni. rewrite E. apply list_elem_of_In, in_map, Hin.
  - destruct Hin as [->|Hin]; [contradiction|]. now apply IH.
Qed.

(** A function without a body is run by the host: a call to it is one step,
    which records the call. *)
Lemma externs_implement m ext :
  NoDup (map f_id m) -> implements m ext (extern_calls m ext).
Proof.
  intros Hn f F args v evs EF Hs fr callers tr i code vs Hcode Hop Ha.
  unfold extern_calls in Hs. rewrite EF in Hs.
  destruct (empty F) eqn:Ee; [|discriminate]. inversion Hs; subst v evs; clear Hs.
  destruct (getFunction_Some_In _ _ _ EF) as (Hin & Hname & _).
  exists 1. apply steps_one. unfold step. rewrite Hcode, Hop.
  rewrite (lookupF_distinct m F Hn Hin), Ha, Ee, Hname. reflexivity.
Qed.

(** *** Function definitions *)

(** The state in which the parameters of a new function are spilled: the
    function has its entry block, which is empty. *)
Lemma enter_function_entry P s :
  ids_fresh s -> getFunction (TheModule s) (Name P) = None ->
  exists s0,
    enter_function P s
    = (CreateArgumentAllocas P (next_id s) ;;; ret (Some (next_id s))) s0
    /\ fst (InsertBlock s0) = next_id s
    /\ NamedValues s0 = ∅
    /\ wf s0
    /\ blocks_of s0 = [mkBB (snd (InsertBlock s0)) "entry" []]
    /\ TheModule s0
       = TheModule s ++ [mkFn (next_id s) (Name P) (Args P)
                              [mkBB (snd (InsertBlock s0)) "entry" []]]
    /\ next_id s < next_id s0.
Proof.
  intros Hf Hg.
  set (s1 := set_NamedValues (fun _ => ∅) s).
  pose proof (PrototypeAST_Codegen_new P s1 Hf Hg) as E.
  unfold enter_function.
  rewrite (bind_Done _ _ _ _ _ (eq_refl : NamedValues_clear s = Done tt s1)).
  rewrite (bind_Done _ _ _ _ _ E). cbv beta iota.
  match goal with |- context [bind ?m _ ?st] =>
    assert (E2 : exists s2, m st = Done tt s2
                            /\ TheModule s2 = TheModule st
                            /\ next_id s2 = next_id st
                            /\ NamedValues s2 = NamedValues st)
  end.
  { destruct (isBinaryOp P); eexists; (split; [reflexivity|]); repeat split. }
  destruct E2 as (s2 & E2 & M2 & N2 & V2).
  rewrite (bind_Done _ _ _ _ _ E2).
  eexists.
  rewrite (bind_Done _ _ _ _ _ (eq_refl : BasicBlock_Create "entry" (Some (next_id s)) s2
                                          = Done _ _)).
  rewrite (bind_Done _ _ _ _ _ (eq_refl : SetInsertPoint _ _ _ = Done tt _)).
  split; [reflexivity|].
  match goal with |- _ /\ _ /\ wf ?st /\ _ => set (s0 := st) end.
  split; [reflexivity|]. split; [exact V2|].
  assert (L : lookupF (fst (InsertBlock s0)) (TheModule s0)
              = Some (mkFn (next_id s) (Name P) (Args P) [mkBB (next_id s2) "entry" []])).
  { unfold s0.
    cbn [InsertBlock set_InsertBlock TheModule set_TheModule set_next_id fst snd].
    rewrite lookupF_update_fn by reflexivity. rewrite M2.
    cbn [TheModule set_TheModule set_next_id s1 set_NamedValues].
    change (next_id s1) with (next_id s).
    rewrite (lookupF_app_new (next_id s) (TheModule s)
               (mkFn (next_id s) (Name P) (Args P) []) Hf eq_refl).
    reflexivity. }
  assert (B : blocks_of s0 = [mkBB (next_id s2) "entry" []])
    by (unfold blocks_of; now rewrite L).
  split; [|split; [exact B|]].
  2:{ split; [|unfold s0; cbn [next_id set_InsertBlock set_TheModule set_next_id];
                  rewrite N2; cbn; lia].
      unfold s0. cbn [TheModule InsertBlock set_InsertBlock set_TheModule set_next_id snd].
      rewrite M2. cbn [TheModule set_TheModule set_next_id s1 set_NamedValues].
      unfold update_fn. rewrite map_app. change (next_id s1) with (next_id s).
      f_equal; [exact (update_fn_fresh (next_id s) _ (TheModule s) Hf)|].
      cbn [map f_id]. now rewrite Nat.eqb_refl. }
  split; [rewrite L; eauto|].
  intros B0 HB0. rewrite B in HB0. unfold block_insts in HB0. cbn [find bb_id] in HB0.
  destruct (Nat.eqb (next_id s2) B0) eqn:Eq.
  - apply Nat.eqb_eq in Eq. subst B0. cbn. lia.
  - cbn in HB0. now destruct HB0.
Qed.

(** The parameters are spilled to fresh storage, one after the other. *)
Lemma ArgumentAllocas_sem F Args : forall Idx s s',
  ArgumentAllocas F Args Idx s = Done tt s' ->
  F = fst (InsertBlock s) -> wf s -> injective_scope s -> handles_allocated s ->
  (wf s' /\ injective_scope s' /\ handles_allocated s' /\ ext_from 0 s s')
  /\ forall env Fn m ext callers tr fr,
       contains s' Fn m -> pos s Fn fr -> bound_in s env (fr_mem fr) ->
       length Args + Idx <= length (fr_args fr) ->
       exists k fr',
         steps k m ext (Running (fr :: callers) tr)
         = Some (Running (fr' :: callers) tr)
         /\ pos s' Fn fr'
         /\ bound_in s' (bind_params Args (drop Idx (fr_args fr)) env) (fr_mem fr')
         /\ fr_args fr' = fr_args fr /\ fr_dest fr' = fr_dest fr.
Proof.
  induction Args as [|x Args IH]; intros Idx s s' H HF Hw Hi Ha.
  - inversion H; subst. split.
    + split; [exact Hw|]. split; [exact Hi|]. split; [exact Ha|apply ext_from_refl].
    + intros env Fn m ext callers tr fr Hc Hp Hb Hlen. exists 0, fr.
      split; [reflexivity|]. split; [exact Hp|]. split; [exact Hb|]. split; reflexivity.
  - cbn [ArgumentAllocas] in H.
    apply bind_inv in H as (A & s2 & E2 & H).
    assert (EA : A = next_id s) by (inversion E2; reflexivity).
    assert (s2 = loop_entry x s) as ->
      by (unfold loop_entry; rewrite <- HF, E2; reflexivity).
    subst A. clear E2.
    apply bind_inv in H as ([] & s3 & E3 & H).
    unfold CreateStore in E3. rewrite (bind_Done _ _ _ _ _ (Insert_Done _ _)) in E3.
    inversion E3; subst s3; clear E3.
    apply bind_inv in H as ([] & s4 & E4 & H). inversion E4; subst s4; clear E4.
    set (A := next_id s) in *.
    set (s2 := loop_entry x s) in *.
    set (s3 := inserted (Store (Argument F Idx) A) s2) in *.
    set (s4 := set_NamedValues (insert x (Some A)) s3) in *.
    pose proof (structure_ok_alloca x s Hw) as S2.
    pose proof (structure_ok_wf _ _ S2) as W2.
    assert (W3 : wf s3) by now apply wf_inserted.
    assert (W4 : wf s4) by now apply wf_set_NamedValues.
    assert (R4 : forall y, resolve s4 y = if decide (y = x) then Some A else resolve s y).
    { intros y. unfold s4. rewrite resolve_insert. now destruct (decide (y = x)). }
    assert (Hne : forall y h, resolve s y = Some h -> h <> A)
      by (intros y h E; apply Ha in E; unfold A; lia).
    pose proof (injective_scope_bind s s4 x A R4 Hne Hi) as Hi4.
    assert (Ha4 : handles_allocated s4)
      by (apply (handles_allocated_bind s s4 x A R4); [idlia|idlia|exact Ha]).
    destruct (IH (S Idx) s4 s' H HF W4 Hi4 Ha4) as [(W' & Hi' & Ha' & C4') Run].
    assert (C02 : ext_from 0 s s2) by now apply ext0_sub.
    assert (C23 : ext_from 0 s2 s3) by now apply ext0_inserted.
    assert (C34 : ext_from 0 s3 s4) by apply ext_set_NamedValues.
    split.
    { split; [exact W'|]. split; [exact Hi'|]. split; [exact Ha'|]. ext_chain. }
    intros env Fn m ext callers tr fr Hc Hp Hb Hlen.
    pose proof (pos_alloca x s Fn fr Hp) as P2.
    assert (Hc3 : contains s3 Fn m) by (eapply contains_ext_from; [|exact Hc]; ext_chain).
    destruct (pos_inserted (Store (Argument F Idx) A) s2 Fn m fr I Hc3 P2)
      as (rest3 & Hcode3 & Hpos3).
    destruct (lookup_lt_is_Some_2 (fr_args fr) Idx) as [a Ea]; [cbn in Hlen; lia|].
    set (fr3 := set_mem fr A a rest3).
    assert (X3 : steps 1 m ext (Running (fr :: callers) tr)
                 = Some (Running (fr3 :: callers) tr)).
    { apply steps_one.
      apply (step_Store m ext fr callers tr _ rest3 _ A a Hcode3 eq_refl).
      unfold eval_float, eval. now rewrite Ea. }
    assert (P4 : pos s4 Fn fr3).
    { apply pos_set_NamedValues. apply Hpos3; reflexivity. }
    pose proof (bound_in_bind s s4 env (fr_mem fr) x A a R4 Hne Hb) as B4.
    destruct (Run (<[x := a]> env) Fn m ext callers tr fr3 Hc P4 B4)
      as (k & fr' & X' & P' & B' & A' & D'); [cbn in *; lia|].
    exists (1 + k), fr'.
    split; [eapply steps_app; [exact X3|exact X']|].
    split; [exact P'|]. split; [|split; [exact A'|exact D']].
    rewrite (drop_S _ _ _ Ea). exact B'.
Qed.

(** What a successful definition leaves: the state [s0] in which the
    parameters are spilled, [s1] in which the body is lowered, and [s2]
    after the body, to which the return is appended. *)
Lemma definition_stages Fn s F s' :
  ids_fresh s -> getFunction (TheModule s) (Name (Proto Fn)) = None ->
  FunctionAST_Codegen Fn s = Done (Some F) s' ->
  exists s0 s1 val s2,
    F = next_id s
    /\ fst (InsertBlock s0) = next_id s
    /\ NamedValues s0 = ∅ /\ wf s0
    /\ blocks_of s0 = [mkBB (snd (InsertBlock s0)) "entry" []]
    /\ TheModule s0
       = TheModule s ++ [mkFn (next_id s) (Name (Proto Fn)) (Args (Proto Fn))
                              [mkBB (snd (InsertBlock s0)) "entry" []]]
    /\ next_id s < next_id s0
    /\ ArgumentAllocas (next_id s) (Args (Proto Fn)) 0 s0 = Done tt s1
    /\ Codegen (Body Fn) s1 = Done (Some val) s2
    /\ s' = inserted (Ret val) s2.
Proof.
  intros Hf Hg HC.
  destruct (enter_function_entry (Proto Fn) s Hf Hg)
    as (s0 & E0 & F0 & V0 & W0 & B0 & M0 & N0).
  rewrite FunctionAST_Codegen_enter in HC.
  destruct (enter_function (Proto Fn) s) as [[F1|] s1|] eqn:E1; try discriminate.
  symmetry in E0. apply bind_inv in E0 as ([] & s1' & EA & E0).
  inversion E0; subst F1 s1'; clear E0.
  destruct (Codegen (Body Fn) s1) as [[val|] s2|] eqn:EB; try discriminate.
  inversion HC; subst F s'; clear HC.
  exists s0, s1, val, s2. repeat (split; [first [reflexivity|assumption]|]).
  reflexivity.
Qed.

(** The stages of a definition, each extending the one before. *)
Lemma definition_extends Fn s0 s1 val s2 :
  wf s0 -> NamedValues s0 = ∅ ->
  ArgumentAllocas (fst (InsertBlock s0)) (Args (Proto Fn)) 0 s0 = Done tt s1 ->
  Codegen (Body Fn) s1 = Done (Some val) s2 ->
  wf s1 /\ injective_scope s1 /\ handles_allocated s1
  /\ wf (inserted (Ret val) s2)
  /\ ext_from 0 s0 s1 /\ ext_from 0 s1 s2 /\ ext_from 0 s2 (inserted (Ret val) s2).
Proof.
  intros W0 V0 EA EB.
  assert (R0 : forall x, resolve s0 x = None)
    by (intros x; unfold resolve; now rewrite V0, lookup_empty).
  assert (Ha0 : handles_allocated s0) by (intros x h; now rewrite R0).
  assert (Hi0 : injective_scope s0) by (intros x y h; now rewrite R0).
  destruct (ArgumentAllocas_sem _ _ _ _ _ EA eq_refl W0 Hi0 Ha0)
    as [(W1 & Hi1 & Ha1 & C01) _].
  destruct (Codegen_structure _ _ _ _ EB W1) as [St2 V2].
  pose proof (structure_ok_wf _ _ St2) as W2.
  repeat (split; [assumption|]).
  split; [now apply wf_inserted|]. split; [exact C01|].
  split; [now apply ext0_sub|now apply ext0_inserted].
Qed.

(** A definition appends one function to the module, under the number and
    the name it was given, and leaves the others as they are. *)
Lemma definition_module Fn s F s' :
  ids_fresh s -> getFunction (TheModule s) (Name (Proto Fn)) = None ->
  FunctionAST_Codegen Fn s = Done (Some F) s' ->
  exists Fn',
    TheModule s' = TheModule s ++ [Fn']
    /\ f_id Fn' = F /\ f_name Fn' = Name (Proto Fn) /\ F = next_id s
    /\ next_id s < next_id s'.
Proof.
  intros Hf Hg HC.
  destruct (definition_stages Fn s F s' Hf Hg HC)
    as (s0 & s1 & val & s2 & -> & F0 & V0 & W0 & B0 & M0 & N0 & EA & EB & ->).
  rewrite <- F0 in EA.
  destruct (definition_extends Fn s0 s1 val s2 W0 V0 EA EB)
    as (_ & _ & _ & _ & C01 & C12 & C23).
  assert (C03 : ext_from 0 s0 (inserted (Ret val) s2)) by ext_chain.
  destruct C03 as (_ & N3 & _ & _ & _ & [g G3]).
  rewrite F0, M0 in G3. unfold update_fn in G3. rewrite map_app in G3.
  rewrite (update_fn_fresh (next_id s) (update_blocks g) (TheModule s) Hf : map _ _ = _)
    in G3.
  cbn [map f_id] in G3. rewrite Nat.eqb_refl in G3.
  eexists. split; [exact G3|]. repeat (split; [reflexivity|]). lia.
Qed.

Lemma ids_fresh_definition Fn s F s' :
  ids_fresh s -> getFunction (TheModule s) (Name (Proto Fn)) = None ->
  FunctionAST_Codegen Fn s = Done (Some F) s' -> ids_fresh s'.
Proof.
  intros Hf Hg HC.
  destruct (definition_module Fn s F s' Hf Hg HC) as (Fn' & M & Hid & _ & -> & N).
  unfold ids_fresh in *. rewrite M. apply Forall_app. split.
  - eapply Forall_impl; [exact Hf|]. cbn. intros G HG. lia.
  - constructor; [lia|constructor].
Qed.

(** Function numbers stay distinct when a function is defined. *)
Lemma definition_ids_distinct Fn s F s' :
  ids_fresh s -> getFunction (TheModule s) (Name (Proto Fn)) = None ->
  NoDup (map f_id (TheModule s)) ->
  FunctionAST_Codegen Fn s = Done (Some F) s' ->
  NoDup (map f_id (TheModule s')).
Proof.
  intros Hf Hg Hn HC.
  destruct (definition_module Fn s F s' Hf Hg HC) as (Fn' & M & Hid & _ & -> & N).
  rewrite M, map_app. cbn [map]. rewrite Hid.
  apply NoDup_app. split; [exact Hn|]. split; [|apply NoDup_singleton].
  intros x Hx Hx'. apply list_elem_of_singleton in Hx'. subst x.
  apply list_elem_of_In, in_map_iff in Hx as (G & Hid' & Hin).
  unfold ids_fresh in Hf. rewrite Forall_forall in Hf.
  apply list_elem_of_In, Hf in Hin. lia.
Qed.

(** The run of a defined function from its entry to its return, in a
    module that has the function and the functions it names, its callees
    behaving as [fsem] says: whoever called it, it reaches its return
    instruction with the value of its body. *)
Lemma function_runs Fn s args fsem fuel v env' evs F s' ext m Fn' callers tr dest :
  ids_fresh s ->
  getFunction (TheModule s) (Name (Proto Fn)) = None ->
  length args = length (Args (Proto Fn)) ->
  distinct_names (Body Fn) = true ->
  FunctionAST_Codegen Fn s = Done (Some F) s' ->
  evaluate fsem fuel (Body Fn) (bind_params (Args (Proto Fn)) args ∅)
  = Some (v, env', evs) ->
  implements m ext fsem ->
  lookupF F (TheModule s') = Some Fn' ->
  (forall f G, getFunction (TheModule s') f = Some G ->
               f_id <$> getFunction m f = Some (f_id G)) ->
  exists fr0 k fr i rest val,
    enter Fn' args dest = Some fr0
    /\ steps k m ext (Running (fr0 :: callers) tr)
       = Some (Running (fr :: callers) (tr ++ evs))
    /\ fr_code fr = i :: rest /\ i_op i = Ret val /\ eval_float fr val = Some v
    /\ fr_dest fr = dest.
Proof.
  intros Hf Hg Hlen Hd HC Hev Him L3 Hnames.
  destruct (definition_stages Fn s F s' Hf Hg HC)
    as (s0 & s1 & val & s2 & -> & F0 & V0 & W0 & B0 & M0 & N0 & EA & EB & ->).
  assert (R0 : forall x, resolve s0 x = None)
    by (intros x; unfold resolve; now rewrite V0, lookup_empty).
  assert (Ha0 : handles_allocated s0) by (intros x h; now rewrite R0).
  assert (Hi0 : injective_scope s0) by (intros x y h; now rewrite R0).
  destruct (ArgumentAllocas_sem _ _ _ _ _ EA (eq_sym F0) W0 Hi0 Ha0)
    as [(W1 & Hi1 & Ha1 & C01) RunA].
  pose proof (evaluate_compiles ext fsem fuel _ _ _ _ _ Hev Hd s1 val s2 W1 Hi1 Ha1 EB)
    as SemB.
  destruct (Codegen_structure _ _ _ _ EB W1) as [St2 V2].
  pose proof (structure_ok_wf _ _ St2) as W2.
  set (s3 := inserted (Ret val) s2) in *.
  assert (C12 : ext_from 0 s1 s2) by now apply ext0_sub.
  assert (C23 : ext_from 0 s2 s3) by now apply ext0_inserted.
  assert (C03 : ext_from 0 s0 s3) by ext_chain.
  (* the generated function *)
  assert (HF3 : fst (InsertBlock s3) = next_id s)
    by (destruct C03 as (EF & _); now rewrite EF).
  assert (B3 : blocks_of s3 = f_blocks Fn') by (unfold blocks_of; now rewrite HF3, L3).
  assert (Hc3 : contains s3 Fn' m).
  { split; [rewrite B3; apply blocks_le_refl|exact Hnames]. }
  assert (He : entry_of (f_blocks Fn') = Some (snd (InsertBlock s0))).
  { rewrite <- B3. destruct C03 as (_ & _ & _ & _ & He & _). apply He. now rewrite B0. }
  destruct (f_blocks Fn') as [|Bh bs] eqn:EFn; [discriminate|].
  injection He as He.
  set (fr0 := mkFrame Fn' args ∅ ∅ (bb_id Bh) (bb_id Bh) (bb_insts Bh) dest).
  destruct (steps_skip_allocas m ext callers tr (bb_insts Bh) fr0 eq_refl) as (k0 & X0).
  set (frs := skip fr0 (skip_allocas (bb_insts Bh))) in *.
  assert (P0 : pos s0 Fn' frs).
  { split; [reflexivity|]. split; [exact He|].
    exists [], (bb_insts Bh). rewrite B0. unfold block_insts.
    cbn [find bb_id]. rewrite Nat.eqb_refl. split; [reflexivity|].
    rewrite EFn. cbn [find]. rewrite He, Nat.eqb_refl. split; reflexivity. }
  assert (Bd : bound_in s0 ∅ (fr_mem frs))
    by (intros x f Hx; now rewrite lookup_empty in Hx).
  assert (Hc1 : contains s1 Fn' m) by (eapply contains_ext_from; [|exact Hc3]; ext_chain).
  assert (Hc2 : contains s2 Fn' m) by (eapply contains_ext_from; [|exact Hc3]; ext_chain).
  destruct (RunA ∅ Fn' m ext callers tr frs Hc1 P0 Bd)
    as (kA & fr1 & XA & P1 & B1 & A1 & D1); [cbn; lia|].
  cbn [drop fr_args frs fr0 skip] in B1.
  destruct (SemB Fn' m callers tr fr1 Him Hc2 P1 B1)
    as (k2 & fr2 & X2 & P2 & Ev2 & _ & _ & D2 & _).
  destruct (pos_inserted (Ret val) s2 Fn' m fr2 I Hc3 P2) as (rest & Hcode & _).
  exists fr0, (k0 + (kA + k2)), fr2, (mkInst (next_id s2) (Ret val)), rest, val.
  split; [unfold enter; now rewrite EFn|].
  split; [eapply steps_app; [exact X0|]; eapply steps_app; [exact XA|exact X2]|].
  split; [exact Hcode|]. split; [reflexivity|]. split; [exact Ev2|].
  rewrite D2, D1. reflexivity.
Qed.

(** The same for a call from outside, in the module as the definition
    left it. *)
Lemma definition_runs Fn s args fsem fuel v env' evs F s' ext :
  ids_fresh s ->
  getFunction (TheModule s) (Name (Proto Fn)) = None ->
  length args = length (Args (Proto Fn)) ->
  distinct_names (Body Fn) = true ->
  FunctionAST_Codegen Fn s = Done (Some F) s' ->
  evaluate fsem fuel (Body Fn) (bind_params (Args (Proto Fn)) args ∅)
  = Some (v, env', evs) ->
  implements (TheModule s') ext fsem ->
  exists Fn' fr n,
    lookupF F (TheModule s') = Some Fn' /\ enter Fn' args 0 = Some fr
    /\ steps n (TheModule s') ext (Running [fr] []) = Some (Finished v evs).
Proof.
  intros Hf Hg Hlen Hd HC Hev Him.
  destruct (definition_module Fn s F s' Hf Hg HC) as (Fn' & M & Hid & _ & HF & _).
  assert (L : lookupF F (TheModule s') = Some Fn').
  { rewrite M, HF. apply lookupF_app_new; [exact Hf|congruence]. }
  destruct (function_runs Fn s args fsem fuel v env' evs F s' ext (TheModule s') Fn'
              [] [] 0 Hf Hg Hlen Hd HC Hev Him L)
    as (fr0 & k & fr & i & rest & val & E & X & Hcode & Hop & Ev & _).
  { intros f G EG. now rewrite EG. }
  exists Fn', fr0, (k + 1). split; [exact L|]. split; [exact E|].
  eapply steps_app; [exact X|]. apply steps_one.
  exact (step_Ret _ ext fr evs i rest val v Hcode Hop Ev).
Qed.

(** X12: a new function is compiled correctly with respect to its callees.
    [fsem] says what a call of a function of the module returns and which
    external calls it makes; the module [implements] it when a call
    instruction of any frame does just that.  When the definition is
    accepted, no [var] block of the body binds a name twice and the body
    has a value, calling the generated function on as many arguments as it
    has parameters returns that value and makes the external calls of the
    evaluation, in the same order.  The arguments of a call are evaluated
    from left to right, then the callee is called; a unary operator is a
    call of [unary<op>] on the value of its operand; an operator that is
    not built in evaluates its left operand, then its right operand, and
    calls [binary<op>] on the two values.  [if c then a else b] runs [a]
    when [c] is an ordered non-zero number and [b] otherwise, and only that
    one.  A loop evaluates its start value outside the scope of its
    variable, runs its body before it looks at the end condition, so at
    least once, evaluates the step and the end condition before it
    advances the variable, goes on when the end condition was an ordered
    non-zero number, and has the value 0.0.  The initializer of a scoped
    variable sees the variables bound before it, and a variable hidden by a
    loop or a [var] block has afterwards the value it had when it was
    hidden. *)
Theorem definition_correct_modulo_callees Fn s args fsem fuel v env' evs F s' :
  ids_fresh s ->
  getFunction (TheModule s) (Name (Proto Fn)) = None ->
  length args = length (Args (Proto Fn)) ->
  distinct_names (Body Fn) = true ->
  FunctionAST_Codegen Fn s = Done (Some F) s' ->
  evaluate fsem fuel (Body Fn) (bind_params (Args (Proto Fn)) args ∅)
  = Some (v, env', evs) ->
  forall ext, implements (TheModule s') ext fsem ->
    exists n, forall k, call (n + k) ext s' F args = Some (v, evs).
Proof.
  intros Hf Hg Hlen Hd HC Hev ext Him.
  destruct (definition_runs Fn s args fsem fuel v env' evs F s' ext
              Hf Hg Hlen Hd HC Hev Him) as (Fn' & fr & n & L & E & X).
  exists n. intros k. unfold call. rewrite L, E.
  rewrite (run_steps _ _ ext _ (Finished v evs) k X). now destruct k.
Qed.

Lemma definition_correct_modulo_callees_witness :
  exists n, forall k,
    call (n + k) first_arg after_def_show 2 [3%float]
    = Some (7%float, [("putchard", [3%float]); ("atan2", [4%float; 2%float])]).
Proof.
  apply (definition_correct_modulo_callees def_show with_externs [3%float]
           (extern_calls (TheModule after_def_show) first_arg) 6 7%float
           (<["n" := 3%float]> ∅) _ 2 after_def_show (proj1 invariants_with_externs)).
  - vm_compute. reflexivity.
  - reflexivity.
  - reflexivity.
  - vm_compute. reflexivity.
  - vm_compute. reflexivity.
  - apply externs_implement. apply (bool_decide_unpack _). vm_compute. exact I.
Defined.

(** X14: a new function that calls declared functions without a body
    only - directly, or as unary or binary operators - is compiled
    correctly.  In a module whose function numbers are distinct and below
    the counter, when the definition is accepted, no [var] block of the
    body binds a name twice and the body has a value, the external
    functions answering as [ext] says, then calling the generated function
    on as many arguments as it has parameters returns that value, and the
    trace of the run lists the external calls of the evaluation, each with
    the name of the function and the values of its arguments, in the order
    of evaluation. *)
Theorem definition_calling_externs_correct Fn s args ext fuel v env' evs F s' :
  ids_fresh s ->
  NoDup (map f_id (TheModule s)) ->
  getFunction (TheModule s) (Name (Proto Fn)) = None ->
  length args = length (Args (Proto Fn)) ->
  distinct_names (Body Fn) = true ->
  FunctionAST_Codegen Fn s = Done (Some F) s' ->
  evaluate (extern_calls (TheModule s') ext) fuel (Body Fn)
           (bind_params (Args (Proto Fn)) args ∅) = Some (v, env', evs) ->
  exists n, forall k, call (n + k) ext s' F args = Some (v, evs).
Proof.
  intros Hf Hn Hg Hlen Hd HC Hev.
  pose proof (definition_ids_distinct Fn s F s' Hf Hg Hn HC) as Hn'.
  destruct (definition_runs Fn s args _ fuel v env' evs F s' ext
              Hf Hg Hlen Hd HC Hev (externs_implement _ ext Hn'))
    as (Fn' & fr & n & L & E & X).
  exists n. intros k. unfold call. rewrite L, E.
  rewrite (run_steps _ _ ext _ (Finished v evs) k X). now destruct k.
Qed.

Lemma definition_calling_externs_correct_witness :
  exists n, forall k,
    call (n + k) first_arg after_def_count 2 [3%float]
    = Some (6%float, [("putchard", [1%float]); ("putchard", [2%float]);
                      ("putchard", [3%float])]).
Proof.
  apply (definition_calling_externs_correct def_count with_externs [3%float] first_arg 8
           6%float (<["n" := 3%float]> ∅) _ 2 after_def_count
           (proj1 invariants_with_externs)).
  - apply (bool_decide_unpack _). vm_compute. exact I.
  - vm_compute. reflexivity.
  - reflexivity.
  - reflexivity.
  - vm_compute. reflexivity.
  - vm_compute. reflexivity.
Defined.

(** *** Programs *)

Lemma lookupF_app_old id (m rest : list Function) G :
  lookupF id m = Some G -> lookupF id (m ++ rest) = Some G.
Proof.
  unfold lookupF. induction m as [|G0 m IH]; cbn [app find]; [discriminate|].
  destruct (Nat.eqb (f_id G0) id); auto.
Qed.

Lemma getFunction_app_prefix (m rest : list Function) name G :
  getFunction m name = Some G -> getFunction (m ++ rest) name = Some G.
Proof.
  unfold getFunction. destruct (decide (name = "")); [discriminate|].
  induction m as [|G0 m IH]; cbn [app find]; [discriminate|].
  destruct (bool_decide (f_name G0 = name)); auto.
Qed.

Lemma lookup_def_In defs f Fn :
  lookup_def defs f = Some Fn -> In Fn defs /\ Name (Proto Fn) = f.
Proof.
  unfold lookup_def. intros H. apply find_some in H as [Hin Hb].
  apply bool_decide_eq_true in Hb. auto.
Qed.

(** What a session leaves: numbers are fresh and distinct as before, the
    module has grown at its end, and every definition is on record. *)
Lemma define_all_spec defs : forall s0 s,
  ids_fresh s0 -> define_all defs s0 = Some s ->
  ids_fresh s
  /\ (exists rest, TheModule s = TheModule s0 ++ rest)
  /\ (NoDup (map f_id (TheModule s0)) -> NoDup (map f_id (TheModule s)))
  /\ Forall (defined_in (TheModule s)) defs.
Proof.
  induction defs as [|Fn defs IH]; intros s0 s Hf H; cbn [define_all] in H.
  - inversion H; subst. split; [exact Hf|]. split; [exists []; now rewrite app_nil_r|].
    split; [auto|constructor].
  - destruct (getFunction (TheModule s0) (Name (Proto Fn))) eqn:Hg; [discriminate|].
    destruct (distinct_names (Body Fn)) eqn:Hd; [|discriminate].
    destruct (FunctionAST_Codegen Fn s0) as [[F|] s1|] eqn:HC; try discriminate.
    pose proof (ids_fresh_definition Fn s0 F s1 Hf Hg HC) as Hf1.
    destruct (IH s1 s Hf1 H) as (Hf' & [rest Hr] & Hn' & Hall).
    destruct (definition_module Fn s0 F s1 Hf Hg HC) as (Fn' & M & _).
    split; [exact Hf'|]. split; [|split].
    + exists ([Fn'] ++ rest). now rewrite Hr, M, <- app_assoc.
    + intros Hn. apply Hn'. exact (definition_ids_distinct Fn s0 F s1 Hf Hg Hn HC).
    + constructor; [|exact Hall].
      exists s0, F, s1. repeat (split; [assumption|]). eauto.
Qed.

(** A function on record runs as its body evaluates, in the module of the
    session, whoever calls it. *)
Lemma defined_function_runs defs m ext fsem fuel f Fn F args v env' evs callers tr dest :
  Forall (defined_in m) defs ->
  lookup_def defs f = Some Fn -> getFunction m f = Some F ->
  length args = length (Args (Proto Fn)) ->
  evaluate fsem fuel (Body Fn) (bind_params (Args (Proto Fn)) args ∅)
  = Some (v, env', evs) ->
  implements m ext fsem ->
  exists fr0 k fr i rest val,
    lookupF (f_id F) m = Some F /\ enter F args dest = Some fr0
    /\ steps k m ext (Running (fr0 :: callers) tr)
       = Some (Running (fr :: callers) (tr ++ evs))
    /\ fr_code fr = i :: rest /\ i_op i = Ret val /\ eval_float fr val = Some v
    /\ fr_dest fr = dest.
Proof.
  intros Hall Hl EF Hlen Hev Him.
  apply lookup_def_In in Hl as [Hin Hname].
  rewrite Forall_forall in Hall. apply list_elem_of_In, Hall in Hin.
  destruct Hin as (s & F0 & s' & Hf & Hg & Hd & HC & rest & Hm).
  destruct (definition_module Fn s F0 s' Hf Hg HC) as (Fn' & M & Hid & Hnm & HF & _).
  destruct (getFunction_Some_In _ _ _ EF) as (_ & _ & Hne).
  assert (G' : getFunction (TheModule s') f = Some Fn').
  { rewrite M. apply getFunction_app_new; [now rewrite <- Hname|exact Hne|congruence]. }
  assert (F = Fn').
  { apply (getFunction_app_prefix _ rest) in G'. rewrite <- Hm in G'. congruence. }
  subst F.
  assert (L' : lookupF F0 (TheModule s') = Some Fn').
  { rewrite M, HF. apply lookupF_app_new; [exact Hf|congruence]. }
  destruct (function_runs Fn s args fsem fuel v env' evs F0 s' ext m Fn' callers tr dest
              Hf Hg Hlen Hd HC Hev Him L')
    as (fr0 & k & fr & i & rst & val & E & X & Hcode & Hop & Ev & D).
  { intros g G EG. apply (getFunction_app_prefix _ rest) in EG.
    rewrite <- Hm in EG. now rewrite EG. }
  exists fr0, k, fr, i, rst, val. split; [|auto 10].
  rewrite Hid, Hm. now apply lookupF_app_old.
Qed.

(** The module of a session does at every call what the program does. *)
Lemma program_implements defs m ext :
  NoDup (map f_id m) -> Forall (defined_in m) defs ->
  forall n, implements m ext (program_calls defs (extern_calls m ext) n).
Proof.
  intros Hn Hall.
  induction n as [|n IH]; intros f F args v evs EF Hs; cbn [program_calls] in Hs;
    destruct (lookup_def defs f) as [Fn|] eqn:Hl;
    try discriminate; try exact (externs_implement m ext Hn f F args v evs EF Hs).
  - destruct (decide (length args = length (Args (Proto Fn)))) as [Hlen|]; [|discriminate].
    destruct (evaluate _ n (Body Fn) _) as [[[v0 env'] evs0]|] eqn:Hev; [|discriminate].
    inversion Hs; subst v0 evs0; clear Hs.
    intros fr callers tr i code vs Hcode Hop Ha.
    destruct (defined_function_runs defs m ext _ n f Fn F args v env' evs
                (skip fr code :: callers) tr (i_id i) Hall Hl EF Hlen Hev IH)
      as (fr0 & k & frR & iR & rst & val & L & E & X & HcodeR & HopR & Ev & D).
    assert (Ee : empty F = false).
    { unfold enter in E. unfold empty. now destruct (f_blocks F). }
    exists (1 + (k + 1)). apply (steps_app 1 _ m ext _ (Running (fr0 :: skip fr code :: callers) tr)).
    { apply steps_one. unfold step. now rewrite Hcode, Hop, L, Ha, Ee, E. }
    eapply steps_app; [exact X|]. apply steps_one.
    unfold step. rewrite HcodeR, HopR, Ev, D. reflexivity.
Qed.

(** X15: a session of definitions is compiled correctly, the calls between
    its functions included.  From a state whose function numbers are
    distinct and below the counter, definitions are handled one after the
    other, each under a new name, with no [var] block binding a name
    twice, and accepted.  Then calling a function of the session in the
    resulting module returns what the program computes and makes the
    external calls the program makes, in the same order, where a call of a
    function of the session - by its name, or as a unary or binary
    operator - evaluates the body of that function with its parameters
    bound to the values of the arguments, recursive calls included, and a
    call of a function declared without a body is answered by the host
    and recorded with its arguments. *)
Theorem program_correct defs s0 s ext n f Fn F args v evs :
  ids_fresh s0 -> NoDup (map f_id (TheModule s0)) ->
  define_all defs s0 = Some s ->
  lookup_def defs f = Some Fn ->
  f_id <$> getFunction (TheModule s) f = Some F ->
  program_calls defs (extern_calls (TheModule s) ext) n f args = Some (v, evs) ->
  exists k0, forall k, call (k0 + k) ext s F args = Some (v, evs).
Proof.
  intros Hf Hn Hdef Hl EF Hs.
  destruct (getFunction (TheModule s) f) as [G|] eqn:EG; [|discriminate].
  injection EF as <-.
  destruct (define_all_spec defs s0 s Hf Hdef) as (_ & _ & Hn' & Hall).
  destruct n as [|n]; cbn [program_calls] in Hs; rewrite Hl in Hs; [discriminate|].
  destruct (decide (length args = length (Args (Proto Fn)))) as [Hlen|]; [|discriminate].
  destruct (evaluate _ n (Body Fn) _) as [[[v0 env'] evs0]|] eqn:Hev; [|discriminate].
  inversion Hs; subst v0 evs0; clear Hs.
  destruct (defined_function_runs defs (TheModule s) ext _ n f Fn G args v env' evs
              [] [] 0 Hall Hl EG Hlen Hev (program_implements defs _ ext (Hn' Hn) Hall n))
    as (fr0 & k & fr & i & rst & val & L & E & X & Hcode & Hop & Ev & _).
  exists (k + 1). intros k'. unfold call. rewrite L, E.
  rewrite (run_steps _ _ ext _ (Finished v evs) k'); [now destruct k'|].
  eapply steps_app; [exact X|]. apply steps_one.
  exact (step_Ret _ ext fr evs i rst val v Hcode Hop Ev).
Qed.

Lemma program_correct_witness :
  exists k0, forall k,
    call (k0 + k) first_arg after_session_example 39 [3%float]
    = Some (6%float, [("putchard", [3%float]); ("putchard", [6%float])]).
Proof.
  apply (program_correct session_example with_externs after_session_example first_arg 12
           "show" def_show_fact 39 [3%float] 6%float _ (proj1 invariants_with_externs)).
  - apply (bool_decide_unpack _). vm_compute. exact I.
  - vm_compute. reflexivity.
  - reflexivity.
  - vm_compute. reflexivity.
  - vm_compute. reflexivity.
Defined.

(** The body of a new function is lowered in a well-formed state. *)
Lemma enter_function_wf P s F s1 :
  ids_fresh s -> getFunction (TheModule s) (Name P) = None ->
  enter_function P s = Done (Some F) s1 -> wf s1.
Proof.
  intros Hf Hg H.
  destruct (enter_function_entry P s Hf Hg) as (s0 & E0 & F0 & V0 & W0 & B0 & _ & _).
  assert (R0 : forall x, resolve s0 x = None)
    by (intros x; unfold resolve; now rewrite V0, lookup_empty).
  assert (Ha0 : handles_allocated s0) by (intros x h; now rewrite R0).
  assert (Hi0 : injective_scope s0) by (intros x y h; now rewrite R0).
  rewrite H in E0. symmetry in E0. apply bind_inv in E0 as ([] & s1' & EA & E0).
  inversion E0; subst F s1'; clear E0.
  now destruct (ArgumentAllocas_sem _ _ _ _ _ EA (eq_sym F0) W0 Hi0 Ha0) as [(W1 & _) _].
Qed.

(** X13: lowering an expression only adds to the function under
    construction.  The other functions of the module are as they were.
    Every block of the function keeps exactly the instructions it had, in
    the same order: what is new in it comes after them and is no storage
    allocation, except in the entry block, where new storage allocations,
    and nothing else, come before them; the entry block remains the first
    block; no block appears under a number handed out before; the builder
    stays in the same function and in a block of it; and the value
    returned is a constant or the result of an instruction numbered below
    the counter, never a parameter. *)
Theorem lowering_only_appends e s val s' :
  wf s -> Codegen e s = Done (Some val) s' ->
  wf s'
  /\ fst (InsertBlock s') = fst (InsertBlock s)
  /\ module_kept (fst (InsertBlock s)) (TheModule s) (TheModule s')
  /\ blocks_grow (blocks_of s) (blocks_of s')
  /\ (forall B, entry_of (blocks_of s) = Some B -> entry_of (blocks_of s') = Some B)
  /\ (forall B, B < next_id s -> block_insts (blocks_of s) B = None ->
                block_insts (blocks_of s') B = None)
  /\ (inblock s -> inblock s')
  /\ val_below (next_id s') val.
Proof.
  intros Hw H. destruct (Codegen_structure _ _ _ _ H Hw) as [[G Hin] V].
  destruct G as ((EF & _ & L & A & He & K) & W' & _).
  repeat (split; [assumption|]). exact V.
Qed.

Lemma lowering_only_appends_witness :
  let s' := state_of (Codegen loop_example inside_toplevel) inside_toplevel in
  wf s'
  /\ fst (InsertBlock s') = fst (InsertBlock inside_toplevel)
  /\ module_kept (fst (InsertBlock inside_toplevel)) (TheModule inside_toplevel)
       (TheModule s')
  /\ blocks_grow (blocks_of inside_toplevel) (blocks_of s')
  /\ (forall B, entry_of (blocks_of inside_toplevel) = Some B ->
                entry_of (blocks_of s') = Some B)
  /\ (forall B, B < next_id inside_toplevel ->
                block_insts (blocks_of inside_toplevel) B = None ->
                block_insts (blocks_of s') B = None)
  /\ (inblock inside_toplevel -> inblock s')
  /\ val_below (next_id s') (ConstantFP 0%float).
Proof.
  apply (lowering_only_appends loop_example inside_toplevel (ConstantFP 0%float)).
  - apply (enter_function_wf (mkProto "" [] NoOperator) with_externs
             (next_id with_externs) inside_toplevel (proj1 invariants_with_externs)).
    + reflexivity.
    + vm_compute. reflexivity.
  - vm_compute. reflexivity.
Defined.
